(** * Signatory: the truncated signature transform

    A shallow embedding of the numerical core of Signatory
    (src/src/misc.inl, src/src/tensor_algebra_ops.cpp and the signature
    driver with [signature_forward] / [signature_backward]) over an exact
    field of scalars, and the properties of it that the specification
    states.

    Layout of the file: scalars, tensors and the few ATen primitives the
    kernels use; the kernels of namespace [ta_ops]; argument validation;
    the signature drivers on arrays; the same drivers on a memory of
    storages with aliasing views, for the frame properties; the notions of
    the proofs and the concrete inputs; then the lemmas and the properties
    of the specification. *)

From Stdlib Require Import List Arith ZArith Lia Bool.
From Stdlib Require Import QArith Qcanon Field Ring.
From Stdlib Require Reals.
Import ListNotations.

Close Scope Q_scope.
Open Scope nat_scope.

(** ** Scalars

    The kernels are dtype-generic (float or double).  Exact arithmetic is
    modelled by an arbitrary field of characteristic zero: the rationals
    compute, the reals are another instance. *)

Fixpoint nat_inj {A : Type} (zero one : A) (add : A -> A -> A) (n : nat) : A :=
  match n with
  | O => zero
  | S m => add (nat_inj zero one add m) one
  end.

Record ExactField : Type := {
  carrier :> Type;
  fzero : carrier;
  fone : carrier;
  fadd : carrier -> carrier -> carrier;
  fmul : carrier -> carrier -> carrier;
  fsub : carrier -> carrier -> carrier;
  fopp : carrier -> carrier;
  fdiv : carrier -> carrier -> carrier;
  finv : carrier -> carrier;
  field_laws : field_theory fzero fone fadd fmul fsub fopp fdiv finv eq;
  char_zero : forall n : nat, nat_inj fzero fone fadd (S n) <> fzero
}.

(** A field in the context stands for the scalars wherever they are left
    implicit. *)
Existing Class ExactField.

Lemma Qc_char_zero : forall n : nat, nat_inj 0%Qc 1%Qc Qcplus (S n) <> 0%Qc.
Proof.
  assert (H : forall n, (this (nat_inj 0%Qc 1%Qc Qcplus n) == inject_Z (Z.of_nat n))%Q).
  { induction n.
    - reflexivity.
    - change (nat_inj 0%Qc 1%Qc Qcplus (S n))
        with (Qcplus (nat_inj 0%Qc 1%Qc Qcplus n) 1%Qc).
      unfold Qcplus, Q2Qc. cbn [this]. rewrite Qred_correct, IHn.
      rewrite Nat2Z.inj_succ. unfold Z.succ. rewrite inject_Z_plus. reflexivity. }
  intros n E. specialize (H (S n)). rewrite E in H.
  unfold Qeq in H. cbn in H. lia.
Qed.

(** The rationals in lowest terms: the instance the examples compute with. *)
Definition QcField : ExactField :=
  {| carrier := Qc; field_laws := Qcft; char_zero := Qc_char_zero |}.

(** The real numbers. *)
Lemma R_char_zero :
  forall n : nat,
    nat_inj (Rdefinitions.IZR 0) (Rdefinitions.IZR 1) Rdefinitions.Rplus (S n)
    <> Rdefinitions.IZR 0.
Proof.
  assert (H : forall n, nat_inj (Rdefinitions.IZR 0) (Rdefinitions.IZR 1) Rdefinitions.Rplus n
                        = Raxioms.INR n).
  { induction n as [|n IH].
    - reflexivity.
    - cbn [nat_inj]. rewrite IH. symmetry. apply RIneq.S_INR. }
  intros n. rewrite H. apply RIneq.not_0_INR. discriminate.
Qed.

Definition RField : ExactField :=
  {| carrier := Rdefinitions.R; field_laws := RealField.Rfield; char_zero := R_char_zero |}.

(** ** Lists as arrays *)

(** [v[i] = x] on a [std::vector] or along an axis; the index is in range on
    every path of the code, an index past the end leaves the list as it is. *)
Fixpoint upd {A : Type} (i : nat) (x : A) (l : list A) : list A :=
  match l, i with
  | [], _ => []
  | _ :: t, O => x :: t
  | h :: t, S j => h :: upd j x t
  end.

(** Pointwise combination of two lists, stopping at the shorter. *)
Fixpoint zipw {A B C : Type} (f : A -> B -> C) (a : list A) (b : list B) : list C :=
  match a, b with
  | x :: a', y :: b' => f x y :: zipw f a' b'
  | _, _ => []
  end.

(** Pointwise combination that keeps the tail of the longer list: a missing
    entry reads as a neutral element. *)
Fixpoint zip_pad {A : Type} (f : A -> A -> A) (a b : list A) : list A :=
  match a, b with
  | [], _ => b
  | _, [] => a
  | x :: a', y :: b' => f x y :: zip_pad f a' b'
  end.

(** [narrow(dim, start, len)] along the axis the list runs over. *)
Definition narrow {A : Type} (start len : nat) (l : list A) : list A :=
  firstn len (skipn start l).

(** ** Tensors

    The code fixes [stream_dim = -3], [batch_dim = -2], [channel_dim = -1]:
    a path is (stream, batch, channel), a term of the tensor algebra is
    (batch, C^k) with the k channel indices flattened row-major. *)

(** One batch element of a term: the flattened channels. *)
Abbreviation vec K := (list (carrier K)).
(** A (batch, channels) tensor. *)
Abbreviation tensor K := (list (list (carrier K))).
(** A (stream, batch, channels) tensor. *)
Abbreviation tensor3 K := (list (list (list (carrier K)))).
(** A [std::vector<torch::Tensor>] of per-term views, term [i] of shape (batch, C^(i+1)). *)
Abbreviation talg K := (list (list (list (carrier K)))).

Section Tensors.
Context {K : ExactField}.

(** Elementwise sum of tensors of one shape ([operator+], [operator+=],
    the additive part of [addcmul]).  Every sum the kernels form is between
    tensors of one shape. *)
Definition vadd : vec K -> vec K -> vec K := zip_pad (fadd K).
Definition tadd : tensor K -> tensor K -> tensor K := zip_pad vadd.

(** Elementwise difference of tensors of one shape. *)
Definition tsub (a b : tensor K) : tensor K := zipw (zipw (fsub K)) a b.
Definition tsub3 (a b : tensor3 K) : tensor3 K := zipw tsub a b.

(** Unary minus. *)
Definition tneg (a : tensor K) : tensor K := map (map (fopp K)) a.

(** Multiplication by a zero-dimensional tensor ([t *= reciprocals[i]]). *)
Definition tscale (s : K) (a : tensor K) : tensor K := map (map (fun v => fmul K v s)) a.

(** Broadcast product [col.unsqueeze(channel_dim) * row.unsqueeze(channel_dim - 1)]
    of a (B, m, 1) and a (B, 1, n) tensor, in that order of the factors,
    flattened from (B, m, n) to (B, m * n): entry [p * n + q] is [col p * row q]. *)
Definition bmul_cr (col row : vec K) : vec K :=
  flat_map (fun p => map (fun q => fmul K p q) row) col.
Definition tmul_cr (col row : tensor K) : tensor K := zipw bmul_cr col row.

(** Broadcast product [row.unsqueeze(channel_dim - 1) * col.unsqueeze(channel_dim)]
    of a (B, 1, n) and a (B, m, 1) tensor, flattened from (B, m, n):
    entry [p * n + q] is [row q * col p]. *)
Definition bmul_rc (row col : vec K) : vec K :=
  flat_map (fun p => map (fun q => fmul K q p) row) col.
Definition tmul_rc (row col : tensor K) : tensor K := zipw bmul_rc row col.

(** [torch::empty]: the contents are whatever the allocator hands out, here
    the value [junk] in every cell. *)
Definition empty2 (junk : K) (batch_size channels : nat) : tensor K :=
  repeat (repeat junk channels) batch_size.
Definition empty3 (junk : K) (stream_size batch_size channels : nat) : tensor3 K :=
  repeat (empty2 junk batch_size channels) stream_size.

End Tensors.

(** ** namespace misc (src/src/misc.inl) *)

Module misc.
Section Misc.
Context {K : ExactField}.

(** [torch::linspace(start, end, steps)] in exact arithmetic. *)
Definition linspace (start stop : K) (steps : nat) : list K :=
  match steps with
  | 1 => [start]
  | _ => map (fun i => fadd K start
                        (fmul K (nat_inj (fzero K) (fone K) (fadd K) i)
                                (fdiv K (fsub K stop start)
                                        (nat_inj (fzero K) (fone K) (fadd K) (steps - 1)))))
             (seq 0 steps)
  end.

(** [make_reciprocals]: [ones({depth - 1}) / linspace(2, depth, depth - 1)],
    and the empty tensor for depth 1. *)
Definition make_reciprocals (depth : nat) : list K :=
  if 1 <? depth then
    zipw (fdiv K) (repeat (fone K) (depth - 1))
         (linspace (nat_inj (fzero K) (fone K) (fadd K) 2)
                   (nat_inj (fzero K) (fone K) (fadd K) depth) (depth - 1))
  else repeat (fone K) 0.

(** [slice_by_term] pushes the [depth] views [in.narrow(channel_dim, pos, len)],
    [pos] and [len] advancing by [pos += len; len *= input_channel_size].
    A view is the channel range it covers of the tensor it was cut from; the
    two counters are [int64_t], and every range that is used lies within
    the tensor. *)
Fixpoint slice_by_term_views (current_memory_pos current_memory_length
                              input_channel_size : Z) (depth : nat) : list (Z * Z) :=
  match depth with
  | O => []
  | S d => (current_memory_pos, current_memory_length)
           :: slice_by_term_views (current_memory_pos + current_memory_length)%Z
                                  (current_memory_length * input_channel_size)%Z
                                  input_channel_size d
  end.

(** The contents seen through the views, for a (batch, W) tensor. *)
Definition slice_by_term (inp : tensor K) (input_channel_size depth : nat) : talg K :=
  map (fun v => map (narrow (Z.to_nat (fst v)) (Z.to_nat (snd v))) inp)
      (slice_by_term_views 0 (Z.of_nat input_channel_size) (Z.of_nat input_channel_size) depth).

(** [slice_at_stream]: [elem[stream_index]] of each view of a
    (stream, batch, W) tensor. *)
Definition slice_at_stream (views : list (Z * Z)) (signature : tensor3 K)
           (stream_index : nat) : talg K :=
  map (fun v => map (narrow (Z.to_nat (fst v)) (Z.to_nat (snd v)))
                    (nth stream_index signature [])) views.

(** The views of [slice_by_term] alias the buffer they were cut from and
    tile its channel axis: once a kernel has written through the views, the
    buffer holds, per batch element, the terms one after the other. *)
Definition unslice (terms : talg K) : tensor K :=
  match terms with
  | [] => []
  | t :: ts => fold_left (zipw (@app K)) ts t
  end.

End Misc.
End misc.

(** ** namespace ta_ops (src/src/tensor_algebra_ops.cpp)

    A member of the truncated tensor algebra is a [std::vector] of [depth]
    views, term [i] of shape (batch, C^(i+1)); the scalar term is implicit.
    The kernels update the views in place; here they return the updated
    vector. *)

Module ta_ops.
Section TaOps.
Context {K : ExactField}.

(** [detail::mult_inner]: for j = 0 .. depth_index - 1, k = depth_index - 1 - j,
    [tensor_at_depth.view(B, |arg1[j]|, |arg2[k]|).addcmul_(arg2[k].unsqueeze(channel_dim - 1),
    arg1[j].unsqueeze(channel_dim))]. *)
Definition mult_inner (tensor_at_depth : tensor K) (arg1 arg2 : talg K) (depth_index : nat)
  : tensor K :=
  fold_left (fun out_view j =>
               let k := depth_index - 1 - j in
               tadd out_view (tmul_rc (nth k arg2 []) (nth j arg1 [])))
            (seq 0 depth_index) tensor_at_depth.

(** [restricted_exp]: [out[0].copy_(in)], then for i = 0 .. out.size() - 2
    [mul_out(out[i + 1].view(B, C, |out[i]|), out[i].unsqueeze(channel_dim - 1),
    in.unsqueeze(channel_dim))] and [out[i + 1] *= reciprocals[i]]. *)
Definition restricted_exp (inp : tensor K) (out : talg K) (reciprocals : list K) : talg K :=
  fold_left (fun out i =>
               let view_out := tmul_rc (nth i out []) inp in
               upd (i + 1) (tscale (nth i reciprocals (fzero K)) view_out) out)
            (seq 0 (length out - 1)) (upd 0 inp out).

(** [mult_fused_restricted_exp]: [prev <- prev (x) exp(next)], or
    [exp(next) (x) prev] under [inverse], without forming the exponential.
    [left_channel_dim] / [right_channel_dim] select which of the two
    broadcast products is taken. *)
Definition fused_product (inverse : bool) (scratch next : tensor K) : tensor K :=
  if inverse
  then tmul_rc scratch next     (* scratch.unsqueeze(channel_dim - 1), next.unsqueeze(channel_dim) *)
  else tmul_cr scratch next.    (* scratch.unsqueeze(channel_dim), next.unsqueeze(channel_dim - 1) *)

Definition mult_fused_restricted_exp (next : tensor K) (prev : talg K) (inverse : bool)
           (reciprocals : list K) : talg K :=
  let depth := length prev in
  (* next.unsqueeze(0) * reciprocals.unsqueeze(1).unsqueeze(2) *)
  let next_divided := map (fun r => tscale r next) reciprocals in
  let prev :=
    fold_left (fun prev depth_index =>
                 let scratch := tadd (nth 0 prev []) (nth (depth_index - 1) next_divided []) in
                 let scratch :=
                   fold_left (fun scratch j =>
                                let k := depth_index - 1 - j in
                                tadd (nth j prev [])
                                     (fused_product inverse scratch (nth k next_divided [])))
                             (seq 1 (depth_index - 1)) scratch in
                 upd depth_index
                     (tadd (nth depth_index prev []) (fused_product inverse scratch next))
                     prev)
              (rev (seq 1 (depth - 1))) prev in
  upd 0 (tadd (nth 0 prev []) next) prev.

(** [mult]: [arg1 <- arg1 (x) arg2], both with scalar term 1; the terms are
    updated from the deepest down so that [mult_inner] reads old values. *)
Definition mult (arg1 arg2 : talg K) : talg K :=
  let depth := length arg1 in
  fold_left (fun arg1 depth_index =>
               let tensor_at_depth := nth depth_index arg1 [] in
               let tensor_at_depth := mult_inner tensor_at_depth arg1 arg2 depth_index in
               upd depth_index (tadd tensor_at_depth (nth depth_index arg2 [])) arg1)
            (rev (seq 0 depth)) arg1.

(** Modelled from the spec: the overload [mult(arg1, arg2, inverse)] that the
    chunked-parallel driver calls with its own [inverse] flag is not among the
    sources; tensor_algebra_ops.cpp has the two-parameter [mult] above.
    Section 4.G has the driver combine the chunks through 4.E, section 5 has
    the result equal the signature of the input path whatever the number of
    chunks (under [inverse] the inverse signature: CHANGELOG.txt, 1.1.1), and
    section 4.D gives the meaning of an [inverse] flag: it "swaps the side on
    which the new increment is multiplied".  So without the flag this is
    [mult], arg1 <- arg1 (x) arg2, and with it the product is taken on the
    other side, arg1 <- arg2 (x) arg1. *)
Definition mult3 (arg1 arg2 : talg K) (inverse : bool) : talg K :=
  if inverse then mult arg2 arg1 else mult arg1 arg2.

End TaOps.
End ta_ops.

(** ** Tensor handles as the validation sees them *)

Inductive ScalarType : Type :=
| Byte | Char | Short | Int | Long | Half | Float | Double | Bool | BFloat16.

Definition isFloatingType (t : ScalarType) : bool :=
  match t with
  | Half | Float | Double | BFloat16 => true
  | _ => false
  end.

Inductive Device : Type := CPU | CUDA (index : nat).

(** What [misc::make_opts] keeps of a tensor: dtype and device. *)
Record TensorOptions : Type := { dtype : ScalarType; device : Device }.

Definition ScalarType_eqb (a b : ScalarType) : bool :=
  match a, b with
  | Byte, Byte | Char, Char | Short, Short | Int, Int | Long, Long
  | Half, Half | Float, Float | Double, Double | Bool, Bool | BFloat16, BFloat16 => true
  | _, _ => false
  end.

Definition Device_eqb (a b : Device) : bool :=
  match a, b with
  | CPU, CPU => true
  | CUDA i, CUDA j => Nat.eqb i j
  | _, _ => false
  end.

Definition TensorOptions_eqb (a b : TensorOptions) : bool :=
  ScalarType_eqb (dtype a) (dtype b) && Device_eqb (device a) (device b).

(** The elements of a tensor by rank: the driver only ever reads those of
    a rank-2 or rank-3 tensor. *)
Inductive tdata (K : ExactField) : Type :=
| D2 (t : tensor K)
| D3 (t : tensor3 K)
| Dn (elems : list K).
Arguments D2 {K} t.
Arguments D3 {K} t.
Arguments Dn {K} elems.

Record Tensor (K : ExactField) : Type := {
  sizes : list nat;
  options : TensorOptions;
  data : tdata K
}.
Arguments sizes {K} t.
Arguments options {K} t.
Arguments data {K} t.

Definition as2 {K : ExactField} (t : Tensor K) : tensor K :=
  match data t with D2 x => x | _ => [] end.
Definition as3 {K : ExactField} (t : Tensor K) : tensor3 K :=
  match data t with D3 x => x | _ => [] end.

Definition ndimension {K : ExactField} (t : Tensor K) : nat := length (sizes t).

(** [t.size(dim)], [dim] counted from the back when negative. *)
Definition size {K : ExactField} (t : Tensor K) (dim : Z) : nat :=
  nth (Z.to_nat (if (dim <? 0)%Z then Z.of_nat (ndimension t) + dim else dim)%Z) (sizes t) 0.

Definition make_opts {K : ExactField} (t : Tensor K) : TensorOptions := options t.
Definition is_floating_point {K : ExactField} (t : Tensor K) : bool :=
  isFloatingType (dtype (options t)).
Definition is_cuda {K : ExactField} (t : Tensor K) : bool :=
  match device (options t) with CUDA _ => true | CPU => false end.

(** The scalar types for which the CPU kernel of the driver is instantiated
    ([AT_DISPATCH_FLOATING_TYPES]), and the paths the driver has a kernel
    for: on CUDA it works through the tensor operations
    ([signature_forward_inner]) whatever the type. *)
Definition dispatched (type : ScalarType) : bool :=
  match type with Float | Double => true | _ => false end.

Definition has_kernel {K : ExactField} (path : Tensor K) : bool :=
  is_cuda path || dispatched (dtype (options path)).

(** Modelled from the spec: the axis constants of misc.hpp, which is not
    among the sources.  Section 3.2 lays a path out as (stream, batch,
    channel) and the code indexes from the back. *)
Definition stream_dim : Z := (-3)%Z.
Definition batch_dim : Z := (-2)%Z.
Definition channel_dim : Z := (-1)%Z.

(** Modelled from the spec: [signature_channels], declared outside the
    sources.  Section 3.1: W(C, D) = C + C^2 + ... + C^D. *)
Definition signature_channels (input_channels : nat) (depth : Z) : nat :=
  fold_left (fun w k => w + input_channels ^ k) (seq 1 (Z.to_nat depth)) 0.

(** [std::invalid_argument], by the check that throws it. *)
Inductive invalid_argument : Type :=
| path_is_2d
| path_not_3d
| path_zero_size
| path_too_short
| depth_too_small
| path_not_floating
| basepoint_not_2d
| basepoint_size_mismatch
| basepoint_opts_mismatch
| initial_not_2d
| initial_size_mismatch
| initial_opts_mismatch
| combine_not_2d
| combine_batch_mismatch
| combine_channels_mismatch
| combine_channels_unexpected.

(** [c10::Error], as [AT_DISPATCH_FLOATING_TYPES] raises it: the operation
    is not implemented for the type. *)
Inductive c10_Error : Type :=
| not_implemented_for (type : ScalarType).

(** How a call ends: with a value; with [std::invalid_argument] or
    [c10::Error] thrown to the caller; or with an exception that a thread
    raises inside a [#pragma omp parallel] region and that nothing catches
    there.  OpenMP has the thread catch its exceptions within the region, so
    such a call neither returns nor throws to its caller. *)
Inductive result (A : Type) : Type :=
| Ok (a : A)
| Throw (e : invalid_argument)
| Error (e : c10_Error)
| Uncaught.
Arguments Ok {A} a.
Arguments Throw {A} e.
Arguments Error {A} e.
Arguments Uncaught {A}.

Definition bind {A B : Type} (r : result A) (f : A -> result B) : result B :=
  match r with
  | Ok a => f a
  | Throw e => Throw e
  | Error e => Error e
  | Uncaught => Uncaught
  end.

(** [AT_DISPATCH_FLOATING_TYPES(type, name, body)]: the body, instantiated
    at the scalar type, for [Double] and [Float]; the macro has no case for
    any other type and raises [c10::Error]. *)
Definition AT_DISPATCH_FLOATING_TYPES {A : Type} (type : ScalarType) (body : A) : result A :=
  match type with
  | Double | Float => Ok body
  | _ => Error (not_implemented_for type)
  end.

(** [signature_checkargs]: [None] when it returns, [Some e] when it throws. *)
Definition signature_checkargs {K : ExactField} (path : Tensor K) (depth : Z) (basepoint : bool)
           (basepoint_value : Tensor K) (initial : bool) (initial_value : Tensor K)
  : option invalid_argument :=
  if ndimension path =? 2 then Some path_is_2d
  else if negb (ndimension path =? 3) then Some path_not_3d
  else if (size path batch_dim =? 0) || (size path stream_dim =? 0) || (size path channel_dim =? 0)
  then Some path_zero_size
  else if negb basepoint && (size path stream_dim =? 1) then Some path_too_short
  else if (depth <? 1)%Z then Some depth_too_small
  else if negb (is_floating_point path) then Some path_not_floating
  else
    let path_opts := make_opts path in
    let basepoint_check :=
      if basepoint then
        if negb (ndimension basepoint_value =? 2) then Some basepoint_not_2d
        else if negb (size basepoint_value channel_dim =? size path channel_dim)
                || negb (size basepoint_value batch_dim =? size path batch_dim)
        then Some basepoint_size_mismatch
        else if negb (TensorOptions_eqb path_opts (make_opts basepoint_value))
        then Some basepoint_opts_mismatch
        else None
      else None in
    match basepoint_check with
    | Some e => Some e
    | None =>
      if initial then
        if negb (ndimension initial_value =? 2) then Some initial_not_2d
        else if negb (size initial_value channel_dim
                      =? signature_channels (size path channel_dim) depth)
                || negb (size initial_value batch_dim =? size path batch_dim)
        then Some initial_size_mismatch
        else if negb (TensorOptions_eqb path_opts (make_opts initial_value))
        then Some initial_opts_mismatch
        else None
      else None
    end.

(** ** The signature driver (namespace signature::detail and [signature_forward]) *)

(** What the driver asks of OpenMP and of the global configuration:
    [omp_get_max_threads()], [get_max_parallelism()], and the size of the
    team a [#pragma omp parallel num_threads(n)] is given. *)
Record omp : Type := {
  omp_get_max_threads : nat;
  get_max_parallelism : nat;
  omp_get_num_threads : nat -> nat
}.

(** The runtime grants between one and the requested number of threads. *)
Definition omp_ok (env : omp) : Prop :=
  1 <= omp_get_max_threads env /\ 1 <= get_max_parallelism env /\
  forall n, 1 <= n -> 1 <= omp_get_num_threads env n <= n.

Module signature_detail.
Section Detail.
Context {K : ExactField}.

(** In-place write through [l.narrow(stream_dim, start, length new)]. *)
Definition write_narrow {A : Type} (start : nat) (new l : list A) : list A :=
  firstn start l ++ new ++ skipn (start + length new) l.

Definition empty_like3 (junk : K) (t : tensor3 K) : tensor3 K :=
  map (map (map (fun _ => junk))) t.

(** [compute_path_increments], on the elements of a (stream, batch, channel) path. *)
Definition compute_path_increments (junk : K) (path : tensor3 K) (basepoint : bool)
           (basepoint_value : tensor K) (inverse : bool) : tensor3 K :=
  let num_increments := length path - 1 in
  if basepoint then
    if inverse then
      let path_increments := empty_like3 junk path in
      let path_increments := upd 0 basepoint_value path_increments in
      let path_increments :=
        write_narrow 1 (narrow 0 num_increments path) path_increments in
      tsub3 path_increments path
    else
      let path_increments := path in   (* path.clone() *)
      let path_increments :=
        upd 0 (tsub (nth 0 path_increments []) basepoint_value) path_increments in
      write_narrow 1 (tsub3 (narrow 1 num_increments path_increments)
                            (narrow 0 num_increments path))
                   path_increments
  else
    if inverse then tsub3 (narrow 0 num_increments path) (narrow 1 num_increments path)
    else tsub3 (narrow 1 num_increments path) (narrow 0 num_increments path).

(** [signature_forward_inner], the driver in terms of whole tensors (taken on
    CUDA).  [signature] is the (stream, batch, W) output under [stream] and
    unused otherwise; the views [signature_by_term_at_stream] alias the
    current slot, so under [stream] the slot is rewritten with what the
    kernel left in them. *)
Definition signature_forward_inner (path_increments : tensor3 K) (reciprocals : list K)
           (signature_by_term_at_stream : talg K) (inverse : bool)
           (output_stream_size : nat) (stream : bool) (signature : tensor3 K)
           (signature_by_term : list (Z * Z)) : tensor3 K * talg K :=
  fold_left
    (fun st stream_index =>
       let '(signature, signature_by_term_at_stream) := st in
       if stream then
         let signature := upd stream_index (nth (stream_index - 1) signature []) signature in
         let signature_by_term_at_stream :=
           misc.slice_at_stream signature_by_term signature stream_index in
         let signature_by_term_at_stream :=
           ta_ops.mult_fused_restricted_exp (nth stream_index path_increments [])
                                            signature_by_term_at_stream inverse reciprocals in
         (upd stream_index (misc.unslice signature_by_term_at_stream) signature,
          signature_by_term_at_stream)
       else
         (signature,
          ta_ops.mult_fused_restricted_exp (nth stream_index path_increments [])
                                           signature_by_term_at_stream inverse reciprocals))
    (seq 1 (output_stream_size - 1)) (signature, signature_by_term_at_stream).

(** Modelled from the spec: [ta_ops::mult_fused_restricted_exp_single_cpu], the
    kernel the CPU driver runs on one batch element, is a template that is not
    among the sources.  Sections 4.D and 5: the inner kernel of 4.D, with each
    thread working on its own batch slice of the same increment. *)
Definition mult_fused_restricted_exp_single_cpu (inverse : bool) (next : vec K)
           (prev : list (vec K)) (reciprocals : list K) : list (vec K) :=
  map (fun t => nth 0 t [])
      (ta_ops.mult_fused_restricted_exp [next] (map (fun v => [v]) prev) inverse reciprocals).

(** The [#pragma omp parallel for] over [batch_index]: iteration [b] reads and
    writes row [b] of every view and nothing else, so the iterations commute
    and the loop is run in index order. *)
Definition batch_loop (next : tensor K) (signature_by_term_at_stream : talg K)
           (inverse : bool) (batch_size : nat) (reciprocals : list K) : talg K :=
  fold_left
    (fun at_stream batch_index =>
       let at_batch := map (fun elem => nth batch_index elem []) at_stream in
       let at_batch :=
         mult_fused_restricted_exp_single_cpu inverse (nth batch_index next []) at_batch
                                              reciprocals in
       zipw (fun elem row => upd batch_index row elem) at_stream at_batch)
    (seq 0 batch_size) signature_by_term_at_stream.

(** [signature_forward_inner_cpu_inner<scalar_t>]: the elements are of the
    field whatever [scalar_t] is.  [batch_threads] only sets the team size
    of the batch loop. *)
Definition signature_forward_inner_cpu_inner (path_increments : tensor3 K) (reciprocals : list K)
           (signature_by_term_at_stream : talg K) (inverse : bool)
           (batch_size start stop batch_threads : nat) (stream : bool)
           (signature : tensor3 K) (signature_by_term : list (Z * Z))
  : tensor3 K * talg K :=
  fold_left
    (fun st stream_index =>
       let '(signature, signature_by_term_at_stream) := st in
       if stream then
         let signature := upd stream_index (nth (stream_index - 1) signature []) signature in
         let signature_by_term_at_stream :=
           misc.slice_at_stream signature_by_term signature stream_index in
         let signature_by_term_at_stream :=
           batch_loop (nth stream_index path_increments []) signature_by_term_at_stream
                      inverse batch_size reciprocals in
         (upd stream_index (misc.unslice signature_by_term_at_stream) signature,
          signature_by_term_at_stream)
       else
         (signature,
          batch_loop (nth stream_index path_increments []) signature_by_term_at_stream
                     inverse batch_size reciprocals))
    (seq start (stop - start)) (signature, signature_by_term_at_stream).

(** [signature_forward_inner_cpu]: the dispatch on [path_increments.type()],
    passed here as [type]. *)
Definition signature_forward_inner_cpu (type : ScalarType) (path_increments : tensor3 K)
           (reciprocals : list K) (signature_by_term_at_stream : talg K) (inverse : bool)
           (batch_size start stop batch_threads : nat) (stream : bool)
           (signature : tensor3 K) (signature_by_term : list (Z * Z))
  : result (tensor3 K * talg K) :=
  AT_DISPATCH_FLOATING_TYPES
    type
    (signature_forward_inner_cpu_inner path_increments reciprocals signature_by_term_at_stream
                                       inverse batch_size start stop batch_threads stream
                                       signature signature_by_term).

(** The body of the [#pragma omp parallel] region for the thread [thread_num]
    of a team of [num_threads]: the signature of its chunk of the stream
    axis, or nothing when the chunk is empty ([omp_used] stays false); or the
    exception that the dispatch in [signature_forward_inner_cpu] raises. *)
Definition omp_chunk (type : ScalarType) (junk : K) (path_increments : tensor3 K)
           (reciprocals : list K)
           (inverse : bool) (output_stream_size batch_size output_channel_size
            input_channel_size depth batch_threads : nat)
           (thread_num num_threads : nat) : result (option (talg K)) :=
  let start := 1 + ((output_stream_size - 1) * thread_num) / num_threads in
  let stop := 1 + ((output_stream_size - 1) * (1 + thread_num)) / num_threads in
  if start <? stop then
    let omp_signature := empty2 junk batch_size output_channel_size in
    let omp_signature_by_term_at_stream :=
      misc.slice_by_term omp_signature input_channel_size depth in
    let omp_signature_by_term_at_stream :=
      ta_ops.restricted_exp (nth start path_increments [])
                            omp_signature_by_term_at_stream reciprocals in
    bind (signature_forward_inner_cpu type path_increments reciprocals
                                      omp_signature_by_term_at_stream inverse batch_size
                                      (start + 1) stop batch_threads false [] [])
         (fun returned => Ok (Some (snd returned)))
  else Ok None.

(** How the threads of the region end: entry [t] is what thread [t] of the
    team leaves in [omp_results] and [omp_used], or the exception it raises;
    the entries past the team stay unused. *)
Definition omp_region (type : ScalarType) (env : omp) (junk : K) (path_increments : tensor3 K)
           (reciprocals : list K) (inverse : bool)
           (output_stream_size batch_size output_channel_size input_channel_size depth
            batch_threads stream_threads : nat) : list (result (option (talg K))) :=
  let num_threads := omp_get_num_threads env stream_threads in
  map (fun thread_index =>
         if thread_index <? num_threads then
           omp_chunk type junk path_increments reciprocals inverse output_stream_size
                     batch_size output_channel_size input_channel_size depth batch_threads
                     thread_index num_threads
         else Ok None)
      (seq 0 stream_threads).

(** The end of the region: [omp_results] when every thread came to the end
    of its block; the region has no handler for what a thread raises. *)
Fixpoint omp_join {A : Type} (threads : list (result A)) : result (list A) :=
  match threads with
  | [] => Ok []
  | Ok a :: rest => bind (omp_join rest) (fun results => Ok (a :: results))
  | _ :: _ => Uncaught
  end.

(** "Combine the signatures of each chunk": [ta_ops::mult] with the flag, once
    per used entry of [omp_results], in index order. *)
Definition combine_chunks (signature_by_term_at_stream : talg K)
           (omp_results : list (option (talg K))) (inverse : bool) : talg K :=
  fold_left (fun acc r =>
               match r with
               | Some chunk => ta_ops.mult3 acc chunk inverse
               | None => acc
               end)
            omp_results signature_by_term_at_stream.

End Detail.
End signature_detail.

Section Forward.
Context {K : ExactField}.

(** The choice of [stream_threads] and [batch_threads] on the CPU. *)
Definition choose_threads (env : omp) (batch_size input_stream_size output_stream_size
                           output_channel_size : nat) (stream : bool) : nat * nat :=
  let '(stream_threads, batch_threads) :=
    if (Z.of_nat batch_size * Z.of_nat output_stream_size * Z.of_nat output_channel_size
        <? 1392640)%Z
    then (1, 1)
    else (Nat.min ((omp_get_max_threads env + batch_size - 1) / batch_size)
                  ((input_stream_size + 2) / 3),
          Nat.min batch_size (omp_get_max_threads env)) in
  let stream_threads := if stream then 1 else stream_threads in
  let stream_threads := Nat.min stream_threads (get_max_parallelism env) in
  (stream_threads, batch_threads).

(** "Now actually do the computation": the branch on [path.is_cuda()] and,
    on the CPU, on [stream_threads == 1]; [type] is the scalar type of
    [path_increments].  The result is the (stream, batch, W) buffer
    (meaningful under [stream]) and the views [signature_by_term_at_stream]
    with what the kernels left in them. *)
Definition forward_drive (type : ScalarType) (env : omp) (junk : K) (cuda : bool)
           (path_increments : tensor3 K) (reciprocals : list K)
           (signature_by_term_at_stream : talg K) (inverse : bool)
           (batch_size input_stream_size output_stream_size output_channel_size
            input_channel_size depth : nat) (stream : bool)
           (signature : tensor3 K) (signature_by_term : list (Z * Z))
  : result (tensor3 K * talg K) :=
  if cuda then
    Ok (signature_detail.signature_forward_inner
          path_increments reciprocals signature_by_term_at_stream inverse
          output_stream_size stream signature signature_by_term)
  else
    let '(stream_threads, batch_threads) :=
      choose_threads env batch_size input_stream_size output_stream_size
                     output_channel_size stream in
    if stream_threads =? 1 then
      signature_detail.signature_forward_inner_cpu
        type path_increments reciprocals signature_by_term_at_stream inverse
        batch_size 1 output_stream_size batch_threads stream signature signature_by_term
    else
      bind (signature_detail.omp_join
              (signature_detail.omp_region
                 type env junk path_increments reciprocals inverse output_stream_size
                 batch_size output_channel_size input_channel_size depth batch_threads
                 stream_threads))
           (fun omp_results =>
              Ok (signature,
                  signature_detail.combine_chunks signature_by_term_at_stream omp_results
                                                  inverse)).

(** [signature_forward].  The result is the pair (signature, path_increments),
    or the exception of [signature_checkargs], or how the driver failed. *)
Definition signature_forward (env : omp) (junk : K) (path : Tensor K) (depth : Z)
           (stream basepoint : bool) (basepoint_value : Tensor K)
           (inverse initial : bool) (initial_value : Tensor K)
  : result (Tensor K * Tensor K) :=
  match signature_checkargs path depth basepoint basepoint_value initial initial_value with
  | Some e => Throw e
  | None =>
    let batch_size := size path batch_dim in
    let input_stream_size := size path stream_dim in
    let input_channel_size := size path channel_dim in
    let output_stream_size := size path stream_dim - (if basepoint then 0 else 1) in
    let output_channel_size := signature_channels input_channel_size depth in
    let opts := make_opts path in
    let depth_n := Z.to_nat depth in
    let reciprocals := misc.make_reciprocals depth_n in
    let path_increments :=
      signature_detail.compute_path_increments junk (as3 path) basepoint
                                               (as2 basepoint_value) inverse in
    (* Allocate memory for the computation. *)
    let signature :=
      if stream then empty3 junk output_stream_size batch_size output_channel_size else [] in
    let signature_by_term :=
      if stream then misc.slice_by_term_views 0 (Z.of_nat input_channel_size)
                                              (Z.of_nat input_channel_size) depth_n
      else [] in
    let first_term :=
      if stream then nth 0 signature [] else empty2 junk batch_size output_channel_size in
    (* Compute the first term. *)
    let first_term := if initial then as2 initial_value else first_term in
    let signature_by_term_at_stream :=
      misc.slice_by_term first_term input_channel_size depth_n in
    let signature_by_term_at_stream :=
      if initial then
        ta_ops.mult_fused_restricted_exp (nth 0 path_increments [])
                                         signature_by_term_at_stream inverse reciprocals
      else
        ta_ops.restricted_exp (nth 0 path_increments [])
                              signature_by_term_at_stream reciprocals in
    let signature := upd 0 (misc.unslice signature_by_term_at_stream) signature in
    bind (forward_drive (dtype opts) env junk (is_cuda path) path_increments reciprocals
                        signature_by_term_at_stream inverse batch_size input_stream_size
                        output_stream_size output_channel_size input_channel_size depth_n
                        stream signature signature_by_term)
         (fun driven =>
            let '(signature, signature_by_term_at_stream) := driven in
            Ok (if stream then
                  {| sizes := [output_stream_size; batch_size; output_channel_size];
                     options := opts; data := D3 signature |}
                else
                  {| sizes := [batch_size; output_channel_size];
                     options := opts;
                     data := D2 (misc.unslice signature_by_term_at_stream) |},
                {| sizes := [output_stream_size; batch_size; input_channel_size];
                   options := opts; data := D3 path_increments |}))
  end.

(** [signature_combine_forward]: [arg1_inp.clone()] multiplied in place by
    [arg2_inp]. *)
Definition signature_combine_forward (arg1_inp arg2_inp : Tensor K) (input_channels : nat)
           (depth : Z) : result (Tensor K) :=
  let num_signature_channels := signature_channels input_channels depth in
  if negb (ndimension arg1_inp =? 2) || negb (ndimension arg2_inp =? 2)
  then Throw combine_not_2d
  else if negb (size arg1_inp batch_dim =? size arg2_inp batch_dim)
  then Throw combine_batch_mismatch
  else if negb (size arg1_inp channel_dim =? size arg2_inp channel_dim)
  then Throw combine_channels_mismatch
  else if negb (size arg1_inp channel_dim =? num_signature_channels)
          || negb (size arg2_inp channel_dim =? num_signature_channels)
  then Throw combine_channels_unexpected
  else
    let ret := as2 arg1_inp in
    let arg1 := misc.slice_by_term ret input_channels (Z.to_nat depth) in
    let arg2 := misc.slice_by_term (as2 arg2_inp) input_channels (Z.to_nat depth) in
    let arg1 := ta_ops.mult arg1 arg2 in
    Ok {| sizes := sizes arg1_inp; options := options arg1_inp;
          data := D2 (misc.unslice arg1) |}.

End Forward.

(** ** Tensors as the properties index them *)

Section Indexing.
Context {K : ExactField}.

(** The elements of a tensor agree with its sizes. *)
Definition rows_ok (b n : nat) (t : tensor K) : bool :=
  (length t =? b) && forallb (fun row => length row =? n) t.

Definition well_formed (t : Tensor K) : bool :=
  match data t, sizes t with
  | D2 x, [b; n] => rows_ok b n x
  | D3 x, [s; b; c] => (length x =? s) && forallb (rows_ok b c) x
  | Dn _, sz => negb (length sz =? 2) && negb (length sz =? 3)
  | _, _ => false
  end.

(** [path[a:b]] along the stream axis. *)
Definition stream_slice (path : Tensor K) (a b : nat) : Tensor K :=
  {| sizes := upd 0 (Nat.min b (size path stream_dim) - a) (sizes path);
     options := options path;
     data := D3 (firstn (b - a) (skipn a (as3 path))) |}.

(** [path.flip(stream_dim)]. *)
Definition reverse (path : Tensor K) : Tensor K :=
  {| sizes := sizes path; options := options path; data := D3 (rev (as3 path)) |}.

(** [signature[s]] of a (stream, batch, W) output. *)
Definition select (signature : Tensor K) (s : nat) : Tensor K :=
  {| sizes := tl (sizes signature); options := options signature;
     data := D2 (nth s (as3 signature) []) |}.

(** The signature in the pair that [signature_forward] returns. *)
Definition signature_of (r : result (Tensor K * Tensor K)) : result (Tensor K) :=
  bind r (fun returned => Ok (fst returned)).

End Indexing.

(** ** The validation as the specification words it *)

Section Validation.
Context {K : ExactField}.

(** [t] has exactly the sizes [shape]. *)
Definition has_shape (t : Tensor K) (shape : list nat) : bool :=
  (length (sizes t) =? length shape) && forallb (fun p => fst p =? snd p)
                                                (combine (sizes t) shape).

(** A supplied tensor disagrees with [path] in the required shape, dtype or
    device. *)
Definition disagrees (path value : Tensor K) (shape : list nat) : bool :=
  negb (has_shape value shape)
  || negb (ScalarType_eqb (dtype (options path)) (dtype (options value)))
  || negb (Device_eqb (device (options path)) (device (options value))).

(** The inputs that the specification has [signature_checkargs] refuse. *)
Definition invalid_input (path : Tensor K) (depth : Z) (basepoint : bool)
           (basepoint_value : Tensor K) (initial : bool) (initial_value : Tensor K) : bool :=
  negb (ndimension path =? 3)
  || existsb (Nat.eqb 0) (sizes path)
  || (negb basepoint && (size path stream_dim =? 1))
  || (depth <? 1)%Z
  || negb (is_floating_point path)
  || (basepoint && disagrees path basepoint_value
                             [size path batch_dim; size path channel_dim])
  || (initial && disagrees path initial_value
                           [size path batch_dim;
                            signature_channels (size path channel_dim) depth]).

End Validation.

(** ** The table of increments *)

Section IncrementsTable.
Context {K : ExactField}.

(** Entry [s] of the increments by the four-case table of the specification:
    the first entry against the basepoint, every other entry
    [path[s+1] - path[s]], negated under [inverse]. *)
Definition increments_table (path : tensor3 K) (basepoint : bool) (basepoint_value : tensor K)
           (inverse : bool) (s : nat) : tensor K :=
  if basepoint && (s =? 0) then
    if inverse then tsub basepoint_value (nth 0 path [])
    else tsub (nth 0 path []) basepoint_value
  else
    if inverse then tsub (nth s path []) (nth (s + 1) path [])
    else tsub (nth (s + 1) path []) (nth s path []).

(** The same table with the entries after a basepoint taken one step back:
    [path[s] - path[s-1]] for [s >= 1]. *)
Definition increments_entry (path : tensor3 K) (basepoint : bool) (basepoint_value : tensor K)
           (inverse : bool) (s : nat) : tensor K :=
  if basepoint then
    if s =? 0 then
      if inverse then tsub basepoint_value (nth 0 path [])
      else tsub (nth 0 path []) basepoint_value
    else
      if inverse then tsub (nth (s - 1) path []) (nth s path [])
      else tsub (nth s path []) (nth (s - 1) path [])
  else
    if inverse then tsub (nth s path []) (nth (s + 1) path [])
    else tsub (nth (s + 1) path []) (nth s path []).

End IncrementsTable.

(** ** The recomputation in [signature_backward] *)

Section Backward.
Context {K : ExactField}.

(** Without [stream], the loop of [signature_backward] over
    [stream_index = output_stream_size - 1, ..., 1] first rolls
    [signature_by_term_at_stream] back with
    [mult_fused_restricted_exp(-next, ...)].  This is what the views hold
    once the iterations down to [stop] have done that. *)
Definition backward_recompute (path_increments : tensor3 K) (reciprocals : list K)
           (inverse : bool) (signature_by_term_at_stream : talg K) (stop : nat) : talg K :=
  let output_stream_size := length path_increments in
  fold_left (fun at_stream stream_index =>
               let next := nth stream_index path_increments [] in
               ta_ops.mult_fused_restricted_exp (tneg next) at_stream inverse reciprocals)
            (rev (seq stop (output_stream_size - stop)))
            signature_by_term_at_stream.

End Backward.

(** ** Tensors in memory

    For the frame properties the tensors live in storages: a tensor handle
    names its storage and the cells of it that the tensor addresses, so that
    [narrow], [t[i]] and [slice_by_term] give views that alias their base
    and [clone], [empty] and the out-of-place operations give new storages.
    A kernel reads its arguments, computes what the array model above
    computes, and writes the tensors that the code writes. *)

Module mem.
Section Mem.
Context {K : ExactField}.

(** The storages, by the order of their allocation. *)
Definition heap : Type := list (list K).

(** Handles of a (batch, n) and of a (stream, batch, n) tensor: the cell
    behind every index. *)
Record view2 : Type := { storage2 : nat; cells2 : list (list nat) }.
Record view3 : Type := { storage3 : nat; cells3 : list (list (list nat)) }.

(** A [torch::Tensor] that is of rank 2 or 3 by a flag. *)
Inductive tview : Type :=
| V2 (v : view2)
| V3 (v : view3).

Definition as_view2 (t : tview) : view2 :=
  match t with
  | V2 v => v
  | V3 v => {| storage2 := storage3 v; cells2 := [] |}
  end.
Definition as_view3 (t : tview) : view3 :=
  match t with
  | V3 v => v
  | V2 v => {| storage3 := storage2 v; cells3 := [] |}
  end.

(** Computations on the memory. *)
Definition M (A : Type) : Type := heap -> A * heap.
Definition ret {A : Type} (a : A) : M A := fun h => (a, h).
Definition bind {A B : Type} (m : M A) (k : A -> M B) : M B :=
  fun h => let '(a, h1) := m h in k a h1.

Notation "x <- m ;; k" := (bind m (fun x => k))
  (at level 61, m at next level, right associativity).
Notation "m ;;; k" := (bind m (fun _ => k)) (at level 61, right associativity).

Fixpoint fold_M {A S : Type} (body : S -> A -> M S) (l : list A) (s : S) : M S :=
  match l with
  | [] => ret s
  | x :: l' => s' <- body s x ;; fold_M body l' s'
  end.

Fixpoint map_M {A B : Type} (f : A -> M B) (l : list A) : M (list B) :=
  match l with
  | [] => ret []
  | x :: l' => y <- f x ;; ys <- map_M f l' ;; ret (y :: ys)
  end.

(** *** Reading and writing through a handle *)

Definition load (h : heap) (st c : nat) : K := nth c (nth st h []) (fzero K).

Definition read2 (h : heap) (v : view2) : tensor K :=
  map (map (load h (storage2 v))) (cells2 v).
Definition read3 (h : heap) (v : view3) : tensor3 K :=
  map (map (map (load h (storage3 v)))) (cells3 v).

Definition store_cells (st : nat) (cs : list nat) (xs : list K) (h : heap) : heap :=
  upd st (fold_left (fun buf p => upd (fst p) (snd p) buf) (combine cs xs) (nth st h [])) h.

Definition alloc (contents : list K) : M nat := fun h => (length h, h ++ [contents]).
Definition get2 (v : view2) : M (tensor K) := fun h => (read2 h v, h).
Definition get3 (v : view3) : M (tensor3 K) := fun h => (read3 h v, h).
Definition put2 (v : view2) (t : tensor K) : M unit :=
  fun h => (tt, store_cells (storage2 v) (concat (cells2 v)) (concat t) h).
Definition put3 (v : view3) (t : tensor3 K) : M unit :=
  fun h => (tt, store_cells (storage3 v) (concat (concat (cells3 v))) (concat (concat t)) h).

Definition get_all (vs : list view2) : M (talg K) := map_M get2 vs.
Fixpoint put_all (vs : list view2) (ts : talg K) : M unit :=
  match vs, ts with
  | v :: vs', t :: ts' => put2 v t ;;; put_all vs' ts'
  | _, _ => ret tt
  end.

(** The storage and the elements of a tensor of either rank. *)
Definition storage_t (t : tview) : nat :=
  match t with
  | V2 v => storage2 v
  | V3 v => storage3 v
  end.
Definition read_t (h : heap) (t : tview) : tensor3 K :=
  match t with
  | V2 v => [read2 h v]
  | V3 v => read3 h v
  end.

(** *** Sizes, views and allocation *)

Definition size_batch2 (v : view2) : nat := length (cells2 v).
Definition size_stream3 (v : view3) : nat := length (cells3 v).
Definition size_batch3 (v : view3) : nat := length (nth 0 (cells3 v) []).
Definition size_channel3 (v : view3) : nat := length (nth 0 (nth 0 (cells3 v) []) []).

(** The cells of a contiguous tensor. *)
Definition grid2 (B n : nat) : list (list nat) :=
  map (fun b => seq (b * n) n) (seq 0 B).
Definition grid3 (S B n : nat) : list (list (list nat)) :=
  map (fun s => map (fun b => seq ((s * B + b) * n) n) (seq 0 B)) (seq 0 S).

(** [torch::empty]. *)
Definition empty2 (junk : K) (B n : nat) : M view2 :=
  st <- alloc (repeat junk (B * n)) ;; ret {| storage2 := st; cells2 := grid2 B n |}.
Definition empty3 (junk : K) (S B n : nat) : M view3 :=
  st <- alloc (repeat junk (S * B * n)) ;; ret {| storage3 := st; cells3 := grid3 S B n |}.
Definition empty_like3 (junk : K) (v : view3) : M view3 :=
  empty3 junk (size_stream3 v) (size_batch3 v) (size_channel3 v).

(** A new tensor holding given elements: the result of an out-of-place
    operation. *)
Definition new2 (t : tensor K) : M view2 :=
  st <- alloc (concat t) ;;
  ret {| storage2 := st; cells2 := grid2 (length t) (length (nth 0 t [])) |}.
Definition new3 (t : tensor3 K) : M view3 :=
  st <- alloc (concat (concat t)) ;;
  ret {| storage3 := st;
         cells3 := grid3 (length t) (length (nth 0 t [])) (length (nth 0 (nth 0 t []) [])) |}.

Definition clone2 (v : view2) : M view2 := t <- get2 v ;; new2 t.
Definition clone3 (v : view3) : M view3 := t <- get3 v ;; new3 t.

(** [v[s]], [v.narrow(stream_dim, start, len)] and
    [v.narrow(channel_dim, pos, len)]. *)
Definition index (v : view3) (s : nat) : view2 :=
  {| storage2 := storage3 v; cells2 := nth s (cells3 v) [] |}.
Definition narrow_stream (v : view3) (start len : nat) : view3 :=
  {| storage3 := storage3 v; cells3 := narrow start len (cells3 v) |}.
Definition narrow_channel2 (v : view2) (pos len : nat) : view2 :=
  {| storage2 := storage2 v; cells2 := map (narrow pos len) (cells2 v) |}.
Definition narrow_channel3 (v : view3) (pos len : nat) : view3 :=
  {| storage3 := storage3 v; cells3 := map (map (narrow pos len)) (cells3 v) |}.

(** In-place and out-of-place arithmetic. *)
Definition copy2_ (dst src : view2) : M unit := t <- get2 src ;; put2 dst t.
Definition copy3_ (dst src : view3) : M unit := t <- get3 src ;; put3 dst t.
Definition sub2_ (dst src : view2) : M unit :=
  a <- get2 dst ;; b <- get2 src ;; put2 dst (tsub a b).
Definition sub3_ (dst src : view3) : M unit :=
  a <- get3 dst ;; b <- get3 src ;; put3 dst (tsub3 a b).
Definition add2_ (dst src : view2) : M unit :=
  a <- get2 dst ;; b <- get2 src ;; put2 dst (tadd a b).
Definition zero2_ (dst : view2) : M unit :=
  a <- get2 dst ;; put2 dst (map (map (fun _ => fzero K)) a).
Definition sub3 (a b : view3) : M view3 :=
  x <- get3 a ;; y <- get3 b ;; new3 (tsub3 x y).
Definition neg2 (a : view2) : M view2 := x <- get2 a ;; new2 (tneg x).

(** *** misc *)

Definition slice_by_term2 (inp : view2) (input_channel_size depth : nat) : list view2 :=
  map (fun p => narrow_channel2 inp (Z.to_nat (fst p)) (Z.to_nat (snd p)))
      (misc.slice_by_term_views 0 (Z.of_nat input_channel_size) (Z.of_nat input_channel_size)
                                depth).
Definition slice_by_term3 (inp : view3) (input_channel_size depth : nat) : list view3 :=
  map (fun p => narrow_channel3 inp (Z.to_nat (fst p)) (Z.to_nat (snd p)))
      (misc.slice_by_term_views 0 (Z.of_nat input_channel_size) (Z.of_nat input_channel_size)
                                depth).
Definition slice_by_term (inp : tview) (input_channel_size depth : nat) : list tview :=
  match inp with
  | V2 v => map V2 (slice_by_term2 v input_channel_size depth)
  | V3 v => map V3 (slice_by_term3 v input_channel_size depth)
  end.
Definition slice_at_stream (views : list tview) (stream_index : nat) : list view2 :=
  map (fun elem => index (as_view3 elem) stream_index) views.

(** *** ta_ops: what each kernel reads and writes *)

(** [restricted_exp] writes the tensors of [out]. *)
Definition restricted_exp (inp : view2) (out : list view2) (reciprocals : list K) : M unit :=
  x <- get2 inp ;; o <- get_all out ;;
  put_all out (ta_ops.restricted_exp x o reciprocals).

(** [mult_fused_restricted_exp] writes the tensors of [prev]; its scratch
    tensors are its own. *)
Definition mult_fused_restricted_exp (next : view2) (prev : list view2) (inverse : bool)
           (reciprocals : list K) : M unit :=
  x <- get2 next ;; a <- get_all prev ;;
  put_all prev (ta_ops.mult_fused_restricted_exp x a inverse reciprocals).

(** [mult] writes the tensors of [arg1]. *)
Definition mult3 (arg1 arg2 : list view2) (inverse : bool) : M unit :=
  a <- get_all arg1 ;; b <- get_all arg2 ;; put_all arg1 (ta_ops.mult3 a b inverse).

(** The [parallel for] over the batch of [signature_forward_inner_cpu_inner],
    as one step: every iteration works through the accessors of the
    increment and of [signature_by_term_at_stream] and writes the latter. *)
Definition batch_loop (next : view2) (at_stream : list view2) (inverse : bool)
           (batch_size : nat) (reciprocals : list K) : M unit :=
  x <- get2 next ;; a <- get_all at_stream ;;
  put_all at_stream (signature_detail.batch_loop x a inverse batch_size reciprocals).

(** *** The forward pass *)

(** [compute_path_increments]: every case returns a new tensor, built
    out of place or in place on [empty_like(path)] or [path.clone()]. *)
Definition compute_path_increments (junk : K) (path : view3) (basepoint : bool)
           (basepoint_value : view2) (inverse : bool) : M view3 :=
  let num_increments := size_stream3 path - 1 in
  if basepoint then
    if inverse then
      path_increments <- empty_like3 junk path ;;
      copy2_ (index path_increments 0) basepoint_value ;;;
      copy3_ (narrow_stream path_increments 1 num_increments)
             (narrow_stream path 0 num_increments) ;;;
      sub3_ path_increments path ;;;
      ret path_increments
    else
      path_increments <- clone3 path ;;
      sub2_ (index path_increments 0) basepoint_value ;;;
      sub3_ (narrow_stream path_increments 1 num_increments)
            (narrow_stream path 0 num_increments) ;;;
      ret path_increments
  else
    if inverse then
      sub3 (narrow_stream path 0 num_increments) (narrow_stream path 1 num_increments)
    else
      sub3 (narrow_stream path 1 num_increments) (narrow_stream path 0 num_increments).

(** The stream loop of [signature_forward_inner] and of
    [signature_forward_inner_cpu]; the vector [signature_by_term_at_stream]
    is the callee's own copy, the tensors in it alias the caller's. *)
Definition stream_loop (kernel : view2 -> list view2 -> M unit)
           (path_increments : view3) (signature_by_term_at_stream : list view2)
           (indices : list nat) (stream : bool) (signature : tview)
           (signature_by_term : list tview) : M unit :=
  fold_M (fun at_stream stream_index =>
            at_stream <-
              (if stream then
                 copy2_ (index (as_view3 signature) stream_index)
                        (index (as_view3 signature) (stream_index - 1)) ;;;
                 ret (slice_at_stream signature_by_term stream_index)
               else ret at_stream) ;;
            kernel (index path_increments stream_index) at_stream ;;;
            ret at_stream)
         indices signature_by_term_at_stream ;;;
  ret tt.

Definition signature_forward_inner (path_increments : view3) (reciprocals : list K)
           (signature_by_term_at_stream : list view2) (inverse : bool)
           (output_stream_size : nat) (stream : bool) (signature : tview)
           (signature_by_term : list tview) : M unit :=
  stream_loop (fun next at_stream =>
                 mult_fused_restricted_exp next at_stream inverse reciprocals)
              path_increments signature_by_term_at_stream
              (seq 1 (output_stream_size - 1)) stream signature signature_by_term.

Definition signature_forward_inner_cpu (path_increments : view3) (reciprocals : list K)
           (signature_by_term_at_stream : list view2) (inverse : bool)
           (batch_size start stop batch_threads : nat) (stream : bool) (signature : tview)
           (signature_by_term : list tview) : M unit :=
  stream_loop (fun next at_stream => batch_loop next at_stream inverse batch_size reciprocals)
              path_increments signature_by_term_at_stream
              (seq start (stop - start)) stream signature signature_by_term.

(** A thread of the parallel region: its chunk goes into a tensor of its
    own. *)
Definition omp_chunk (junk : K) (path_increments : view3) (reciprocals : list K)
           (inverse : bool) (output_stream_size batch_size output_channel_size
            input_channel_size depth batch_threads : nat)
           (thread_num num_threads : nat) : M (option (list view2)) :=
  let start := 1 + ((output_stream_size - 1) * thread_num) / num_threads in
  let stop := 1 + ((output_stream_size - 1) * (1 + thread_num)) / num_threads in
  if start <? stop then
    omp_signature <- empty2 junk batch_size output_channel_size ;;
    let omp_signature_by_term_at_stream :=
      slice_by_term2 omp_signature input_channel_size depth in
    restricted_exp (index path_increments start) omp_signature_by_term_at_stream
                   reciprocals ;;;
    signature_forward_inner_cpu path_increments reciprocals omp_signature_by_term_at_stream
                                inverse batch_size (start + 1) stop batch_threads false
                                (V3 {| storage3 := 0; cells3 := [] |}) [] ;;;
    ret (Some omp_signature_by_term_at_stream)
  else ret None.

(** The region, thread after thread: the threads share nothing that any of
    them writes. *)
Definition omp_region (env : omp) (junk : K) (path_increments : view3)
           (reciprocals : list K) (inverse : bool)
           (output_stream_size batch_size output_channel_size input_channel_size depth
            batch_threads stream_threads : nat) : M (list (option (list view2))) :=
  let num_threads := omp_get_num_threads env stream_threads in
  map_M (fun thread_index =>
           if thread_index <? num_threads then
             omp_chunk junk path_increments reciprocals inverse output_stream_size batch_size
                       output_channel_size input_channel_size depth batch_threads
                       thread_index num_threads
           else ret None)
        (seq 0 stream_threads).

Definition combine_chunks (signature_by_term_at_stream : list view2)
           (omp_results : list (option (list view2))) (inverse : bool) : M unit :=
  fold_M (fun (_ : unit) r =>
            match r with
            | Some chunk => mult3 signature_by_term_at_stream chunk inverse
            | None => ret tt
            end)
         omp_results tt.

(** [signature_forward] once [signature_checkargs] has returned: the
    handles of the signature and of the path increments. *)
Definition signature_forward (env : omp) (junk : K) (cuda : bool) (path : view3) (depth : nat)
           (stream basepoint : bool) (basepoint_value : view2) (inverse initial : bool)
           (initial_value : view2) : M (tview * view3) :=
  let batch_size := size_batch3 path in
  let input_stream_size := size_stream3 path in
  let input_channel_size := size_channel3 path in
  let output_stream_size := size_stream3 path - (if basepoint then 0 else 1) in
  let output_channel_size := signature_channels input_channel_size (Z.of_nat depth) in
  let reciprocals := misc.make_reciprocals depth in
  path_increments <- compute_path_increments junk path basepoint basepoint_value inverse ;;
  signature <-
    (if stream then
       s <- empty3 junk output_stream_size batch_size output_channel_size ;; ret (V3 s)
     else
       s <- empty2 junk batch_size output_channel_size ;; ret (V2 s)) ;;
  let first_term := if stream then index (as_view3 signature) 0 else as_view2 signature in
  let signature_by_term :=
    if stream then slice_by_term signature input_channel_size depth else [] in
  let signature_by_term_at_stream := slice_by_term2 first_term input_channel_size depth in
  (if initial then
     copy2_ first_term initial_value ;;;
     mult_fused_restricted_exp (index path_increments 0) signature_by_term_at_stream inverse
                               reciprocals
   else
     restricted_exp (index path_increments 0) signature_by_term_at_stream reciprocals) ;;;
  (if cuda then
     signature_forward_inner path_increments reciprocals signature_by_term_at_stream inverse
                             output_stream_size stream signature signature_by_term
   else
     let '(stream_threads, batch_threads) :=
       choose_threads env batch_size input_stream_size output_stream_size
                      output_channel_size stream in
     if stream_threads =? 1 then
       signature_forward_inner_cpu path_increments reciprocals signature_by_term_at_stream
                                   inverse batch_size 1 output_stream_size batch_threads
                                   stream signature signature_by_term
     else
       omp_results <- omp_region env junk path_increments reciprocals inverse
                                 output_stream_size batch_size output_channel_size
                                 input_channel_size depth batch_threads stream_threads ;;
       combine_chunks signature_by_term_at_stream omp_results inverse) ;;;
  ret (signature, path_increments).

(** *** The backward pass *)

(** The frame of the backward pass does not depend on the gradients that
    its two kernels compute, only on the tensors they write:
    [restricted_exp_backward] writes [grad_in] and the tensors of
    [grad_out], [mult_fused_restricted_exp_backward] writes [grad_next] and
    the tensors of [grad_prev]; the scratch tensors are their own, and [in],
    [out], [next], [prev] and the reciprocals are read.  The values written
    are a parameter: new (grad_in, grad_out) from the old ones and from what
    is read. *)
Variable restricted_exp_backward_values :
  tensor K -> talg K -> tensor K -> talg K -> list K -> tensor K * talg K.
Variable mult_fused_restricted_exp_backward_values :
  tensor K -> talg K -> tensor K -> talg K -> bool -> list K -> tensor K * talg K.

Definition restricted_exp_backward (grad_in : view2) (grad_out : list view2) (inp : view2)
           (out : list view2) (reciprocals : list K) : M unit :=
  gi <- get2 grad_in ;; go <- get_all grad_out ;; x <- get2 inp ;; o <- get_all out ;;
  let '(gi', go') := restricted_exp_backward_values gi go x o reciprocals in
  put2 grad_in gi' ;;; put_all grad_out go'.

Definition mult_fused_restricted_exp_backward (grad_next : view2) (grad_prev : list view2)
           (next : view2) (prev : list view2) (inverse : bool) (reciprocals : list K)
  : M unit :=
  gn <- get2 grad_next ;; gp <- get_all grad_prev ;; x <- get2 next ;; a <- get_all prev ;;
  let '(gn', gp') := mult_fused_restricted_exp_backward_values gn gp x a inverse reciprocals in
  put2 grad_next gn' ;;; put_all grad_prev gp'.

(** [compute_path_increments_backward]: the gradient on the path is a new
    tensor; with a basepoint and [inverse] the gradient on the basepoint is
    a view of the argument. *)
Definition compute_path_increments_backward (junk : K) (grad_path_increments : view3)
           (basepoint inverse : bool) : M (view3 * view2) :=
  let batch_size := size_batch3 grad_path_increments in
  let input_stream_size :=
    size_stream3 grad_path_increments + (if basepoint then 0 else 1) in
  let input_channel_size := size_channel3 grad_path_increments in
  let num_increments := input_stream_size - 1 in
  if basepoint then
    if inverse then
      grad_path <- empty_like3 junk grad_path_increments ;;
      copy3_ (narrow_stream grad_path 0 num_increments)
             (narrow_stream grad_path_increments 1 num_increments) ;;;
      zero2_ (index grad_path (size_stream3 grad_path - 1)) ;;;
      sub3_ grad_path grad_path_increments ;;;
      ret (grad_path, index grad_path_increments 0)
    else
      grad_path <- clone3 grad_path_increments ;;
      sub3_ (narrow_stream grad_path 0 num_increments)
            (narrow_stream grad_path_increments 1 num_increments) ;;;
      grad_basepoint_value <- neg2 (index grad_path_increments 0) ;;
      ret (grad_path, grad_basepoint_value)
  else
    if inverse then
      grad_path <- empty3 junk input_stream_size batch_size input_channel_size ;;
      zero2_ (index grad_path (size_stream3 grad_path - 1)) ;;;
      copy3_ (narrow_stream grad_path 0 num_increments) grad_path_increments ;;;
      sub3_ (narrow_stream grad_path 1 num_increments) grad_path_increments ;;;
      none <- empty2 junk 0 0 ;;
      ret (grad_path, none)
    else
      grad_path <- empty3 junk input_stream_size batch_size input_channel_size ;;
      zero2_ (index grad_path 0) ;;;
      copy3_ (narrow_stream grad_path 1 num_increments) grad_path_increments ;;;
      sub3_ (narrow_stream grad_path 0 num_increments) grad_path_increments ;;;
      none <- empty2 junk 0 0 ;;
      ret (grad_path, none).

(** [signature_backward]: the handles of the gradients on the path, on the
    basepoint and on the initial value. *)
Definition signature_backward (junk : K) (grad_signature signature : tview)
           (path_increments : view3) (depth : nat) (stream basepoint inverse initial : bool)
  : M (view3 * view2 * view2) :=
  let reciprocals := misc.make_reciprocals depth in
  let output_stream_size := size_stream3 path_increments in
  let input_channel_size := size_channel3 path_increments in
  let signature_by_term := slice_by_term signature input_channel_size depth in
  let grad_signature_at_stream :=
    if stream then index (as_view3 grad_signature) (size_stream3 (as_view3 grad_signature) - 1)
    else as_view2 grad_signature in
  (* make sure not to leak changes *)
  grad_signature_at_stream <- clone2 grad_signature_at_stream ;;
  let grad_signature_by_term_at_stream :=
    slice_by_term2 grad_signature_at_stream input_channel_size depth in
  signature_by_term_at_stream <-
    (if stream then
       if output_stream_size <? 2 then ret (slice_at_stream signature_by_term 0)
       else ret []
     else
       signature_clone <- clone2 (as_view2 signature) ;;
       ret (slice_by_term2 signature_clone input_channel_size depth)) ;;
  grad_path_increments <- empty_like3 junk path_increments ;;
  signature_by_term_at_stream <-
    fold_M (fun at_stream stream_index =>
              let grad_next := index grad_path_increments stream_index in
              let next := index path_increments stream_index in
              at_stream <-
                (if stream then
                   ret (slice_at_stream signature_by_term (stream_index - 1))
                 else
                   minus_next <- neg2 next ;;
                   mult_fused_restricted_exp minus_next at_stream inverse reciprocals ;;;
                   ret at_stream) ;;
              mult_fused_restricted_exp_backward grad_next grad_signature_by_term_at_stream
                                                 next at_stream inverse reciprocals ;;;
              (if stream then
                 add2_ grad_signature_at_stream
                       (index (as_view3 grad_signature) (stream_index - 1))
               else ret tt) ;;;
              ret at_stream)
           (rev (seq 1 (output_stream_size - 1))) signature_by_term_at_stream ;;
  let grad_next := index grad_path_increments 0 in
  let next := index path_increments 0 in
  (if initial then
     signature_by_term_at_stream <-
       (if stream then map_M clone2 signature_by_term_at_stream
        else ret signature_by_term_at_stream) ;;
     minus_next <- neg2 next ;;
     mult_fused_restricted_exp minus_next signature_by_term_at_stream inverse reciprocals ;;;
     mult_fused_restricted_exp_backward grad_next grad_signature_by_term_at_stream next
                                        signature_by_term_at_stream inverse reciprocals
   else
     restricted_exp_backward grad_next grad_signature_by_term_at_stream next
                             signature_by_term_at_stream reciprocals) ;;;
  grads <- compute_path_increments_backward junk grad_path_increments basepoint inverse ;;
  ret (fst grads, snd grads, grad_signature_at_stream).

End Mem.
End mem.

(** ** Notions for the proofs

    Shapes, finite sums, the closed forms of the kernels and the folds that
    the drivers compute. *)

Declare Scope field_scope.
Delimit Scope field_scope with F.

Section Notions.
Context {K : ExactField}.

Notation "0" := (fzero K) : field_scope.
Notation "1" := (fone K) : field_scope.
Infix "+" := (fadd K) : field_scope.
Infix "*" := (fmul K) : field_scope.
Infix "-" := (fsub K) : field_scope.
Infix "/" := (fdiv K) : field_scope.
Notation "- x" := (fopp K x) : field_scope.

Local Abbreviation vec := (vec K).
Local Abbreviation tensor := (tensor K).
Local Abbreviation tensor3 := (tensor3 K).
Local Abbreviation talg := (talg K).

(** A (batch, n) tensor. *)
Definition shaped (B n : nat) (t : tensor) : Prop :=
  length t = B /\ Forall (fun r => length r = n) t.

(** A (batch, n) tensor, or the empty sum. *)
Definition zshaped (B n : nat) (t : tensor) : Prop := t = [] \/ shaped B n t.

(** A member of the tensor algebra over C channels: [D] terms, term [i]
    of shape (B, C^(i+1)). *)
Definition graded (B C D : nat) (a : talg) : Prop :=
  length a = D /\ forall i, i < D -> shaped B (C ^ (i + 1)) (nth i a []).

(** [f 0 + ... + f (n - 1)], the empty sum being the empty tensor. *)
Fixpoint tsum (f : nat -> tensor) (n : nat) : tensor :=
  match n with
  | O => []
  | S m => tadd (tsum f m) (f m)
  end.

(** The scalar term 1, per batch element. *)
Definition tunit (B : nat) : tensor := repeat [1%F] B.

(** A member of the tensor algebra as the sequence of its terms, the scalar
    term first. *)
Definition hat (B : nat) (a : talg) (n : nat) : tensor :=
  match n with
  | O => tunit B
  | S i => nth i a []
  end.

(** The product of two graded sequences, degree by degree. *)
Definition conv (f g : nat -> tensor) (n : nat) : tensor :=
  tsum (fun i => tmul_cr (f i) (g (n - i))) (S n).

(** Term [d] of [arg1 (x) arg2] as the loop of [mult] leaves it. *)
Definition mult_term (a b : talg) (d : nat) : tensor :=
  tadd (tadd (nth d a []) (tsum (fun j => tmul_cr (nth j a []) (nth (d - 1 - j) b [])) d))
       (nth d b []).

(** [x] tensored with itself, [k + 1] factors. *)
Fixpoint xpow (x : tensor) (k : nat) : tensor :=
  match k with
  | O => x
  | S j => tmul_cr x (xpow x j)
  end.

(** The product of the first [k] reciprocals. *)
Fixpoint ecoef (r : list K) (k : nat) : K :=
  match k with
  | O => 1%F
  | S j => (ecoef r j * nth j r 0%F)%F
  end.

(** Term [k] of the restricted exponential of [x]. *)
Definition rexp_term (x : tensor) (r : list K) (k : nat) : tensor :=
  tscale (ecoef r k) (xpow x k).

(** The inner loop of [mult_fused_restricted_exp] for one [depth_index],
    stopped after [m] rounds. *)
Definition scratch_chain (inverse : bool) (x : tensor) (r : list K) (prev : talg)
           (d m : nat) : tensor :=
  fold_left (fun scratch j =>
               tadd (nth j prev [])
                    (ta_ops.fused_product inverse scratch
                       (nth (d - 1 - j) (map (fun s => tscale s x) r) [])))
            (seq 1 m)
            (tadd (nth 0 prev []) (nth (d - 1) (map (fun s => tscale s x) r) [])).

(** What the outer loop writes to [prev[d]]. *)
Definition fused_term (inverse : bool) (x : tensor) (r : list K) (prev : talg) (d : nat)
  : tensor :=
  tadd (nth d prev [])
       (ta_ops.fused_product inverse (scratch_chain inverse x r prev d (d - 1)) x).

(** The natural number [n] as a scalar. *)
Definition of_nat (n : nat) : K := nat_inj 0%F 1%F (fadd K) n.

(** [f 0 + ... + f (n - 1)] in the field. *)
Fixpoint ksum (f : nat -> K) (n : nat) : K :=
  match n with
  | O => 0%F
  | S m => (ksum f m + f m)%F
  end.

(** [1 / n!]. *)
Definition invfact (n : nat) : K := (1 / of_nat (fact n))%F.

(** [(-1)^n]. *)
Fixpoint sgn (n : nat) : K :=
  match n with
  | O => 1%F
  | S m => (- sgn m)%F
  end.

(** A (batch, n) tensor of zeros. *)
Definition is_zero (B n : nat) (t : tensor) : Prop :=
  exists T : tensor, shaped B n T /\ t = tscale 0%F T.

(** Batch element [b] of a tensor, as a tensor of batch size one. *)
Definition sel (b : nat) (t : tensor) : tensor := [nth b t []].

(** All terms of a member have [B] batch elements. *)
Definition batched (B : nat) (a : talg) : Prop :=
  @Forall tensor (fun t => length t = B) a.

(** The rows [0 .. b - 1] of every term taken from [f], the others from [a]. *)
Definition rows_from (b : nat) (f a : talg) : talg :=
  @zipw tensor tensor tensor (fun tf ta => firstn b tf ++ skipn b ta) f a.

(** Terms [i], [i+1], ... of a member whose first term has [len] channels. *)
Definition graded_from (B len C : nat) (a : talg) : Prop :=
  forall i, i < length a -> shaped B (len * C ^ i) (nth i a []).

(** The signature after the increments [xs], started from [a]. *)
Definition drive (inverse : bool) (r : list K) (a : talg) (xs : list tensor) : talg :=
  fold_left (fun a x => ta_ops.mult_fused_restricted_exp x a inverse r) xs a.

(** The entries [a], ..., [b - 1] of a list. *)
Definition slice_of {A : Type} (l : list A) (a b : nat) : list A :=
  firstn (b - a) (skipn a l).

(** The stream loop shared by [signature_forward_inner] and
    [signature_forward_inner_cpu], over the kernel it applies per increment. *)
Definition stream_loop (kern : tensor -> talg -> talg) (path_increments : tensor3)
           (stream : bool) (signature_by_term : list (Z * Z)) (indices : list nat)
           (st : tensor3 * talg) : tensor3 * talg :=
  fold_left
    (fun st stream_index =>
       let '(signature, at_stream) := st in
       if stream then
         let signature := upd stream_index (nth (stream_index - 1) signature []) signature in
         let at_stream := misc.slice_at_stream signature_by_term signature stream_index in
         let at_stream := kern (nth stream_index path_increments []) at_stream in
         (upd stream_index (misc.unslice at_stream) signature, at_stream)
       else
         (signature, kern (nth stream_index path_increments []) at_stream))
    indices st.

(** A kernel that agrees with the fused kernel on well-shaped arguments. *)
Definition fused_on (B C D : nat) (inverse : bool) (r : list K)
           (kern : tensor -> talg -> talg) : Prop :=
  forall x a, graded B C D a -> shaped B C x ->
              kern x a = ta_ops.mult_fused_restricted_exp x a inverse r.

(** Where the chunk of thread [t] in a team of [nt] starts. *)
Definition chunk_bound (Sz nt t : nat) : nat := 1 + ((Sz - 1) * t) / nt.

(** The signature of the chunk of thread [t] in a team of [nt], when the
    chunk is not empty. *)
Definition chunk_signature (inverse : bool) (r : list K) (junk : K) (path_increments : tensor3)
           (Sz B W C D nt t : nat) : option talg :=
  if chunk_bound Sz nt t <? chunk_bound Sz nt (1 + t) then
    Some (drive inverse r
            (ta_ops.restricted_exp (nth (chunk_bound Sz nt t) path_increments [])
                                   (misc.slice_by_term (empty2 junk B W) C D) r)
            (slice_of path_increments (1 + chunk_bound Sz nt t) (chunk_bound Sz nt (1 + t))))
  else None.

(** A (stream, batch, channel) tensor of sizes (N, B, C). *)
Definition shaped3 (N B C : nat) (p : tensor3) : Prop :=
  length p = N /\ Forall (shaped B C) p.

(** The signature of a list of increments: the restricted exponential of
    the first, then the fused kernel on each of the others. *)
Definition sig_drive (inverse : bool) (r : list K) (D : nat) (increments : list tensor) : talg :=
  match increments with
  | [] => repeat [] D
  | x :: xs => drive inverse r (ta_ops.restricted_exp x (repeat [] D) r) xs
  end.

(** [torch.cat([basepoint_value.unsqueeze(0), path])]: the path with the
    basepoint put in front of it, as the comment in
    [compute_path_increments] describes the basepoint. *)
Definition prepend (basepoint_value path : Tensor K) : Tensor K :=
  {| sizes := upd 0 (size path stream_dim + 1) (sizes path);
     options := options path;
     data := D3 (as2 basepoint_value :: as3 path) |}.

(** The (batch, n) tensor of zeros. *)
Definition tzero (B n : nat) : tensor := repeat (repeat 0%F n) B.

(** The member of the tensor algebra with every term zero: with the implicit
    scalar term 1 it is the unit of the product. *)
Definition unit_algebra (B C D : nat) : talg :=
  map (fun i => tzero B (C ^ (i + 1))) (seq 0 D).

(** The channels that [d] consecutive views cover, the first of [len]
    channels and each of the others [C] times the one before. *)
Fixpoint span (len C d : nat) : nat :=
  match d with
  | O => 0
  | S d' => len + span (len * C) C d'
  end.

(** The first step of the forward pass: the restricted exponential of the
    first increment, multiplied onto the initial value if there is one. *)
Definition first_signature (inverse initial : bool) (r : list K) (C D : nat)
           (initial_value : tensor) (x : tensor) : talg :=
  if initial then
    ta_ops.mult_fused_restricted_exp x (misc.slice_by_term initial_value C D) inverse r
  else ta_ops.restricted_exp x (repeat [] D) r.

(** The facts about a valid input that the value of the forward pass needs. *)
Record valid_input (path bv iv : Tensor K) (depth : Z) (basepoint initial : bool)
       (N B C : nat) (p : tensor3) : Prop := {
  valid_sizes : sizes path = [N; B; C];
  valid_data : data path = D3 p;
  valid_shape : shaped3 N B C p;
  valid_stream : 1 <= N - (if basepoint then 0 else 1);
  valid_batch : 1 <= B;
  valid_depth : (1 <= depth)%Z;
  valid_basepoint : basepoint = true -> shaped B C (as2 bv);
  valid_initial : initial = true ->
                  shaped B (span C C (Z.to_nat depth)) (as2 iv) /\
                  sizes iv = [B; signature_channels C depth] /\ options iv = options path
}.

End Notions.

(** ** The frame of a computation on the memory *)

Section FrameDefs.
Context {K : ExactField}.

(** The storages below [n] are as they were, and none is dropped. *)
Definition frame (n : nat) (h h' : mem.heap (K := K)) : Prop :=
  length h <= length h' /\ forall st, st < n -> nth st h' [] = nth st h [].

(** A computation that, from every memory with at least [n] storages,
    leaves the storages below [n] as they were and returns a result in
    [Q]. *)
Definition safe {A : Type} (n : nat) (m : mem.M A) (Q : A -> Prop) : Prop :=
  forall h, n <= length h -> frame n h (snd (m h)) /\ Q (fst (m h)).

(** Handles on storages allocated at or after [n]. *)
Definition fresh2 (n : nat) (v : mem.view2) : Prop := n <= mem.storage2 v.
Definition fresh3 (n : nat) (v : mem.view3) : Prop := n <= mem.storage3 v.
Definition fresh_t (n : nat) (t : mem.tview) : Prop :=
  match t with
  | mem.V2 v => fresh2 n v
  | mem.V3 v => fresh3 n v
  end.

End FrameDefs.

(** ** Concrete inputs over the rationals *)

Module Examples.

Definition q (n : Z) : QcField := Q2Qc (inject_Z n).

(** The contents of uninitialised memory in the examples. *)
Definition junk : QcField := q 7.

Definition cpu_double : TensorOptions := {| dtype := Double; device := CPU |}.

(** An absent optional argument. *)
Definition undefined : Tensor QcField := {| sizes := []; options := cpu_double; data := Dn [] |}.

(** A machine with two threads that grants every team it is asked for. *)
Definition two_threads (max_parallelism : nat) : omp :=
  {| omp_get_max_threads := 2; get_max_parallelism := max_parallelism;
     omp_get_num_threads := fun n => n |}.

(** The unit vector [i] of [C] channels. *)
Definition unit_vector (i C : nat) : list QcField :=
  map (fun j => if j =? i then q 1 else q 0) (seq 0 C).

(** A path of shape (4, 1, 681): from 0 along the first axis, then along
    the second, then at rest.  With depth 2 the signature has
    681 + 681^2 = 464442 channels and 1 * 3 * 464442 >= 1392640, so the CPU
    driver chunks the stream axis. *)
Definition wide_path : Tensor QcField :=
  {| sizes := [4; 1; 681]; options := cpu_double;
     data := D3 [[repeat (q 0) 681];
                 [unit_vector 0 681];
                 [zipw Qcplus (unit_vector 0 681) (unit_vector 1 681)];
                 [zipw Qcplus (unit_vector 0 681) (unit_vector 1 681)]] |}.

(** The entries [ix] of batch element 0 of a (batch, W) tensor. *)
Definition entries (t : Tensor QcField) (ix : list nat) : list Q :=
  map (fun i => this (nth i (nth 0 (as2 t) []) junk)) ix.

Definition entries_of (r : result (Tensor QcField)) (ix : list nat) : option (list Q) :=
  match r with
  | Ok t => Some (entries t ix)
  | _ => None
  end.

(** Slot [s] of a [stream] output. *)
Definition select_of (r : result (Tensor QcField)) (s : nat) : result (Tensor QcField) :=
  bind r (fun t => Ok (select t s)).

(** In a signature over 681 channels, the depth-2 entries (0, 1) and (1, 0). *)
Definition e01 : nat := 681 + 1.
Definition e10 : nat := 681 + 681.

(** A path of shape (3, 1, 2) and companions of matching shapes. *)
Definition small_path : Tensor QcField :=
  {| sizes := [3; 1; 2]; options := cpu_double;
     data := D3 [[[q 0; q 0]]; [[q 1; q 0]]; [[q 1; q 2]]] |}.

(** The same path in half precision. *)
Definition half_path : Tensor QcField :=
  {| sizes := [3; 1; 2]; options := {| dtype := Half; device := CPU |};
     data := D3 [[[q 0; q 0]]; [[q 1; q 0]]; [[q 1; q 2]]] |}.

Definition small_increment : tensor QcField := [[q 1; q 2]].

Definition small_algebra : talg QcField := [[[q 1; q 0]]; [[q 0; q 3; q 0; q 1]]].

(** A path of shape (3, 1, 1) with a basepoint at 0. *)
Definition line_path : tensor3 QcField := [[[q 0]]; [[q 1]]; [[q 3]]].
Definition line_basepoint : tensor QcField := [[q 0]].

Definition readQ (t : tensor QcField) : list (list Q) := map (map this) t.

(** A memory that holds the path of shape (3, 1, 2) of the examples, a
    basepoint and an initial value. *)
Definition memory : mem.heap (K := QcField) :=
  [[q 0; q 0; q 1; q 0; q 1; q 2]; [q 5; q 5]; [q 1; q 1; q 1; q 1; q 1; q 1]].
Definition path_view : mem.view3 := {| mem.storage3 := 0; mem.cells3 := mem.grid3 3 1 2 |}.
Definition basepoint_view : mem.view2 := {| mem.storage2 := 1; mem.cells2 := mem.grid2 1 2 |}.
Definition initial_view : mem.view2 := {| mem.storage2 := 2; mem.cells2 := mem.grid2 1 6 |}.
Definition basepoint_tensor : Tensor QcField :=
  {| sizes := [1; 2]; options := cpu_double; data := D2 [[q 5; q 5]] |}.
Definition initial_tensor : Tensor QcField :=
  {| sizes := [1; 6]; options := cpu_double; data := D2 [[q 1; q 1; q 1; q 1; q 1; q 1]] |}.

(** The signature read from the memory after the forward pass, and the one
    of the array model. *)
Definition signature_in_memory (stream basepoint inverse initial : bool) : list (list (list Q)) :=
  let '(res, h) := mem.signature_forward (two_threads 2) junk false path_view 2 stream basepoint
                                         basepoint_view inverse initial initial_view memory in
  map readQ (mem.read_t h (fst res)).
Definition signature_as_arrays (stream basepoint inverse initial : bool)
  : list (list (list Q)) :=
  match signature_of (signature_forward (two_threads 2) junk small_path 2 stream basepoint
                                        basepoint_tensor inverse initial initial_tensor) with
  | Ok t => match data t with
            | D2 x => [readQ x]
            | D3 x => map readQ x
            | Dn _ => []
            end
  | _ => []
  end.

End Examples.

(** ** The backward passes on arrays

    The backward kernels of namespace [ta_ops], [signature_combine_backward],
    [compute_path_increments_backward] and [signature_backward], in the
    style of the forward kernels above: the vectors of views are updated in
    place in the code and returned here. *)

Section BatchedProducts.
Context {K : ExactField}.

(** [t.size(channel_dim)] of a (batch, channels) tensor, read off its first
    batch element; a tensor without batch elements is not computed with. *)
Definition channel_size (t : tensor K) : nat := length (nth 0 t []).

(** One batch element of [bmm]: the product of an (n, m) and an (m, p)
    matrix, all three flattened row-major, entry [i * p + j] being the sum
    over k of [a[i * m + k] * b[k * p + j]].  [unsqueeze] inserts an axis of
    size 1 and [view] regroups the channels, neither of which the flattened
    rows see. *)
Definition matmul (n m p : nat) (a b : vec K) : vec K :=
  flat_map (fun i =>
              map (fun j => ksum (fun k => fmul K (nth (i * m + k) a (fzero K))
                                                  (nth (k * p + j) b (fzero K))) m)
                  (seq 0 p))
           (seq 0 n).

(** [torch::bmm] of a (B, n, m) and a (B, m, p) tensor, as a (B, n * p) tensor. *)
Definition bmm (n m p : nat) (a b : tensor K) : tensor K := zipw (matmul n m p) a b.

(** [t.zero_()]. *)
Definition zero_ (t : tensor K) : tensor K := map (map (fun _ => fzero K)) t.

End BatchedProducts.

Module ta_ops_backward.
Section TaOpsBackward.
Context {K : ExactField}.

(** [detail::mult_inner_backward]: for j = depth_index - 1 .. 0,
    k = depth_index - 1 - j, with [out_view] the (B, |arg1[j]|, |arg2[k]|)
    view of [grad_tensor_at_depth],
    [grad_arg1[j].unsqueeze(channel_dim).baddbmm_(out_view, arg2[k].unsqueeze(channel_dim))]
    and
    [grad_arg2[k].unsqueeze(channel_dim - 1).baddbmm_(arg1[j].unsqueeze(channel_dim - 1), out_view)].
    At both call sites [grad_tensor_at_depth] is [grad_arg1[depth_index]], a
    handle on the same storage, so it is read from the vector at every
    iteration. *)
Definition mult_inner_backward (grad_arg1 grad_arg2 arg1 arg2 : talg K) (depth_index : nat)
  : talg K * talg K :=
  fold_left (fun grads j =>
               let '(grad_arg1, grad_arg2) := grads in
               let k := depth_index - 1 - j in
               let out_view := nth depth_index grad_arg1 [] in
               let m := channel_size (nth j arg1 []) in
               let n := channel_size (nth k arg2 []) in
               let grad_arg1 :=
                 upd j (tadd (nth j grad_arg1 []) (bmm m n 1 out_view (nth k arg2 [])))
                     grad_arg1 in
               let grad_arg2 :=
                 upd k (tadd (nth k grad_arg2 []) (bmm 1 m n (nth j arg1 []) out_view))
                     grad_arg2 in
               (grad_arg1, grad_arg2))
            (rev (seq 0 depth_index)) (grad_arg1, grad_arg2).

(** [restricted_exp_backward]: the pair (grad_in, grad_out) after the call.
    [grad_in] comes in uninitialised: the first pass writes it with
    [bmm_out], the others accumulate with [baddbmm_]. *)
Definition restricted_exp_backward (grad_in : tensor K) (grad_out : talg K) (inp : tensor K)
           (out : talg K) (reciprocals : list K) : tensor K * talg K :=
  let input_channel_size := channel_size inp in
  let depth := length out in
  if 1 <? depth then
    let grad_out :=
      upd (depth - 1) (tscale (nth (depth - 2) reciprocals (fzero K))
                              (nth (depth - 1) grad_out [])) grad_out in
    let view_grad_out := nth (depth - 1) grad_out [] in
    let n := channel_size (nth (depth - 2) out []) in
    let grad_in := bmm input_channel_size n 1 view_grad_out (nth (depth - 2) out []) in
    let grad_out :=
      upd (depth - 2) (tadd (nth (depth - 2) grad_out [])
                            (bmm 1 input_channel_size n inp view_grad_out)) grad_out in
    let '(grad_in, grad_out) :=
      fold_left (fun grads i =>
                   let '(grad_in, grad_out) := grads in
                   let grad_out :=
                     upd (i + 1) (tscale (nth i reciprocals (fzero K))
                                         (nth (i + 1) grad_out [])) grad_out in
                   let view_grad_out := nth (i + 1) grad_out [] in
                   let n := channel_size (nth i out []) in
                   let grad_in :=
                     tadd grad_in (bmm input_channel_size n 1 view_grad_out (nth i out [])) in
                   let grad_out :=
                     upd i (tadd (nth i grad_out [])
                                 (bmm 1 input_channel_size n inp view_grad_out)) grad_out in
                   (grad_in, grad_out))
                (rev (seq 0 (depth - 2))) (grad_in, grad_out) in
    (tadd grad_in (nth 0 grad_out []), grad_out)
  else (nth 0 grad_out [], grad_out).      (* grad_in.copy_(grad_out[0]) *)

(** The scratches that [mult_fused_restricted_exp_backward] recomputes for one
    [depth_index]: [prev[0] + next_divided[depth_index - 1]], and after it
    every [scratch] of the inner loop of the forward pass, in order. *)
Definition fused_scratches (prev : talg K) (next_divided : list (tensor K)) (inverse : bool)
           (depth_index : nat) : list (tensor K) :=
  let scratch := tadd (nth 0 prev []) (nth (depth_index - 1) next_divided []) in
  snd (fold_left (fun st j =>
                    let '(scratch, scratches) := st in
                    let k := depth_index - 1 - j in
                    let scratch :=
                      tadd (nth j prev [])
                           (ta_ops.fused_product inverse scratch (nth k next_divided [])) in
                    (scratch, scratches ++ [scratch]))
                 (seq 1 (depth_index - 1)) (scratch, [scratch])).

(** [mult_fused_restricted_exp_backward]: the pair (grad_next, grad_prev)
    after the call.  The gradients of the scratches are allocated with
    [torch::empty_like]; [grad_next_divided.view({depth - 1, B * C})] times
    [reciprocals] is the sum over i of [reciprocals[i] * grad_next_divided[i]]. *)
Definition mult_fused_restricted_exp_backward (junk : K) (grad_next : tensor K)
           (grad_prev : talg K) (next : tensor K) (prev : talg K) (inverse : bool)
           (reciprocals : list K) : tensor K * talg K :=
  let input_channel_size := channel_size next in
  let depth := length prev in
  let next_divided := map (fun r => tscale r next) reciprocals in
  let all_scratches :=
    map (fused_scratches prev next_divided inverse) (rev (seq 1 (depth - 1))) in
  let grad_next_divided := map zero_ next_divided in
  let all_grad_scratches := map (map (map (map (fun _ => junk)))) all_scratches in
  let grad_next := nth 0 grad_prev [] in        (* grad_next.copy_(grad_prev[0]) *)
  let '(grad_next, grad_prev, grad_next_divided) :=
    fold_left
      (fun st depth_index =>
         let '(grad_next, grad_prev, grad_next_divided) := st in
         let back_index := length all_scratches - depth_index in
         let grad_scratches := nth back_index all_grad_scratches [] in
         let scratches := nth back_index all_scratches [] in
         let scratch := last scratches [] in
         let n := channel_size scratch in
         let grad_prev_view := nth depth_index grad_prev [] in
         let grad_scratches :=
           upd (length grad_scratches - 1)
               (if inverse then bmm 1 input_channel_size n next grad_prev_view
                else bmm n input_channel_size 1 grad_prev_view next)
               grad_scratches in
         let grad_next :=
           tadd grad_next
                (if inverse then bmm input_channel_size n 1 grad_prev_view scratch
                 else bmm 1 n input_channel_size scratch grad_prev_view) in
         let '(grad_prev, grad_next_divided, grad_scratches) :=
           fold_left
             (fun st j =>
                let '(grad_prev, grad_next_divided, grad_scratches) := st in
                let k := depth_index - 1 - j in
                let grad_scratch := nth j grad_scratches [] in
                let old_scratch := nth (j - 1) scratches [] in
                let next_divided_narrow := nth k next_divided [] in
                let m := channel_size old_scratch in
                let grad_prev := upd j (tadd (nth j grad_prev []) grad_scratch) grad_prev in
                let grad_scratches :=
                  upd (j - 1)
                      (if inverse
                       then bmm 1 input_channel_size m next_divided_narrow grad_scratch
                       else bmm m input_channel_size 1 grad_scratch next_divided_narrow)
                      grad_scratches in
                let grad_next_divided :=
                  upd k (tadd (nth k grad_next_divided [])
                              (if inverse
                               then bmm input_channel_size m 1 grad_scratch old_scratch
                               else bmm 1 m input_channel_size old_scratch grad_scratch))
                      grad_next_divided in
                (grad_prev, grad_next_divided, grad_scratches))
             (rev (seq 1 (depth_index - 1)))
             (grad_prev, grad_next_divided, grad_scratches) in
         let grad_next_divided :=
           upd (depth_index - 1)
               (tadd (nth (depth_index - 1) grad_next_divided []) (nth 0 grad_scratches []))
               grad_next_divided in
         let grad_prev :=
           upd 0 (tadd (nth 0 grad_prev []) (nth 0 grad_scratches [])) grad_prev in
         (grad_next, grad_prev, grad_next_divided))
      (seq 1 (depth - 1)) (grad_next, grad_prev, grad_next_divided) in
  let grad_next :=
    if 1 <? depth then
      fold_left (fun acc i =>
                   tadd acc (tscale (nth i reciprocals (fzero K))
                                    (nth i grad_next_divided [])))
                (seq 0 (depth - 1)) grad_next
    else grad_next in
  (grad_next, grad_prev).

End TaOpsBackward.
End ta_ops_backward.

Module signature_detail_backward.
Section DetailBackward.
Context {K : ExactField}.

(** [compute_path_increments_backward]: the pair (grad_path, grad_basepoint);
    without a basepoint the second tensor is [torch::empty({0}, opts)].
    [t[-1]] is the last entry along the stream axis. *)
Definition compute_path_increments_backward (junk : K) (grad_path_increments : Tensor K)
           (basepoint inverse : bool) (opts : TensorOptions) : Tensor K * Tensor K :=
  let batch_size := size grad_path_increments batch_dim in
  let input_stream_size := size grad_path_increments stream_dim in
  let input_channel_size := size grad_path_increments channel_dim in
  let input_stream_size := if basepoint then input_stream_size else input_stream_size + 1 in
  let num_increments := input_stream_size - 1 in
  let g := as3 grad_path_increments in
  if basepoint then
    if inverse then
      let grad_path := signature_detail.empty_like3 junk g in
      let grad_path :=
        signature_detail.write_narrow 0 (narrow 1 num_increments g) grad_path in
      let grad_path :=
        upd (length grad_path - 1) (zero_ (nth (length grad_path - 1) grad_path []))
            grad_path in
      let grad_path := tsub3 grad_path g in
      ({| sizes := sizes grad_path_increments; options := options grad_path_increments;
          data := D3 grad_path |},
       select grad_path_increments 0)
    else
      let grad_path := g in       (* grad_path_increments.clone() *)
      let grad_path :=
        signature_detail.write_narrow
          0 (tsub3 (narrow 0 num_increments grad_path) (narrow 1 num_increments g))
          grad_path in
      ({| sizes := sizes grad_path_increments; options := options grad_path_increments;
          data := D3 grad_path |},
       {| sizes := tl (sizes grad_path_increments); options := options grad_path_increments;
          data := D2 (tneg (nth 0 g [])) |})
  else
    let grad_path := empty3 junk input_stream_size batch_size input_channel_size in
    if inverse then
      let grad_path :=
        upd (length grad_path - 1) (zero_ (nth (length grad_path - 1) grad_path []))
            grad_path in
      let grad_path := signature_detail.write_narrow 0 g grad_path in
      let grad_path :=
        signature_detail.write_narrow 1 (tsub3 (narrow 1 num_increments grad_path) g)
                                      grad_path in
      ({| sizes := [input_stream_size; batch_size; input_channel_size]; options := opts;
          data := D3 grad_path |},
       {| sizes := [0]; options := opts; data := Dn [] |})
    else
      let grad_path := upd 0 (zero_ (nth 0 grad_path [])) grad_path in
      let grad_path := signature_detail.write_narrow 1 g grad_path in
      let grad_path :=
        signature_detail.write_narrow 0 (tsub3 (narrow 0 num_increments grad_path) g)
                                      grad_path in
      ({| sizes := [input_stream_size; batch_size; input_channel_size]; options := opts;
          data := D3 grad_path |},
       {| sizes := [0]; options := opts; data := Dn [] |}).

End DetailBackward.
End signature_detail_backward.

Section CombineBackward.
Context {K : ExactField}.

(** [signature_combine_backward]: [None] when it throws ("grad is of the
    wrong size."), else the pair (grad_arg1_inp, grad_arg2_inp).  The
    tensors are those of a call of [signature_combine_forward] that
    returned, so the views of [slice_by_term] tile the buffers. *)
Definition signature_combine_backward (grad arg1_inp arg2_inp : Tensor K)
           (input_channels : nat) (depth : Z) : option (Tensor K * Tensor K) :=
  if negb (size grad batch_dim =? size arg1_inp batch_dim)
     || negb (size grad channel_dim =? size arg1_inp channel_dim)
  then None
  else
    let depth_n := Z.to_nat depth in
    let grad_arg1_inp := as2 grad in                  (* grad.clone() *)
    let grad_arg2_inp := zero_ (as2 arg2_inp) in      (* torch::zeros_like(arg2_inp) *)
    let grad_arg1 := misc.slice_by_term grad_arg1_inp input_channels depth_n in
    let grad_arg2 := misc.slice_by_term grad_arg2_inp input_channels depth_n in
    let arg1 := misc.slice_by_term (as2 arg1_inp) input_channels depth_n in
    let arg2 := misc.slice_by_term (as2 arg2_inp) input_channels depth_n in
    let '(grad_arg1, grad_arg2) :=
      fold_left (fun grads depth_index =>
                   let '(grad_arg1, grad_arg2) := grads in
                   let grad_tensor_at_depth := nth depth_index grad_arg1 [] in
                   let grad_arg2 :=
                     upd depth_index (tadd (nth depth_index grad_arg2 []) grad_tensor_at_depth)
                         grad_arg2 in
                   ta_ops_backward.mult_inner_backward grad_arg1 grad_arg2 arg1 arg2
                                                       depth_index)
                (seq 0 depth_n) (grad_arg1, grad_arg2) in
    Some ({| sizes := sizes grad; options := options grad;
             data := D2 (misc.unslice grad_arg1) |},
          {| sizes := sizes arg2_inp; options := options arg2_inp;
             data := D2 (misc.unslice grad_arg2) |}).

End CombineBackward.

Section SignatureBackward.
Context {K : ExactField}.

(** What a (batch, W) buffer holds once [terms] have been written through
    the views that [slice_by_term] cut from it: per batch element the terms
    one after the other, then the channels that no view covers. *)
Definition write_through (buffer : tensor K) (terms : talg K) : tensor K :=
  map (fun batch_index =>
         let written := nth batch_index (misc.unslice terms) [] in
         written ++ skipn (length written) (nth batch_index buffer []))
      (seq 0 (length buffer)).

(** [signature_backward]: the triple (grad_path, grad_basepoint_value,
    grad_signature_at_stream).  [grad_signature_at_stream] is the clone the
    code makes, [grad_signature_by_term_at_stream] its views, cut again
    here whenever a kernel is given them; [signature_by_term_at_stream] are
    views of the saved signature under [stream] (cloned before the last
    step writes to them) and of a clone of it otherwise. *)
Definition signature_backward (junk : K) (grad_signature signature path_increments : Tensor K)
           (depth : Z) (stream basepoint inverse initial : bool)
  : Tensor K * Tensor K * Tensor K :=
  let opts := make_opts signature in
  let depth_n := Z.to_nat depth in
  let reciprocals := misc.make_reciprocals depth_n in
  let output_stream_size := size path_increments stream_dim in
  let input_channel_size := size path_increments channel_dim in
  let increments := as3 path_increments in
  let signature_by_term :=
    misc.slice_by_term_views 0 (Z.of_nat input_channel_size) (Z.of_nat input_channel_size)
                             depth_n in
  let grad_signature_at_stream :=
    if stream then nth (size grad_signature stream_dim - 1) (as3 grad_signature) []
    else as2 grad_signature in
  let signature_by_term_at_stream :=
    if stream then
      if output_stream_size <? 2
      then misc.slice_at_stream signature_by_term (as3 signature) 0
      else []
    else misc.slice_by_term (as2 signature) input_channel_size depth_n in
  let grad_path_increments := signature_detail.empty_like3 junk increments in
  let '(grad_path_increments, grad_signature_at_stream, signature_by_term_at_stream) :=
    fold_left
      (fun st stream_index =>
         let '(grad_path_increments, grad_signature_at_stream,
               signature_by_term_at_stream) := st in
         let grad_next := nth stream_index grad_path_increments [] in
         let next := nth stream_index increments [] in
         let signature_by_term_at_stream :=
           if stream then
             misc.slice_at_stream signature_by_term (as3 signature) (stream_index - 1)
           else
             ta_ops.mult_fused_restricted_exp (tneg next) signature_by_term_at_stream
                                              inverse reciprocals in
         let grad_signature_by_term_at_stream :=
           misc.slice_by_term grad_signature_at_stream input_channel_size depth_n in
         let '(grad_next, grad_signature_by_term_at_stream) :=
           ta_ops_backward.mult_fused_restricted_exp_backward
             junk grad_next grad_signature_by_term_at_stream next
             signature_by_term_at_stream inverse reciprocals in
         let grad_path_increments := upd stream_index grad_next grad_path_increments in
         let grad_signature_at_stream :=
           write_through grad_signature_at_stream grad_signature_by_term_at_stream in
         let grad_signature_at_stream :=
           if stream then
             tadd grad_signature_at_stream
                  (nth (stream_index - 1) (as3 grad_signature) [])
           else grad_signature_at_stream in
         (grad_path_increments, grad_signature_at_stream, signature_by_term_at_stream))
      (rev (seq 1 (output_stream_size - 1)))
      (grad_path_increments, grad_signature_at_stream, signature_by_term_at_stream) in
  let grad_next := nth 0 grad_path_increments [] in
  let next := nth 0 increments [] in
  let grad_signature_by_term_at_stream :=
    misc.slice_by_term grad_signature_at_stream input_channel_size depth_n in
  let '(grad_next, grad_signature_by_term_at_stream) :=
    if initial then
      let signature_by_term_at_stream :=
        ta_ops.mult_fused_restricted_exp (tneg next) signature_by_term_at_stream
                                         inverse reciprocals in
      ta_ops_backward.mult_fused_restricted_exp_backward
        junk grad_next grad_signature_by_term_at_stream next signature_by_term_at_stream
        inverse reciprocals
    else
      ta_ops_backward.restricted_exp_backward
        grad_next grad_signature_by_term_at_stream next signature_by_term_at_stream
        reciprocals in
  let grad_path_increments := upd 0 grad_next grad_path_increments in
  let grad_signature_at_stream :=
    write_through grad_signature_at_stream grad_signature_by_term_at_stream in
  let '(grad_path, grad_basepoint_value) :=
    signature_detail_backward.compute_path_increments_backward
      junk
      {| sizes := sizes path_increments; options := options path_increments;
         data := D3 grad_path_increments |}
      basepoint inverse opts in
  (grad_path, grad_basepoint_value,
   {| sizes := if stream then tl (sizes grad_signature) else sizes grad_signature;
      options := options grad_signature; data := D2 grad_signature_at_stream |}).

End SignatureBackward.

(** ** Products with a scalar term

    [mult_partial] and [mult_partial_backward] of namespace [ta_ops], the
    steps of the logarithm: [arg2] has the scalar term 0 and [arg1] the
    scalar term [scalar_term_value]. *)

Module ta_ops_partial.
Section TaOpsPartial.
Context {K : ExactField}.

(** [mult_partial]: for depth_index = depth - top_terms_to_skip - 1 down
    to 0, [arg1[depth_index]] is zeroed, given the sum of [mult_inner] and
    then [arg2[depth_index]] times the scalar ([add_] with [alpha]). *)
Definition mult_partial (arg1 arg2 : talg K) (scalar_term_value : K)
           (top_terms_to_skip : nat) : talg K :=
  let depth := length arg1 in
  fold_left (fun arg1 depth_index =>
               let arg1 := upd depth_index (zero_ (nth depth_index arg1 [])) arg1 in
               let tensor_at_depth := nth depth_index arg1 [] in
               let tensor_at_depth :=
                 ta_ops.mult_inner tensor_at_depth arg1 arg2 depth_index in
               upd depth_index
                   (tadd tensor_at_depth (tscale scalar_term_value (nth depth_index arg2 [])))
                   arg1)
            (rev (seq 0 (depth - top_terms_to_skip))) arg1.

(** [mult_partial_backward]: the pair (grad_arg1, grad_arg2) after the
    call; [arg1] is what [mult_partial] was given. *)
Definition mult_partial_backward (grad_arg1 grad_arg2 arg1 arg2 : talg K)
           (scalar_value_term : K) (top_terms_to_skip : nat) : talg K * talg K :=
  let depth := length arg1 in
  fold_left (fun grads depth_index =>
               let '(grad_arg1, grad_arg2) := grads in
               let grad_tensor_at_depth := nth depth_index grad_arg1 [] in
               let grad_arg2 :=
                 upd depth_index
                     (tadd (nth depth_index grad_arg2 [])
                           (tscale scalar_value_term grad_tensor_at_depth))
                     grad_arg2 in
               let '(grad_arg1, grad_arg2) :=
                 ta_ops_backward.mult_inner_backward grad_arg1 grad_arg2 arg1 arg2
                                                     depth_index in
               (upd depth_index (zero_ (nth depth_index grad_arg1 [])) grad_arg1, grad_arg2))
            (seq 0 (depth - top_terms_to_skip)) (grad_arg1, grad_arg2).

End TaOpsPartial.
End ta_ops_partial.

(** ** The logarithm

    [log] and [log_backward] of namespace [ta_ops].  [misc::is_even], which
    gives the signs of the coefficients, is not among the sources: the
    functions below take it as an argument, and what is proved of them holds
    for every such function.  A result of [None] stands for the exception
    that indexing [reciprocals] out of bounds throws. *)

Module ta_ops_log.
Section TaOpsLog.
Context {K : ExactField}.
Variable is_even : Z -> bool.

(** [t[index]] of a one-dimensional tensor: an index below 0 counts from
    the end. *)
Definition select_scalar (t : list K) (index : Z) : option K :=
  let size := Z.of_nat (length t) in
  if (index <? - size)%Z || (size <=? index)%Z then None
  else Some (nth (Z.to_nat (if (index <? 0)%Z then index + size else index)%Z) t (fzero K)).

(** [detail::log_coefficient_at_depth]. *)
Definition log_coefficient_at_depth (depth_index : Z) (reciprocals : list K) : option K :=
  match select_scalar reciprocals depth_index with
  | Some r => Some (fmul K (if is_even depth_index then fopp K (fone K) else fone K) r)
  | None => None
  end.

(** [log]: [output_vector] after the call. *)
Definition log (output_vector input_vector : talg K) (reciprocals : list K)
  : option (talg K) :=
  let depth := length input_vector in
  match log_coefficient_at_depth (Z.of_nat depth - 2) reciprocals with
  | None => None
  | Some coefficient =>
    let output_vector :=
      upd 0 (tscale coefficient (nth 0 input_vector [])) output_vector in
    match
      fold_left
        (fun st depth_index =>
           match st with
           | None => None
           | Some output_vector =>
             match log_coefficient_at_depth (Z.of_nat depth_index) reciprocals with
             | None => None
             | Some coefficient =>
               Some (ta_ops_partial.mult_partial output_vector input_vector coefficient
                                                 (depth_index + 1))
             end
           end)
        (rev (seq 0 (depth - 2))) (Some output_vector)
    with
    | None => None
    | Some output_vector =>
      Some (ta_ops_partial.mult_partial output_vector input_vector (fone K) 0)
    end
  end.

(** [log_backward]: the pair (grad_output_vector, grad_input_vector) after
    the call.  [scratch_vector] starts as clones of the input,
    [record_vector] gets a copy of it before every step of the logarithm
    and the vector itself after the last. *)
Definition log_backward (grad_output_vector grad_input_vector input_vector : talg K)
           (reciprocals : list K) : option (talg K * talg K) :=
  let depth := length input_vector in
  let scratch_vector := input_vector in
  match log_coefficient_at_depth (Z.of_nat depth - 2) reciprocals with
  | None => None
  | Some coefficient =>
    let scratch_vector :=
      upd 0 (tscale coefficient (nth 0 scratch_vector [])) scratch_vector in
    match
      fold_left
        (fun st depth_index =>
           match st with
           | None => None
           | Some (scratch_vector, record_vector) =>
             let record_vector := record_vector ++ [scratch_vector] in
             match log_coefficient_at_depth (Z.of_nat depth_index) reciprocals with
             | None => None
             | Some coefficient =>
               Some (ta_ops_partial.mult_partial scratch_vector input_vector coefficient
                                                 (depth_index + 1),
                     record_vector)
             end
           end)
        (rev (seq 0 (depth - 2))) (Some (scratch_vector, []))
    with
    | None => None
    | Some (scratch_vector, record_vector) =>
      let record_vector := record_vector ++ [scratch_vector] in
      let backward_index := length record_vector - 1 in
      let grads :=
        ta_ops_partial.mult_partial_backward grad_output_vector grad_input_vector
                                             (nth backward_index record_vector [])
                                             input_vector (fone K) 0 in
      match
        fold_left
          (fun st depth_index =>
             match st with
             | None => None
             | Some (grads, backward_index) =>
               let backward_index := backward_index - 1 in
               match log_coefficient_at_depth (Z.of_nat depth_index) reciprocals with
               | None => None
               | Some coefficient =>
                 Some (ta_ops_partial.mult_partial_backward
                         (fst grads) (snd grads) (nth backward_index record_vector [])
                         input_vector coefficient (depth_index + 1),
                       backward_index)
               end
             end)
          (seq 0 (depth - 2)) (Some (grads, backward_index))
      with
      | None => None
      | Some (grads, _) =>
        match log_coefficient_at_depth (Z.of_nat depth - 2) reciprocals with
        | None => None
        | Some coefficient =>
          let '(grad_output_vector, grad_input_vector) := grads in
          Some (grad_output_vector,
                upd 0 (tadd (nth 0 grad_input_vector [])
                            (tscale coefficient (nth 0 grad_output_vector [])))
                    grad_input_vector)
        end
      end
    end
  end.

End TaOpsLog.
End ta_ops_log.

(** ** Notions for the backward passes

    Pairings between gradients and perturbations, and the closed forms of
    the backward loops. *)

Section BackwardNotions.
Context {K : ExactField}.

Notation "0" := (fzero K) : field_scope.
Notation "1" := (fone K) : field_scope.
Infix "+" := (fadd K) : field_scope.
Infix "*" := (fmul K) : field_scope.
Infix "-" := (fsub K) : field_scope.
Infix "/" := (fdiv K) : field_scope.
Notation "- x" := (fopp K x) : field_scope.

Local Abbreviation vec := (vec K).
Local Abbreviation tensor := (tensor K).
Local Abbreviation tensor3 := (tensor3 K).
Local Abbreviation talg := (talg K).

Definition vdot (g x : vec) : K := ksum (fun i => (nth i g 0 * nth i x 0)%F) (length g).

Definition tdot (g x : tensor) : K := ksum (fun b => vdot (nth b g []) (nth b x [])) (length g).

(** The pairing of two members of the tensor algebra, term by term. *)
Definition adot (g a : talg) : K := ksum (fun t => tdot (nth t g []) (nth t a [])) (length g).

(** What iteration [j] of [mult_inner_backward] at depth [d] adds to
    [grad_arg1[j]], given the gradient [G] at depth [d]. *)
Definition grad_left (a b : talg) (G : tensor) (j d : nat) : tensor :=
  bmm (channel_size (nth j a [])) (channel_size (nth (d - 1 - j) b [])) 1
      G (nth (d - 1 - j) b []).

(** What the iteration with [k = d - 1 - j] adds to [grad_arg2[k]]. *)
Definition grad_right (a b : talg) (G : tensor) (k d : nat) : tensor :=
  bmm 1 (channel_size (nth (d - 1 - k) a [])) (channel_size (nth k b []))
      (nth (d - 1 - k) a []) G.

(** One iteration of the loop of [mult_inner_backward]. *)
Definition inner_backward_step (a b : talg) (d : nat) (grads : talg * talg) (j : nat)
  : talg * talg :=
  let '(grad_arg1, grad_arg2) := grads in
  let k := d - 1 - j in
  let out_view := nth d grad_arg1 [] in
  let m := channel_size (nth j a []) in
  let n := channel_size (nth k b []) in
  let grad_arg1 :=
    upd j (tadd (nth j grad_arg1 []) (bmm m n 1 out_view (nth k b []))) grad_arg1 in
  let grad_arg2 :=
    upd k (tadd (nth k grad_arg2 []) (bmm 1 m n (nth j a []) out_view)) grad_arg2 in
  (grad_arg1, grad_arg2).

(** The gradients that the sweep of [signature_combine_backward] (the loop
    of [mult]'s backward) leaves in the two vectors of views. *)
Definition sweep_left (a b g : talg) (t j : nat) : tensor :=
  tadd (nth j g []) (tsum (fun i => grad_left a b (nth (j + 1 + i) g []) j (j + 1 + i))
                          (t - 1 - j)).

Definition sweep_right (a b g z : talg) (t k : nat) : tensor :=
  tadd (tadd (nth k z []) (nth k g []))
       (tsum (fun i => grad_right a b (nth (k + 1 + i) g []) k (k + 1 + i)) (t - 1 - k)).

(** One iteration of the sweep. *)
Definition sweep_step (a b : talg) (grads : talg * talg) (depth_index : nat) : talg * talg :=
  let '(grad_arg1, grad_arg2) := grads in
  let grad_tensor_at_depth := nth depth_index grad_arg1 [] in
  let grad_arg2 :=
    upd depth_index (tadd (nth depth_index grad_arg2 []) grad_tensor_at_depth) grad_arg2 in
  ta_ops_backward.mult_inner_backward grad_arg1 grad_arg2 a b depth_index.

(** The polynomial functions of one variable. *)
Inductive poly : (K -> K) -> Prop :=
| poly_const (c : K) : poly (fun _ => c)
| poly_var : poly (fun t => t)
| poly_add (f g : K -> K) : poly f -> poly g -> poly (fun t => (f t + g t)%F)
| poly_mul (f g : K -> K) : poly f -> poly g -> poly (fun t => (f t * g t)%F)
| poly_ext (f g : K -> K) : (forall t, f t = g t) -> poly f -> poly g.

(** [phi t = a + t * b + t^2 * R t] with [R] a polynomial: [a] is the value
    of [phi] at 0 and [b] its derivative there. *)
Definition expands (phi : K -> K) (a b : K) : Prop :=
  exists R : K -> K, poly R /\ forall t, phi t = (a + t * b + t * t * R t)%F.

(** Entry [i] of batch element [b]. *)
Definition ent (x : tensor) (b i : nat) : K := nth i (nth b x []) 0%F.

(** A family of (B, n) tensors that expands, entry by entry, around [A]
    with derivative [T]. *)
Definition texp (B n : nat) (Phi : K -> tensor) (A T : tensor) : Prop :=
  (forall t, shaped B n (Phi t)) /\ shaped B n A /\ shaped B n T /\
  forall b i, b < B -> i < n ->
              expands (fun t => ent (Phi t) b i) (ent A b i) (ent T b i).

(** The same for a family of members of the tensor algebra. *)
Definition aexp (B C D : nat) (Phi : K -> talg) (A T : talg) : Prop :=
  (forall t, length (Phi t) = D) /\ length A = D /\ length T = D /\
  forall d, d < D ->
            texp B (C ^ (d + 1)) (fun t => nth d (Phi t) []) (nth d A []) (nth d T []).

(** The derivative of [xpow x k] along [dx]: the sum of the [k + 1]
    products with one factor [x] replaced by [dx]. *)
Fixpoint xpow_tangent (x dx : tensor) (k : nat) : tensor :=
  match k with
  | O => dx
  | S j => tadd (tmul_cr dx (xpow x j)) (tmul_cr x (xpow_tangent x dx j))
  end.

(** The derivative of term [k] of the restricted exponential. *)
Definition rexp_tangent (x dx : tensor) (r : list K) (k : nat) : tensor :=
  tscale (ecoef r k) (xpow_tangent x dx k).

(** One pass of the loop of [restricted_exp_backward]. *)
Definition rexp_backward_step (inp : tensor) (out : talg) (r : list K)
           (grads : tensor * talg) (i : nat) : tensor * talg :=
  let '(grad_in, grad_out) := grads in
  let grad_out :=
    upd (i + 1) (tscale (nth i r 0%F) (nth (i + 1) grad_out [])) grad_out in
  let view_grad_out := nth (i + 1) grad_out [] in
  let n := channel_size (nth i out []) in
  let grad_in := tadd grad_in (bmm (channel_size inp) n 1 view_grad_out (nth i out [])) in
  let grad_out :=
    upd i (tadd (nth i grad_out []) (bmm 1 (channel_size inp) n inp view_grad_out))
        grad_out in
  (grad_in, grad_out).

(** The derivative of [scratch_chain] along the direction [dx] of the
    increment and [dprev] of the running signature. *)
Fixpoint scratch_tangent (inverse : bool) (x dx : tensor) (r : list K) (prev dprev : talg)
         (d m : nat) : tensor :=
  match m with
  | O => tadd (nth 0 dprev []) (tscale (nth (d - 1) r 0%F) dx)
  | S j =>
    tadd (nth (S j) dprev [])
         (tadd (ta_ops.fused_product inverse (scratch_tangent inverse x dx r prev dprev d j)
                                     (tscale (nth (d - 1 - S j) r 0%F) x))
               (ta_ops.fused_product inverse (scratch_chain inverse x r prev d j)
                                     (tscale (nth (d - 1 - S j) r 0%F) dx)))
  end.

(** The derivative of term [d] of [mult_fused_restricted_exp]. *)
Definition fused_tangent (inverse : bool) (x dx : tensor) (r : list K) (prev dprev : talg)
           (d : nat) : tensor :=
  if d =? 0 then tadd (nth 0 dprev []) dx
  else tadd (nth d dprev [])
            (tadd (ta_ops.fused_product inverse
                     (scratch_tangent inverse x dx r prev dprev d (d - 1)) x)
                  (ta_ops.fused_product inverse (scratch_chain inverse x r prev d (d - 1)) dx)).

(** The pairing of a vector of gradients with a vector of directions. *)
Definition pair_terms (g : list tensor) (Y : nat -> tensor) (n : nat) : K :=
  ksum (fun i => tdot (nth i g []) (Y i)) n.

(** A vector of [n] tensors of shape (B, C). *)
Definition shaped_list (B C n : nat) (l : list tensor) : Prop :=
  length l = n /\ forall i, i < n -> shaped B C (nth i l []).

(** One pass of the inner loop. *)
Definition fused_backward_inner_step (inverse : bool) (next : tensor)
           (next_divided scratches : list tensor) (depth_index : nat)
           (st : talg * list tensor * list tensor) (j : nat)
  : talg * list tensor * list tensor :=
  let '(grad_prev, grad_next_divided, grad_scratches) := st in
  let k := depth_index - 1 - j in
  let grad_scratch := nth j grad_scratches [] in
  let old_scratch := nth (j - 1) scratches [] in
  let next_divided_narrow := nth k next_divided [] in
  let m := channel_size old_scratch in
  let grad_prev := upd j (tadd (nth j grad_prev []) grad_scratch) grad_prev in
  let grad_scratches :=
    upd (j - 1)
        (if inverse then bmm 1 (channel_size next) m next_divided_narrow grad_scratch
         else bmm m (channel_size next) 1 grad_scratch next_divided_narrow)
        grad_scratches in
  let grad_next_divided :=
    upd k (tadd (nth k grad_next_divided [])
                (if inverse then bmm (channel_size next) m 1 grad_scratch old_scratch
                 else bmm 1 m (channel_size next) old_scratch grad_scratch))
        grad_next_divided in
  (grad_prev, grad_next_divided, grad_scratches).

(** One pass of the outer loop. *)
Definition fused_backward_outer_step (inverse : bool) (next : tensor)
           (next_divided : list tensor) (all_scratches all_grad_scratches : list (list tensor))
           (st : tensor * talg * list tensor) (depth_index : nat)
  : tensor * talg * list tensor :=
  let '(grad_next, grad_prev, grad_next_divided) := st in
  let back_index := length all_scratches - depth_index in
  let grad_scratches := nth back_index all_grad_scratches [] in
  let scratches := nth back_index all_scratches [] in
  let scratch := last scratches [] in
  let n := channel_size scratch in
  let grad_prev_view := nth depth_index grad_prev [] in
  let grad_scratches :=
    upd (length grad_scratches - 1)
        (if inverse then bmm 1 (channel_size next) n next grad_prev_view
         else bmm n (channel_size next) 1 grad_prev_view next)
        grad_scratches in
  let grad_next :=
    tadd grad_next
         (if inverse then bmm (channel_size next) n 1 grad_prev_view scratch
          else bmm 1 n (channel_size next) scratch grad_prev_view) in
  let '(grad_prev, grad_next_divided, grad_scratches) :=
    fold_left (fused_backward_inner_step inverse next next_divided scratches depth_index)
              (rev (seq 1 (depth_index - 1)))
              (grad_prev, grad_next_divided, grad_scratches) in
  let grad_next_divided :=
    upd (depth_index - 1)
        (tadd (nth (depth_index - 1) grad_next_divided []) (nth 0 grad_scratches []))
        grad_next_divided in
  let grad_prev :=
    upd 0 (tadd (nth 0 grad_prev []) (nth 0 grad_scratches [])) grad_prev in
  (grad_next, grad_prev, grad_next_divided).

(** The directions the vector [grad_prev] is paired with once the outer loop
    has passed [m]: the directions of [prev] up to [m], the derivative of
    the kernel above. *)
Definition mixed_directions (inverse : bool) (x dx : tensor) (r : list K) (prev dprev : talg)
           (m i : nat) : tensor :=
  if i <=? m then nth i dprev [] else fused_tangent inverse x dx r prev dprev i.

(** The member [a + t da] of the tensor algebra. *)
Definition aline (a da : talg) (t : K) : talg :=
  zipw (fun p d => tadd p (tscale t d)) a da.

(** The pairing of two (stream, batch, channel) tensors. *)
Definition tdot3 (g x : tensor3) : K :=
  ksum (fun s => tdot (nth s g []) (nth s x [])) (length g).

(** The signature after the increments 0, ..., [s]. *)
Fixpoint sig_at (inverse initial : bool) (r : list K) (C D : nat) (iv : tensor)
         (increments : tensor3) (s : nat) : talg :=
  match s with
  | O => first_signature inverse initial r C D iv (nth 0 increments [])
  | S s' => ta_ops.mult_fused_restricted_exp
              (nth s increments [])
              (sig_at inverse initial r C D iv increments s') inverse r
  end.

(** The derivative of the first signature in the direction [dx] of the
    increment and [div] of the initial value. *)
Definition first_tangent (inverse initial : bool) (r : list K) (C D : nat)
           (iv div x dx : tensor) : talg :=
  if initial then
    map (fused_tangent inverse x dx r (misc.slice_by_term iv C D)
                       (misc.slice_by_term div C D)) (seq 0 D)
  else map (rexp_tangent x dx r) (seq 0 D).

(** The derivative of [sig_at] in the direction [dincrements], [div]. *)
Fixpoint tan_at (inverse initial : bool) (r : list K) (C D : nat) (iv div : tensor)
         (increments dincrements : tensor3) (s : nat) : talg :=
  match s with
  | O => first_tangent inverse initial r C D iv div (nth 0 increments [])
                       (nth 0 dincrements [])
  | S s' => map (fused_tangent inverse (nth s increments []) (nth s dincrements []) r
                               (sig_at inverse initial r C D iv increments s')
                               (tan_at inverse initial r C D iv div increments dincrements s'))
                (seq 0 D)
  end.

(** The path increments [x + t dx], entry by entry. *)
Definition line3 (x dx : tensor3) (t : K) : tensor3 :=
  zipw (fun a d => tadd a (tscale t d)) x dx.

(** One turn of the loop of [signature_backward] over the stream, on
    (grad_path_increments, grad_signature_at_stream,
    signature_by_term_at_stream). *)
Definition backward_step (junk : K) (stream inverse : bool) (reciprocals : list K)
           (input_channel_size depth_n : nat) (signature_by_term : list (Z * Z))
           (signature grad_signature increments : tensor3)
           (st : tensor3 * tensor * talg) (stream_index : nat) : tensor3 * tensor * talg :=
  let '(grad_path_increments, grad_signature_at_stream, signature_by_term_at_stream) := st in
  let grad_next := nth stream_index grad_path_increments [] in
  let next := nth stream_index increments [] in
  let signature_by_term_at_stream :=
    if stream then misc.slice_at_stream signature_by_term signature (stream_index - 1)
    else ta_ops.mult_fused_restricted_exp (tneg next) signature_by_term_at_stream
                                          inverse reciprocals in
  let grad_signature_by_term_at_stream :=
    misc.slice_by_term grad_signature_at_stream input_channel_size depth_n in
  let '(grad_next, grad_signature_by_term_at_stream) :=
    ta_ops_backward.mult_fused_restricted_exp_backward
      junk grad_next grad_signature_by_term_at_stream next signature_by_term_at_stream
      inverse reciprocals in
  let grad_path_increments := upd stream_index grad_next grad_path_increments in
  let grad_signature_at_stream :=
    write_through grad_signature_at_stream grad_signature_by_term_at_stream in
  let grad_signature_at_stream :=
    if stream then
      tadd grad_signature_at_stream (nth (stream_index - 1) grad_signature [])
    else grad_signature_at_stream in
  (grad_path_increments, grad_signature_at_stream, signature_by_term_at_stream).

(** The directions of the increments past [m]; the gradients of the others
    are not yet computed and are paired with nothing. *)
Definition above (m : nat) (dincrements : tensor3) (s : nat) : tensor :=
  if m <? s then nth s dincrements [] else [].

(** What holds of the state of the loop once the increments past [m] are
    done: [total] is the derivative of the pairing of the incoming gradient
    with the signature. *)
Definition backward_inv (B C D S : nat) (stream inverse initial : bool) (r : list K)
           (iv div : tensor) (incs dincs G3 : tensor3) (total : K) (m : nat)
           (st : tensor3 * tensor * talg) : Prop :=
  let '(gpi, gsas, at_stream) := st in
  length gpi = S /\ shaped B (span C C D) gsas /\
  (forall s, m < s -> s < S -> shaped B C (nth s gpi [])) /\
  (stream = false \/ m < S - 1 \/ S < 2 ->
   at_stream = sig_at inverse initial r C D iv incs m) /\
  (ksum (fun s => tdot (nth s gpi []) (above m dincs s)) S
   + tdot gsas (misc.unslice (tan_at inverse initial r C D iv div incs dincs m))
   + (if stream
      then ksum (fun s => tdot (nth s G3 [])
                               (misc.unslice (tan_at inverse initial r C D iv div incs dincs s)))
                m
      else 0)
   = total)%F.

(** The sum over all entries of a gradient times a signature of its shape. *)
Definition pair_signature (grad signature : Tensor K) : K :=
  match data grad with
  | D3 g => tdot3 g (as3 signature)
  | D2 g => tdot g (as2 signature)
  | Dn _ => 0%F
  end.

(** The same for what [signature_forward] returns. *)
Definition pair_forward (grad : Tensor K) (returned : result (Tensor K * Tensor K)) : K :=
  match returned with
  | Ok (signature, _) => pair_signature grad signature
  | _ => 0%F
  end.

(** The path [path + t dp] and the basepoint or initial value [x + t d]. *)
Definition path_along (path : Tensor K) (dp : tensor3) (t : K) : Tensor K :=
  {| sizes := sizes path; options := options path; data := D3 (line3 (as3 path) dp t) |}.

Definition value_along (x : Tensor K) (d : tensor) (t : K) : Tensor K :=
  {| sizes := sizes x; options := options x; data := D2 (tadd (as2 x) (tscale t d)) |}.

(** Term [d] of [mult_partial] as its loop leaves it. *)
Definition partial_term (a b : talg) (s : K) (d : nat) : tensor :=
  tadd (tadd (zero_ (nth d a [])) (tsum (fun j => tmul_cr (nth j a []) (nth (d - 1 - j) b [])) d))
       (tscale s (nth d b [])).

(** The derivative of term [d] of [mult_partial], [T] being the number of
    terms that it computes. *)
Definition partial_tangent (a b da db : talg) (s : K) (T d : nat) : tensor :=
  if d <? T then
    tadd (tadd (zero_ (nth d a []))
               (tsum (fun j => tadd (tmul_cr (nth j da []) (nth (d - 1 - j) b []))
                                    (tmul_cr (nth j a []) (nth (d - 1 - j) db []))) d))
         (tscale s (nth d db []))
  else nth d da [].

(** One turn of the loop of [mult_partial_backward]. *)
Definition partial_backward_step (arg1 arg2 : talg) (scalar_value_term : K)
           (grads : talg * talg) (depth_index : nat) : talg * talg :=
  let '(grad_arg1, grad_arg2) := grads in
  let grad_tensor_at_depth := nth depth_index grad_arg1 [] in
  let grad_arg2 :=
    upd depth_index
        (tadd (nth depth_index grad_arg2 []) (tscale scalar_value_term grad_tensor_at_depth))
        grad_arg2 in
  let '(grad_arg1, grad_arg2) :=
    ta_ops_backward.mult_inner_backward grad_arg1 grad_arg2 arg1 arg2 depth_index in
  (upd depth_index (zero_ (nth depth_index grad_arg1 [])) grad_arg1, grad_arg2).

(** The directions that pair with [grad_arg1] once the loop has done the
    terms below [n]. *)
Definition partial_directions (a b da db : talg) (s : K) (T n i : nat) : tensor :=
  if i <? n then nth i da [] else partial_tangent a b da db s T i.

(** The coefficient that [log_coefficient_at_depth] returns at an index
    within [reciprocals]. *)
Definition log_coef (is_even : Z -> bool) (r : list K) (i : nat) : K :=
  ((if is_even (Z.of_nat i) then - (1) else 1) * nth i r 0)%F.

(** What [log] holds in [output_vector] after [k] of its steps with
    [mult_partial], on an input of depth [D]. *)
Fixpoint horner (is_even : Z -> bool) (r : list K) (D : nat) (x out : talg) (k : nat) : talg :=
  match k with
  | O => upd 0 (tscale (log_coef is_even r (D - 2)) (nth 0 x [])) out
  | S k' => ta_ops_partial.mult_partial (horner is_even r D x out k') x
                                        (log_coef is_even r (D - 3 - k')) (D - 2 - k')
  end.

(** The derivative of [horner] in the direction [dx] of the input. *)
Fixpoint horner_tangent (is_even : Z -> bool) (r : list K) (D : nat) (x dx out : talg)
         (k : nat) : talg :=
  match k with
  | O => upd 0 (tscale (log_coef is_even r (D - 2)) (nth 0 dx [])) (map zero_ out)
  | S k' => map (partial_tangent (horner is_even r D x out k') x
                                 (horner_tangent is_even r D x dx out k') dx
                                 (log_coef is_even r (D - 3 - k')) (D - (D - 2 - k')))
                (seq 0 D)
  end.

(** The pair (grad_output_vector, grad_input_vector) of [log_backward]
    after its first call of [mult_partial_backward] and [m] rounds of its
    loop, on an input of depth [D]. *)
Fixpoint log_grads (is_even : Z -> bool) (r : list K) (D : nat) (x G gin : talg) (m : nat)
  : talg * talg :=
  match m with
  | O => ta_ops_partial.mult_partial_backward G gin (horner is_even r D x x (D - 2)) x 1%F 0
  | S m' =>
    let g := log_grads is_even r D x G gin m' in
    ta_ops_partial.mult_partial_backward (fst g) (snd g) (horner is_even r D x x (D - 3 - m')) x
                                         (log_coef is_even r m') (m' + 1)
  end.

(** The derivative of [log] in the direction [dx] of the input. *)
Definition log_tangent (is_even : Z -> bool) (r : list K) (D : nat) (x dx : talg) : talg :=
  map (partial_tangent (horner is_even r D x x (D - 2)) x
                       (horner_tangent is_even r D x dx x (D - 2)) dx 1%F D) (seq 0 D).

(** The value of [log] paired with [G]; 0 where [log] throws. *)
Definition pair_log (G : talg) (result : option talg) : K :=
  match result with
  | Some y => adot G y
  | None => 0%F
  end.

End BackwardNotions.

(** * Lemmas *)

(** * Lists *)

Section ListFacts.
Context {A : Type}.

Lemma upd_length (i : nat) (x : A) (l : list A) : length (upd i x l) = length l.
Proof. revert i; induction l; intros [|i]; simpl; auto. Qed.

Lemma nth_upd_same (i : nat) (x d : A) (l : list A) :
  i < length l -> nth i (upd i x l) d = x.
Proof. revert i; induction l; intros [|i] H; simpl in *; try lia; auto. apply IHl; lia. Qed.

Lemma nth_upd_other (i j : nat) (x d : A) (l : list A) :
  i <> j -> nth j (upd i x l) d = nth j l d.
Proof.
  revert i j; induction l; intros [|i] [|j] H; simpl; auto; try congruence.
Qed.

Lemma zip_pad_nil_r (f : A -> A -> A) (a : list A) : zip_pad f a [] = a.
Proof. destruct a; reflexivity. Qed.

Lemma zip_pad_comm (f : A -> A -> A) :
  (forall x y, f x y = f y x) -> forall a b, zip_pad f a b = zip_pad f b a.
Proof.
  intros Hf; induction a; intros [|y b]; simpl; auto. rewrite Hf, IHa; reflexivity.
Qed.

Lemma zip_pad_assoc (f : A -> A -> A) :
  (forall x y z, f (f x y) z = f x (f y z)) ->
  forall a b c, zip_pad f (zip_pad f a b) c = zip_pad f a (zip_pad f b c).
Proof.
  intros Hf; induction a; intros [|y b] [|z c]; simpl; auto.
  rewrite Hf, IHa; reflexivity.
Qed.

Lemma zip_pad_app (f : A -> A -> A) (a b a' b' : list A) :
  length a = length b ->
  zip_pad f (a ++ a') (b ++ b') = zip_pad f a b ++ zip_pad f a' b'.
Proof.
  revert b; induction a; intros [|y b] H; simpl in *; try discriminate; auto.
  rewrite IHa; auto.
Qed.

Lemma zip_pad_length (f : A -> A -> A) (a b : list A) :
  length (zip_pad f a b) = Nat.max (length a) (length b).
Proof. revert b; induction a; intros [|y b]; simpl; auto. Qed.

Lemma nth_zip_pad (f : A -> A -> A) (e : A) :
  (forall x, f e x = x) -> (forall x, f x e = x) ->
  forall a b i, nth i (zip_pad f a b) e = f (nth i a e) (nth i b e).
Proof.
  intros Hl Hr; induction a; intros [|y b] [|i]; simpl; auto.
Qed.

End ListFacts.

Section ZipFacts.
Context {A B C : Type}.

Lemma zipw_length (f : A -> B -> C) (a : list A) (b : list B) :
  length (zipw f a b) = Nat.min (length a) (length b).
Proof. revert b; induction a; intros [|y b]; simpl; auto. Qed.

Lemma zipw_nil_r (f : A -> B -> C) (a : list A) : zipw f a [] = [].
Proof. destruct a; reflexivity. Qed.

Lemma zipw_ext (f g : A -> B -> C) (a : list A) (b : list B) :
  (forall x y, In x a -> In y b -> f x y = g x y) -> zipw f a b = zipw g a b.
Proof.
  revert b; induction a; intros [|y b] H; simpl; auto.
  f_equal; [apply H; simpl; auto | apply IHa; intros; apply H; simpl; auto].
Qed.

Lemma zipw_swap (f : A -> B -> C) (g : B -> A -> C) :
  (forall x y, f x y = g y x) -> forall a b, zipw f a b = zipw g b a.
Proof. intros H; induction a; intros [|y b]; simpl; auto. rewrite H, IHa; auto. Qed.

Lemma nth_zipw (f : A -> B -> C) (da : A) (db : B) (dc : C) (a : list A) (b : list B) (i : nat) :
  i < length a -> i < length b ->
  nth i (zipw f a b) dc = f (nth i a da) (nth i b db).
Proof.
  revert b i; induction a; intros [|y b] [|i] Ha Hb; simpl in *; try lia; auto.
  apply IHa; lia.
Qed.

End ZipFacts.

(** * The algebra of tensors *)

Section Algebra.
Context {K : ExactField}.
Add Field Kfield : (field_laws K).

Notation "0" := (fzero K) : field_scope.
Notation "1" := (fone K) : field_scope.
Infix "+" := (fadd K) : field_scope.
Infix "*" := (fmul K) : field_scope.
Infix "-" := (fsub K) : field_scope.
Infix "/" := (fdiv K) : field_scope.
Notation "- x" := (fopp K x) : field_scope.

Local Abbreviation vec := (vec K).
Local Abbreviation tensor := (tensor K).

(** ** Rows *)

Lemma vadd_comm (a b : vec) : vadd a b = vadd b a.
Proof. apply zip_pad_comm; intros; ring. Qed.

Lemma vadd_assoc (a b c : vec) : vadd (vadd a b) c = vadd a (vadd b c).
Proof. apply zip_pad_assoc; intros; ring. Qed.

Lemma vadd_nil_r (a : vec) : vadd a [] = a.
Proof. apply zip_pad_nil_r. Qed.

Lemma bmul_rc_cr (row col : vec) : bmul_rc row col = bmul_cr col row.
Proof.
  unfold bmul_rc, bmul_cr. apply flat_map_ext; intros p. apply map_ext; intros; ring.
Qed.

Lemma bmul_cr_cons (x : K) (a b : vec) :
  bmul_cr (x :: a) b = map (fun q => (x * q)%F) b ++ bmul_cr a b.
Proof. reflexivity. Qed.

Lemma bmul_cr_app (a a' b : vec) : bmul_cr (a ++ a') b = bmul_cr a b ++ bmul_cr a' b.
Proof. unfold bmul_cr. apply flat_map_app. Qed.

Lemma bmul_cr_nil_r (a : vec) : bmul_cr a [] = [].
Proof. induction a; simpl; auto. Qed.

Lemma bmul_cr_length (a b : vec) : length (bmul_cr a b) = length a * length b.
Proof.
  induction a as [|x a IH]; [reflexivity|].
  rewrite bmul_cr_cons, length_app, length_map, IH. reflexivity.
Qed.

Lemma bmul_cr_map_l (x : K) (b c : vec) :
  bmul_cr (map (fun q => (x * q)%F) b) c = map (fun q => (x * q)%F) (bmul_cr b c).
Proof.
  induction b; [reflexivity|]. cbn [map]. rewrite !bmul_cr_cons, map_app, IHb, map_map.
  f_equal. apply map_ext; intros; ring.
Qed.

Lemma bmul_cr_assoc (a b c : vec) : bmul_cr (bmul_cr a b) c = bmul_cr a (bmul_cr b c).
Proof.
  induction a; [reflexivity|].
  rewrite !bmul_cr_cons, bmul_cr_app, IHa, bmul_cr_map_l. reflexivity.
Qed.

Lemma map_scal_vadd (x y : K) (b : vec) :
  map (fun q => ((x + y) * q)%F) b = vadd (map (fun q => (x * q)%F) b) (map (fun q => (y * q)%F) b).
Proof. induction b; simpl; auto. unfold vadd in *. simpl. rewrite IHb. f_equal; ring. Qed.

Lemma bmul_cr_vadd_l (a a' b : vec) :
  bmul_cr (vadd a a') b = vadd (bmul_cr a b) (bmul_cr a' b).
Proof.
  revert a'; induction a as [|x a IH]; intros [|y a'].
  - reflexivity.
  - reflexivity.
  - rewrite !vadd_nil_r. reflexivity.
  - change (vadd (x :: a) (y :: a')) with ((x + y)%F :: vadd a a').
    rewrite !bmul_cr_cons, IH, map_scal_vadd. unfold vadd.
    rewrite zip_pad_app; auto. rewrite !length_map; reflexivity.
Qed.

Lemma map_vadd (x : K) (b b' : vec) :
  map (fun q => (x * q)%F) (vadd b b') = vadd (map (fun q => (x * q)%F) b) (map (fun q => (x * q)%F) b').
Proof.
  revert b'; induction b; intros [|y b']; simpl; auto.
  unfold vadd in *; simpl. rewrite IHb. f_equal; ring.
Qed.

Lemma bmul_cr_vadd_r (a b b' : vec) :
  length b = length b' ->
  bmul_cr a (vadd b b') = vadd (bmul_cr a b) (bmul_cr a b').
Proof.
  intros H; induction a; [reflexivity|].
  rewrite !bmul_cr_cons, IHa, map_vadd. unfold vadd.
  rewrite zip_pad_app; auto. rewrite !length_map; auto.
Qed.

Lemma vadd_length (a b : vec) : length (vadd a b) = Nat.max (length a) (length b).
Proof. apply zip_pad_length. Qed.

Lemma bmul_cr_scale_l (s : K) (a b : vec) :
  bmul_cr (map (fun v => (v * s)%F) a) b = map (fun v => (v * s)%F) (bmul_cr a b).
Proof.
  induction a; [reflexivity|]. cbn [map]. rewrite !bmul_cr_cons, map_app, IHa, map_map.
  f_equal. apply map_ext; intros; ring.
Qed.

Lemma bmul_cr_scale_r (s : K) (a b : vec) :
  bmul_cr a (map (fun v => (v * s)%F) b) = map (fun v => (v * s)%F) (bmul_cr a b).
Proof.
  induction a; [reflexivity|]. rewrite !bmul_cr_cons, map_app, IHa, !map_map.
  f_equal. apply map_ext; intros; ring.
Qed.

Lemma bmul_cr_one_r (a : vec) : bmul_cr a [1%F] = a.
Proof. induction a; [reflexivity|]. rewrite bmul_cr_cons, IHa. simpl. f_equal; ring. Qed.

Lemma bmul_cr_one_l (a : vec) : bmul_cr [1%F] a = a.
Proof.
  rewrite bmul_cr_cons. simpl. rewrite app_nil_r.
  rewrite <- (map_id a) at 2. apply map_ext; intros; ring.
Qed.

End Algebra.

Section TensorAlgebra.
Context {K : ExactField}.
Add Field Kfield2 : (field_laws K).

Notation "0" := (fzero K) : field_scope.
Notation "1" := (fone K) : field_scope.
Infix "+" := (fadd K) : field_scope.
Infix "*" := (fmul K) : field_scope.
Infix "-" := (fsub K) : field_scope.
Infix "/" := (fdiv K) : field_scope.
Notation "- x" := (fopp K x) : field_scope.

Local Abbreviation vec := (vec K).
Local Abbreviation tensor := (tensor K).
Local Abbreviation talg := (talg K).

(** ** Shapes *)

(** ** Batches of rows *)

Lemma tadd_comm (a b : tensor) : tadd a b = tadd b a.
Proof. apply zip_pad_comm. apply vadd_comm. Qed.

Lemma tadd_assoc (a b c : tensor) : tadd (tadd a b) c = tadd a (tadd b c).
Proof. apply zip_pad_assoc. apply vadd_assoc. Qed.

Lemma tadd_nil_l (a : tensor) : tadd [] a = a.
Proof. reflexivity. Qed.

Lemma tadd_nil_r (a : tensor) : tadd a [] = a.
Proof. apply zip_pad_nil_r. Qed.

Lemma tmul_rc_cr (row col : tensor) : tmul_rc row col = tmul_cr col row.
Proof. apply zipw_swap. apply bmul_rc_cr. Qed.

Lemma tmul_cr_nil_l (a : tensor) : tmul_cr [] a = [].
Proof. reflexivity. Qed.

Lemma tmul_cr_nil_r (a : tensor) : tmul_cr a [] = [].
Proof. apply zipw_nil_r. Qed.

Lemma tmul_cr_assoc (a b c : tensor) :
  tmul_cr (tmul_cr a b) c = tmul_cr a (tmul_cr b c).
Proof.
  revert b c; induction a as [|x a IH]; intros [|y b] [|z c]; try reflexivity.
  cbn [tmul_cr zipw]. f_equal; [apply bmul_cr_assoc | apply IH].
Qed.

Lemma tmul_cr_tadd_l (a a' b : tensor) :
  tmul_cr (tadd a a') b = tadd (tmul_cr a b) (tmul_cr a' b).
Proof.
  revert a' b; induction a as [|x a IH]; intros [|y a'] [|z b]; try reflexivity.
  cbn [tadd zip_pad tmul_cr zipw].
  f_equal; [apply bmul_cr_vadd_l | apply IH].
Qed.

Lemma tmul_cr_tadd_r (B n : nat) (a b b' : tensor) :
  zshaped B n b -> zshaped B n b' ->
  tmul_cr a (tadd b b') = tadd (tmul_cr a b) (tmul_cr a b').
Proof.
  intros [-> | [Hb Fb]] [-> | [Hb' Fb']].
  - rewrite !tmul_cr_nil_r. reflexivity.
  - rewrite tmul_cr_nil_r. reflexivity.
  - rewrite tadd_nil_r, tmul_cr_nil_r, tadd_nil_r. reflexivity.
  - subst B. revert a b' Hb' Fb'. induction b as [|y b IH]; intros [|x a] [|y' b'] Hb' Fb';
      try reflexivity; try discriminate.
    cbn [tadd zip_pad tmul_cr zipw]. inversion Fb; inversion Fb'; subst.
    f_equal.
    + apply bmul_cr_vadd_r. congruence.
    + apply IH; auto.
Qed.

Lemma shaped_tadd (B n : nat) (a b : tensor) :
  shaped B n a -> shaped B n b -> shaped B n (tadd a b).
Proof.
  intros [Ha Fa] [Hb Fb]. subst B. revert b Hb Fb.
  induction a as [|x a IH]; intros [|y b] Hb Fb; try discriminate.
  - split; auto.
  - inversion Fa; inversion Fb; subst. cbn [tadd zip_pad].
    destruct (IH H2 b) as [L F]; auto.
    split; [simpl; f_equal; exact L|].
    constructor; auto. rewrite vadd_length. lia.
Qed.

Lemma zshaped_tadd (B n : nat) (a b : tensor) :
  zshaped B n a -> zshaped B n b -> zshaped B n (tadd a b).
Proof.
  intros [-> | Ha] [-> | Hb].
  - left; reflexivity.
  - right; exact Hb.
  - rewrite tadd_nil_r. right; exact Ha.
  - right; apply shaped_tadd; auto.
Qed.

Lemma shaped_tmul_cr (B m n : nat) (a b : tensor) :
  shaped B m a -> shaped B n b -> shaped B (m * n) (tmul_cr a b).
Proof.
  intros [Ha Fa] [Hb Fb]. subst B. revert b Hb Fb.
  induction a as [|x a IH]; intros [|y b] Hb Fb; try discriminate.
  - split; auto.
  - inversion Fa; inversion Fb; subst. cbn [tmul_cr zipw].
    destruct (IH H2 b) as [L F]; auto.
    split; [simpl; f_equal; exact L|].
    constructor; auto. apply bmul_cr_length.
Qed.

Lemma zshaped_tmul_cr (B m n : nat) (a b : tensor) :
  zshaped B m a -> zshaped B n b -> zshaped B (m * n) (tmul_cr a b).
Proof.
  intros [-> | Ha] [-> | Hb].
  - left; reflexivity.
  - left; reflexivity.
  - left; apply tmul_cr_nil_r.
  - right; apply shaped_tmul_cr; auto.
Qed.

Lemma shaped_tscale (B n : nat) (s : K) (a : tensor) :
  shaped B n a -> shaped B n (tscale s a).
Proof.
  intros [Ha Fa]; split; unfold tscale.
  - rewrite length_map; auto.
  - rewrite Forall_map. eapply Forall_impl; [|exact Fa]. intros r Hr; cbn.
    rewrite length_map; auto.
Qed.

Lemma tscale_tmul_l (s : K) (a b : tensor) :
  tmul_cr (tscale s a) b = tscale s (tmul_cr a b).
Proof.
  revert b; induction a as [|x a IH]; intros [|y b]; try reflexivity.
  cbn [tscale map tmul_cr zipw]. f_equal; [apply bmul_cr_scale_l | apply IH].
Qed.

Lemma tscale_tmul_r (s : K) (a b : tensor) :
  tmul_cr a (tscale s b) = tscale s (tmul_cr a b).
Proof.
  revert b; induction a as [|x a IH]; intros [|y b]; try reflexivity.
  cbn [tscale map tmul_cr zipw]. f_equal; [apply bmul_cr_scale_r | apply IH].
Qed.

Lemma tscale_tscale (s t : K) (a : tensor) :
  tscale s (tscale t a) = tscale (t * s)%F a.
Proof.
  unfold tscale. rewrite map_map. apply map_ext; intros r. rewrite map_map.
  apply map_ext; intros; ring.
Qed.

Lemma tscale_one (a : tensor) : tscale 1%F a = a.
Proof.
  unfold tscale. rewrite <- (map_id a) at 2. apply map_ext; intros r.
  rewrite <- (map_id r) at 2. apply map_ext; intros; ring.
Qed.

Lemma tscale_ext (s t : K) (a : tensor) : s = t -> tscale s a = tscale t a.
Proof. intros ->; reflexivity. Qed.

(** Sums of two multiples of one tensor. *)
Lemma tscale_plus (s t : K) (a : tensor) :
  tadd (tscale s a) (tscale t a) = tscale (s + t)%F a.
Proof.
  induction a as [|r a IH]; [reflexivity|].
  cbn [tscale map tadd zip_pad]. f_equal; [|exact IH].
  clear. induction r as [|v r IH]; [reflexivity|].
  cbn [map]. change (vadd ?a ?b) with (zip_pad (fadd K) a b). cbn [zip_pad].
  f_equal; [ring | exact IH].
Qed.

Lemma tscale_tadd (s : K) (a b : tensor) :
  tscale s (tadd a b) = tadd (tscale s a) (tscale s b).
Proof.
  revert b; induction a as [|x a IH]; intros [|y b]; try reflexivity.
  cbn [tadd zip_pad tscale map]. f_equal; [|apply IH].
  clear. revert y; induction x as [|v x IH]; intros [|w y]; try reflexivity.
  change (vadd ?a ?b) with (zip_pad (fadd K) a b). cbn [zip_pad map].
  f_equal; [ring | apply IH].
Qed.

(** ** Finite sums *)

Lemma tsum_ext (f g : nat -> tensor) (n : nat) :
  (forall i, i < n -> f i = g i) -> tsum f n = tsum g n.
Proof.
  induction n as [|n IH]; intros H; [reflexivity|].
  cbn [tsum]. rewrite IH, H; auto.
Qed.

Lemma tsum_add (f g : nat -> tensor) (n : nat) :
  tsum (fun i => tadd (f i) (g i)) n = tadd (tsum f n) (tsum g n).
Proof.
  induction n as [|n IH]; [reflexivity|].
  cbn [tsum]. rewrite IH. rewrite !tadd_assoc. f_equal.
  rewrite <- !tadd_assoc. f_equal. apply tadd_comm.
Qed.

Lemma tsum_mul_l (f : nat -> tensor) (c : tensor) (n : nat) :
  tmul_cr (tsum f n) c = tsum (fun i => tmul_cr (f i) c) n.
Proof.
  induction n as [|n IH]; [reflexivity|].
  cbn [tsum]. rewrite tmul_cr_tadd_l, IH. reflexivity.
Qed.

Lemma zshaped_tsum (B m : nat) (f : nat -> tensor) (n : nat) :
  (forall i, i < n -> zshaped B m (f i)) -> zshaped B m (tsum f n).
Proof.
  induction n as [|n IH]; intros H; [left; reflexivity|].
  cbn [tsum]. apply zshaped_tadd; auto.
Qed.

Lemma tsum_mul_r (B m : nat) (f : nat -> tensor) (c : tensor) (n : nat) :
  (forall i, i < n -> zshaped B m (f i)) ->
  tmul_cr c (tsum f n) = tsum (fun i => tmul_cr c (f i)) n.
Proof.
  induction n as [|n IH]; intros H; [apply tmul_cr_nil_r|].
  cbn [tsum]. rewrite (tmul_cr_tadd_r B m), IH; auto.
  apply zshaped_tsum; auto.
Qed.

Lemma tsum_shift (f : nat -> tensor) (n : nat) :
  tsum f (S n) = tadd (f 0) (tsum (fun i => f (S i)) n).
Proof.
  induction n as [|n IH]; [cbn; rewrite tadd_nil_r; reflexivity|].
  cbn [tsum] in *. rewrite IH. rewrite tadd_assoc. reflexivity.
Qed.

Lemma tsum_rev (f : nat -> tensor) (n : nat) :
  tsum f n = tsum (fun i => f (n - 1 - i)) n.
Proof.
  induction n as [|n IH]; [reflexivity|].
  rewrite (tsum_shift (fun i => f (S n - 1 - i)) n). cbn [tsum].
  rewrite tadd_comm. replace (S n - 1 - 0) with n by lia. f_equal.
  rewrite IH. apply tsum_ext; intros i Hi. f_equal. lia.
Qed.

Lemma tsum_S (f : nat -> tensor) (n : nat) : tsum f (S n) = tadd (tsum f n) (f n).
Proof. reflexivity. Qed.

(** Summing over a triangle by rows or by columns. *)
Lemma tsum_triangle (u : nat -> nat -> tensor) (n : nat) :
  tsum (fun i => tsum (fun j => u j (i - j)) (S i)) n
  = tsum (fun j => tsum (fun k => u j k) (n - j)) n.
Proof.
  induction n as [|n IH]; [reflexivity|].
  rewrite (tsum_S (fun i => tsum (fun j => u j (i - j)) (S i)) n), IH.
  rewrite (tsum_S (fun j => tsum (fun k => u j k) (S n - j)) n).
  rewrite (tsum_ext (fun j => tsum (fun k => u j k) (S n - j))
                    (fun j => tadd (tsum (fun k => u j k) (n - j)) (u j (n - j))) n).
  - rewrite tsum_add, tsum_S, tadd_assoc.
    replace (S n - n) with 1 by lia. replace (n - n) with 0 by lia.
    reflexivity.
  - intros j Hj. replace (S n - j) with (S (n - j)) by lia. reflexivity.
Qed.

End TensorAlgebra.

Section Product.
Context {K : ExactField}.
Add Field Kfield3 : (field_laws K).

Notation "0" := (fzero K) : field_scope.
Notation "1" := (fone K) : field_scope.
Infix "+" := (fadd K) : field_scope.
Infix "*" := (fmul K) : field_scope.
Infix "-" := (fsub K) : field_scope.
Infix "/" := (fdiv K) : field_scope.
Notation "- x" := (fopp K x) : field_scope.

Local Abbreviation vec := (vec K).
Local Abbreviation tensor := (tensor K).
Local Abbreviation talg := (talg K).

Lemma shaped_tunit (B : nat) : shaped B 1 (tunit B).
Proof.
  split; unfold tunit.
  - apply repeat_length.
  - apply Forall_forall. intros r Hr. apply repeat_spec in Hr. subst; reflexivity.
Qed.

Lemma tmul_cr_unit_r (B : nat) (a : tensor) : length a <= B -> tmul_cr a (tunit B) = a.
Proof.
  revert B; induction a as [|x a IH]; intros [|B] H; simpl in H; try lia; try reflexivity.
  cbn [tunit repeat tmul_cr zipw]. f_equal; [apply bmul_cr_one_r | apply IH; lia].
Qed.

Lemma tmul_cr_unit_l (B : nat) (a : tensor) : length a <= B -> tmul_cr (tunit B) a = a.
Proof.
  revert B; induction a as [|x a IH]; intros [|B] H; simpl in H; try lia; try reflexivity.
  cbn [tunit repeat tmul_cr zipw]. f_equal; [apply bmul_cr_one_l | apply IH; lia].
Qed.

Lemma shaped_zshaped (B n : nat) (t : tensor) : shaped B n t -> zshaped B n t.
Proof. right; assumption. Qed.

Lemma shaped_tadd_z (B n : nat) (a b : tensor) :
  shaped B n a -> zshaped B n b -> shaped B n (tadd a b).
Proof.
  intros Ha [-> | Hb]; [rewrite tadd_nil_r; exact Ha | apply shaped_tadd; auto].
Qed.

Lemma shaped_tadd_z_l (B n : nat) (a b : tensor) :
  zshaped B n a -> shaped B n b -> shaped B n (tadd a b).
Proof.
  intros [-> | Ha] Hb; [exact Hb | apply shaped_tadd; auto].
Qed.

(** ** [mult_inner] and [mult] in closed form *)

Lemma mult_inner_sum (t : tensor) (a b : talg) (d : nat) :
  ta_ops.mult_inner t a b d
  = tadd t (tsum (fun j => tmul_cr (nth j a []) (nth (d - 1 - j) b [])) d).
Proof.
  unfold ta_ops.mult_inner.
  enough (H : forall n, fold_left
                     (fun out_view j =>
                        tadd out_view (tmul_rc (nth (d - 1 - j) b []) (nth j a [])))
                     (seq 0 n) t
                   = tadd t (tsum (fun j => tmul_cr (nth j a []) (nth (d - 1 - j) b [])) n))
    by apply H.
  induction n as [|n IH]; [cbn; rewrite tadd_nil_r; reflexivity|].
  rewrite seq_S, fold_left_app, IH. cbn [fold_left plus tsum].
  rewrite tmul_rc_cr, tadd_assoc. reflexivity.
Qed.

Lemma mult_term_ext (a a' b : talg) (d : nat) :
  (forall j, j <= d -> nth j a' [] = nth j a []) -> mult_term a' b d = mult_term a b d.
Proof.
  intros H. unfold mult_term. rewrite (H d) by lia. do 2 f_equal.
  apply tsum_ext; intros j Hj. rewrite H by lia. reflexivity.
Qed.

Lemma mult_loop (b : talg) (n : nat) : forall a : talg,
  n <= length a ->
  let r := fold_left (fun arg1 depth_index =>
                        upd depth_index
                            (tadd (ta_ops.mult_inner (nth depth_index arg1 []) arg1 b depth_index)
                                  (nth depth_index b []))
                            arg1)
                     (rev (seq 0 n)) a in
  length r = length a /\
  forall d, nth d r [] = if d <? n then mult_term a b d else nth d a [].
Proof.
  induction n as [|n IH]; intros a Hn r.
  - subst r; cbn. split; [reflexivity|intros d; reflexivity].
  - subst r. rewrite seq_S, rev_app_distr. cbn [rev app fold_left plus].
    set (a' := upd n _ a).
    assert (La' : length a' = length a) by apply upd_length.
    destruct (IH a') as [L Hd]; [lia|].
    split; [rewrite L; exact La'|].
    intros d. rewrite Hd.
    destruct (d <? n) eqn:E.
    + apply Nat.ltb_lt in E.
      replace (d <? S n) with true by (symmetry; apply Nat.ltb_lt; lia).
      apply mult_term_ext. intros j Hj. subst a'. apply nth_upd_other. lia.
    + apply Nat.ltb_ge in E. destruct (Nat.eq_dec d n) as [->|Hne].
      * replace (n <? S n) with true by (symmetry; apply Nat.ltb_lt; lia).
        subst a'. rewrite nth_upd_same by lia. rewrite mult_inner_sum. reflexivity.
      * replace (d <? S n) with false by (symmetry; apply Nat.ltb_ge; lia).
        subst a'. apply nth_upd_other. lia.
Qed.

Lemma mult_length (a b : talg) : length (ta_ops.mult a b) = length a.
Proof. unfold ta_ops.mult. apply (mult_loop b (length a) a). lia. Qed.

Lemma mult_nth (a b : talg) (d : nat) :
  d < length a -> nth d (ta_ops.mult a b) [] = mult_term a b d.
Proof.
  intros H. unfold ta_ops.mult.
  destruct (mult_loop b (length a) a) as [_ Hd]; [lia|].
  rewrite Hd. apply Nat.ltb_lt in H. rewrite H. reflexivity.
Qed.

(** ** Graded sequences *)

Lemma hat_zshaped (B C D : nat) (a : talg) :
  graded B C D a -> forall n, zshaped B (C ^ n) (hat B a n).
Proof.
  intros [L H] [|i]; cbn [hat].
  - right. apply shaped_tunit.
  - destruct (Nat.lt_ge_cases i D) as [Hi|Hi].
    + right. replace (S i) with (i + 1) by lia. apply H; exact Hi.
    + left. apply nth_overflow. lia.
Qed.

Lemma mult_term_conv (B C D : nat) (a b : talg) (d : nat) :
  graded B C D a -> graded B C D b -> d < D ->
  mult_term a b d = conv (hat B a) (hat B b) (S d).
Proof.
  intros [La Ha] [Lb Hb] Hd. unfold conv, mult_term.
  rewrite tsum_S, tsum_shift. replace (S d - S d) with 0 by lia.
  replace (S d - 0) with (S d) by lia. cbn [hat].
  rewrite tmul_cr_unit_l by (destruct (Hb d Hd) as [E _]; rewrite E; lia).
  rewrite tmul_cr_unit_r by (destruct (Ha d Hd) as [E _]; rewrite E; lia).
  rewrite (tsum_ext (fun i => tmul_cr (nth i a []) (hat B b (S d - S i)))
                    (fun j => tmul_cr (nth j a []) (nth (d - 1 - j) b [])) d).
  - rewrite (tadd_assoc (nth d a [])), (tadd_comm (nth d a [])). f_equal. apply tadd_comm.
  - intros i Hi. replace (S d - S i) with (S (d - 1 - i)) by lia. reflexivity.
Qed.

Lemma conv_ext (f f' g g' : nat -> tensor) (n : nat) :
  (forall i, i <= n -> f i = f' i) -> (forall i, i <= n -> g i = g' i) ->
  conv f g n = conv f' g' n.
Proof.
  intros Hf Hg. unfold conv. apply tsum_ext; intros i Hi.
  rewrite Hf, Hg by lia. reflexivity.
Qed.

Lemma conv_zshaped (B C : nat) (g h : nat -> tensor) :
  (forall n, zshaped B (C ^ n) (g n)) -> (forall n, zshaped B (C ^ n) (h n)) ->
  forall n, zshaped B (C ^ n) (conv g h n).
Proof.
  intros Hg Hh n. unfold conv. apply zshaped_tsum. intros i Hi.
  replace (C ^ n) with (C ^ i * C ^ (n - i)).
  - apply zshaped_tmul_cr; auto.
  - rewrite <- Nat.pow_add_r. f_equal. lia.
Qed.

(** The graded product is associative. *)
Lemma conv_assoc (B C : nat) (f g h : nat -> tensor) (n : nat) :
  (forall k, zshaped B (C ^ k) (g k)) -> (forall k, zshaped B (C ^ k) (h k)) ->
  conv (conv f g) h n = conv f (conv g h) n.
Proof.
  intros Hg Hh. unfold conv at 1 2.
  rewrite (tsum_ext _ (fun i => tsum (fun j =>
             (fun j k => tmul_cr (f j) (tmul_cr (g k) (h (n - j - k)))) j (i - j)) (S i)) (S n)).
  - rewrite (tsum_triangle (fun j k => tmul_cr (f j) (tmul_cr (g k) (h (n - j - k)))) (S n)).
    unfold conv. apply tsum_ext. intros j Hj.
    rewrite (tsum_mul_r B (C ^ (n - j))).
    + replace (S n - j) with (S (n - j)) by lia. reflexivity.
    + intros k Hk. replace (C ^ (n - j)) with (C ^ k * C ^ (n - j - k)).
      * apply zshaped_tmul_cr; auto.
      * rewrite <- Nat.pow_add_r. f_equal. lia.
  - intros i Hi. rewrite tsum_mul_l. apply tsum_ext. intros j Hj.
    cbv beta. rewrite tmul_cr_assoc. do 3 f_equal. lia.
Qed.

(** ** [mult] on members of the tensor algebra *)

Lemma graded_mult (B C D : nat) (a b : talg) :
  graded B C D a -> graded B C D b -> graded B C D (ta_ops.mult a b).
Proof.
  intros Ha Hb. split; [rewrite mult_length; apply Ha|].
  intros d Hd. rewrite mult_nth by (destruct Ha as [E _]; rewrite E; exact Hd).
  unfold mult_term. apply shaped_tadd; [|apply Hb; exact Hd].
  apply shaped_tadd_z; [apply Ha; exact Hd|].
  apply zshaped_tsum. intros j Hj. right.
  replace (C ^ (d + 1)) with (C ^ (j + 1) * C ^ (d - 1 - j + 1)).
  - apply shaped_tmul_cr; [apply Ha | apply Hb]; lia.
  - rewrite <- Nat.pow_add_r. f_equal. lia.
Qed.

Lemma hat_mult (B C D : nat) (a b : talg) (n : nat) :
  graded B C D a -> graded B C D b -> n <= D ->
  hat B (ta_ops.mult a b) n = conv (hat B a) (hat B b) n.
Proof.
  intros Ha Hb Hn. destruct n as [|d].
  - unfold conv. cbn [tsum Nat.sub hat]. rewrite tmul_cr_unit_l; [reflexivity|].
    unfold tunit. rewrite repeat_length. lia.
  - cbn [hat]. rewrite mult_nth by (destruct Ha as [E _]; rewrite E; lia).
    apply (mult_term_conv B C D); auto.
Qed.

Lemma talg_ext (a b : talg) :
  length a = length b -> (forall d, d < length a -> nth d a [] = nth d b []) -> a = b.
Proof.
  intros L H. apply (nth_ext a b [] []); auto.
Qed.

Theorem mult_assoc (B C D : nat) (a b c : talg) :
  graded B C D a -> graded B C D b -> graded B C D c ->
  ta_ops.mult (ta_ops.mult a b) c = ta_ops.mult a (ta_ops.mult b c).
Proof.
  intros Ha Hb Hc.
  assert (Hab := graded_mult B C D a b Ha Hb). assert (Hbc := graded_mult B C D b c Hb Hc).
  apply talg_ext; [rewrite !mult_length; reflexivity|].
  intros d Hd. rewrite !mult_length in Hd.
  assert (HdD : d < D) by (destruct Ha as [<- _]; exact Hd).
  rewrite !mult_nth by (rewrite ?mult_length; exact Hd).
  rewrite (mult_term_conv B C D); auto.
  rewrite (mult_term_conv B C D); auto.
  rewrite (conv_ext (hat B (ta_ops.mult a b)) (conv (hat B a) (hat B b))
                    (hat B c) (hat B c) (S d)).
  - rewrite (conv_assoc B C).
    + apply conv_ext; [reflexivity|].
      intros i Hi. symmetry. apply (hat_mult B C D); auto. lia.
    + apply (hat_zshaped B C D); exact Hb.
    + apply (hat_zshaped B C D); exact Hc.
  - intros i Hi. apply (hat_mult B C D); auto. lia.
  - reflexivity.
Qed.

End Product.

Section LoopFacts.
Context {A : Type}.

(** A loop that walks the indices [lo + n - 1] down to [lo] and overwrites
    entry [d] with a value computed from the entries up to [d]: every entry
    is computed from the initial list. *)
Lemma descending_loop (F : list A -> nat -> A) (dflt : A) (lo n : nat) :
  (forall a a' d, (forall j, j <= d -> nth j a' dflt = nth j a dflt) -> F a' d = F a d) ->
  forall a : list A,
    lo + n <= length a ->
    let r := fold_left (fun a d => upd d (F a d) a) (rev (seq lo n)) a in
    length r = length a /\
    forall d, nth d r dflt = if (lo <=? d) && (d <? lo + n) then F a d else nth d a dflt.
Proof.
  intros HF. induction n as [|n IH]; intros a Hn r.
  - subst r. cbn [seq rev fold_left]. split; [reflexivity|]. intros d.
    replace (lo + 0) with lo by lia.
    destruct (lo <=? d) eqn:E1; [|reflexivity].
    destruct (d <? lo) eqn:E2; [|reflexivity].
    apply Nat.leb_le in E1. apply Nat.ltb_lt in E2. lia.
  - subst r. rewrite seq_S, rev_app_distr. cbn [rev app fold_left].
    set (a' := upd (lo + n) _ a).
    assert (La' : length a' = length a) by apply upd_length.
    destruct (IH a') as [L Hd]; [lia|].
    split; [rewrite L; exact La'|].
    intros d. rewrite Hd.
    destruct (lo <=? d) eqn:E1; cbn [andb].
    + apply Nat.leb_le in E1. destruct (d <? lo + n) eqn:E2.
      * apply Nat.ltb_lt in E2.
        replace (d <? lo + S n) with true by (symmetry; apply Nat.ltb_lt; lia).
        apply HF. intros j Hj. subst a'. apply nth_upd_other. lia.
      * apply Nat.ltb_ge in E2. destruct (Nat.eq_dec d (lo + n)) as [->|Hne].
        -- replace (lo + n <? lo + S n) with true by (symmetry; apply Nat.ltb_lt; lia).
           subst a'. rewrite nth_upd_same by lia. reflexivity.
        -- replace (d <? lo + S n) with false by (symmetry; apply Nat.ltb_ge; lia).
           subst a'. apply nth_upd_other. lia.
    + apply Nat.leb_gt in E1. subst a'. apply nth_upd_other. lia.
Qed.

End LoopFacts.

Section Exponential.
Context {K : ExactField}.
Add Field Kfield4 : (field_laws K).

Notation "0" := (fzero K) : field_scope.
Notation "1" := (fone K) : field_scope.
Infix "+" := (fadd K) : field_scope.
Infix "*" := (fmul K) : field_scope.
Infix "-" := (fsub K) : field_scope.
Infix "/" := (fdiv K) : field_scope.
Notation "- x" := (fopp K x) : field_scope.

Local Abbreviation vec := (vec K).
Local Abbreviation tensor := (tensor K).
Local Abbreviation talg := (talg K).

Lemma xpow_comm (x : tensor) (k : nat) : tmul_cr x (xpow x k) = tmul_cr (xpow x k) x.
Proof.
  induction k as [|k IH]; [reflexivity|].
  cbn [xpow]. rewrite IH at 1. rewrite tmul_cr_assoc. reflexivity.
Qed.

Lemma xpow_add (x : tensor) (j k : nat) :
  tmul_cr (xpow x j) (xpow x k) = xpow x (j + k + 1).
Proof.
  induction j as [|j IH].
  - replace (0 + k + 1) with (S k) by lia. reflexivity.
  - cbn [xpow plus]. rewrite tmul_cr_assoc, IH. reflexivity.
Qed.

Lemma shaped_xpow (B C : nat) (x : tensor) (k : nat) :
  shaped B C x -> shaped B (C ^ (k + 1)) (xpow x k).
Proof.
  intros Hx. induction k as [|k IH].
  - cbn. rewrite Nat.mul_1_r. exact Hx.
  - cbn [xpow]. replace (C ^ (S k + 1)) with (C * C ^ (k + 1)) by (cbn; lia).
    apply shaped_tmul_cr; auto.
Qed.

Lemma shaped_rexp_term (B C : nat) (x : tensor) (r : list K) (k : nat) :
  shaped B C x -> shaped B (C ^ (k + 1)) (rexp_term x r k).
Proof. intros Hx. apply shaped_tscale. apply shaped_xpow; exact Hx. Qed.

(** The recurrence [restricted_exp] runs. *)
Lemma rexp_term_S (x : tensor) (r : list K) (k : nat) :
  rexp_term x r (S k) = tscale (nth k r 0%F) (tmul_rc (rexp_term x r k) x).
Proof.
  unfold rexp_term. cbn [ecoef xpow]. rewrite tmul_rc_cr, tscale_tmul_r, tscale_tscale.
  reflexivity.
Qed.

Lemma rexp_term_0 (x : tensor) (r : list K) : rexp_term x r 0 = x.
Proof. unfold rexp_term. cbn [ecoef xpow]. apply tscale_one. Qed.

(** ** [restricted_exp] in closed form *)

Lemma restricted_exp_loop (x : tensor) (r : list K) (n : nat) : forall out : talg,
  n + 1 <= length out -> nth 0 out [] = x ->
  let res := fold_left (fun out i =>
                          upd (i + 1) (tscale (nth i r 0%F) (tmul_rc (nth i out []) x)) out)
                       (seq 0 n) out in
  length res = length out /\
  forall k, nth k res [] = if k <=? n then rexp_term x r k else nth k out [].
Proof.
  induction n as [|n IH]; intros out Hn H0 res.
  - subst res; cbn [seq fold_left]. split; [reflexivity|].
    intros [|k]; cbn [Nat.leb]; [rewrite rexp_term_0; exact H0 | reflexivity].
  - subst res. rewrite seq_S, fold_left_app. cbn [fold_left plus].
    destruct (IH out) as [L Hk]; [lia | exact H0 |].
    match goal with
    | |- context [fold_left ?f (seq 0 n) out] => set (res := fold_left f (seq 0 n) out) in *
    end.
    split; [rewrite upd_length; exact L|].
    intros k. destruct (Nat.eq_dec k (n + 1)) as [->|Hne].
    + rewrite nth_upd_same by lia.
      replace (n + 1 <=? S n) with true by (symmetry; apply Nat.leb_le; lia).
      rewrite Hk. replace (n <=? n) with true by (symmetry; apply Nat.leb_le; lia).
      replace (n + 1) with (S n) by lia. rewrite rexp_term_S. reflexivity.
    + rewrite nth_upd_other by lia. rewrite Hk.
      destruct (k <=? n) eqn:E.
      * apply Nat.leb_le in E.
        replace (k <=? S n) with true by (symmetry; apply Nat.leb_le; lia). reflexivity.
      * apply Nat.leb_gt in E.
        replace (k <=? S n) with false by (symmetry; apply Nat.leb_gt; lia). reflexivity.
Qed.

Lemma restricted_exp_length (x : tensor) (out : talg) (r : list K) :
  length (ta_ops.restricted_exp x out r) = length out.
Proof.
  destruct out as [|o out]; [reflexivity|].
  unfold ta_ops.restricted_exp. cbv zeta.
  destruct (restricted_exp_loop x r (length (o :: out) - 1) (upd 0 x (o :: out))) as [L _].
  - rewrite upd_length. cbn [length]. lia.
  - reflexivity.
  - etransitivity; [exact L | apply upd_length].
Qed.

Lemma restricted_exp_nth (x : tensor) (out : talg) (r : list K) (k : nat) :
  k < length out -> nth k (ta_ops.restricted_exp x out r) [] = rexp_term x r k.
Proof.
  intros Hk. destruct out as [|o out]; [cbn in Hk; lia|].
  unfold ta_ops.restricted_exp. cbv zeta.
  destruct (restricted_exp_loop x r (length (o :: out) - 1) (upd 0 x (o :: out))) as [_ H].
  - rewrite upd_length. cbn [length]. lia.
  - reflexivity.
  - etransitivity; [apply H|].
    replace (k <=? length (o :: out) - 1) with true; [reflexivity|].
    symmetry; apply Nat.leb_le. lia.
Qed.

Lemma graded_restricted_exp (B C : nat) (x : tensor) (out : talg) (r : list K) :
  shaped B C x -> graded B C (length out) (ta_ops.restricted_exp x out r).
Proof.
  intros Hx. split; [apply restricted_exp_length|].
  intros i Hi. rewrite restricted_exp_nth by exact Hi. apply shaped_rexp_term; exact Hx.
Qed.

End Exponential.

Section Fused.
Context {K : ExactField}.
Add Field Kfield5 : (field_laws K).

Notation "0" := (fzero K) : field_scope.
Notation "1" := (fone K) : field_scope.
Infix "+" := (fadd K) : field_scope.
Infix "*" := (fmul K) : field_scope.
Infix "-" := (fsub K) : field_scope.
Infix "/" := (fdiv K) : field_scope.
Notation "- x" := (fopp K x) : field_scope.

Local Abbreviation vec := (vec K).
Local Abbreviation tensor := (tensor K).
Local Abbreviation talg := (talg K).

Lemma scratch_chain_ext (inverse : bool) (x : tensor) (r : list K) (a a' : talg) (d m : nat) :
  (forall j, j <= m -> nth j a' [] = nth j a []) ->
  scratch_chain inverse x r a' d m = scratch_chain inverse x r a d m.
Proof.
  induction m as [|m IH]; intros H; unfold scratch_chain in *.
  - cbn [seq fold_left]. rewrite H by lia. reflexivity.
  - rewrite !seq_S, !fold_left_app. cbn [fold_left plus].
    rewrite IH by (intros; apply H; lia). rewrite H by lia. reflexivity.
Qed.

Lemma fused_term_ext (inverse : bool) (x : tensor) (r : list K) (a a' : talg) (d : nat) :
  (forall j, j <= d -> nth j a' [] = nth j a []) ->
  fused_term inverse x r a' d = fused_term inverse x r a d.
Proof.
  intros H. unfold fused_term. rewrite H by lia.
  rewrite (scratch_chain_ext inverse x r a a') by (intros; apply H; lia). reflexivity.
Qed.

Lemma fused_unfold (x : tensor) (prev : talg) (inverse : bool) (r : list K) :
  ta_ops.mult_fused_restricted_exp x prev inverse r
  = upd 0 (tadd (nth 0 (@fold_left (list tensor) nat
                                   (fun a d => upd d (fused_term inverse x r a d) a)
                                   (rev (seq 1 (length prev - 1))) prev) []) x)
        (@fold_left (list tensor) nat (fun a d => upd d (fused_term inverse x r a d) a)
                    (rev (seq 1 (length prev - 1))) prev).
Proof. reflexivity. Qed.

Lemma fused_length (x : tensor) (prev : talg) (inverse : bool) (r : list K) :
  length (ta_ops.mult_fused_restricted_exp x prev inverse r) = length prev.
Proof.
  rewrite fused_unfold, upd_length.
  destruct prev as [|p prev]; [reflexivity|].
  apply (descending_loop (fused_term inverse x r) [] 1 (length (p :: prev) - 1)
                         (fun a a' d => fused_term_ext inverse x r a a' d) (p :: prev)).
  cbn [length]. lia.
Qed.

Lemma fused_nth (x : tensor) (prev : talg) (inverse : bool) (r : list K) (d : nat) :
  d < length prev ->
  nth d (ta_ops.mult_fused_restricted_exp x prev inverse r) []
  = if d =? 0 then tadd (nth 0 prev []) x else fused_term inverse x r prev d.
Proof.
  intros Hd. rewrite fused_unfold.
  destruct (descending_loop (fused_term inverse x r) [] 1 (length prev - 1)
                            (fun a a' d => fused_term_ext inverse x r a a' d) prev)
    as [L H]; [lia|].
  destruct d as [|d].
  - cbn [Nat.eqb]. rewrite nth_upd_same by (rewrite L; exact Hd).
    rewrite H. reflexivity.
  - cbn [Nat.eqb]. rewrite nth_upd_other by lia. rewrite H.
    replace ((1 <=? S d) && (S d <? 1 + (length prev - 1))) with true; [reflexivity|].
    symmetry. apply andb_true_intro. split; [apply Nat.leb_le | apply Nat.ltb_lt]; lia.
Qed.

Lemma nth_next_divided (x : tensor) (r : list K) (k : nat) :
  k < length r -> nth k (map (fun s => tscale s x) r) [] = tscale (nth k r 0%F) x.
Proof.
  intros H. rewrite (nth_indep _ [] (tscale 0%F x)) by (rewrite length_map; exact H).
  apply (map_nth (fun s => tscale s x)).
Qed.

Lemma divided_rexp_term (x : tensor) (r : list K) (k : nat) :
  tmul_cr (tscale (nth k r 0%F) x) (rexp_term x r k) = rexp_term x r (S k).
Proof. rewrite rexp_term_S, tmul_rc_cr, tscale_tmul_l. reflexivity. Qed.

Lemma rexp_term_divided (x : tensor) (r : list K) (k : nat) :
  tmul_cr (rexp_term x r k) (tscale (nth k r 0%F) x) = rexp_term x r (S k).
Proof.
  rewrite rexp_term_S, tmul_rc_cr, tscale_tmul_r. f_equal.
  unfold rexp_term. rewrite tscale_tmul_l, tscale_tmul_r, xpow_comm. reflexivity.
Qed.

Lemma fused_product_false (a b : tensor) : ta_ops.fused_product false a b = tmul_cr a b.
Proof. reflexivity. Qed.

Lemma fused_product_true (a b : tensor) : ta_ops.fused_product true a b = tmul_cr b a.
Proof. apply tmul_rc_cr. Qed.

(** Horner's scheme, [prev (x) exp(next)]: the scratch after [m] rounds,
    multiplied by the rest of the exponential. *)
Lemma scratch_chain_false (x : tensor) (r : list K) (a : talg) (d m : nat) :
  d - 1 < length r -> m <= d - 1 ->
  tmul_cr (scratch_chain false x r a d m) (rexp_term x r (d - 1 - m))
  = tadd (tsum (fun i => tmul_cr (nth i a []) (rexp_term x r (d - 1 - i))) (S m))
         (rexp_term x r (S (d - 1))).
Proof.
  intros Hr. induction m as [|m IH]; intros Hm; unfold scratch_chain in *.
  - cbn [seq fold_left tsum]. rewrite tadd_nil_l.
    rewrite nth_next_divided by exact Hr.
    replace (d - 1 - 0) with (d - 1) by lia.
    rewrite tmul_cr_tadd_l, divided_rexp_term. reflexivity.
  - rewrite seq_S, fold_left_app. cbn [fold_left plus].
    rewrite fused_product_false.
    rewrite (nth_next_divided x r (d - 1 - S m)) by lia.
    rewrite tmul_cr_tadd_l, tmul_cr_assoc, divided_rexp_term.
    replace (S (d - 1 - S m)) with (d - 1 - m) by lia.
    rewrite IH by lia. rewrite (tsum_S _ (S m)).
    rewrite (tadd_comm (tmul_cr (nth (S m) a []) _)). rewrite !tadd_assoc. f_equal.
    apply tadd_comm.
Qed.

(** Without [inverse] the fused kernel multiplies by the restricted
    exponential on the right. *)
Theorem fused_is_mult_exp (x : tensor) (a out : talg) (r : list K) :
  length out = length a -> length r = length a - 1 ->
  ta_ops.mult_fused_restricted_exp x a false r
  = ta_ops.mult a (ta_ops.restricted_exp x out r).
Proof.
  intros Lo Lr. apply talg_ext; [rewrite fused_length, mult_length; reflexivity|].
  intros d Hd. rewrite fused_length in Hd.
  rewrite fused_nth, mult_nth by exact Hd. unfold mult_term.
  rewrite (tsum_ext (fun j => tmul_cr (nth j a [])
                                 (nth (d - 1 - j) (ta_ops.restricted_exp x out r) []))
                    (fun j => tmul_cr (nth j a []) (rexp_term x r (d - 1 - j))) d)
    by (intros j Hj; rewrite restricted_exp_nth by lia; reflexivity).
  rewrite restricted_exp_nth by lia.
  destruct d as [|d].
  - cbn [Nat.eqb tsum]. rewrite tadd_nil_r, rexp_term_0. reflexivity.
  - cbn [Nat.eqb]. unfold fused_term. rewrite fused_product_false.
    assert (E := scratch_chain_false x r a (S d) (S d - 1)).
    replace (S d - 1 - (S d - 1)) with 0 in E by lia.
    rewrite rexp_term_0 in E. rewrite E by lia.
    replace (S (S d - 1)) with (S d) by lia. replace (S (S d - 1)) with (S d) by lia.
    rewrite tadd_assoc. reflexivity.
Qed.

Lemma shaped_cast (B n n' : nat) (t : tensor) : n = n' -> shaped B n t -> shaped B n' t.
Proof. intros ->; auto. Qed.

Lemma shaped_scratch_chain (B C D : nat) (inverse : bool) (x : tensor) (r : list K) (a : talg)
      (d m : nat) :
  graded B C D a -> shaped B C x -> d - 1 < length r -> m <= d - 1 -> d < D ->
  shaped B (C ^ (m + 1)) (scratch_chain inverse x r a d m).
Proof.
  intros Ha Hx Hr. induction m as [|m IH]; intros Hm Hd; unfold scratch_chain in *.
  - cbn [seq fold_left]. rewrite nth_next_divided by exact Hr.
    apply shaped_tadd; [apply Ha; lia|].
    apply (shaped_cast B C); [cbn; lia|]. apply shaped_tscale; exact Hx.
  - rewrite seq_S, fold_left_app. cbn [fold_left plus].
    rewrite (nth_next_divided x r (d - 1 - S m)) by lia.
    apply shaped_tadd.
    + apply Ha. lia.
    + destruct inverse; [rewrite fused_product_true | rewrite fused_product_false].
      * apply (shaped_cast B (C * C ^ (m + 1))); [cbn; lia|].
        apply shaped_tmul_cr; [apply shaped_tscale; exact Hx | apply IH; lia].
      * apply (shaped_cast B (C ^ (m + 1) * C)); [cbn; lia|].
        apply shaped_tmul_cr; [apply IH; lia | apply shaped_tscale; exact Hx].
Qed.

(** Horner's scheme, [exp(next) (x) prev]. *)
Lemma scratch_chain_true (B C D : nat) (x : tensor) (r : list K) (a : talg) (d m : nat) :
  graded B C D a -> shaped B C x -> d < D ->
  d - 1 < length r -> m <= d - 1 ->
  tmul_cr (rexp_term x r (d - 1 - m)) (scratch_chain true x r a d m)
  = tadd (tsum (fun i => tmul_cr (rexp_term x r (d - 1 - i)) (nth i a [])) (S m))
         (rexp_term x r (S (d - 1))).
Proof.
  intros Ha Hx Hd Hr. induction m as [|m IH]; intros Hm.
  - unfold scratch_chain. cbn [seq fold_left tsum]. rewrite tadd_nil_l.
    rewrite nth_next_divided by exact Hr.
    replace (d - 1 - 0) with (d - 1) by lia.
    rewrite (tmul_cr_tadd_r B C).
    + rewrite rexp_term_divided. reflexivity.
    + right. apply (shaped_cast B (C ^ (0 + 1))); [cbn; lia|]. apply Ha. lia.
    + right. apply shaped_tscale; exact Hx.
  - assert (Hs := shaped_scratch_chain B C D true x r a d m Ha Hx Hr ltac:(lia) Hd).
    unfold scratch_chain in *.
    rewrite seq_S, fold_left_app. cbn [fold_left plus].
    rewrite fused_product_true.
    rewrite (nth_next_divided x r (d - 1 - S m)) by lia.
    rewrite (tmul_cr_tadd_r B (C ^ (S m + 1))).
    + rewrite <- tmul_cr_assoc, rexp_term_divided.
      replace (S (d - 1 - S m)) with (d - 1 - m) by lia.
      rewrite IH by lia. rewrite (tsum_S _ (S m)).
      rewrite (tadd_comm (tmul_cr _ (nth (S m) a []))). rewrite !tadd_assoc. f_equal.
      apply tadd_comm.
    + right. apply Ha. lia.
    + right. apply (shaped_cast B (C * C ^ (m + 1))); [cbn; lia|].
      apply shaped_tmul_cr; [apply shaped_tscale; exact Hx | exact Hs].
Qed.

(** Under [inverse] the fused kernel multiplies by the restricted
    exponential on the left. *)
Theorem fused_inverse_is_exp_mult (B C D : nat) (x : tensor) (a out : talg) (r : list K) :
  graded B C D a -> shaped B C x ->
  length out = D -> length r = D - 1 ->
  ta_ops.mult_fused_restricted_exp x a true r
  = ta_ops.mult (ta_ops.restricted_exp x out r) a.
Proof.
  intros Ha Hx Lo Lr. assert (La : length a = D) by apply Ha.
  apply talg_ext;
    [rewrite fused_length, mult_length, restricted_exp_length; congruence|].
  intros d Hd. rewrite fused_length in Hd.
  rewrite fused_nth by exact Hd.
  rewrite mult_nth by (rewrite restricted_exp_length; lia). unfold mult_term.
  rewrite (tsum_ext (fun j => tmul_cr (nth j (ta_ops.restricted_exp x out r) [])
                                      (nth (d - 1 - j) a []))
                    (fun j => tmul_cr (rexp_term x r j) (nth (d - 1 - j) a [])) d)
    by (intros j Hj; rewrite restricted_exp_nth by lia; reflexivity).
  rewrite restricted_exp_nth by lia.
  destruct d as [|d].
  - cbn [Nat.eqb tsum]. rewrite tadd_nil_r, rexp_term_0. apply tadd_comm.
  - cbn [Nat.eqb]. unfold fused_term. rewrite fused_product_true.
    assert (E := scratch_chain_true B C D x r a (S d) (S d - 1) Ha Hx ltac:(lia)
                                    ltac:(lia) ltac:(lia)).
    replace (S d - 1 - (S d - 1)) with 0 in E by lia.
    rewrite rexp_term_0 in E. rewrite E.
    replace (S (S d - 1)) with (S d) by lia. replace (S (S d - 1)) with (S d) by lia.
    rewrite (tsum_rev (fun j => tmul_cr (rexp_term x r j) (nth (S d - 1 - j) a [])) (S d)).
    rewrite (tsum_ext (fun i => tmul_cr (rexp_term x r (S d - 1 - i))
                                        (nth (S d - 1 - (S d - 1 - i)) a []))
                      (fun i => tmul_cr (rexp_term x r (S d - 1 - i)) (nth i a [])) (S d))
      by (intros i Hi; do 2 f_equal; lia).
    rewrite (tadd_comm (rexp_term x r (S d))). apply tadd_comm.
Qed.

End Fused.

Lemma nth_map_seq {A : Type} (f : nat -> A) (d : A) (a n i : nat) :
  i < n -> nth i (map f (seq a n)) d = f (a + i).
Proof.
  revert a i; induction n as [|n IH]; intros a [|i] H; try lia.
  - cbn. rewrite Nat.add_0_r. reflexivity.
  - cbn [seq map nth]. rewrite IH by lia. f_equal. lia.
Qed.

Section Reciprocals.
Context {K : ExactField}.
Add Field Kfield6 : (field_laws K).

Notation "0" := (fzero K) : field_scope.
Notation "1" := (fone K) : field_scope.
Infix "+" := (fadd K) : field_scope.
Infix "*" := (fmul K) : field_scope.
Infix "-" := (fsub K) : field_scope.
Infix "/" := (fdiv K) : field_scope.
Notation "- x" := (fopp K x) : field_scope.

Local Abbreviation vec := (vec K).
Local Abbreviation tensor := (tensor K).
Local Abbreviation talg := (talg K).

Lemma of_nat_S (n : nat) : of_nat (S n) = (of_nat n + 1)%F.
Proof. reflexivity. Qed.

Lemma of_nat_add (a b : nat) : of_nat (a + b) = (of_nat a + of_nat b)%F.
Proof.
  induction b as [|b IH].
  - rewrite Nat.add_0_r. cbn. ring.
  - rewrite Nat.add_succ_r, !of_nat_S, IH. ring.
Qed.

Lemma of_nat_mul (a b : nat) : of_nat (a * b) = (of_nat a * of_nat b)%F.
Proof.
  induction a as [|a IH].
  - cbn. ring.
  - cbn [Nat.mul]. rewrite of_nat_add, IH, of_nat_S. ring.
Qed.

Lemma of_nat_nonzero (n : nat) : of_nat (S n) <> 0%F.
Proof. apply (char_zero K). Qed.

Lemma of_nat_sub (a b : nat) : b <= a -> of_nat (a - b) = (of_nat a - of_nat b)%F.
Proof.
  intros H. replace a with ((a - b) + b) at 2 by lia. rewrite of_nat_add. ring.
Qed.

Lemma linspace_length (a b : K) (steps : nat) : length (misc.linspace a b steps) = steps.
Proof.
  unfold misc.linspace. destruct steps as [|[|s]]; [reflexivity | reflexivity |].
  rewrite length_map, length_seq. reflexivity.
Qed.

Lemma make_reciprocals_length (depth : nat) :
  length (@misc.make_reciprocals K depth) = depth - 1.
Proof.
  unfold misc.make_reciprocals. destruct (1 <? depth) eqn:E.
  - rewrite zipw_length, repeat_length, linspace_length. lia.
  - apply Nat.ltb_ge in E. cbn. lia.
Qed.

Lemma linspace_nth (depth i : nat) :
  i < depth - 1 ->
  nth i (misc.linspace (of_nat 2) (of_nat depth) (depth - 1)) 0%F = of_nat (i + 2).
Proof.
  intros Hi. unfold misc.linspace.
  destruct (depth - 1) as [|[|s]] eqn:E; [lia | |].
  - assert (i = 0) by lia. subst i. reflexivity.
  - rewrite nth_map_seq by lia. cbn [plus].
    replace (S (S s) - 1) with (S s) by lia.
    rewrite <- of_nat_sub by lia. replace (depth - 2) with (S s) by lia.
    rewrite (Nat.add_comm i 2), of_nat_add.
    assert (N := of_nat_nonzero s). unfold of_nat in *.
    generalize dependent (nat_inj 0%F 1%F (fadd K) (S s)). intros b N.
    generalize (nat_inj 0%F 1%F (fadd K) i) (nat_inj 0%F 1%F (fadd K) 2). intros a c.
    field. exact N.
Qed.

(** 4.B: [r[i] = 1 / (i + 2)]. *)
Lemma make_reciprocals_nth (depth i : nat) :
  i < depth - 1 ->
  nth i (misc.make_reciprocals depth) 0%F = (1 / of_nat (i + 2))%F.
Proof.
  intros Hi. unfold misc.make_reciprocals.
  replace (1 <? depth) with true by (symmetry; apply Nat.ltb_lt; lia).
  rewrite (nth_zipw (fdiv K) 1%F 0%F 0%F)
    by (rewrite ?repeat_length, ?linspace_length; exact Hi).
  rewrite nth_repeat_lt by exact Hi.
  f_equal. apply linspace_nth. exact Hi.
Qed.

(** ** Finite sums of scalars *)

Lemma ksum_ext (f g : nat -> K) (n : nat) :
  (forall i, i < n -> f i = g i) -> ksum f n = ksum g n.
Proof.
  induction n as [|n IH]; intros H; [reflexivity|].
  cbn [ksum]. rewrite IH, H; auto.
Qed.

Lemma ksum_add (f g : nat -> K) (n : nat) :
  ksum (fun i => (f i + g i)%F) n = (ksum f n + ksum g n)%F.
Proof. induction n as [|n IH]; cbn [ksum]; [ring | rewrite IH; ring]. Qed.

Lemma ksum_scale (c : K) (f : nat -> K) (n : nat) :
  ksum (fun i => (c * f i)%F) n = (c * ksum f n)%F.
Proof. induction n as [|n IH]; cbn [ksum]; [ring | rewrite IH; ring]. Qed.

Lemma ksum_opp (f : nat -> K) (n : nat) :
  ksum (fun i => (- f i)%F) n = (- ksum f n)%F.
Proof. induction n as [|n IH]; cbn [ksum]; [ring | rewrite IH; ring]. Qed.

Lemma ksum_shift (f : nat -> K) (n : nat) :
  ksum f (S n) = (f O + ksum (fun i => f (S i)) n)%F.
Proof.
  induction n as [|n IH]; [cbn; ring|].
  change (ksum f (S (S n))) with (ksum f (S n) + f (S n))%F. rewrite IH.
  cbn [ksum]. ring.
Qed.

(** ** 1 / n! and the alternating sum *)

Lemma of_nat_fact_nonzero (n : nat) : of_nat (fact n) <> 0%F.
Proof.
  assert (H := lt_O_fact n). destruct (fact n) as [|m]; [lia|]. apply of_nat_nonzero.
Qed.

Lemma invfact_0 : invfact 0 = 1%F.
Proof.
  assert (N := of_nat_nonzero 0). unfold invfact, of_nat in *. cbn [fact nat_inj] in *.
  field. intros E. apply N. transitivity 1%F; [ring | exact E].
Qed.

Lemma invfact_S (n : nat) : (of_nat (S n) * invfact (S n))%F = invfact n.
Proof.
  unfold invfact. cbn [fact]. change (fact n + n * fact n) with (S n * fact n).
  rewrite of_nat_mul. assert (H1 := of_nat_nonzero n). assert (H2 := of_nat_fact_nonzero n).
  field. split; assumption.
Qed.

Lemma invfact_step (n : nat) : invfact (S n) = (invfact n * (1 / of_nat (S n)))%F.
Proof.
  unfold invfact. cbn [fact]. change (fact n + n * fact n) with (S n * fact n).
  rewrite of_nat_mul. assert (H1 := of_nat_nonzero n). assert (H2 := of_nat_fact_nonzero n).
  field. split; assumption.
Qed.

(** The coefficients of exp(x) exp(-x) in degree n: the binomial expansion
    of (1 - 1)^n over n!. *)
Lemma alternating_sum (n : nat) :
  ksum (fun i => (invfact i * (sgn (S n - i) * invfact (S n - i)))%F) (S (S n)) = 0%F.
Proof.
  set (T := fun m => ksum (fun i => (invfact i * (sgn (m - i) * invfact (m - i)))%F) (S m)).
  change (T (S n) = 0%F).
  assert (H : (of_nat (S n) * T (S n))%F = 0%F).
  { unfold T. rewrite <- ksum_scale.
    rewrite (ksum_ext _ (fun i =>
               ((of_nat i * invfact i) * (sgn (S n - i) * invfact (S n - i))
                + invfact i * (sgn (S n - i) * (of_nat (S n - i) * invfact (S n - i))))%F)
               (S (S n))).
    2:{ intros i Hi. replace (S n) with (i + (S n - i)) at 1 by lia.
        rewrite of_nat_add. ring. }
    rewrite ksum_add.
    rewrite (ksum_shift (fun i => (of_nat i * invfact i
                                   * (sgn (S n - i) * invfact (S n - i)))%F)).
    rewrite (ksum_ext (fun i => (of_nat (S i) * invfact (S i)
                                 * (sgn (S n - S i) * invfact (S n - S i)))%F)
                      (fun i => (invfact i * (sgn (n - i) * invfact (n - i)))%F) (S n))
      by (intros i Hi; rewrite invfact_S; reflexivity).
    change (ksum ?f (S (S n))) with (ksum f (S n) + f (S n))%F.
    rewrite (ksum_ext (fun i => (invfact i * (sgn (S n - i)
                                 * (of_nat (S n - i) * invfact (S n - i))))%F)
                      (fun i => (- (invfact i * (sgn (n - i) * invfact (n - i))))%F) (S n)).
    2:{ intros i Hi. replace (S n - i) with (S (n - i)) by lia.
        rewrite invfact_S. cbn [sgn]. ring. }
    rewrite ksum_opp. replace (S n - S n) with 0 by lia.
    change (of_nat 0) with 0%F. ring. }
  assert (N := of_nat_nonzero n).
  transitivity ((1 / of_nat (S n)) * (of_nat (S n) * T (S n)))%F.
  - field. exact N.
  - rewrite H. ring.
Qed.

End Reciprocals.

Section Cancel.
Context {K : ExactField}.
Add Field Kfield7 : (field_laws K).

Notation "0" := (fzero K) : field_scope.
Notation "1" := (fone K) : field_scope.
Infix "+" := (fadd K) : field_scope.
Infix "*" := (fmul K) : field_scope.
Infix "-" := (fsub K) : field_scope.
Infix "/" := (fdiv K) : field_scope.
Notation "- x" := (fopp K x) : field_scope.

Local Abbreviation vec := (vec K).
Local Abbreviation tensor := (tensor K).
Local Abbreviation talg := (talg K).

(** The product of the first [k] reciprocals is 1 / (k + 1)!. *)
Lemma ecoef_make_reciprocals (depth k : nat) :
  k < depth -> ecoef (@misc.make_reciprocals K depth) k = invfact (k + 1).
Proof.
  induction k as [|k IH]; intros Hk.
  - cbn [ecoef plus]. rewrite <- (@invfact_0 K), <- (invfact_S 0).
    unfold of_nat. cbn [nat_inj]. ring.
  - cbn [ecoef]. rewrite IH by lia. rewrite make_reciprocals_nth by lia.
    replace (S k + 1) with (S (k + 1)) by lia. rewrite invfact_step.
    replace (k + 2) with (S (k + 1)) by lia. reflexivity.
Qed.

Lemma tneg_tscale (x : tensor) : tneg x = tscale (fopp K 1%F) x.
Proof.
  unfold tneg, tscale. apply map_ext; intros row. apply map_ext; intros v. ring.
Qed.

Lemma tneg_tneg (x : tensor) : tneg (tneg x) = x.
Proof.
  unfold tneg. rewrite map_map. rewrite <- (map_id x) at 2. apply map_ext; intros row.
  rewrite map_map. rewrite <- (map_id row) at 2. apply map_ext; intros v. ring.
Qed.

Lemma shaped_tneg (B n : nat) (x : tensor) : shaped B n x -> shaped B n (tneg x).
Proof. intros H. rewrite tneg_tscale. apply shaped_tscale; exact H. Qed.

Lemma xpow_tneg (x : tensor) (k : nat) : xpow (tneg x) k = tscale (sgn (S k)) (xpow x k).
Proof.
  induction k as [|k IH].
  - cbn [xpow sgn]. rewrite tneg_tscale. apply tscale_ext. ring.
  - cbn [xpow]. rewrite IH, tscale_tmul_r, tneg_tscale, tscale_tmul_l, tscale_tscale.
    apply tscale_ext. cbn [sgn]. ring.
Qed.

Lemma rexp_term_tneg (x : tensor) (r : list K) (k : nat) :
  rexp_term (tneg x) r k = tscale (ecoef r k * sgn (S k))%F (xpow x k).
Proof.
  unfold rexp_term. rewrite xpow_tneg, tscale_tscale. apply tscale_ext. ring.
Qed.

Lemma tadd_tsum_tscale (P : tensor) (s : K) (c : nat -> K) (n : nat) :
  tadd (tscale s P) (tsum (fun j => tscale (c j) P) n) = tscale (s + ksum c n)%F P.
Proof.
  induction n as [|n IH].
  - cbn [tsum ksum]. rewrite tadd_nil_r. apply tscale_ext. ring.
  - cbn [tsum ksum]. rewrite <- tadd_assoc, IH, tscale_plus. apply tscale_ext. ring.
Qed.

(** exp(x) (x) exp(-x), term by term: every coefficient vanishes. *)
Lemma exp_cancel_term (depth : nat) (x : tensor) (d : nat) :
  d < depth ->
  let r := @misc.make_reciprocals K depth in
  tadd (tadd (rexp_term x r d)
             (tsum (fun j => tmul_cr (rexp_term x r j) (rexp_term (tneg x) r (d - 1 - j))) d))
       (rexp_term (tneg x) r d)
  = tscale 0%F (xpow x d).
Proof.
  intros Hd r.
  rewrite (tsum_ext _ (fun j => tscale (invfact (S j) * (sgn (S d - S j) * invfact (S d - S j)))%F
                                        (xpow x d)) d).
  2:{ intros j Hj. rewrite rexp_term_tneg. unfold rexp_term.
      rewrite tscale_tmul_l, tscale_tmul_r, tscale_tscale, xpow_add.
      replace (j + (d - 1 - j) + 1) with d by lia.
      subst r. rewrite !ecoef_make_reciprocals by lia.
      replace (S d - S j) with (S (d - 1 - j)) by lia.
      replace (j + 1) with (S j) by lia. replace (d - 1 - j + 1) with (S (d - 1 - j)) by lia.
      apply tscale_ext. ring. }
  rewrite rexp_term_tneg. unfold rexp_term.
  rewrite tadd_tsum_tscale, tscale_plus. apply tscale_ext.
  subst r. rewrite !ecoef_make_reciprocals by lia.
  rewrite <- (alternating_sum d).
  change (ksum ?f (S (S d))) with (ksum f (S d) + f (S d))%F.
  rewrite ksum_shift. replace (S d - S d) with 0 by lia.
  replace (S d - 0) with (S d) by lia. replace (d + 1) with (S d) by lia.
  rewrite invfact_0. cbn [sgn]. ring.
Qed.

(** ** The neutral element: all terms zero *)

Lemma vadd_zero_r (a t : vec) :
  length a = length t -> vadd a (map (fun v => (v * 0)%F) t) = a.
Proof.
  revert t; induction a as [|v a IH]; intros [|w t] H; try discriminate; [reflexivity|].
  cbn [map]. change (vadd ?a ?b) with (zip_pad (fadd K) a b). cbn [zip_pad].
  f_equal; [ring | apply IH; cbn in H; lia].
Qed.

Lemma tadd_zero_r (B n : nat) (a z : tensor) :
  shaped B n a -> is_zero B n z -> tadd a z = a.
Proof.
  intros [La Fa] (T & [LT FT] & ->). subst B. revert T LT FT.
  induction a as [|x a IH]; intros [|y T] LT FT; try discriminate; [reflexivity|].
  inversion Fa; inversion FT; subst. cbn [tscale map tadd zip_pad].
  f_equal; [apply vadd_zero_r; congruence | apply IH; auto].
Qed.

Lemma tadd_zero_l (B n : nat) (a z : tensor) :
  shaped B n a -> is_zero B n z -> tadd z a = a.
Proof. intros Ha Hz. rewrite tadd_comm. apply (tadd_zero_r B n); assumption. Qed.

Lemma is_zero_tmul_r (B m n : nat) (a z : tensor) :
  shaped B m a -> is_zero B n z -> is_zero B (m * n) (tmul_cr a z).
Proof.
  intros Ha (T & HT & ->). exists (tmul_cr a T). split.
  - apply shaped_tmul_cr; assumption.
  - apply tscale_tmul_r.
Qed.

Lemma is_zero_tmul_l (B m n : nat) (a z : tensor) :
  is_zero B m z -> shaped B n a -> is_zero B (m * n) (tmul_cr z a).
Proof.
  intros (T & HT & ->) Ha. exists (tmul_cr T a). split.
  - apply shaped_tmul_cr; assumption.
  - apply tscale_tmul_l.
Qed.

Lemma tadd_tsum_zero (B n : nat) (a : tensor) (f : nat -> tensor) (m : nat) :
  shaped B n a -> (forall j, j < m -> is_zero B n (f j)) -> tadd a (tsum f m) = a.
Proof.
  intros Ha. induction m as [|m IH]; intros H.
  - apply tadd_nil_r.
  - cbn [tsum]. rewrite <- tadd_assoc, IH by (intros; apply H; lia).
    apply (tadd_zero_r B n); auto.
Qed.

Lemma is_zero_cast (B n n' : nat) (t : tensor) : n = n' -> is_zero B n t -> is_zero B n' t.
Proof. intros ->; auto. Qed.

(** A member with all terms zero is neutral on the right... *)
Lemma mult_zero_r (B C D : nat) (a z : talg) :
  graded B C D a -> length z = D ->
  (forall k, k < D -> is_zero B (C ^ (k + 1)) (nth k z [])) ->
  ta_ops.mult a z = a.
Proof.
  intros Ha Lz Hz. assert (La : length a = D) by apply Ha.
  apply talg_ext; [apply mult_length|].
  intros d Hd. rewrite mult_length in Hd. rewrite mult_nth by exact Hd.
  unfold mult_term.
  rewrite (tadd_tsum_zero B (C ^ (d + 1))).
  - apply (tadd_zero_r B (C ^ (d + 1))); [apply Ha | apply Hz]; lia.
  - apply Ha; lia.
  - intros j Hj. apply (is_zero_cast B (C ^ (j + 1) * C ^ (d - 1 - j + 1))).
    + rewrite <- Nat.pow_add_r. f_equal. lia.
    + apply is_zero_tmul_r; [apply Ha | apply Hz]; lia.
Qed.

(** ... and on the left. *)
Lemma mult_zero_l (B C D : nat) (a z : talg) :
  graded B C D a -> length z = D ->
  (forall k, k < D -> is_zero B (C ^ (k + 1)) (nth k z [])) ->
  ta_ops.mult z a = a.
Proof.
  intros Ha Lz Hz. assert (La : length a = D) by apply Ha.
  apply talg_ext; [rewrite mult_length; congruence|].
  intros d Hd. rewrite mult_length in Hd. rewrite mult_nth by exact Hd.
  unfold mult_term.
  assert (Hd' : d < D) by lia.
  rewrite tadd_comm, <- tadd_assoc.
  rewrite (tadd_zero_r B (C ^ (d + 1)) (nth d a []) (nth d z []));
    [| apply Ha; exact Hd' | apply Hz; exact Hd'].
  apply (tadd_tsum_zero B (C ^ (d + 1))); [apply Ha; exact Hd'|].
  intros j Hj. apply (is_zero_cast B (C ^ (j + 1) * C ^ (d - 1 - j + 1))).
  - rewrite <- Nat.pow_add_r. f_equal. lia.
  - apply is_zero_tmul_l; [apply Hz | apply Ha]; lia.
Qed.

End Cancel.

Section RoundTrip.
Context {K : ExactField}.

Notation "0" := (fzero K) : field_scope.
Notation "1" := (fone K) : field_scope.

Local Abbreviation vec := (vec K).
Local Abbreviation tensor := (tensor K).
Local Abbreviation talg := (talg K).

(** exp(x) (x) exp(-x) = 1. *)
Lemma exp_cancel (B C D : nat) (x : tensor) (out out' : talg) (k : nat) :
  shaped B C x -> length out = D -> length out' = D -> k < D ->
  let r := @misc.make_reciprocals K D in
  is_zero B (C ^ (k + 1))
          (nth k (ta_ops.mult (ta_ops.restricted_exp x out r)
                              (ta_ops.restricted_exp (tneg x) out' r)) []).
Proof.
  intros Hx Lo Lo' Hk r.
  rewrite mult_nth by (rewrite restricted_exp_length; lia).
  unfold mult_term.
  rewrite (tsum_ext _ (fun j => tmul_cr (rexp_term x r j) (rexp_term (tneg x) r (k - 1 - j))) k)
    by (intros j Hj; rewrite !restricted_exp_nth by lia; reflexivity).
  rewrite !restricted_exp_nth by lia.
  subst r. rewrite (exp_cancel_term D x k Hk).
  exists (xpow x k). split; [apply shaped_xpow; exact Hx | reflexivity].
Qed.

(** Multiplying by the restricted exponential of [x] and then by that of
    [-x] restores the member, on either side. *)
Theorem fused_round_trip (B C D : nat) (x : tensor) (a : talg) (inverse : bool) :
  graded B C D a -> shaped B C x ->
  let r := @misc.make_reciprocals K D in
  ta_ops.mult_fused_restricted_exp
    (tneg x) (ta_ops.mult_fused_restricted_exp x a inverse r) inverse r = a.
Proof.
  intros Ha Hx r. assert (La : length a = D) by apply Ha.
  assert (Lr : length r = D - 1) by apply make_reciprocals_length.
  assert (Hnx : shaped B C (tneg x)) by (apply shaped_tneg; exact Hx).
  assert (HE : graded B C D (ta_ops.restricted_exp x a r))
    by (rewrite <- La; apply graded_restricted_exp; exact Hx).
  assert (HE' : graded B C D (ta_ops.restricted_exp (tneg x) a r))
    by (rewrite <- La; apply graded_restricted_exp; exact Hnx).
  destruct inverse.
  - rewrite (fused_inverse_is_exp_mult B C D x a a r) by assumption.
    rewrite (fused_inverse_is_exp_mult B C D (tneg x) _ a r);
      [| apply graded_mult; assumption | assumption | assumption | assumption].
    rewrite <- (mult_assoc B C D) by assumption.
    apply (mult_zero_l B C D); [exact Ha | rewrite mult_length; apply HE' |].
    intros k Hk.
    assert (Z := exp_cancel B C D (tneg x) a a k Hnx La La Hk).
    cbv zeta in Z. rewrite tneg_tneg in Z. exact Z.
  - rewrite (fused_is_mult_exp x a a r) by (rewrite ?Lr, ?La; reflexivity).
    rewrite (fused_is_mult_exp (tneg x) _ a r)
      by (rewrite mult_length, ?Lr, ?La; reflexivity).
    rewrite (mult_assoc B C D) by assumption.
    apply (mult_zero_r B C D); [exact Ha | rewrite mult_length; apply HE |].
    intros k Hk. exact (exp_cancel B C D x a a k Hx La La Hk).
Qed.

End RoundTrip.

Section BatchRows.
Context {K : ExactField}.

Notation "0" := (fzero K) : field_scope.
Notation "1" := (fone K) : field_scope.

Local Abbreviation vec := (vec K).
Local Abbreviation tensor := (tensor K).
Local Abbreviation talg := (talg K).

Lemma nth_zipw_nil (f : vec -> vec -> vec) (a c : tensor) (i : nat) :
  (forall y, f [] y = []) -> (forall x, f x [] = []) ->
  nth i (zipw f a c) [] = f (nth i a []) (nth i c []).
Proof.
  intros Hl Hr. revert c i; induction a as [|x a IH]; intros [|y c] [|i]; cbn;
    rewrite ?Hl, ?Hr; auto.
Qed.

Lemma sel_tadd (b : nat) (s t : tensor) : sel b (tadd s t) = tadd (sel b s) (sel b t).
Proof.
  unfold sel, tadd. rewrite (nth_zip_pad vadd []); [reflexivity | reflexivity |].
  intros x. apply vadd_nil_r.
Qed.

Lemma sel_tmul_cr (b : nat) (s t : tensor) :
  sel b (tmul_cr s t) = tmul_cr (sel b s) (sel b t).
Proof.
  unfold sel, tmul_cr. rewrite nth_zipw_nil; [reflexivity | reflexivity |].
  apply bmul_cr_nil_r.
Qed.

Lemma sel_fused_product (inverse : bool) (b : nat) (s t : tensor) :
  sel b (ta_ops.fused_product inverse s t) = ta_ops.fused_product inverse (sel b s) (sel b t).
Proof.
  destruct inverse; rewrite ?fused_product_true, ?fused_product_false; apply sel_tmul_cr.
Qed.

Lemma sel_tscale (b : nat) (s : K) (t : tensor) : sel b (tscale s t) = tscale s (sel b t).
Proof.
  unfold sel, tscale. cbn [map]. f_equal.
  apply (map_nth (map (fun v => fmul K v s)) t []).
Qed.

Lemma nth_map_sel (b : nat) (a : talg) (j : nat) :
  j < length a -> nth j (map (sel b) a) [] = sel b (nth j a []).
Proof.
  intros H. rewrite (nth_indep _ [] (sel b [])) by (rewrite length_map; exact H).
  apply map_nth.
Qed.

Lemma nth_divided_sel (b : nat) (x : tensor) (r : list K) (k : nat) :
  k < length r ->
  nth k (map (fun s => tscale s (sel b x)) r) []
  = sel b (nth k (map (fun s => tscale s x) r) []).
Proof.
  intros H. rewrite !nth_next_divided by exact H. symmetry. apply sel_tscale.
Qed.

Lemma sel_scratch_chain (inverse : bool) (b : nat) (x : tensor) (r : list K) (a : talg)
      (d m : nat) :
  d - 1 < length r -> m < length a ->
  sel b (scratch_chain inverse x r a d m)
  = scratch_chain inverse (sel b x) r (map (sel b) a) d m.
Proof.
  intros Hr. induction m as [|m IH]; intros Hm; unfold scratch_chain in *.
  - cbn [seq fold_left].
    rewrite sel_tadd, (nth_map_sel b a 0), (nth_divided_sel b x r (d - 1)) by lia.
    reflexivity.
  - rewrite !seq_S, !fold_left_app. cbn [fold_left plus].
    rewrite sel_tadd, sel_fused_product, IH by lia.
    rewrite (nth_map_sel b a (S m)) by lia.
    rewrite (nth_divided_sel b x r (d - 1 - S m)) by lia.
    reflexivity.
Qed.

(** The fused kernel acts on every batch element separately. *)
Lemma fused_sel (b : nat) (x : tensor) (a : talg) (inverse : bool) (r : list K) :
  length a - 1 <= length r ->
  map (sel b) (ta_ops.mult_fused_restricted_exp x a inverse r)
  = ta_ops.mult_fused_restricted_exp (sel b x) (map (sel b) a) inverse r.
Proof.
  intros Hr. apply talg_ext; [rewrite length_map, !fused_length, length_map; reflexivity|].
  intros d Hd. rewrite length_map, fused_length in Hd.
  rewrite nth_map_sel by (rewrite fused_length; exact Hd).
  rewrite !fused_nth by (rewrite ?length_map; exact Hd).
  destruct d as [|d]; cbn [Nat.eqb].
  - rewrite sel_tadd, (nth_map_sel b a 0) by exact Hd. reflexivity.
  - unfold fused_term.
    rewrite sel_tadd, sel_fused_product, (nth_map_sel b a (S d)) by exact Hd.
    rewrite sel_scratch_chain by lia. reflexivity.
Qed.

Lemma batched_nth (B : nat) (a : talg) (d : nat) :
  batched B a -> d < length a -> length (nth d a []) = B.
Proof. intros H Hd. apply (proj1 (Forall_nth _ a) H d [] Hd). Qed.

Lemma graded_batched (B C D : nat) (a : talg) : graded B C D a -> batched B a.
Proof.
  intros [L H]. apply Forall_nth. intros i d Hi.
  rewrite (nth_indep _ d []) by exact Hi. destruct (H i) as [E _]; [rewrite <- L; exact Hi | exact E].
Qed.

Lemma tadd_length (s t : tensor) : length (tadd s t) = Nat.max (length s) (length t).
Proof. apply zip_pad_length. Qed.

Lemma tmul_cr_length (s t : tensor) : length (tmul_cr s t) = Nat.min (length s) (length t).
Proof. apply zipw_length. Qed.

Lemma fused_product_length (inverse : bool) (s t : tensor) :
  length (ta_ops.fused_product inverse s t) = Nat.min (length s) (length t).
Proof.
  destruct inverse; rewrite ?fused_product_true, ?fused_product_false, tmul_cr_length; lia.
Qed.

Lemma tscale_length (s : K) (t : tensor) : length (tscale s t) = length t.
Proof. apply length_map. Qed.

Lemma scratch_chain_length (B : nat) (inverse : bool) (x : tensor) (r : list K) (a : talg)
      (d m : nat) :
  batched B a -> length x = B -> d - 1 < length r -> m < length a ->
  length (scratch_chain inverse x r a d m) = B.
Proof.
  intros Ha Hx Hr. induction m as [|m IH]; intros Hm; unfold scratch_chain in *.
  - cbn [seq fold_left]. rewrite tadd_length, nth_next_divided, tscale_length by lia.
    rewrite (batched_nth B) by (auto; lia). lia.
  - rewrite seq_S, fold_left_app. cbn [fold_left plus].
    rewrite tadd_length, fused_product_length, IH by lia.
    rewrite (nth_next_divided x r (d - 1 - S m)), tscale_length by lia.
    rewrite (batched_nth B) by (auto; lia). lia.
Qed.

Lemma batched_fused (B : nat) (x : tensor) (a : talg) (inverse : bool) (r : list K) :
  batched B a -> length x = B -> length a - 1 <= length r ->
  batched B (ta_ops.mult_fused_restricted_exp x a inverse r).
Proof.
  intros Ha Hx Hr. apply Forall_nth. intros d dflt Hd.
  rewrite (nth_indep _ dflt []) by exact Hd.
  assert (Hd' : d < length a) by (rewrite <- (fused_length x a inverse r); exact Hd).
  clear Hd. rename Hd' into Hd.
  rewrite fused_nth by exact Hd. destruct d as [|d]; cbn [Nat.eqb].
  - rewrite tadd_length, (batched_nth B) by (auto; lia). lia.
  - unfold fused_term.
    rewrite tadd_length, fused_product_length, (batched_nth B) by (auto; lia).
    rewrite (scratch_chain_length B) by (auto; lia). lia.
Qed.

Lemma single_cpu_rows (b : nat) (x : tensor) (a' a : talg) (inverse : bool) (r : list K) :
  length a - 1 <= length r -> length a' = length a ->
  (forall d, d < length a -> nth b (nth d a' []) [] = nth b (nth d a []) []) ->
  signature_detail.mult_fused_restricted_exp_single_cpu
    inverse (nth b x []) (map (fun elem => nth b elem []) a') r
  = map (fun t => nth b t []) (ta_ops.mult_fused_restricted_exp x a inverse r).
Proof.
  intros Hr La' H. unfold signature_detail.mult_fused_restricted_exp_single_cpu.
  rewrite map_map.
  change (map (fun x0 => [nth b x0 []]) a') with (map (sel b) a').
  replace (map (sel b) a') with (map (sel b) a).
  - change [nth b x []] with (sel b x). rewrite <- fused_sel by exact Hr.
    rewrite map_map. reflexivity.
  - apply talg_ext; [rewrite !length_map; congruence|].
    intros d Hd. rewrite length_map in Hd.
    rewrite !nth_map_sel by lia. unfold sel. rewrite H by exact Hd. reflexivity.
Qed.

Lemma upd_firstn_skipn {A : Type} (b : nat) (x : A) (f a : list A) (d : A) :
  b < length f -> b < length a -> nth b f d = x ->
  upd b x (firstn b f ++ skipn b a) = firstn (S b) f ++ skipn (S b) a.
Proof.
  revert f a; induction b as [|b IH]; intros [|y f] [|z a] Hf Ha E; cbn in *; try lia.
  - subst; reflexivity.
  - f_equal. apply IH; auto; lia.
Qed.

Lemma rows_from_O (f a : talg) : length f = length a -> rows_from 0 f a = a.
Proof.
  unfold rows_from. revert a; induction f as [|t f IH]; intros [|u a] L; try discriminate;
    [reflexivity|].
  cbn [zipw firstn skipn app]. f_equal. apply IH. cbn in L; lia.
Qed.

Lemma rows_from_all (B : nat) (f a : talg) :
  batched B f -> batched B a -> length f = length a -> rows_from B f a = f.
Proof.
  unfold rows_from. intros Hf. revert a. induction Hf as [|t f Lt Hf IH];
    intros [|u a] Ha L; try discriminate; [reflexivity|].
  inversion Ha; subst. cbn [zipw]. f_equal.
  - rewrite firstn_all, skipn_all2 by lia. apply app_nil_r.
  - apply IH; auto.
Qed.

Lemma rows_from_step (n B : nat) (f a : talg) :
  batched B f -> batched B a -> length f = length a -> n < B ->
  zipw (fun elem row => upd n row elem) (rows_from n f a) (map (fun t => nth n t []) f)
  = rows_from (S n) f a.
Proof.
  unfold rows_from. intros Hf. revert a. induction Hf as [|t f Lt Hf IH];
    intros [|u a] Ha L Hn; try discriminate; [reflexivity|].
  inversion Ha; subst. cbn [zipw map]. f_equal.
  - apply (upd_firstn_skipn n _ t u []); lia || reflexivity.
  - apply IH; auto.
Qed.

Lemma rows_from_row (n B : nat) (f a : talg) (d : nat) :
  batched B f -> length f = length a -> d < length a -> n <= B ->
  nth n (nth d (rows_from n f a) []) [] = nth n (nth d a []) [].
Proof.
  intros Hf L Hd Hn. unfold rows_from.
  rewrite (@nth_zipw tensor tensor tensor _ [] [] []) by lia.
  rewrite app_nth2; rewrite length_firstn, (batched_nth B f d Hf) by lia.
  - replace (n - Nat.min n B) with 0 by lia. rewrite nth_skipn. f_equal. lia.
  - lia.
Qed.

Lemma batch_loop_rows (x : tensor) (a : talg) (inverse : bool) (B : nat) (r : list K) (n : nat) :
  batched B a -> length x = B -> length a - 1 <= length r -> n <= B ->
  fold_left
    (fun at_stream batch_index =>
       zipw (fun elem row => upd batch_index row elem) at_stream
            (signature_detail.mult_fused_restricted_exp_single_cpu
               inverse (nth batch_index x [])
               (map (fun elem => nth batch_index elem []) at_stream) r))
    (seq 0 n) a
  = rows_from n (ta_ops.mult_fused_restricted_exp x a inverse r) a.
Proof.
  intros Ha Hx Hr.
  assert (LF := fused_length x a inverse r).
  assert (HF := batched_fused B x a inverse r Ha Hx Hr).
  induction n as [|n IH]; intros Hn.
  - cbn [seq fold_left]. symmetry. apply rows_from_O. exact LF.
  - rewrite seq_S, fold_left_app. cbn [fold_left plus]. rewrite IH by lia.
    rewrite (single_cpu_rows n x _ a inverse r).
    + apply (rows_from_step n B); auto.
    + exact Hr.
    + unfold rows_from. rewrite zipw_length. lia.
    + intros d Hd. apply (rows_from_row n B); auto. lia.
Qed.

(** The CPU batch loop computes what the kernel on whole tensors computes. *)
Theorem batch_loop_fused (x : tensor) (a : talg) (inverse : bool) (B : nat) (r : list K) :
  batched B a -> length x = B -> length a - 1 <= length r ->
  signature_detail.batch_loop x a inverse B r
  = ta_ops.mult_fused_restricted_exp x a inverse r.
Proof.
  intros Ha Hx Hr. unfold signature_detail.batch_loop.
  rewrite (batch_loop_rows x a inverse B r B) by (auto; lia).
  apply (rows_from_all B); auto.
  - apply batched_fused; assumption.
  - apply fused_length.
Qed.

End BatchRows.

Section Slices.
Context {K : ExactField}.

Local Abbreviation vec := (vec K).
Local Abbreviation tensor := (tensor K).
Local Abbreviation talg := (talg K).

Lemma graded_graded_from (B C D : nat) (a : talg) :
  graded B C D a -> graded_from B C C a.
Proof.
  intros [L H] i Hi. replace (C * C ^ i) with (C ^ (i + 1)).
  - apply H. rewrite <- L. exact Hi.
  - rewrite Nat.add_1_r. reflexivity.
Qed.

Lemma graded_from_tail (B len C : nat) (t : tensor) (a : talg) :
  graded_from B len C (t :: a) -> shaped B len t /\ graded_from B (len * C) C a.
Proof.
  intros H. split.
  - assert (H0 := H 0 ltac:(cbn; lia)). cbn in H0. rewrite Nat.mul_1_r in H0. exact H0.
  - intros i Hi. assert (H1 := H (S i) ltac:(cbn; lia)). cbn [nth] in H1.
    replace (len * C * C ^ i) with (len * C ^ S i) by (cbn; lia). exact H1.
Qed.

Lemma fold_zipw_app_prefix (B : nat) (a : talg) : forall X : tensor,
  length X = B -> @Forall tensor (fun t => length t = B) a ->
  exists R : tensor, length R = B /\ fold_left (zipw (@app K)) a X = zipw (@app K) X R.
Proof.
  induction a as [|t a IH]; intros X LX Ha.
  - exists (repeat [] B). split; [apply repeat_length|]. cbn [fold_left].
    subst B. clear. induction X as [|x X IH]; [reflexivity|].
    cbn [length repeat zipw]. rewrite app_nil_r. f_equal. exact IH.
  - apply Forall_cons_iff in Ha. destruct Ha as [Lt Ha]. cbn [fold_left].
    destruct (IH (zipw (@app K) X t)) as (R & LR & E).
    + rewrite zipw_length, LX, Lt. apply Nat.min_id.
    + assumption.
    + exists (zipw (@app K) t R). split; [rewrite zipw_length, Lt, LR; apply Nat.min_id|].
      rewrite E. subst B. clear -LR Lt. revert t R LR Lt.
      induction X as [|x X IH]; intros [|y t] [|z R] L2 L3; try discriminate;
        try reflexivity.
      cbn [zipw]. rewrite app_assoc. f_equal. apply IH; cbn in *; lia.
Qed.

Lemma narrow_zipw_app (B pos len : nat) (acc t R : tensor) :
  shaped B pos acc -> shaped B len t -> length R = B ->
  map (narrow pos len) (zipw (@app K) (zipw (@app K) acc t) R) = t.
Proof.
  intros [La Fa] [Lt Ft] LR. subst B. revert t R Lt Ft LR.
  induction acc as [|x acc IH]; intros [|y t] [|z R] Lt Ft LR; try discriminate;
    try reflexivity.
  inversion Fa; inversion Ft; subst. cbn [zipw map]. f_equal.
  - unfold narrow. rewrite <- app_assoc. rewrite skipn_app, skipn_all, Nat.sub_diag.
    cbn [skipn app]. rewrite firstn_app, firstn_all, Nat.sub_diag. cbn [firstn].
    apply app_nil_r.
  - apply IH; auto.
Qed.

Lemma slice_fold (B C : nat) (a : talg) : forall (acc : tensor) (pos len : nat),
  shaped B pos acc -> graded_from B len C a ->
  map (fun v => map (narrow (Z.to_nat (fst v)) (Z.to_nat (snd v)))
                    (fold_left (zipw (@app K)) a acc))
      (misc.slice_by_term_views (Z.of_nat pos) (Z.of_nat len) (Z.of_nat C) (length a))
  = a.
Proof.
  induction a as [|t a IH]; intros acc pos len Hacc Ha; [reflexivity|].
  destruct (graded_from_tail B len C t a Ha) as [Ht Ha'].
  cbn [length misc.slice_by_term_views map fst snd fold_left].
  rewrite <- Nat2Z.inj_add, <- Nat2Z.inj_mul, !Nat2Z.id.
  assert (Hacc' : shaped B (pos + len) (zipw (@app K) acc t)).
  { destruct Hacc as [La Fa], Ht as [Lt Ft]. split; [rewrite zipw_length; lia|].
    subst B. clear -Lt Fa Ft. revert t Lt Ft.
    induction acc as [|x acc IH]; intros [|y t] Lt Ft; try discriminate; [constructor|].
    inversion Fa; inversion Ft; subst. cbn [zipw]. constructor.
    - rewrite length_app. reflexivity.
    - apply IH; auto. }
  f_equal.
  - destruct (fold_zipw_app_prefix B a (zipw (@app K) acc t)) as (R & LR & E).
    + apply Hacc'.
    + apply Forall_nth. intros i d Hi. rewrite (nth_indep _ d []) by exact Hi.
      apply (Ha' i Hi).
    + rewrite E. apply (narrow_zipw_app B); auto.
  - apply IH; auto.
Qed.

(** Reading a buffer through the views gives back the terms that were
    written through them. *)
Theorem slice_unslice (B C D : nat) (a : talg) :
  graded B C D a -> misc.slice_by_term (misc.unslice a) C D = a.
Proof.
  intros Ha. assert (L : length a = D) by apply Ha.
  assert (Hf := graded_graded_from B C D a Ha).
  destruct a as [|t a]; [subst D; reflexivity|].
  unfold misc.slice_by_term, misc.unslice.
  destruct (graded_from_tail B C C t a Hf) as [Ht _].
  replace (fold_left (zipw (@app K)) a t)
    with (fold_left (zipw (@app K)) (t :: a) (repeat [] B)).
  - rewrite <- L. apply (slice_fold B C (t :: a) (repeat [] B) 0 C); auto.
    split; [apply repeat_length|]. apply Forall_forall. intros x Hx.
    apply repeat_spec in Hx. subst; reflexivity.
  - cbn [fold_left]. f_equal. destruct Ht as [Lt _]. subst B. clear.
    induction t as [|x t IH]; [reflexivity|]. cbn [length repeat zipw app]. f_equal. exact IH.
Qed.

Lemma slice_by_term_views_length (pos len C : Z) (D : nat) :
  length (misc.slice_by_term_views pos len C D) = D.
Proof.
  revert pos len; induction D as [|D IH]; intros pos len; [reflexivity|].
  cbn [misc.slice_by_term_views length]. rewrite IH. reflexivity.
Qed.

Lemma slice_by_term_length (buf : tensor) (C D : nat) :
  length (misc.slice_by_term buf C D) = D.
Proof.
  unfold misc.slice_by_term. rewrite length_map. apply slice_by_term_views_length.
Qed.

End Slices.

Section Drivers.
Context {K : ExactField}.

Local Abbreviation vec := (vec K).
Local Abbreviation tensor := (tensor K).
Local Abbreviation talg := (talg K).

Lemma slice_of_nil {A : Type} (l : list A) (a : nat) : slice_of l a a = [].
Proof. unfold slice_of. rewrite Nat.sub_diag. reflexivity. Qed.

Lemma slice_of_cons {A : Type} (l : list A) (d : A) (a b : nat) :
  a < b -> b <= length l -> slice_of l a b = nth a l d :: slice_of l (S a) b.
Proof.
  unfold slice_of. revert a b; induction l as [|x l IH]; intros a b Hab Hb.
  - cbn in Hb. lia.
  - destruct b as [|b]; [lia|]. cbn in Hb. destruct a as [|a].
    + replace (S b - 0) with (S b) by lia. replace (S b - 1) with b by lia. reflexivity.
    + change (firstn (b - a) (skipn a l) = nth a l d :: firstn (b - S a) (skipn (S a) l)).
      apply IH; lia.
Qed.

Lemma firstn_plus {A : Type} (m n : nat) (l : list A) :
  firstn (m + n) l = firstn m l ++ firstn n (skipn m l).
Proof.
  revert l; induction m as [|m IH]; intros [|x l]; cbn [plus firstn skipn app];
    rewrite ?firstn_nil; try reflexivity.
  f_equal. apply IH.
Qed.

Lemma slice_of_app {A : Type} (l : list A) (a b c : nat) :
  a <= b -> b <= c -> c <= length l ->
  slice_of l a c = slice_of l a b ++ slice_of l b c.
Proof.
  intros Hab Hbc Hc. unfold slice_of.
  replace (c - a) with ((b - a) + (c - b)) by lia.
  rewrite firstn_plus. f_equal. rewrite skipn_skipn. do 2 f_equal. lia.
Qed.

Lemma Forall_firstn' {A : Type} (P : A -> Prop) (n : nat) (l : list A) :
  Forall P l -> Forall P (firstn n l).
Proof.
  intros H. revert n; induction H as [|x l Hx H IH]; intros [|n]; cbn [firstn]; auto.
Qed.

Lemma Forall_skipn' {A : Type} (P : A -> Prop) (n : nat) (l : list A) :
  Forall P l -> Forall P (skipn n l).
Proof.
  intros H. revert n; induction H as [|x l Hx H IH]; intros [|n]; cbn [skipn]; auto.
Qed.

Lemma slice_of_Forall {A : Type} (P : A -> Prop) (l : list A) (a b : nat) :
  Forall P l -> Forall P (slice_of l a b).
Proof. intros H. apply Forall_firstn', Forall_skipn', H. Qed.

(** A [for] loop over the indices of a list visits its entries. *)
Lemma fold_seq_nth {A S : Type} (f : A -> S -> S) (l : list A) (d : A) (n : nat) :
  forall (start : nat) (s : S),
    start + n <= length l ->
    fold_left (fun s i => f (nth i l d) s) (seq start n) s
    = fold_left (fun s x => f x s) (slice_of l start (start + n)) s.
Proof.
  induction n as [|n IH]; intros start s H.
  - rewrite Nat.add_0_r, slice_of_nil. reflexivity.
  - rewrite (slice_of_cons l d) by lia. cbn [seq fold_left].
    rewrite IH by lia. f_equal. f_equal. lia.
Qed.

Lemma graded_fused (B C D : nat) (x : tensor) (a : talg) (inverse : bool) (r : list K) :
  graded B C D a -> shaped B C x -> length r = D - 1 ->
  graded B C D (ta_ops.mult_fused_restricted_exp x a inverse r).
Proof.
  intros Ha Hx Lr. assert (La : length a = D) by apply Ha.
  assert (HE : graded B C D (ta_ops.restricted_exp x a r))
    by (rewrite <- La; apply graded_restricted_exp; exact Hx).
  destruct inverse.
  - rewrite (fused_inverse_is_exp_mult B C D x a a r) by assumption.
    apply graded_mult; assumption.
  - rewrite (fused_is_mult_exp x a a r) by (rewrite ?La, ?Lr; reflexivity).
    apply graded_mult; assumption.
Qed.

Lemma graded_drive (B C D : nat) (inverse : bool) (r : list K) (xs : list tensor) :
  forall a : talg,
    graded B C D a -> Forall (shaped B C) xs -> length r = D - 1 ->
    graded B C D (drive inverse r a xs).
Proof.
  induction xs as [|x xs IH]; intros a Ha Hxs Lr; [exact Ha|].
  apply Forall_cons_iff in Hxs. destruct Hxs as [Hx Hxs].
  cbn [drive fold_left]. apply IH; auto. apply graded_fused; auto.
Qed.

Lemma drive_app (inverse : bool) (r : list K) (a : talg) (xs ys : list tensor) :
  drive inverse r a (xs ++ ys) = drive inverse r (drive inverse r a xs) ys.
Proof. unfold drive. apply fold_left_app. Qed.

(** Left multiplication commutes with driving further increments. *)
Lemma drive_mult (B C D : nat) (r : list K) (s : talg) (ys : list tensor) :
  forall e : talg,
    graded B C D s -> graded B C D e -> Forall (shaped B C) ys -> length r = D - 1 ->
    drive false r (ta_ops.mult s e) ys = ta_ops.mult s (drive false r e ys).
Proof.
  induction ys as [|y ys IH]; intros e Hs He Hys Lr; [reflexivity|].
  apply Forall_cons_iff in Hys. destruct Hys as [Hy Hys].
  assert (Le : length e = D) by apply He.
  assert (HE : graded B C D (ta_ops.restricted_exp y e r))
    by (rewrite <- Le; apply graded_restricted_exp; exact Hy).
  cbn [drive fold_left]. fold (drive false r).
  rewrite (fused_is_mult_exp y (ta_ops.mult s e) e r)
    by (rewrite ?mult_length, ?Lr; destruct Hs as [-> _]; auto).
  rewrite (mult_assoc B C D) by assumption.
  rewrite <- (fused_is_mult_exp y e e r) by (rewrite ?Le, ?Lr; reflexivity).
  apply IH; auto. apply graded_fused; auto.
Qed.

(** Chen's identity on members of the tensor algebra: the signature over
    [xs ++ y :: ys] is the product of the signature over [xs] and the
    signature over [y :: ys]. *)
Theorem chen_drive (B C D : nat) (r : list K) (a out : talg) (xs : list tensor) (y : tensor)
        (ys : list tensor) :
  graded B C D a -> length out = D -> Forall (shaped B C) xs -> shaped B C y ->
  Forall (shaped B C) ys -> length r = D - 1 ->
  drive false r a (xs ++ y :: ys)
  = ta_ops.mult (drive false r a xs) (drive false r (ta_ops.restricted_exp y out r) ys).
Proof.
  intros Ha Lo Hxs Hy Hys Lr.
  assert (Hs : graded B C D (drive false r a xs)) by (apply graded_drive; auto).
  assert (HE : graded B C D (ta_ops.restricted_exp y out r))
    by (rewrite <- Lo; apply graded_restricted_exp; exact Hy).
  rewrite drive_app. cbn [drive fold_left]. fold (drive false r).
  rewrite (fused_is_mult_exp y _ out r)
    by (destruct Hs as [-> _]; rewrite ?Lo, ?Lr; reflexivity).
  apply (drive_mult B C D); auto.
Qed.

End Drivers.

Section Loops.
Context {K : ExactField}.

Local Abbreviation vec := (vec K).
Local Abbreviation tensor := (tensor K).
Local Abbreviation tensor3 := (tensor3 K).
Local Abbreviation talg := (talg K).

Lemma forward_inner_loop (path_increments : tensor3) (r : list K) (a : talg) (inverse : bool)
      (S : nat) (stream : bool) (signature : tensor3) (views : list (Z * Z)) :
  signature_detail.signature_forward_inner path_increments r a inverse S stream signature views
  = stream_loop (fun x a => ta_ops.mult_fused_restricted_exp x a inverse r)
                path_increments stream views (seq 1 (S - 1)) (signature, a).
Proof. reflexivity. Qed.

Lemma forward_inner_cpu_loop (path_increments : tensor3) (r : list K) (a : talg)
      (inverse : bool) (B start stop batch_threads : nat) (stream : bool)
      (signature : tensor3) (views : list (Z * Z)) :
  signature_detail.signature_forward_inner_cpu_inner path_increments r a inverse B start stop
                                                     batch_threads stream signature views
  = stream_loop (fun x a => signature_detail.batch_loop x a inverse B r)
                path_increments stream views (seq start (stop - start)) (signature, a).
Proof. reflexivity. Qed.

(** The dispatch on a type it has a case for, and on any other. *)
Lemma dispatch_floating {A : Type} (type : ScalarType) (body : A) :
  dispatched type = true -> AT_DISPATCH_FLOATING_TYPES type body = Ok body.
Proof. destruct type; try discriminate; reflexivity. Qed.

Lemma dispatch_other {A : Type} (type : ScalarType) (body : A) :
  dispatched type = false ->
  AT_DISPATCH_FLOATING_TYPES type body = Error (not_implemented_for type).
Proof. destruct type; try discriminate; reflexivity. Qed.

Lemma forward_inner_cpu_dispatch (type : ScalarType) (path_increments : tensor3) (r : list K)
      (a : talg) (inverse : bool) (B start stop batch_threads : nat) (stream : bool)
      (signature : tensor3) (views : list (Z * Z)) :
  dispatched type = true ->
  signature_detail.signature_forward_inner_cpu type path_increments r a inverse B start stop
                                               batch_threads stream signature views
  = Ok (stream_loop (fun x a => signature_detail.batch_loop x a inverse B r)
                    path_increments stream views (seq start (stop - start)) (signature, a)).
Proof.
  intros H. unfold signature_detail.signature_forward_inner_cpu.
  rewrite dispatch_floating by exact H. reflexivity.
Qed.

Lemma fused_on_fused (B C D : nat) (inverse : bool) (r : list K) :
  fused_on B C D inverse r (fun x a => ta_ops.mult_fused_restricted_exp x a inverse r).
Proof. intros x a _ _. reflexivity. Qed.

Lemma fused_on_batch_loop (B C D : nat) (inverse : bool) (r : list K) :
  length r = D - 1 ->
  fused_on B C D inverse r (fun x a => signature_detail.batch_loop x a inverse B r).
Proof.
  intros Lr x a Ha Hx. apply batch_loop_fused.
  - apply (graded_batched B C D). exact Ha.
  - apply Hx.
  - destruct Ha as [-> _]. lia.
Qed.

(** Without [stream] the loop drives the increments it was given. *)
Lemma stream_loop_drive (B C D : nat) (inverse : bool) (r : list K)
      (kern : tensor -> talg -> talg) (path_increments : tensor3) (views : list (Z * Z))
      (signature : tensor3) (n : nat) :
  fused_on B C D inverse r kern -> Forall (shaped B C) path_increments -> length r = D - 1 ->
  forall (start : nat) (a : talg),
    graded B C D a -> start + n <= length path_increments ->
    stream_loop kern path_increments false views (seq start n) (signature, a)
    = (signature, drive inverse r a (slice_of path_increments start (start + n))).
Proof.
  intros Hk Hpi Lr. induction n as [|n IH]; intros start a Ha Hn.
  - rewrite Nat.add_0_r, slice_of_nil. reflexivity.
  - rewrite (slice_of_cons path_increments []) by lia.
    cbn [seq]. unfold stream_loop in *. cbn [fold_left drive].
    assert (Hx : shaped B C (nth start path_increments [])).
    { apply (proj1 (Forall_nth _ _) Hpi). lia. }
    rewrite Hk by assumption.
    rewrite IH by (try apply graded_fused; auto; lia).
    replace (S start + n) with (start + S n) by lia. reflexivity.
Qed.

(** Under [stream] slot [s] of the output holds the signature after the
    first [s + 1] increments. *)
Lemma stream_loop_stream (B C D : nat) (inverse : bool) (r : list K)
      (kern : tensor -> talg -> talg) (path_increments : tensor3) (a0 : talg) (n : nat) :
  fused_on B C D inverse r kern -> Forall (shaped B C) path_increments -> length r = D - 1 ->
  graded B C D a0 ->
  forall signature : tensor3,
    nth 0 signature [] = misc.unslice a0 ->
    1 + n <= length path_increments -> 1 + n <= length signature ->
    let res := stream_loop kern path_increments true (misc.slice_by_term_views 0 (Z.of_nat C) (Z.of_nat C) D)
                           (seq 1 n) (signature, a0) in
    length (fst res) = length signature /\
    snd res = drive inverse r a0 (slice_of path_increments 1 (1 + n)) /\
    forall s, nth s (fst res) []
              = if s <=? n then misc.unslice (drive inverse r a0 (slice_of path_increments 1 (1 + s)))
                else nth s signature [].
Proof.
  intros Hk Hpi Lr Ha0. induction n as [|n IH]; intros signature H0 Hn Hs res.
  - subst res. cbn [seq stream_loop fold_left fst snd]. rewrite slice_of_nil.
    split; [reflexivity|]. split; [reflexivity|].
    intros [|s]; cbn [Nat.leb]; [rewrite slice_of_nil; exact H0 | reflexivity].
  - subst res. rewrite seq_S. unfold stream_loop in *. rewrite fold_left_app.
    destruct (IH signature H0 ltac:(lia) ltac:(lia)) as (L & E & P).
    destruct (fold_left _ (seq 1 n) (signature, a0)) as [sig at_stream].
    cbn [fst snd] in L, E, P. cbn [fold_left fst snd].
    replace (1 + n - 1) with n by lia.
    assert (Hat : graded B C D at_stream).
    { rewrite E. apply graded_drive; auto. apply slice_of_Forall; exact Hpi. }
    assert (Hx : shaped B C (nth (1 + n) path_increments [])).
    { apply (proj1 (Forall_nth _ _) Hpi). lia. }
    assert (Eslice : misc.slice_at_stream (misc.slice_by_term_views 0 (Z.of_nat C) (Z.of_nat C) D)
                                          (upd (1 + n) (nth n sig []) sig) (1 + n)
                     = at_stream).
    { unfold misc.slice_at_stream. rewrite nth_upd_same by lia.
      rewrite (P n). replace (n <=? n) with true by (symmetry; apply Nat.leb_le; lia).
      rewrite <- E. apply (slice_unslice B C D). exact Hat. }
    match goal with
    | |- context [kern ?x ?y] => set (at' := kern x y)
    end.
    assert (Eat : at' = ta_ops.mult_fused_restricted_exp (nth (1 + n) path_increments [])
                                                         at_stream inverse r)
      by (subst at'; rewrite Eslice, Hk by assumption; reflexivity).
    clearbody at'. subst at'.
    split; [rewrite !upd_length; exact L|].
    split.
    + rewrite E. rewrite (slice_of_app path_increments 1 (1 + n) (1 + S n)) by lia.
      rewrite drive_app. rewrite (slice_of_cons path_increments [] (1 + n)) by lia.
      rewrite slice_of_nil. reflexivity.
    + intros s. destruct (Nat.eq_dec s (1 + n)) as [->|Hne].
      * rewrite nth_upd_same by (rewrite upd_length; lia).
        replace (1 + n <=? S n) with true by (symmetry; apply Nat.leb_le; lia).
        rewrite E. rewrite (slice_of_app path_increments 1 (1 + n) (1 + (1 + n))) by lia.
        rewrite drive_app. rewrite (slice_of_cons path_increments [] (1 + n)) by lia.
        rewrite slice_of_nil. reflexivity.
      * rewrite !nth_upd_other by lia. rewrite P.
        destruct (s <=? n) eqn:E1.
        -- apply Nat.leb_le in E1.
           replace (s <=? S n) with true by (symmetry; apply Nat.leb_le; lia). reflexivity.
        -- apply Nat.leb_gt in E1.
           replace (s <=? S n) with false by (symmetry; apply Nat.leb_gt; lia). reflexivity.
Qed.

End Loops.

Section Chunks.
Context {K : ExactField}.

Local Abbreviation vec := (vec K).
Local Abbreviation tensor := (tensor K).
Local Abbreviation tensor3 := (tensor3 K).
Local Abbreviation talg := (talg K).

Lemma chunk_bound_0 (Sz nt : nat) : 1 <= nt -> chunk_bound Sz nt 0 = 1.
Proof.
  intros H. unfold chunk_bound. rewrite Nat.mul_0_r, Nat.Div0.div_0_l. reflexivity.
Qed.

Lemma chunk_bound_all (Sz nt : nat) : 1 <= nt -> 1 <= Sz -> chunk_bound Sz nt nt = Sz.
Proof.
  intros H HS. unfold chunk_bound. rewrite Nat.div_mul by lia. lia.
Qed.

Lemma chunk_bound_mono (Sz nt t u : nat) : t <= u -> chunk_bound Sz nt t <= chunk_bound Sz nt u.
Proof.
  intros H. unfold chunk_bound. apply le_n_S. apply Nat.Div0.div_le_mono.
  apply Nat.mul_le_mono_l. exact H.
Qed.

Lemma chunk_bound_le (Sz nt t : nat) : 1 <= nt -> 1 <= Sz -> t <= nt -> chunk_bound Sz nt t <= Sz.
Proof.
  intros H HS Ht. rewrite <- (chunk_bound_all Sz nt H HS) at 2.
  apply chunk_bound_mono. exact Ht.
Qed.

(** What one thread of the region leaves in [omp_results]. *)
Lemma omp_chunk_drive (type : ScalarType) (B C D : nat) (junk : K) (path_increments : tensor3)
      (r : list K) (inverse : bool) (Sz W batch_threads t nt : nat) :
  dispatched type = true ->
  Forall (shaped B C) path_increments -> length r = D - 1 ->
  1 <= nt -> t < nt -> 1 <= Sz -> Sz <= length path_increments ->
  signature_detail.omp_chunk type junk path_increments r inverse Sz B W C D batch_threads t nt
  = Ok (chunk_signature inverse r junk path_increments Sz B W C D nt t).
Proof.
  intros Hty Hpi Lr Hnt Ht HS HL. unfold signature_detail.omp_chunk, chunk_signature.
  fold (chunk_bound Sz nt t). fold (chunk_bound Sz nt (1 + t)).
  destruct (chunk_bound Sz nt t <? chunk_bound Sz nt (1 + t)) eqn:E; [|reflexivity].
  apply Nat.ltb_lt in E.
  assert (Hb : chunk_bound Sz nt (1 + t) <= Sz) by (apply chunk_bound_le; lia).
  rewrite forward_inner_cpu_dispatch by exact Hty. cbn [bind].
  rewrite (stream_loop_drive B C D inverse r).
  - cbn [snd]. do 4 f_equal; lia.
  - apply fused_on_batch_loop. exact Lr.
  - exact Hpi.
  - exact Lr.
  - pose proof (graded_restricted_exp B C (nth (chunk_bound Sz nt t) path_increments [])
                                        (misc.slice_by_term (empty2 junk B W) C D) r) as G.
    rewrite slice_by_term_length in G. apply G.
    apply (proj1 (Forall_nth _ _) Hpi). lia.
  - lia.
Qed.

(** A thread with work to do meets the dispatch. *)
Lemma omp_chunk_raises (type : ScalarType) (junk : K) (path_increments : tensor3)
      (r : list K) (inverse : bool) (Sz B W C D batch_threads t nt : nat) :
  dispatched type = false -> chunk_bound Sz nt t < chunk_bound Sz nt (1 + t) ->
  signature_detail.omp_chunk type junk path_increments r inverse Sz B W C D batch_threads t nt
  = Error (not_implemented_for type).
Proof.
  intros Hty E. unfold signature_detail.omp_chunk.
  fold (chunk_bound Sz nt t). fold (chunk_bound Sz nt (1 + t)).
  replace (chunk_bound Sz nt t <? chunk_bound Sz nt (1 + t)) with true
    by (symmetry; apply Nat.ltb_lt; exact E).
  cbv zeta. unfold signature_detail.signature_forward_inner_cpu.
  rewrite dispatch_other by exact Hty. reflexivity.
Qed.

Lemma omp_join_values {A : Type} (l : list A) : signature_detail.omp_join (map Ok l) = Ok l.
Proof. induction l as [|a l IH]; [reflexivity|]. cbn [map signature_detail.omp_join]. rewrite IH. reflexivity. Qed.

(** One exception among the threads and the region does not come to its end. *)
Lemma omp_join_raised {A : Type} (l : list (result A)) (e : c10_Error) :
  In (Error e) l -> signature_detail.omp_join l = Uncaught.
Proof.
  induction l as [|x l IH]; intros H; [destruct H|].
  destruct H as [-> | H]; [reflexivity|].
  cbn [signature_detail.omp_join]. destruct x; try reflexivity.
  rewrite (IH H). reflexivity.
Qed.

(** The region ends with [omp_results] or not at all. *)
Lemma omp_join_cases {A : Type} (l : list (result A)) :
  (exists results, signature_detail.omp_join l = Ok results)
  \/ signature_detail.omp_join l = Uncaught.
Proof.
  induction l as [|x l IH]; [left; exists []; reflexivity|].
  cbn [signature_detail.omp_join]. destruct x; try (right; reflexivity).
  destruct IH as [[results E] | E]; rewrite E; [left; eexists|right]; reflexivity.
Qed.

Lemma omp_join_all {A : Type} (l : list (result A)) :
  (forall x, In x l -> exists a, x = Ok a) ->
  exists results, signature_detail.omp_join l = Ok results.
Proof.
  induction l as [|x l IH]; intros H; [exists []; reflexivity|].
  destruct (H x (or_introl eq_refl)) as [a ->].
  destruct (IH (fun y Hy => H y (or_intror Hy))) as [results E].
  cbn [signature_detail.omp_join]. rewrite E. eexists. reflexivity.
Qed.

(** Unused entries of [omp_results] leave the accumulator as it is. *)
Lemma combine_chunks_none (a : talg) (n : nat) (inverse : bool) :
  signature_detail.combine_chunks a (repeat None n) inverse = a.
Proof.
  unfold signature_detail.combine_chunks. induction n as [|n IH]; [reflexivity|].
  cbn [repeat fold_left]. exact IH.
Qed.

Lemma combine_chunks_app (a : talg) (xs ys : list (option talg)) (inverse : bool) :
  signature_detail.combine_chunks a (xs ++ ys) inverse
  = signature_detail.combine_chunks (signature_detail.combine_chunks a xs inverse) ys inverse.
Proof. unfold signature_detail.combine_chunks. apply fold_left_app. Qed.

(** The entries of [omp_results] of the threads below [k], combined. *)
Lemma combine_team_prefix (B C D : nat) (junk : K) (path_increments : tensor3) (r : list K)
      (Sz W nt : nat) (a0 : talg) (k : nat) :
  Forall (shaped B C) path_increments -> length r = D - 1 -> graded B C D a0 ->
  1 <= nt -> 1 <= Sz -> Sz <= length path_increments -> k <= nt ->
  signature_detail.combine_chunks a0
    (map (chunk_signature false r junk path_increments Sz B W C D nt) (seq 0 k)) false
  = drive false r a0 (slice_of path_increments 1 (chunk_bound Sz nt k)).
Proof.
  intros Hpi Lr Ha0 Hnt HS HL. induction k as [|k IH]; intros Hk.
  - rewrite chunk_bound_0 by exact Hnt. rewrite slice_of_nil. reflexivity.
  - rewrite seq_S, map_app, combine_chunks_app, IH by lia. cbn [plus map].
    change (S k) with (1 + k). unfold chunk_signature at 1.
    assert (Hlo : 1 <= chunk_bound Sz nt k) by (unfold chunk_bound; lia).
    assert (Hmono : chunk_bound Sz nt k <= chunk_bound Sz nt (1 + k))
      by (apply chunk_bound_mono; lia).
    assert (Hhi : chunk_bound Sz nt (1 + k) <= Sz) by (apply chunk_bound_le; lia).
    destruct (chunk_bound Sz nt k <? chunk_bound Sz nt (1 + k)) eqn:E.
    + apply Nat.ltb_lt in E.
      unfold signature_detail.combine_chunks. cbn [fold_left]. unfold ta_ops.mult3.
      rewrite (slice_of_app path_increments 1 (chunk_bound Sz nt k) (chunk_bound Sz nt (1 + k)))
        by lia.
      rewrite (slice_of_cons path_increments [] (chunk_bound Sz nt k)) by lia.
      symmetry. apply (chen_drive B C D).
      * exact Ha0.
      * apply slice_by_term_length.
      * apply slice_of_Forall. exact Hpi.
      * apply (proj1 (Forall_nth _ _) Hpi). lia.
      * apply slice_of_Forall. exact Hpi.
      * exact Lr.
    + apply Nat.ltb_ge in E. unfold signature_detail.combine_chunks. cbn [fold_left].
      replace (chunk_bound Sz nt (1 + k)) with (chunk_bound Sz nt k) by lia. reflexivity.
Qed.

(** The region when the dispatch has a case for the type: every thread of
    the team leaves the signature of its chunk. *)
Lemma omp_region_values (type : ScalarType) (env : omp) (B C D : nat) (junk : K)
      (path_increments : tensor3) (r : list K) (inverse : bool)
      (Sz W batch_threads stream_threads : nat) :
  dispatched type = true ->
  omp_ok env -> Forall (shaped B C) path_increments -> length r = D - 1 ->
  1 <= stream_threads -> 1 <= Sz -> Sz <= length path_increments ->
  signature_detail.omp_join
    (signature_detail.omp_region type env junk path_increments r inverse Sz B W C D
                                 batch_threads stream_threads)
  = Ok (map (chunk_signature inverse r junk path_increments Sz B W C D
                             (omp_get_num_threads env stream_threads))
            (seq 0 (omp_get_num_threads env stream_threads))
        ++ repeat None (stream_threads - omp_get_num_threads env stream_threads)).
Proof.
  intros Hty (_ & _ & Hteam) Hpi Lr HT HS HL. unfold signature_detail.omp_region. cbv zeta.
  destruct (Hteam stream_threads HT) as [Hlo Hhi].
  set (nt := omp_get_num_threads env stream_threads) in *.
  rewrite <- omp_join_values. f_equal.
  replace stream_threads with (nt + (stream_threads - nt)) at 1 by lia.
  rewrite seq_app, !map_app, map_map. f_equal.
  - apply map_ext_in. intros t Ht. apply in_seq in Ht.
    replace (t <? nt) with true by (symmetry; apply Nat.ltb_lt; lia).
    apply (omp_chunk_drive type B C D); auto; lia.
  - rewrite map_repeat.
    rewrite (map_ext_in _ (fun _ => Ok None)).
    + rewrite map_const, length_seq. reflexivity.
    + intros t Ht. apply in_seq in Ht.
      replace (t <? nt) with false by (symmetry; apply Nat.ltb_ge; lia). reflexivity.
Qed.

(** Without [inverse], the combination of the chunks of the region drives
    all the increments: Chen's identity over the chunks. *)
Theorem parallel_region_drive (env : omp) (B C D : nat) (junk : K) (path_increments : tensor3)
        (r : list K) (Sz W stream_threads : nat) (a0 : talg) :
  omp_ok env -> Forall (shaped B C) path_increments -> length r = D - 1 ->
  graded B C D a0 -> 1 <= stream_threads -> 1 <= Sz -> Sz <= length path_increments ->
  signature_detail.combine_chunks a0
    (map (chunk_signature false r junk path_increments Sz B W C D
                          (omp_get_num_threads env stream_threads))
         (seq 0 (omp_get_num_threads env stream_threads))
     ++ repeat None (stream_threads - omp_get_num_threads env stream_threads)) false
  = drive false r a0 (slice_of path_increments 1 Sz).
Proof.
  intros (_ & _ & Hteam) Hpi Lr Ha0 HT HS HL.
  destruct (Hteam stream_threads HT) as [Hlo Hhi].
  set (nt := omp_get_num_threads env stream_threads) in *.
  rewrite combine_chunks_app, combine_chunks_none.
  rewrite (combine_team_prefix B C D) by (auto; lia).
  rewrite chunk_bound_all by lia. reflexivity.
Qed.

End Chunks.

Section Increments.
Context {K : ExactField}.

Local Abbreviation vec := (vec K).
Local Abbreviation tensor := (tensor K).
Local Abbreviation tensor3 := (tensor3 K).
Local Abbreviation talg := (talg K).

Lemma shaped3_nth (N B C : nat) (p : tensor3) (s : nat) :
  shaped3 N B C p -> s < N -> shaped B C (nth s p []).
Proof. intros [L F] Hs. apply (proj1 (Forall_nth _ _) F). lia. Qed.

Lemma shaped_tsub (B C : nat) (a b : tensor) :
  shaped B C a -> shaped B C b -> shaped B C (tsub a b).
Proof.
  intros [La Fa] [Lb Fb]. unfold tsub. split.
  - rewrite zipw_length. lia.
  - subst B. revert b Lb Fb. induction Fa as [|x a Hx Fa IH]; intros [|y b] Lb Fb;
      try discriminate; [constructor|].
    inversion Fb; subst. cbn [zipw]. constructor.
    + rewrite zipw_length. lia.
    + apply IH; auto.
Qed.

Lemma nth_tsub3 (a b : tensor3) (s : nat) :
  s < length a -> s < length b ->
  nth s (tsub3 a b) [] = tsub (nth s a []) (nth s b []).
Proof. intros Ha Hb. unfold tsub3. apply (nth_zipw tsub [] [] []); assumption. Qed.

Lemma narrow_length {A : Type} (start len : nat) (l : list A) :
  start + len <= length l -> length (narrow start len l) = len.
Proof. intros H. unfold narrow. rewrite length_firstn, length_skipn. lia. Qed.

Lemma nth_narrow {A : Type} (start len : nat) (l : list A) (d : A) (i : nat) :
  i < len -> nth i (narrow start len l) d = nth (start + i) l d.
Proof.
  intros H. unfold narrow. rewrite nth_firstn.
  replace (i <? len) with true by (symmetry; apply Nat.ltb_lt; exact H).
  apply nth_skipn.
Qed.

Lemma write_narrow_length {A : Type} (start : nat) (new l : list A) :
  start + length new <= length l -> length (signature_detail.write_narrow start new l) = length l.
Proof.
  intros H. unfold signature_detail.write_narrow.
  rewrite !length_app, length_firstn, length_skipn. lia.
Qed.

Lemma nth_write_narrow {A : Type} (start : nat) (new l : list A) (d : A) (i : nat) :
  start + length new <= length l ->
  nth i (signature_detail.write_narrow start new l) d
  = if (start <=? i) && (i <? start + length new) then nth (i - start) new d else nth i l d.
Proof.
  intros H. unfold signature_detail.write_narrow.
  destruct (start <=? i) eqn:E1; cbn [andb].
  - apply Nat.leb_le in E1. rewrite app_nth2 by (rewrite length_firstn; lia).
    rewrite length_firstn. replace (Nat.min start (length l)) with start by lia.
    destruct (i <? start + length new) eqn:E2.
    + apply Nat.ltb_lt in E2. apply app_nth1. lia.
    + apply Nat.ltb_ge in E2. rewrite app_nth2 by lia. rewrite nth_skipn. f_equal. lia.
  - apply Nat.leb_gt in E1. rewrite app_nth1 by (rewrite length_firstn; lia).
    rewrite nth_firstn. replace (i <? start) with true by (symmetry; apply Nat.ltb_lt; lia).
    reflexivity.
Qed.

(** The number of increments: [N - 1], or [N] with a basepoint. *)
Lemma compute_path_increments_length (N B C : nat) (junk : K) (path : tensor3)
      (basepoint : bool) (basepoint_value : tensor) (inverse : bool) :
  shaped3 N B C path -> 1 <= N ->
  length (signature_detail.compute_path_increments junk path basepoint basepoint_value inverse)
  = N - (if basepoint then 0 else 1).
Proof.
  intros [L F] HN. unfold signature_detail.compute_path_increments. cbv zeta.
  destruct basepoint, inverse; unfold tsub3.
  - rewrite zipw_length, write_narrow_length.
    + rewrite upd_length. unfold signature_detail.empty_like3. rewrite length_map. lia.
    + rewrite upd_length, narrow_length by lia.
      unfold signature_detail.empty_like3. rewrite length_map. lia.
  - rewrite write_narrow_length.
    + rewrite upd_length. lia.
    + rewrite zipw_length, upd_length, !narrow_length by (rewrite ?upd_length; lia). lia.
  - rewrite zipw_length, !narrow_length by lia. lia.
  - rewrite zipw_length, !narrow_length by lia. lia.
Qed.

(** Entry [s] of the increments without a basepoint. *)
Lemma compute_path_increments_nth (N B C : nat) (junk : K) (path : tensor3)
      (basepoint_value : tensor) (inverse : bool) (s : nat) :
  shaped3 N B C path -> s < N - 1 ->
  nth s (signature_detail.compute_path_increments junk path false basepoint_value inverse) []
  = if inverse then tsub (nth s path []) (nth (s + 1) path [])
    else tsub (nth (s + 1) path []) (nth s path []).
Proof.
  intros [L F] Hs. unfold signature_detail.compute_path_increments. cbv zeta.
  destruct inverse; rewrite nth_tsub3 by (rewrite narrow_length; lia);
    rewrite !nth_narrow by lia; cbn [plus]; rewrite Nat.add_1_r; reflexivity.
Qed.

(** The first entry of the increments with a basepoint. *)
Lemma compute_path_increments_basepoint_0 (N B C : nat) (junk : K) (path : tensor3)
      (basepoint_value : tensor) (inverse : bool) :
  shaped3 N B C path -> 1 <= N ->
  nth 0 (signature_detail.compute_path_increments junk path true basepoint_value inverse) []
  = if inverse then tsub basepoint_value (nth 0 path [])
    else tsub (nth 0 path []) basepoint_value.
Proof.
  intros [L F] HN. unfold signature_detail.compute_path_increments. cbv zeta.
  assert (Le : length (signature_detail.empty_like3 junk path) = N)
    by (unfold signature_detail.empty_like3; rewrite length_map; exact L).
  destruct inverse.
  - rewrite nth_tsub3.
    + rewrite nth_write_narrow by (rewrite upd_length, narrow_length; lia).
      cbn [Nat.leb andb]. rewrite nth_upd_same by lia. reflexivity.
    + rewrite write_narrow_length; rewrite upd_length, ?narrow_length; lia.
    + lia.
  - rewrite nth_write_narrow.
    + cbn [Nat.leb andb]. rewrite nth_upd_same by lia. reflexivity.
    + unfold tsub3. rewrite zipw_length, upd_length, !narrow_length
        by (rewrite ?upd_length; lia). lia.
Qed.

(** The later entries of the increments with a basepoint. *)
Lemma compute_path_increments_basepoint_nth (N B C : nat) (junk : K) (path : tensor3)
      (basepoint_value : tensor) (inverse : bool) (s : nat) :
  shaped3 N B C path -> 1 <= s -> s < N ->
  nth s (signature_detail.compute_path_increments junk path true basepoint_value inverse) []
  = if inverse then tsub (nth (s - 1) path []) (nth s path [])
    else tsub (nth s path []) (nth (s - 1) path []).
Proof.
  intros [L F] Hs HN. unfold signature_detail.compute_path_increments. cbv zeta.
  assert (Le : length (signature_detail.empty_like3 junk path) = N)
    by (unfold signature_detail.empty_like3; rewrite length_map; exact L).
  destruct inverse.
  - rewrite nth_tsub3.
    + rewrite nth_write_narrow by (rewrite upd_length, narrow_length; lia).
      rewrite narrow_length by lia. rewrite L.
      replace (1 <=? s) with true by (symmetry; apply Nat.leb_le; lia).
      replace (s <? 1 + (N - 1)) with true by (symmetry; apply Nat.ltb_lt; lia).
      cbn [andb]. rewrite nth_narrow by lia. reflexivity.
    + rewrite write_narrow_length; rewrite upd_length, ?narrow_length; lia.
    + lia.
  - assert (Lt : length (tsub3 (narrow 1 (N - 1) (upd 0 (tsub (nth 0 path []) basepoint_value) path))
                               (narrow 0 (N - 1) path)) = N - 1).
    { unfold tsub3. rewrite zipw_length, !narrow_length by (rewrite ?upd_length; lia). lia. }
    rewrite L. rewrite nth_write_narrow by (rewrite Lt, upd_length; lia).
    rewrite Lt.
    replace (1 <=? s) with true by (symmetry; apply Nat.leb_le; lia).
    replace (s <? 1 + (N - 1)) with true by (symmetry; apply Nat.ltb_lt; lia).
    cbn [andb]. rewrite nth_tsub3 by (rewrite narrow_length; rewrite ?upd_length; lia).
    rewrite !nth_narrow by lia. rewrite nth_upd_other by lia.
    replace (1 + (s - 1)) with s by lia. reflexivity.
Qed.

(** The increments have the shape (S, B, C). *)
Lemma compute_path_increments_shaped (N B C : nat) (junk : K) (path : tensor3)
      (basepoint : bool) (basepoint_value : tensor) (inverse : bool) :
  shaped3 N B C path -> 1 <= N -> (basepoint = true -> shaped B C basepoint_value) ->
  shaped3 (N - (if basepoint then 0 else 1)) B C
          (signature_detail.compute_path_increments junk path basepoint basepoint_value inverse).
Proof.
  intros Hp HN Hb. split; [apply (compute_path_increments_length N B C); assumption|].
  apply Forall_nth. intros s d Hs. rewrite (nth_indep _ d []) by exact Hs.
  rewrite (compute_path_increments_length N B C) in Hs by assumption.
  destruct basepoint.
  - destruct s as [|s].
    + rewrite (compute_path_increments_basepoint_0 N B C) by assumption.
      destruct inverse; apply shaped_tsub; auto; apply (shaped3_nth N); auto.
    + rewrite (compute_path_increments_basepoint_nth N B C) by (auto; lia).
      destruct inverse; apply shaped_tsub; apply (shaped3_nth N); auto; lia.
  - rewrite (compute_path_increments_nth N B C) by (auto; lia).
    destruct inverse; apply shaped_tsub; apply (shaped3_nth N); auto; lia.
Qed.

End Increments.

Section SignatureValue.
Context {K : ExactField}.

Local Abbreviation vec := (vec K).
Local Abbreviation tensor := (tensor K).
Local Abbreviation tensor3 := (tensor3 K).
Local Abbreviation talg := (talg K).

(** [restricted_exp] overwrites every entry of [out]. *)
Lemma restricted_exp_out (x : tensor) (out out' : talg) (r : list K) :
  length out = length out' ->
  ta_ops.restricted_exp x out r = ta_ops.restricted_exp x out' r.
Proof.
  intros L. apply talg_ext; [rewrite !restricted_exp_length; exact L|].
  intros d Hd. rewrite restricted_exp_length in Hd.
  rewrite !restricted_exp_nth by lia. reflexivity.
Qed.

Lemma graded_rexp (B C D : nat) (x : tensor) (out : talg) (r : list K) :
  shaped B C x -> length out = D -> graded B C D (ta_ops.restricted_exp x out r).
Proof. intros Hx L. rewrite <- L. apply graded_restricted_exp. exact Hx. Qed.

Lemma graded_sig_drive (B C D : nat) (inverse : bool) (r : list K) (x : tensor)
      (xs : list tensor) :
  Forall (shaped B C) (x :: xs) -> length r = D - 1 ->
  graded B C D (sig_drive inverse r D (x :: xs)).
Proof.
  intros H Lr. apply Forall_cons_iff in H. destruct H as [Hx Hxs].
  cbn [sig_drive]. apply graded_drive; auto.
  apply graded_rexp; [exact Hx | apply repeat_length].
Qed.

(** Chen's identity on lists of increments. *)
Theorem chen_sig_drive (B C D : nat) (r : list K) (xs ys : list tensor) :
  Forall (shaped B C) xs -> Forall (shaped B C) ys -> xs <> [] -> ys <> [] ->
  length r = D - 1 ->
  sig_drive false r D (xs ++ ys)
  = ta_ops.mult (sig_drive false r D xs) (sig_drive false r D ys).
Proof.
  intros Hxs Hys Nx Ny Lr. destruct xs as [|x xs]; [congruence|].
  destruct ys as [|y ys]; [congruence|]. cbn [app sig_drive].
  apply Forall_cons_iff in Hxs. destruct Hxs as [Hx Hxs].
  apply Forall_cons_iff in Hys. destruct Hys as [Hy Hys].
  apply (chen_drive B C D); auto.
  - apply graded_rexp; [exact Hx | apply repeat_length].
  - apply repeat_length.
Qed.

(** Under [inverse] the kernel multiplies on the left, which is driving the
    increments in the opposite order. *)
Theorem inverse_sig_drive (B C D : nat) (r : list K) (ys : list tensor) :
  Forall (shaped B C) ys -> length r = D - 1 ->
  sig_drive true r D ys = sig_drive false r D (rev ys).
Proof.
  intros Hys Lr. induction ys as [|y ys IH] using rev_ind; [reflexivity|].
  apply Forall_app in Hys. destruct Hys as [Hys Hy].
  apply Forall_cons_iff in Hy. destruct Hy as [Hy _].
  rewrite rev_app_distr. cbn [rev app]. destruct ys as [|y0 ys].
  - reflexivity.
  - specialize (IH Hys). cbn [app sig_drive] in *. rewrite drive_app. cbn [drive fold_left].
    fold (drive true r (ta_ops.restricted_exp y0 (repeat [] D) r) ys). rewrite IH.
    assert (Hrev : Forall (shaped B C) (rev (y0 :: ys))) by (apply Forall_rev; exact Hys).
    destruct (rev (y0 :: ys)) as [|z zs] eqn:E.
    + exfalso. apply (f_equal (@length tensor)) in E. rewrite length_rev in E. discriminate.
    + cbn [sig_drive]. apply Forall_cons_iff in Hrev. destruct Hrev as [Hz Hzs].
      rewrite (fused_inverse_is_exp_mult B C D y _ (repeat [] D) r).
      * symmetry.
        apply (chen_drive B C D r (ta_ops.restricted_exp y (repeat [] D) r) (repeat [] D) []);
          auto; try apply repeat_length.
        apply graded_rexp; [exact Hy | apply repeat_length].
      * apply graded_drive; auto. apply graded_rexp; [exact Hz | apply repeat_length].
      * exact Hy.
      * apply repeat_length.
      * exact Lr.
Qed.

(** The increments of a prefix, of a suffix and of the reversed path. *)
Lemma increments_firstn (N B C : nat) (junk : K) (path : tensor3) (bv : tensor)
      (inverse : bool) (m : nat) :
  shaped3 N B C path -> m + 1 <= N ->
  signature_detail.compute_path_increments junk (firstn (m + 1) path) false bv inverse
  = firstn m (signature_detail.compute_path_increments junk path false bv inverse).
Proof.
  intros Hp Hm. assert (Hp' : shaped3 (m + 1) B C (firstn (m + 1) path)).
  { destruct Hp as [L F]. split; [rewrite length_firstn; lia | apply Forall_firstn'; exact F]. }
  apply (nth_ext _ _ [] []).
  - rewrite length_firstn, (compute_path_increments_length (m + 1) B C),
      (compute_path_increments_length N B C) by (auto; lia). lia.
  - intros s Hs. rewrite (compute_path_increments_length (m + 1) B C) in Hs by (auto; lia).
    rewrite nth_firstn. replace (s <? m) with true by (symmetry; apply Nat.ltb_lt; lia).
    rewrite (compute_path_increments_nth (m + 1) B C), (compute_path_increments_nth N B C)
      by (auto; lia).
    rewrite !nth_firstn.
    replace (s <? m + 1) with true by (symmetry; apply Nat.ltb_lt; lia).
    replace (s + 1 <? m + 1) with true by (symmetry; apply Nat.ltb_lt; lia).
    reflexivity.
Qed.

Lemma increments_skipn (N B C : nat) (junk : K) (path : tensor3) (bv : tensor)
      (inverse : bool) (m : nat) :
  shaped3 N B C path -> m + 1 <= N ->
  signature_detail.compute_path_increments junk (skipn m path) false bv inverse
  = skipn m (signature_detail.compute_path_increments junk path false bv inverse).
Proof.
  intros Hp Hm. assert (Hp' : shaped3 (N - m) B C (skipn m path)).
  { destruct Hp as [L F]. split; [rewrite length_skipn; lia | apply Forall_skipn'; exact F]. }
  apply (nth_ext _ _ [] []).
  - rewrite length_skipn, (compute_path_increments_length (N - m) B C),
      (compute_path_increments_length N B C) by (auto; lia). lia.
  - intros s Hs. rewrite (compute_path_increments_length (N - m) B C) in Hs by (auto; lia).
    rewrite nth_skipn.
    rewrite (compute_path_increments_nth (N - m) B C), (compute_path_increments_nth N B C)
      by (auto; lia).
    rewrite !nth_skipn. replace (m + s + 1) with (m + (s + 1)) by lia. reflexivity.
Qed.

Lemma increments_rev (N B C : nat) (junk : K) (path : tensor3) (bv : tensor) :
  shaped3 N B C path -> 1 <= N ->
  signature_detail.compute_path_increments junk (rev path) false bv false
  = rev (signature_detail.compute_path_increments junk path false bv true).
Proof.
  intros Hp HN. assert (Hp' : shaped3 N B C (rev path)).
  { destruct Hp as [L F]. split; [rewrite length_rev; exact L | apply Forall_rev; exact F]. }
  assert (L : length path = N) by apply Hp.
  apply (nth_ext _ _ [] []).
  - rewrite length_rev, !(compute_path_increments_length N B C) by auto. reflexivity.
  - intros s Hs. rewrite (compute_path_increments_length N B C) in Hs by auto.
    rewrite rev_nth by (rewrite (compute_path_increments_length N B C) by auto; exact Hs).
    rewrite (compute_path_increments_length N B C) by auto.
    rewrite !(compute_path_increments_nth N B C) by (auto; lia).
    rewrite !rev_nth by lia. rewrite L. do 2 f_equal; lia.
Qed.

End SignatureValue.

Section ForwardValue.
Context {K : ExactField}.

Local Abbreviation vec := (vec K).
Local Abbreviation tensor := (tensor K).
Local Abbreviation tensor3 := (tensor3 K).
Local Abbreviation talg := (talg K).

Lemma rows_ok_shaped (b n : nat) (t : tensor) : rows_ok b n t = true <-> shaped b n t.
Proof.
  unfold rows_ok, shaped. rewrite andb_true_iff, Nat.eqb_eq, forallb_forall, Forall_forall.
  split; intros [H1 H2]; split; auto; intros x Hx; apply Nat.eqb_eq; auto.
Qed.

Lemma well_formed_3 (t : Tensor K) (p : tensor3) (N B C : nat) :
  well_formed t = true -> sizes t = [N; B; C] -> data t = D3 p -> shaped3 N B C p.
Proof.
  unfold well_formed. intros H Hs Hd. rewrite Hs, Hd in H.
  apply andb_true_iff in H. destruct H as [H1 H2]. split; [apply Nat.eqb_eq; exact H1|].
  apply Forall_forall. intros x Hx. apply rows_ok_shaped.
  apply (proj1 (forallb_forall _ _) H2). exact Hx.
Qed.

(** The driver is given at least one thread along the stream axis. *)
Lemma choose_threads_pos (env : omp) (B N S W : nat) (stream : bool) :
  omp_ok env -> 1 <= B -> 1 <= N -> 1 <= fst (@choose_threads env B N S W stream).
Proof.
  intros (Hmt & Hmp & _) HB HN. unfold choose_threads.
  destruct (Z.of_nat B * Z.of_nat S * Z.of_nat W <? 1392640)%Z; cbn [fst];
    destruct stream; try lia.
  assert (1 <= (omp_get_max_threads env + B - 1) / B)
    by (apply Nat.div_le_lower_bound; lia).
  assert (1 <= (N + 2) / 3) by (apply Nat.div_le_lower_bound; lia).
  lia.
Qed.

Lemma choose_threads_parallelism_1 (env : omp) (B N S W : nat) (stream : bool) :
  omp_ok env -> 1 <= B -> 1 <= N -> get_max_parallelism env = 1 ->
  fst (@choose_threads env B N S W stream) = 1.
Proof.
  intros Hok HB HN Hp. pose proof (choose_threads_pos env B N S W stream Hok HB HN) as H.
  revert H. unfold choose_threads.
  destruct (Z.of_nat B * Z.of_nat S * Z.of_nat W <? 1392640)%Z; cbn [fst]; rewrite Hp; lia.
Qed.

Lemma choose_threads_stream (env : omp) (B N S W : nat) :
  omp_ok env -> fst (@choose_threads env B N S W true) = 1.
Proof.
  intros (Hmt & Hmp & _). unfold choose_threads.
  destruct (Z.of_nat B * Z.of_nat S * Z.of_nat W <? 1392640)%Z; cbn [fst]; lia.
Qed.

(** When the chunks are not combined under [inverse], every branch of the
    driver that has a kernel for the type leaves the fold of the fused kernel
    over the increments. *)
Lemma forward_drive_value (type : ScalarType) (env : omp) (junk : K) (cuda : bool)
      (path_increments : tensor3)
      (r : list K) (a0 : talg) (inverse : bool) (B N S W C D : nat) (signature : tensor3)
      (views : list (Z * Z)) :
  cuda || dispatched type = true ->
  omp_ok env -> 1 <= B -> 1 <= N -> 1 <= S ->
  shaped3 S B C path_increments -> length r = D - 1 -> graded B C D a0 ->
  inverse = false \/ cuda = true \/ get_max_parallelism env = 1 ->
  forward_drive type env junk cuda path_increments r a0 inverse B N S W C D false signature
                views
  = Ok (signature, drive inverse r a0 (tl path_increments)).
Proof.
  intros Hk Hok HB HN HS [L Hpi] Lr Ha0 Hser.
  assert (Etl : slice_of path_increments 1 S = tl path_increments).
  { unfold slice_of. rewrite <- L. destruct path_increments as [|x xs]; [reflexivity|].
    cbn [skipn tl length]. rewrite Nat.sub_succ, Nat.sub_0_r. apply firstn_all. }
  unfold forward_drive. destruct cuda.
  - rewrite forward_inner_loop.
    rewrite (stream_loop_drive B C D inverse r) by (auto; try apply fused_on_fused; lia).
    replace (1 + (S - 1)) with S by lia. rewrite Etl. reflexivity.
  - cbn [orb] in Hk.
    pose proof (choose_threads_pos env B N S W false Hok HB HN) as Hpos.
    destruct (choose_threads env B N S W false) as [st bt] eqn:Ect. cbn [fst] in Hpos.
    destruct (st =? 1) eqn:E1.
    + rewrite forward_inner_cpu_dispatch by exact Hk.
      rewrite (stream_loop_drive B C D inverse r)
        by (auto; try (apply fused_on_batch_loop; exact Lr); lia).
      replace (1 + (S - 1)) with S by lia. rewrite Etl. reflexivity.
    + apply Nat.eqb_neq in E1. destruct Hser as [-> | [Hc | Hp]].
      * rewrite (omp_region_values type env B C D) by (auto; lia). cbn [bind].
        rewrite (parallel_region_drive env B C D) by (auto; lia).
        rewrite Etl. reflexivity.
      * discriminate.
      * pose proof (choose_threads_parallelism_1 env B N S W false Hok HB HN Hp) as H1.
        rewrite Ect in H1. cbn [fst] in H1. congruence.
Qed.

(** More than one thread along the stream axis takes a path of four
    points or more, and no [stream]. *)
Lemma choose_threads_chunked (env : omp) (B N S W : nat) (stream : bool) :
  2 <= fst (@choose_threads env B N S W stream) -> 4 <= N /\ stream = false.
Proof.
  unfold choose_threads.
  destruct (Z.of_nat B * Z.of_nat S * Z.of_nat W <? 1392640)%Z; cbn [fst];
    destruct stream; try lia.
  intros H. split; [|reflexivity].
  assert (H2 : 2 <= (N + 2) / 3) by lia.
  destruct (Nat.lt_ge_cases N 4) as [Hlt | Hge]; [|exact Hge].
  assert ((N + 2) / 3 < 2) by (apply Nat.Div0.div_lt_upper_bound; lia). lia.
Qed.

(** With a kernel for the type the driver returns, on every branch. *)
Lemma forward_drive_returns (type : ScalarType) (env : omp) (junk : K) (cuda : bool)
      (path_increments : tensor3) (r : list K) (a0 : talg) (inverse : bool)
      (B N S W C D : nat) (stream : bool) (signature : tensor3) (views : list (Z * Z)) :
  cuda || dispatched type = true ->
  exists res,
    forward_drive type env junk cuda path_increments r a0 inverse B N S W C D stream signature
                  views = Ok res.
Proof.
  intros Hk. unfold forward_drive. destruct cuda; [eexists; reflexivity|].
  cbn [orb] in Hk. destruct (choose_threads env B N S W stream) as [st bt].
  destruct (st =? 1).
  - rewrite forward_inner_cpu_dispatch by exact Hk. eexists. reflexivity.
  - destruct (omp_join_all
                (signature_detail.omp_region type env junk path_increments r inverse S B W C D
                                             bt st)) as [results E].
    + unfold signature_detail.omp_region. cbv zeta. intros x Hx.
      apply in_map_iff in Hx. destruct Hx as (t & <- & _).
      destruct (t <? _); [|eexists; reflexivity].
      unfold signature_detail.omp_chunk. cbv zeta. destruct (_ <? _); [|eexists; reflexivity].
      rewrite forward_inner_cpu_dispatch by exact Hk. eexists. reflexivity.
    + rewrite E. eexists. reflexivity.
Qed.

(** The driver does not end with [std::invalid_argument]. *)
Lemma forward_drive_never_throws (type : ScalarType) (env : omp) (junk : K) (cuda : bool)
      (path_increments : tensor3) (r : list K) (a0 : talg) (inverse : bool)
      (B N S W C D : nat) (stream : bool) (signature : tensor3) (views : list (Z * Z))
      (e : invalid_argument) :
  forward_drive type env junk cuda path_increments r a0 inverse B N S W C D stream signature
                views <> Throw e.
Proof.
  unfold forward_drive. destruct cuda; [discriminate|].
  destruct (choose_threads env B N S W stream) as [st bt]. destruct (st =? 1).
  - unfold signature_detail.signature_forward_inner_cpu. destruct type; discriminate.
  - destruct (omp_join_cases
                (signature_detail.omp_region type env junk path_increments r inverse S B W C D
                                             bt st)) as [[results E] | E];
      rewrite E; discriminate.
Qed.

(** Where the driver has no kernel for the type, the call ends at the
    dispatch: with [c10::Error] on the serial branch, and inside the parallel
    region on the chunked one. *)
Lemma forward_drive_no_kernel (type : ScalarType) (env : omp) (junk : K)
      (path_increments : tensor3) (r : list K) (a0 : talg) (inverse : bool)
      (B N S W C D : nat) (stream : bool) (signature : tensor3) (views : list (Z * Z)) :
  dispatched type = false -> omp_ok env -> 1 <= B -> 1 <= N -> N - 1 <= S ->
  forward_drive type env junk false path_increments r a0 inverse B N S W C D stream signature
                views
  = (if fst (choose_threads env B N S W stream) =? 1
     then Error (not_implemented_for type) else Uncaught).
Proof.
  intros Hty Hok HB HN HS. unfold forward_drive.
  pose proof (choose_threads_pos env B N S W stream Hok HB HN) as Hpos.
  pose proof (choose_threads_chunked env B N S W stream) as Hch.
  destruct (choose_threads env B N S W stream) as [st bt] eqn:Ect. cbn [fst] in *.
  destruct (st =? 1) eqn:E1.
  - unfold signature_detail.signature_forward_inner_cpu. apply dispatch_other. exact Hty.
  - apply Nat.eqb_neq in E1. destruct (Hch ltac:(lia)) as [HN4 Hst].
    destruct Hok as (_ & _ & Hteam). destruct (Hteam st ltac:(lia)) as [Hlo Hhi].
    rewrite (omp_join_raised _ (not_implemented_for type)); [reflexivity|].
    unfold signature_detail.omp_region. cbv zeta.
    set (nt := omp_get_num_threads env st) in *.
    apply in_map_iff. exists (nt - 1). split.
    + replace (nt - 1 <? nt) with true by (symmetry; apply Nat.ltb_lt; lia).
      apply omp_chunk_raises; [exact Hty|].
      replace (1 + (nt - 1)) with nt by lia. rewrite chunk_bound_all by lia.
      unfold chunk_bound.
      assert (Hq : (S - 1) * (nt - 1) / nt < S - 1)
        by (apply Nat.Div0.div_lt_upper_bound; nia).
      lia.
    + apply in_seq. lia.
Qed.

End ForwardValue.

Section ForwardApi.
Context {K : ExactField}.

Local Abbreviation vec := (vec K).
Local Abbreviation tensor := (tensor K).
Local Abbreviation tensor3 := (tensor3 K).
Local Abbreviation talg := (talg K).

Lemma size_3 (t : Tensor K) (N B C : nat) :
  sizes t = [N; B; C] ->
  size t stream_dim = N /\ size t batch_dim = B /\ size t channel_dim = C.
Proof. intros H. unfold size, ndimension. rewrite H. repeat split. Qed.

Lemma size_2 (t : Tensor K) (B W : nat) :
  sizes t = [B; W] -> size t batch_dim = B /\ size t channel_dim = W.
Proof. intros H. unfold size, ndimension. rewrite H. repeat split. Qed.

(** What [signature_checkargs] lets through, without basepoint and initial value. *)
Lemma checkargs_plain (path bv iv : Tensor K) (depth : Z) (N B C : nat) :
  sizes path = [N; B; C] -> 2 <= N -> 1 <= B -> 1 <= C -> (1 <= depth)%Z ->
  is_floating_point path = true ->
  signature_checkargs path depth false bv false iv = None.
Proof.
  intros Hs HN HB HC HD Hf. unfold signature_checkargs.
  destruct (size_3 path N B C Hs) as (E1 & E2 & E3). rewrite E1, E2, E3.
  unfold ndimension. rewrite Hs. cbn [length Nat.eqb negb].
  replace (B =? 0) with false by (symmetry; apply Nat.eqb_neq; lia).
  replace (N =? 0) with false by (symmetry; apply Nat.eqb_neq; lia).
  replace (C =? 0) with false by (symmetry; apply Nat.eqb_neq; lia).
  replace (N =? 1) with false by (symmetry; apply Nat.eqb_neq; lia).
  replace (depth <? 1)%Z with false by (symmetry; apply Z.ltb_ge; lia).
  rewrite Hf. reflexivity.
Qed.

Lemma checkargs_sizes (path bv iv : Tensor K) (depth : Z) (basepoint initial : bool) :
  signature_checkargs path depth basepoint bv initial iv = None ->
  exists N B C, sizes path = [N; B; C] /\ 1 <= N /\ (basepoint = false -> 2 <= N) /\
                1 <= B /\ 1 <= C /\ (1 <= depth)%Z /\ is_floating_point path = true.
Proof.
  unfold signature_checkargs. intros H.
  destruct (ndimension path =? 2) eqn:E2; [discriminate|].
  destruct (ndimension path =? 3) eqn:E3; [|discriminate]. cbn [negb] in H.
  apply Nat.eqb_eq in E3. unfold ndimension in E3.
  destruct (sizes path) as [|N [|B [|C [|? ?]]]] eqn:Hs; try discriminate.
  destruct (size_3 path N B C Hs) as (S1 & S2 & S3). rewrite S1, S2, S3 in H.
  destruct (B =? 0) eqn:EB; [discriminate|].
  destruct (N =? 0) eqn:EN; [discriminate|].
  destruct (C =? 0) eqn:EC; [discriminate|]. cbn [orb] in H.
  destruct (negb basepoint && (N =? 1)) eqn:E1; [discriminate|].
  destruct (depth <? 1)%Z eqn:ED; [discriminate|].
  destruct (is_floating_point path) eqn:EF; [|discriminate].
  apply Nat.eqb_neq in EB, EN, EC. apply Z.ltb_ge in ED.
  exists N, B, C. repeat split; try lia.
  intros ->. cbn [negb andb] in E1. apply Nat.eqb_neq in E1. lia.
Qed.

Lemma well_formed_data3 (t : Tensor K) (N B C : nat) :
  well_formed t = true -> sizes t = [N; B; C] ->
  exists p, data t = D3 p /\ shaped3 N B C p.
Proof.
  intros Hw Hs. destruct (data t) as [x|p|l] eqn:Hd.
  - unfold well_formed in Hw. rewrite Hd, Hs in Hw. discriminate.
  - exists p. split; [reflexivity|]. apply (well_formed_3 t); assumption.
  - unfold well_formed in Hw. rewrite Hd, Hs in Hw. discriminate.
Qed.

(** The value of [signature_forward] without [stream], basepoint and
    initial value, from what the driver leaves. *)
Lemma forward_value_with (env : omp) (junk : K) (path bv iv : Tensor K) (depth : Z)
      (inverse : bool) (N B C : nat) (p : tensor3) :
  sizes path = [N; B; C] -> data path = D3 p -> shaped3 N B C p ->
  2 <= N -> 1 <= B -> 1 <= C -> (1 <= depth)%Z -> is_floating_point path = true ->
  (forall (a0 : talg) (signature : tensor3) (views : list (Z * Z)),
      graded B C (Z.to_nat depth) a0 ->
      forward_drive (dtype (options path)) env junk (is_cuda path)
                    (signature_detail.compute_path_increments junk p false (as2 bv) inverse)
                    (misc.make_reciprocals (Z.to_nat depth)) a0 inverse B N (N - 1)
                    (signature_channels C depth) C (Z.to_nat depth) false signature views
      = Ok (signature,
            drive inverse (misc.make_reciprocals (Z.to_nat depth)) a0
                  (tl (signature_detail.compute_path_increments junk p false (as2 bv)
                                                                inverse)))) ->
  signature_forward env junk path depth false false bv inverse false iv
  = Ok ({| sizes := [B; signature_channels C depth]; options := options path;
           data := D2 (misc.unslice
                         (sig_drive inverse (misc.make_reciprocals (Z.to_nat depth))
                                    (Z.to_nat depth)
                                    (signature_detail.compute_path_increments
                                       junk p false (as2 bv) inverse))) |},
        {| sizes := [N - 1; B; C]; options := options path;
           data := D3 (signature_detail.compute_path_increments junk p false (as2 bv)
                                                                inverse) |}).
Proof.
  intros Hs Hd Hp HN HB HC HD Hf Hdrive. unfold signature_forward.
  rewrite (checkargs_plain path bv iv depth N B C) by assumption.
  destruct (size_3 path N B C Hs) as (E1 & E2 & E3). rewrite E1, E2, E3.
  assert (Eas : as3 path = p) by (unfold as3; rewrite Hd; reflexivity).
  rewrite !Eas. unfold make_opts. cbv zeta.
  pose proof (compute_path_increments_shaped N B C junk p false (as2 bv) inverse Hp
                                             ltac:(lia) ltac:(discriminate)) as Hpi.
  remember (signature_detail.compute_path_increments junk p false (as2 bv) inverse) as pi
    eqn:Epi.
  set (r := misc.make_reciprocals (Z.to_nat depth)) in *.
  set (D := Z.to_nat depth) in *.
  assert (Lr : length r = D - 1) by apply make_reciprocals_length.
  destruct pi as [|x xs]; [destruct Hpi as [L _]; cbn in L; lia|].
  assert (Hx : shaped B C x).
  { destruct Hpi as [_ F]. apply Forall_cons_iff in F. apply F. }
  cbn [nth].
  rewrite (restricted_exp_out x _ (repeat [] D))
    by (rewrite slice_by_term_length, repeat_length; reflexivity).
  assert (Ha0 : graded B C D (ta_ops.restricted_exp x (repeat [] D) r))
    by (apply graded_rexp; [exact Hx | apply repeat_length]).
  rewrite (Hdrive _ _ _ Ha0). reflexivity.
Qed.

(** The same on every branch that does not combine chunks under
    [inverse]. *)
Lemma forward_value (env : omp) (junk : K) (path bv iv : Tensor K) (depth : Z)
      (inverse : bool) (N B C : nat) (p : tensor3) :
  omp_ok env -> sizes path = [N; B; C] -> data path = D3 p -> shaped3 N B C p ->
  2 <= N -> 1 <= B -> 1 <= C -> (1 <= depth)%Z -> is_floating_point path = true ->
  has_kernel path = true ->
  inverse = false \/ is_cuda path = true \/ get_max_parallelism env = 1 ->
  signature_forward env junk path depth false false bv inverse false iv
  = Ok ({| sizes := [B; signature_channels C depth]; options := options path;
           data := D2 (misc.unslice
                         (sig_drive inverse (misc.make_reciprocals (Z.to_nat depth))
                                    (Z.to_nat depth)
                                    (signature_detail.compute_path_increments
                                       junk p false (as2 bv) inverse))) |},
        {| sizes := [N - 1; B; C]; options := options path;
           data := D3 (signature_detail.compute_path_increments junk p false (as2 bv)
                                                                inverse) |}).
Proof.
  intros Hok Hs Hd Hp HN HB HC HD Hf Hk Hser.
  apply (forward_value_with env junk path bv iv depth inverse N B C p); auto.
  intros a0 signature views Ha0.
  apply (forward_drive_value _ env junk _ _ _ a0 inverse B N (N - 1) _ C (Z.to_nat depth));
    auto; try lia;
    try (apply (compute_path_increments_shaped N B C); auto; try lia; discriminate);
    try apply make_reciprocals_length.
Qed.

End ForwardApi.

Section Chen.
Context {K : ExactField}.

Local Abbreviation vec := (vec K).
Local Abbreviation tensor := (tensor K).
Local Abbreviation tensor3 := (tensor3 K).
Local Abbreviation talg := (talg K).

Lemma stream_slice_prefix (path : Tensor K) (N B C m : nat) (p : tensor3) :
  sizes path = [N; B; C] -> data path = D3 p -> m + 1 <= N ->
  sizes (stream_slice path 0 (m + 1)) = [m + 1; B; C] /\
  data (stream_slice path 0 (m + 1)) = D3 (firstn (m + 1) p).
Proof.
  intros Hs Hd Hm. unfold stream_slice. cbn [sizes data].
  destruct (size_3 path N B C Hs) as (E1 & _). rewrite E1, Hs.
  unfold as3. rewrite Hd. cbn [upd skipn]. rewrite !Nat.sub_0_r.
  replace (Nat.min (m + 1) N) with (m + 1) by lia. split; reflexivity.
Qed.

Lemma stream_slice_suffix (path : Tensor K) (N B C m : nat) (p : tensor3) :
  sizes path = [N; B; C] -> data path = D3 p -> length p = N ->
  sizes (stream_slice path m N) = [N - m; B; C] /\
  data (stream_slice path m N) = D3 (skipn m p).
Proof.
  intros Hs Hd L. unfold stream_slice. cbn [sizes data].
  destruct (size_3 path N B C Hs) as (E1 & _). rewrite E1, Hs.
  unfold as3. rewrite Hd. cbn [upd]. rewrite Nat.min_id. split; [reflexivity|].
  f_equal. apply firstn_all2. rewrite length_skipn. lia.
Qed.

Lemma is_floating_point_slice (path : Tensor K) (a b : nat) :
  is_floating_point (stream_slice path a b) = is_floating_point path.
Proof. reflexivity. Qed.

(** [signature_combine_forward] on two signatures given by their terms. *)
Lemma combine_forward_value (B C : nat) (depth : Z) (o1 o2 : TensorOptions) (a b : talg) :
  graded B C (Z.to_nat depth) a -> graded B C (Z.to_nat depth) b ->
  signature_combine_forward
    {| sizes := [B; signature_channels C depth]; options := o1; data := D2 (misc.unslice a) |}
    {| sizes := [B; signature_channels C depth]; options := o2; data := D2 (misc.unslice b) |}
    C depth
  = Ok {| sizes := [B; signature_channels C depth]; options := o1;
          data := D2 (misc.unslice (ta_ops.mult a b)) |}.
Proof.
  intros Ha Hb. unfold signature_combine_forward, ndimension, size, as2.
  cbn [sizes data options length nth Nat.eqb negb orb].
  cbn [batch_dim channel_dim Z.ltb Z.compare Z.of_nat Pos.of_succ_nat Pos.succ Z.add
       Z.pos_sub Z.to_nat Pos.to_nat Pos.iter_op Nat.add nth Pos.pred_double Z.succ_double
       Z.pred_double Z.double].
  rewrite !Nat.eqb_refl. cbn [negb orb].
  rewrite (slice_unslice B C _ a Ha), (slice_unslice B C _ b Hb). reflexivity.
Qed.

End Chen.

Section StreamValue.
Context {K : ExactField}.

Local Abbreviation vec := (vec K).
Local Abbreviation tensor := (tensor K).
Local Abbreviation tensor3 := (tensor3 K).
Local Abbreviation talg := (talg K).

(** Under [stream] the driver runs serially and fills every slot. *)
Lemma forward_drive_stream (type : ScalarType) (env : omp) (junk : K) (cuda : bool)
      (path_increments : tensor3)
      (r : list K) (a0 : talg) (inverse : bool) (B N S W C D : nat) (signature : tensor3) :
  cuda || dispatched type = true ->
  omp_ok env -> 1 <= S ->
  shaped3 S B C path_increments -> length r = D - 1 -> graded B C D a0 ->
  length signature = S -> nth 0 signature [] = misc.unslice a0 ->
  exists res,
    forward_drive type env junk cuda path_increments r a0 inverse B N S W C D true signature
                  (misc.slice_by_term_views 0 (Z.of_nat C) (Z.of_nat C) D) = Ok res /\
    length (fst res) = S /\
    forall s, s < S ->
              nth s (fst res) []
              = misc.unslice (drive inverse r a0 (firstn s (tl path_increments))).
Proof.
  intros Hty Hok HS [L Hpi] Lr Ha0 Ls H0.
  assert (Etl : forall s, slice_of path_increments 1 (1 + s) = firstn s (tl path_increments)).
  { intros s. unfold slice_of. destruct path_increments as [|x xs]; [cbn in L; lia|].
    cbn [skipn tl]. f_equal. lia. }
  assert (Hloop : forall kern, fused_on B C D inverse r kern ->
            let res := stream_loop kern path_increments true
                         (misc.slice_by_term_views 0 (Z.of_nat C) (Z.of_nat C) D)
                         (seq 1 (S - 1)) (signature, a0) in
            length (fst res) = S /\
            forall s, s < S ->
                      nth s (fst res) []
                      = misc.unslice (drive inverse r a0 (firstn s (tl path_increments)))).
  { intros kern Hk.
    destruct (stream_loop_stream B C D inverse r kern path_increments a0 (S - 1) Hk Hpi Lr Ha0
                                 signature H0 ltac:(lia) ltac:(lia)) as (L1 & _ & P).
    cbv zeta. split; [rewrite L1; exact Ls|].
    intros s Hs. rewrite P.
    replace (s <=? S - 1) with true by (symmetry; apply Nat.leb_le; lia).
    rewrite Etl. reflexivity. }
  unfold forward_drive. destruct cuda.
  - eexists. split; [reflexivity|]. rewrite forward_inner_loop. apply Hloop.
    apply fused_on_fused.
  - cbn [orb] in Hty. pose proof (choose_threads_stream env B N S W Hok) as H1.
    destruct (choose_threads env B N S W true) as [st bt]. cbn [fst] in H1. subst st.
    cbn [Nat.eqb]. rewrite forward_inner_cpu_dispatch by exact Hty.
    eexists. split; [reflexivity|]. apply Hloop.
    apply fused_on_batch_loop. exact Lr.
Qed.

(** The value of [signature_forward] under [stream], without basepoint and
    initial value. *)
Lemma forward_stream_value (env : omp) (junk : K) (path bv iv : Tensor K) (depth : Z)
      (inverse : bool) (N B C : nat) (p : tensor3) :
  omp_ok env -> sizes path = [N; B; C] -> data path = D3 p -> shaped3 N B C p ->
  2 <= N -> 1 <= B -> 1 <= C -> (1 <= depth)%Z -> is_floating_point path = true ->
  has_kernel path = true ->
  exists sig3 : tensor3,
    signature_of (signature_forward env junk path depth true false bv inverse false iv)
    = Ok {| sizes := [N - 1; B; signature_channels C depth]; options := options path;
            data := D3 sig3 |} /\
    forall s, s < N - 1 ->
              nth s sig3 []
              = misc.unslice
                  (sig_drive inverse (misc.make_reciprocals (Z.to_nat depth)) (Z.to_nat depth)
                             (firstn (s + 1)
                                     (signature_detail.compute_path_increments
                                        junk p false (as2 bv) inverse))).
Proof.
  intros Hok Hs Hd Hp HN HB HC HD Hf Hk. unfold signature_forward.
  rewrite (checkargs_plain path bv iv depth N B C) by assumption.
  destruct (size_3 path N B C Hs) as (E1 & E2 & E3). rewrite E1, E2, E3.
  assert (Eas : as3 path = p) by (unfold as3; rewrite Hd; reflexivity).
  rewrite !Eas. unfold make_opts. cbv zeta.
  pose proof (compute_path_increments_shaped N B C junk p false (as2 bv) inverse Hp
                                             ltac:(lia) ltac:(discriminate)) as Hpi.
  remember (signature_detail.compute_path_increments junk p false (as2 bv) inverse) as pi
    eqn:Epi.
  set (r := misc.make_reciprocals (Z.to_nat depth)).
  set (D := Z.to_nat depth).
  set (W := signature_channels C depth).
  assert (Lr : length r = D - 1) by apply make_reciprocals_length.
  destruct pi as [|x xs]; [destruct Hpi as [L _]; cbn in L; lia|].
  assert (Hx : shaped B C x).
  { destruct Hpi as [_ F]. apply Forall_cons_iff in F. apply F. }
  cbn [nth].
  rewrite (restricted_exp_out x _ (repeat [] D))
    by (rewrite slice_by_term_length, repeat_length; reflexivity).
  assert (Ha0 : graded B C D (ta_ops.restricted_exp x (repeat [] D) r))
    by (apply graded_rexp; [exact Hx | apply repeat_length]).
  set (a0 := ta_ops.restricted_exp x (repeat [] D) r) in *.
  set (signature := upd 0 (misc.unslice a0) (empty3 junk (N - 1) B W)).
  assert (Ls : length signature = N - 1)
    by (subst signature; rewrite upd_length; apply repeat_length).
  assert (H0 : nth 0 signature [] = misc.unslice a0)
    by (subst signature; apply nth_upd_same; unfold empty3; rewrite repeat_length; lia).
  destruct (forward_drive_stream (dtype (options path)) env junk (is_cuda path) (x :: xs) r a0
                                 inverse B N (N - 1) W C D
                                 signature Hk Hok ltac:(lia) Hpi Lr Ha0 Ls H0)
    as ([sig3 at_stream] & Edr & L1 & P).
  rewrite Edr.
  cbn [fst] in L1, P. cbn [signature_of bind fst]. exists sig3. split; [reflexivity|].
  intros s Hs'. rewrite P by exact Hs'.
  replace (s + 1) with (S s) by lia. reflexivity.
Qed.

End StreamValue.

Section FrameRules.
Context {K : ExactField}.

Local Abbreviation heap := (mem.heap (K := K)).
Local Abbreviation M := (mem.M (K := K)).
Local Abbreviation safe := (@safe K _).

Lemma frame_refl (n : nat) (h : heap) : frame n h h.
Proof. split; auto. Qed.

Lemma frame_trans (n : nat) (h1 h2 h3 : heap) :
  frame n h1 h2 -> frame n h2 h3 -> frame n h1 h3.
Proof.
  intros [L1 F1] [L2 F2]. split; [lia|]. intros st Hst. rewrite F2, F1 by exact Hst.
  reflexivity.
Qed.

Lemma safe_ret {A : Type} (n : nat) (a : A) (Q : A -> Prop) : Q a -> safe n (mem.ret a) Q.
Proof. intros Ha h Hh. split; [apply frame_refl | exact Ha]. Qed.

Lemma safe_bind {A B : Type} (n : nat) (m : M A) (k : A -> M B) (Q : A -> Prop)
      (R : B -> Prop) :
  safe n m Q -> (forall a, Q a -> safe n (k a) R) -> safe n (mem.bind m k) R.
Proof.
  intros Hm Hk h Hh. unfold mem.bind. destruct (Hm h Hh) as [F Ha].
  destruct (m h) as [a h1]. cbn [fst snd] in *.
  destruct (Hk a Ha h1 ltac:(destruct F; lia)) as [F' Hb].
  split; [eapply frame_trans; eassumption | exact Hb].
Qed.

Lemma safe_weaken {A : Type} (n : nat) (m : M A) (Q R : A -> Prop) :
  safe n m Q -> (forall a, Q a -> R a) -> safe n m R.
Proof. intros Hm HQ h Hh. destruct (Hm h Hh). split; auto. Qed.

Lemma safe_fold_M {A S : Type} (n : nat) (body : S -> A -> M S) (I : S -> Prop)
      (l : list A) :
  (forall s x, I s -> safe n (body s x) I) ->
  forall s, I s -> safe n (mem.fold_M body l s) I.
Proof.
  intros Hb. induction l as [|x l IH]; intros s Hs; cbn [mem.fold_M].
  - apply safe_ret. exact Hs.
  - eapply safe_bind; [apply Hb; exact Hs | exact IH].
Qed.

Lemma safe_map_M {A B : Type} (n : nat) (f : A -> M B) (Q : B -> Prop) (l : list A) :
  (forall x, safe n (f x) Q) -> safe n (mem.map_M f l) (Forall Q).
Proof.
  intros Hf. induction l as [|x l IH]; cbn [mem.map_M].
  - apply safe_ret. constructor.
  - eapply safe_bind; [apply Hf|]. intros y Hy.
    eapply safe_bind; [exact IH|]. intros ys Hys. apply safe_ret. constructor; assumption.
Qed.

(** *** Allocation, reading and writing *)

Lemma safe_alloc (n : nat) (contents : list K) :
  safe n (mem.alloc contents) (fun st => n <= st).
Proof.
  intros h Hh. unfold mem.alloc. cbn [fst snd]. split; [|exact Hh].
  split; [rewrite length_app; lia|]. intros st Hst. apply app_nth1. lia.
Qed.

Lemma safe_get2 (n : nat) (v : mem.view2) : safe n (mem.get2 v) (fun _ => True).
Proof. intros h Hh. split; [apply frame_refl | exact I]. Qed.

Lemma safe_get3 (n : nat) (v : mem.view3) : safe n (mem.get3 v) (fun _ => True).
Proof. intros h Hh. split; [apply frame_refl | exact I]. Qed.

Lemma store_cells_frame (n st : nat) (cs : list nat) (xs : list K) (h : heap) :
  n <= st -> frame n h (mem.store_cells st cs xs h).
Proof.
  intros Hst. unfold mem.store_cells. split; [rewrite upd_length; lia|].
  intros st' Hst'. apply nth_upd_other. lia.
Qed.

Lemma safe_put2 (n : nat) (v : mem.view2) (t : tensor K) :
  fresh2 n v -> safe n (mem.put2 v t) (fun _ => True).
Proof. intros Hv h Hh. split; [apply store_cells_frame; exact Hv | exact I]. Qed.

Lemma safe_put3 (n : nat) (v : mem.view3) (t : tensor3 K) :
  fresh3 n v -> safe n (mem.put3 v t) (fun _ => True).
Proof. intros Hv h Hh. split; [apply store_cells_frame; exact Hv | exact I]. Qed.

Lemma safe_get_all (n : nat) (vs : list mem.view2) : safe n (mem.get_all vs) (fun _ => True).
Proof.
  eapply safe_weaken; [apply (safe_map_M n mem.get2 (fun _ => True)); apply safe_get2|].
  auto.
Qed.

Lemma safe_put_all (n : nat) (vs : list mem.view2) :
  Forall (fresh2 n) vs -> forall ts : talg K, safe n (mem.put_all vs ts) (fun _ => True).
Proof.
  induction 1 as [|v vs Hv Hvs IH]; intros [|t ts]; cbn [mem.put_all];
    try (apply safe_ret; exact I).
  eapply safe_bind; [apply safe_put2; exact Hv|]. intros _ _. apply IH.
Qed.

(** *** Views keep the storage, allocations give a new one *)

Lemma fresh2_index (n : nat) (v : mem.view3) (s : nat) : fresh3 n v -> fresh2 n (mem.index v s).
Proof. auto. Qed.

Lemma fresh3_narrow_stream (n : nat) (v : mem.view3) (start len : nat) :
  fresh3 n v -> fresh3 n (mem.narrow_stream v start len).
Proof. auto. Qed.

Lemma fresh3_as_view3 (n : nat) (t : mem.tview) : fresh_t n t -> fresh3 n (mem.as_view3 t).
Proof. destruct t; auto. Qed.

Lemma fresh2_as_view2 (n : nat) (t : mem.tview) : fresh_t n t -> fresh2 n (mem.as_view2 t).
Proof. destruct t; auto. Qed.

Lemma fresh_slice_by_term2 (n : nat) (v : mem.view2) (C D : nat) :
  fresh2 n v -> Forall (fresh2 n) (mem.slice_by_term2 v C D).
Proof.
  intros Hv. unfold mem.slice_by_term2. apply Forall_forall. intros x Hx.
  apply in_map_iff in Hx. destruct Hx as (p & <- & _). exact Hv.
Qed.

Lemma fresh_slice_by_term (n : nat) (t : mem.tview) (C D : nat) :
  fresh_t n t -> Forall (fresh_t n) (mem.slice_by_term t C D).
Proof.
  intros Ht. apply Forall_forall. intros x Hx. destruct t as [v|v]; cbn [mem.slice_by_term] in Hx;
    apply in_map_iff in Hx; destruct Hx as (y & <- & Hy).
  - apply (proj1 (Forall_forall _ _) (fresh_slice_by_term2 n v C D Ht)). exact Hy.
  - unfold mem.slice_by_term3 in Hy. apply in_map_iff in Hy. destruct Hy as (p & <- & _).
    exact Ht.
Qed.

Lemma fresh_slice_at_stream (n : nat) (views : list mem.tview) (s : nat) :
  Forall (fresh_t n) views -> Forall (fresh2 n) (mem.slice_at_stream views s).
Proof.
  intros H. unfold mem.slice_at_stream. apply Forall_forall. intros x Hx.
  apply in_map_iff in Hx. destruct Hx as (t & <- & Ht).
  apply fresh2_index, fresh3_as_view3. apply (proj1 (Forall_forall _ _) H). exact Ht.
Qed.

Lemma safe_empty2 (n : nat) (junk : K) (B W : nat) : safe n (mem.empty2 junk B W) (fresh2 n).
Proof.
  unfold mem.empty2. eapply safe_bind; [apply safe_alloc|]. intros st Hst.
  apply safe_ret. exact Hst.
Qed.

Lemma safe_empty3 (n : nat) (junk : K) (S B W : nat) :
  safe n (mem.empty3 junk S B W) (fresh3 n).
Proof.
  unfold mem.empty3. eapply safe_bind; [apply safe_alloc|]. intros st Hst.
  apply safe_ret. exact Hst.
Qed.

Lemma safe_empty_like3 (n : nat) (junk : K) (v : mem.view3) :
  safe n (mem.empty_like3 junk v) (fresh3 n).
Proof. apply safe_empty3. Qed.

Lemma safe_new2 (n : nat) (t : tensor K) : safe n (mem.new2 t) (fresh2 n).
Proof.
  unfold mem.new2. eapply safe_bind; [apply safe_alloc|]. intros st Hst.
  apply safe_ret. exact Hst.
Qed.

Lemma safe_new3 (n : nat) (t : tensor3 K) : safe n (mem.new3 t) (fresh3 n).
Proof.
  unfold mem.new3. eapply safe_bind; [apply safe_alloc|]. intros st Hst.
  apply safe_ret. exact Hst.
Qed.

Lemma safe_clone2 (n : nat) (v : mem.view2) : safe n (mem.clone2 v) (fresh2 n).
Proof.
  unfold mem.clone2. eapply safe_bind; [apply safe_get2|]. intros t _. apply safe_new2.
Qed.

Lemma safe_clone3 (n : nat) (v : mem.view3) : safe n (mem.clone3 v) (fresh3 n).
Proof.
  unfold mem.clone3. eapply safe_bind; [apply safe_get3|]. intros t _. apply safe_new3.
Qed.

Lemma safe_sub3 (n : nat) (a b : mem.view3) : safe n (mem.sub3 a b) (fresh3 n).
Proof.
  unfold mem.sub3. eapply safe_bind; [apply safe_get3|]. intros x _.
  eapply safe_bind; [apply safe_get3|]. intros y _. apply safe_new3.
Qed.

Lemma safe_neg2 (n : nat) (a : mem.view2) : safe n (mem.neg2 a) (fresh2 n).
Proof.
  unfold mem.neg2. eapply safe_bind; [apply safe_get2|]. intros x _. apply safe_new2.
Qed.

(** *** In-place operations write their destination *)

Lemma safe_copy2_ (n : nat) (dst src : mem.view2) :
  fresh2 n dst -> safe n (mem.copy2_ dst src) (fun _ => True).
Proof.
  intros H. unfold mem.copy2_. eapply safe_bind; [apply safe_get2|]. intros t _.
  apply safe_put2. exact H.
Qed.

Lemma safe_copy3_ (n : nat) (dst src : mem.view3) :
  fresh3 n dst -> safe n (mem.copy3_ dst src) (fun _ => True).
Proof.
  intros H. unfold mem.copy3_. eapply safe_bind; [apply safe_get3|]. intros t _.
  apply safe_put3. exact H.
Qed.

Lemma safe_sub2_ (n : nat) (dst src : mem.view2) :
  fresh2 n dst -> safe n (mem.sub2_ dst src) (fun _ => True).
Proof.
  intros H. unfold mem.sub2_. eapply safe_bind; [apply safe_get2|]. intros a _.
  eapply safe_bind; [apply safe_get2|]. intros b _. apply safe_put2. exact H.
Qed.

Lemma safe_sub3_ (n : nat) (dst src : mem.view3) :
  fresh3 n dst -> safe n (mem.sub3_ dst src) (fun _ => True).
Proof.
  intros H. unfold mem.sub3_. eapply safe_bind; [apply safe_get3|]. intros a _.
  eapply safe_bind; [apply safe_get3|]. intros b _. apply safe_put3. exact H.
Qed.

Lemma safe_add2_ (n : nat) (dst src : mem.view2) :
  fresh2 n dst -> safe n (mem.add2_ dst src) (fun _ => True).
Proof.
  intros H. unfold mem.add2_. eapply safe_bind; [apply safe_get2|]. intros a _.
  eapply safe_bind; [apply safe_get2|]. intros b _. apply safe_put2. exact H.
Qed.

Lemma safe_zero2_ (n : nat) (dst : mem.view2) :
  fresh2 n dst -> safe n (mem.zero2_ dst) (fun _ => True).
Proof.
  intros H. unfold mem.zero2_. eapply safe_bind; [apply safe_get2|]. intros a _.
  apply safe_put2. exact H.
Qed.

(** *** The kernels *)

Lemma safe_read_write (n : nat) (inp : mem.view2) (out : list mem.view2)
      (f : tensor K -> talg K -> talg K) :
  Forall (fresh2 n) out ->
  safe n (mem.bind (mem.get2 inp)
                   (fun x => mem.bind (mem.get_all out) (fun o => mem.put_all out (f x o))))
       (fun _ => True).
Proof.
  intros H. eapply safe_bind; [apply safe_get2|]. intros x _.
  eapply safe_bind; [apply safe_get_all|]. intros o _. apply safe_put_all. exact H.
Qed.

Lemma safe_restricted_exp (n : nat) (inp : mem.view2) (out : list mem.view2) (r : list K) :
  Forall (fresh2 n) out -> safe n (mem.restricted_exp inp out r) (fun _ => True).
Proof. intros H. apply (safe_read_write n inp out (fun x o => ta_ops.restricted_exp x o r) H). Qed.

Lemma safe_mult_fused_restricted_exp (n : nat) (next : mem.view2) (prev : list mem.view2)
      (inverse : bool) (r : list K) :
  Forall (fresh2 n) prev ->
  safe n (mem.mult_fused_restricted_exp next prev inverse r) (fun _ => True).
Proof.
  intros H.
  apply (safe_read_write n next prev
                         (fun x a => ta_ops.mult_fused_restricted_exp x a inverse r) H).
Qed.

Lemma safe_batch_loop (n : nat) (next : mem.view2) (at_stream : list mem.view2)
      (inverse : bool) (B : nat) (r : list K) :
  Forall (fresh2 n) at_stream ->
  safe n (mem.batch_loop next at_stream inverse B r) (fun _ => True).
Proof.
  intros H.
  apply (safe_read_write n next at_stream
                         (fun x a => signature_detail.batch_loop x a inverse B r) H).
Qed.

Lemma safe_mult3 (n : nat) (arg1 arg2 : list mem.view2) (inverse : bool) :
  Forall (fresh2 n) arg1 -> safe n (mem.mult3 arg1 arg2 inverse) (fun _ => True).
Proof.
  intros H. unfold mem.mult3. eapply safe_bind; [apply safe_get_all|]. intros a _.
  eapply safe_bind; [apply safe_get_all|]. intros b _. apply safe_put_all. exact H.
Qed.

End FrameRules.

Section ForwardFrame.
Context {K : ExactField}.

Local Abbreviation heap := (mem.heap (K := K)).
Local Abbreviation M := (mem.M (K := K)).
Local Abbreviation safe := (@safe K _).

Lemma safe_compute_path_increments (n : nat) (junk : K) (path : mem.view3) (basepoint : bool)
      (bv : mem.view2) (inverse : bool) :
  safe n (mem.compute_path_increments junk path basepoint bv inverse) (fresh3 n).
Proof.
  unfold mem.compute_path_increments. cbv zeta. destruct basepoint, inverse.
  - eapply safe_bind; [apply safe_empty_like3|]. intros pi Hpi.
    eapply safe_bind; [apply safe_copy2_, fresh2_index, Hpi|]. intros _ _.
    eapply safe_bind; [apply safe_copy3_, fresh3_narrow_stream, Hpi|]. intros _ _.
    eapply safe_bind; [apply safe_sub3_, Hpi|]. intros _ _.
    apply safe_ret. exact Hpi.
  - eapply safe_bind; [apply safe_clone3|]. intros pi Hpi.
    eapply safe_bind; [apply safe_sub2_, fresh2_index, Hpi|]. intros _ _.
    eapply safe_bind; [apply safe_sub3_, fresh3_narrow_stream, Hpi|]. intros _ _.
    apply safe_ret. exact Hpi.
  - apply safe_sub3.
  - apply safe_sub3.
Qed.

(** The stream loop writes the current views and, under [stream], the
    slots of the signature. *)
Lemma safe_stream_loop (n : nat) (kernel : mem.view2 -> list mem.view2 -> M unit)
      (path_increments : mem.view3) (at_stream : list mem.view2) (indices : list nat)
      (stream : bool) (signature : mem.tview) (signature_by_term : list mem.tview) :
  (forall next views, Forall (fresh2 n) views -> safe n (kernel next views) (fun _ => True)) ->
  Forall (fresh2 n) at_stream ->
  (stream = true -> fresh_t n signature /\ Forall (fresh_t n) signature_by_term) ->
  safe n (mem.stream_loop kernel path_increments at_stream indices stream signature
                          signature_by_term) (fun _ => True).
Proof.
  intros Hk Hat Hs. unfold mem.stream_loop.
  eapply safe_bind; [|intros _ _; apply safe_ret; exact I].
  apply (safe_fold_M n _ (Forall (fresh2 n))); [|exact Hat].
  intros views stream_index Hviews.
  apply (safe_bind n _ _ (Forall (fresh2 n))).
  - destruct stream.
    + destruct (Hs eq_refl) as [Hsig Hterm].
      eapply safe_bind;
        [apply safe_copy2_, fresh2_index, fresh3_as_view3, Hsig|].
      intros _ _. apply safe_ret. apply fresh_slice_at_stream. exact Hterm.
    + apply safe_ret. exact Hviews.
  - intros views' Hviews'. eapply safe_bind; [apply Hk; exact Hviews'|].
    intros _ _. apply safe_ret. exact Hviews'.
Qed.

Lemma safe_signature_forward_inner (n : nat) (path_increments : mem.view3) (r : list K)
      (at_stream : list mem.view2) (inverse : bool) (S : nat) (stream : bool)
      (signature : mem.tview) (signature_by_term : list mem.tview) :
  Forall (fresh2 n) at_stream ->
  (stream = true -> fresh_t n signature /\ Forall (fresh_t n) signature_by_term) ->
  safe n (mem.signature_forward_inner path_increments r at_stream inverse S stream signature
                                      signature_by_term) (fun _ => True).
Proof.
  intros Hat Hs. apply safe_stream_loop; auto.
  intros next views Hv. apply safe_mult_fused_restricted_exp. exact Hv.
Qed.

Lemma safe_signature_forward_inner_cpu (n : nat) (path_increments : mem.view3) (r : list K)
      (at_stream : list mem.view2) (inverse : bool) (B start stop batch_threads : nat)
      (stream : bool) (signature : mem.tview) (signature_by_term : list mem.tview) :
  Forall (fresh2 n) at_stream ->
  (stream = true -> fresh_t n signature /\ Forall (fresh_t n) signature_by_term) ->
  safe n (mem.signature_forward_inner_cpu path_increments r at_stream inverse B start stop
                                          batch_threads stream signature signature_by_term)
       (fun _ => True).
Proof.
  intros Hat Hs. apply safe_stream_loop; auto.
  intros next views Hv. apply safe_batch_loop. exact Hv.
Qed.

Lemma safe_omp_chunk (n : nat) (junk : K) (path_increments : mem.view3) (r : list K)
      (inverse : bool) (S B W C D batch_threads t nt : nat) :
  safe n (mem.omp_chunk junk path_increments r inverse S B W C D batch_threads t nt)
       (fun _ => True).
Proof.
  unfold mem.omp_chunk. cbv zeta.
  destruct (_ <? _); [|apply safe_ret; exact I].
  eapply safe_bind; [apply safe_empty2|]. intros v Hv.
  assert (Hviews := fresh_slice_by_term2 n v C D Hv).
  eapply safe_bind; [apply safe_restricted_exp; exact Hviews|]. intros _ _.
  eapply safe_bind; [apply safe_signature_forward_inner_cpu;
                     [exact Hviews | discriminate]|].
  intros _ _. apply safe_ret. exact I.
Qed.

Lemma safe_omp_region (n : nat) (env : omp) (junk : K) (path_increments : mem.view3)
      (r : list K) (inverse : bool) (S B W C D batch_threads stream_threads : nat) :
  safe n (mem.omp_region env junk path_increments r inverse S B W C D batch_threads
                         stream_threads) (fun _ => True).
Proof.
  unfold mem.omp_region. cbv zeta.
  eapply safe_weaken; [apply (safe_map_M n _ (fun _ => True))|auto].
  intros t. destruct (_ <? _); [apply safe_omp_chunk | apply safe_ret; exact I].
Qed.

Lemma safe_combine_chunks (n : nat) (at_stream : list mem.view2)
      (omp_results : list (option (list mem.view2))) (inverse : bool) :
  Forall (fresh2 n) at_stream ->
  safe n (mem.combine_chunks at_stream omp_results inverse) (fun _ => True).
Proof.
  intros Hat. unfold mem.combine_chunks.
  apply (safe_fold_M n _ (fun _ => True)); [|exact I].
  intros [] [chunk|] _; [apply safe_mult3; exact Hat | apply safe_ret; exact I].
Qed.

(** [signature_forward] writes nothing but what it allocates, and returns
    handles on storages of its own. *)
Lemma safe_signature_forward (n : nat) (env : omp) (junk : K) (cuda : bool)
      (path : mem.view3) (depth : nat) (stream basepoint : bool) (bv : mem.view2)
      (inverse initial : bool) (iv : mem.view2) :
  safe n (mem.signature_forward env junk cuda path depth stream basepoint bv inverse initial
                                iv)
       (fun res => fresh_t n (fst res) /\ fresh3 n (snd res)).
Proof.
  unfold mem.signature_forward. cbv zeta.
  eapply safe_bind; [apply safe_compute_path_increments|]. intros pi Hpi.
  apply (safe_bind n _ _ (fresh_t n)).
  { destruct stream.
    - eapply safe_bind; [apply safe_empty3|]. intros s Hs. apply safe_ret. exact Hs.
    - eapply safe_bind; [apply safe_empty2|]. intros s Hs. apply safe_ret. exact Hs. }
  intros signature Hsig.
  set (first_term := if stream then mem.index (mem.as_view3 signature) 0
                     else mem.as_view2 signature).
  assert (Hfirst : fresh2 n first_term).
  { subst first_term. destruct stream;
      [apply fresh2_index, fresh3_as_view3 | apply fresh2_as_view2]; exact Hsig. }
  assert (Hviews := fresh_slice_by_term2 n first_term (mem.size_channel3 path) depth Hfirst).
  assert (Hterm : stream = true ->
                  fresh_t n signature /\
                  Forall (fresh_t n)
                         (if stream then mem.slice_by_term signature (mem.size_channel3 path)
                                                           depth
                          else [])).
  { intros ->. split; [exact Hsig | apply fresh_slice_by_term; exact Hsig]. }
  eapply safe_bind.
  { destruct initial.
    - eapply safe_bind; [apply safe_copy2_; exact Hfirst|]. intros _ _.
      apply safe_mult_fused_restricted_exp. exact Hviews.
    - apply safe_restricted_exp. exact Hviews. }
  intros _ _. eapply safe_bind; [|intros _ _; apply safe_ret; split; assumption].
  destruct cuda.
  - apply safe_signature_forward_inner; assumption.
  - destruct (choose_threads _ _ _ _ _ _) as [st bt]. destruct (st =? 1).
    + apply safe_signature_forward_inner_cpu; assumption.
    + eapply safe_bind; [apply safe_omp_region|]. intros results _.
      apply safe_combine_chunks. exact Hviews.
Qed.

End ForwardFrame.

Section BackwardFrame.
Context {K : ExactField}.
Variable rebv : tensor K -> talg K -> tensor K -> talg K -> list K -> tensor K * talg K.
Variable mfrebv :
  tensor K -> talg K -> tensor K -> talg K -> bool -> list K -> tensor K * talg K.

Local Abbreviation heap := (mem.heap (K := K)).
Local Abbreviation M := (mem.M (K := K)).
Local Abbreviation safe := (@safe K _).

Lemma safe_restricted_exp_backward (n : nat) (grad_in : mem.view2)
      (grad_out : list mem.view2) (inp : mem.view2) (out : list mem.view2) (r : list K) :
  fresh2 n grad_in -> Forall (fresh2 n) grad_out ->
  safe n (mem.restricted_exp_backward rebv grad_in grad_out inp out r) (fun _ => True).
Proof.
  intros H1 H2. unfold mem.restricted_exp_backward.
  eapply safe_bind; [apply safe_get2|]. intros gi _.
  eapply safe_bind; [apply safe_get_all|]. intros go _.
  eapply safe_bind; [apply safe_get2|]. intros x _.
  eapply safe_bind; [apply safe_get_all|]. intros o _.
  destruct (rebv gi go x o r) as [gi' go'].
  eapply safe_bind; [apply safe_put2; exact H1|]. intros _ _.
  apply safe_put_all. exact H2.
Qed.

Lemma safe_mult_fused_restricted_exp_backward (n : nat) (grad_next : mem.view2)
      (grad_prev : list mem.view2) (next : mem.view2) (prev : list mem.view2)
      (inverse : bool) (r : list K) :
  fresh2 n grad_next -> Forall (fresh2 n) grad_prev ->
  safe n (mem.mult_fused_restricted_exp_backward mfrebv grad_next grad_prev next prev inverse r)
       (fun _ => True).
Proof.
  intros H1 H2. unfold mem.mult_fused_restricted_exp_backward.
  eapply safe_bind; [apply safe_get2|]. intros gn _.
  eapply safe_bind; [apply safe_get_all|]. intros gp _.
  eapply safe_bind; [apply safe_get2|]. intros x _.
  eapply safe_bind; [apply safe_get_all|]. intros a _.
  destruct (mfrebv gn gp x a inverse r) as [gn' gp'].
  eapply safe_bind; [apply safe_put2; exact H1|]. intros _ _.
  apply safe_put_all. exact H2.
Qed.

Lemma safe_compute_path_increments_backward (n : nat) (junk : K) (g : mem.view3)
      (basepoint inverse : bool) :
  fresh3 n g ->
  safe n (mem.compute_path_increments_backward junk g basepoint inverse)
       (fun res => fresh3 n (fst res) /\ fresh2 n (snd res)).
Proof.
  intros Hg. unfold mem.compute_path_increments_backward. cbv zeta.
  destruct basepoint, inverse.
  - eapply safe_bind; [apply safe_empty_like3|]. intros gp Hgp.
    eapply safe_bind; [apply safe_copy3_, fresh3_narrow_stream, Hgp|]. intros _ _.
    eapply safe_bind; [apply safe_zero2_, fresh2_index, Hgp|]. intros _ _.
    eapply safe_bind; [apply safe_sub3_, Hgp|]. intros _ _.
    apply safe_ret. split; [exact Hgp | apply fresh2_index; exact Hg].
  - eapply safe_bind; [apply safe_clone3|]. intros gp Hgp.
    eapply safe_bind; [apply safe_sub3_, fresh3_narrow_stream, Hgp|]. intros _ _.
    eapply safe_bind; [apply safe_neg2|]. intros gb Hgb.
    apply safe_ret. split; assumption.
  - eapply safe_bind; [apply safe_empty3|]. intros gp Hgp.
    eapply safe_bind; [apply safe_zero2_, fresh2_index, Hgp|]. intros _ _.
    eapply safe_bind; [apply safe_copy3_, fresh3_narrow_stream, Hgp|]. intros _ _.
    eapply safe_bind; [apply safe_sub3_, fresh3_narrow_stream, Hgp|]. intros _ _.
    eapply safe_bind; [apply safe_empty2|]. intros e He.
    apply safe_ret. split; assumption.
  - eapply safe_bind; [apply safe_empty3|]. intros gp Hgp.
    eapply safe_bind; [apply safe_zero2_, fresh2_index, Hgp|]. intros _ _.
    eapply safe_bind; [apply safe_copy3_, fresh3_narrow_stream, Hgp|]. intros _ _.
    eapply safe_bind; [apply safe_sub3_, fresh3_narrow_stream, Hgp|]. intros _ _.
    eapply safe_bind; [apply safe_empty2|]. intros e He.
    apply safe_ret. split; assumption.
Qed.

(** [signature_backward] writes nothing but what it allocates: the views
    of the saved signature that it holds under [stream] are read, and
    cloned before the kernel that rolls them back. *)
Lemma safe_signature_backward (n : nat) (junk : K) (grad_signature signature : mem.tview)
      (path_increments : mem.view3) (depth : nat) (stream basepoint inverse initial : bool) :
  safe n (mem.signature_backward rebv mfrebv junk grad_signature signature path_increments
                                 depth stream basepoint inverse initial)
       (fun res => fresh3 n (fst (fst res)) /\ fresh2 n (snd (fst res)) /\ fresh2 n (snd res)).
Proof.
  unfold mem.signature_backward. cbv zeta.
  eapply safe_bind; [apply safe_clone2|]. intros gs Hgs.
  assert (Hgterm := fresh_slice_by_term2 n gs (mem.size_channel3 path_increments) depth Hgs).
  apply (safe_bind n _ _ (fun views => stream = false -> Forall (fresh2 n) views)).
  { destruct stream.
    - destruct (_ <? _); apply safe_ret; discriminate.
    - eapply safe_bind; [apply safe_clone2|]. intros c Hc. apply safe_ret.
      intros _. apply fresh_slice_by_term2. exact Hc. }
  intros views0 Hviews0.
  eapply safe_bind; [apply safe_empty_like3|]. intros gpi Hgpi.
  apply (safe_bind n _ _ (fun views => stream = false -> Forall (fresh2 n) views)).
  { apply (safe_fold_M n _ (fun views => stream = false -> Forall (fresh2 n) views));
      [|exact Hviews0].
    intros views stream_index Hviews.
    apply (safe_bind n _ _ (fun views => stream = false -> Forall (fresh2 n) views)).
    - destruct stream.
      + apply safe_ret. discriminate.
      + eapply safe_bind; [apply safe_neg2|]. intros mn _.
        eapply safe_bind; [apply safe_mult_fused_restricted_exp; auto|]. intros _ _.
        apply safe_ret. exact Hviews.
    - intros views' Hviews'.
      eapply safe_bind;
        [apply safe_mult_fused_restricted_exp_backward;
         [apply fresh2_index; exact Hgpi | exact Hgterm]|].
      intros _ _. eapply safe_bind; [|intros _ _; apply safe_ret; exact Hviews'].
      destruct stream; [apply safe_add2_; exact Hgs | apply safe_ret; exact I]. }
  intros views Hviews.
  eapply safe_bind.
  { destruct initial.
    - apply (safe_bind n _ _ (Forall (fresh2 n))).
      + destruct stream.
        * apply safe_map_M. intros v. apply safe_clone2.
        * apply safe_ret. auto.
      + intros views' Hviews'. eapply safe_bind; [apply safe_neg2|]. intros mn _.
        eapply safe_bind; [apply safe_mult_fused_restricted_exp; exact Hviews'|].
        intros _ _. apply safe_mult_fused_restricted_exp_backward;
          [apply fresh2_index; exact Hgpi | exact Hgterm].
    - apply safe_restricted_exp_backward; [apply fresh2_index; exact Hgpi | exact Hgterm]. }
  intros _ _.
  eapply safe_bind; [apply safe_compute_path_increments_backward; exact Hgpi|].
  intros grads [H1 H2]. apply safe_ret. cbn [fst snd]. auto.
Qed.

End BackwardFrame.

Section UnitSlices.
Context {K : ExactField}.
Add Field KfieldB1 : (field_laws K).

Notation "0" := (fzero K) : field_scope.
Notation "1" := (fone K) : field_scope.
Infix "+" := (fadd K) : field_scope.
Infix "*" := (fmul K) : field_scope.

Local Abbreviation vec := (vec K).
Local Abbreviation tensor := (tensor K).
Local Abbreviation tensor3 := (tensor3 K).
Local Abbreviation talg := (talg K).

Lemma shaped_tzero (B n : nat) : shaped B n (tzero B n).
Proof.
  split; [apply repeat_length|]. apply Forall_forall. intros r Hr.
  apply repeat_spec in Hr. subst r. apply repeat_length.
Qed.

Lemma tscale_zero (B n : nat) (T : tensor) : shaped B n T -> tscale 0%F T = tzero B n.
Proof.
  intros [L F]. subst B. unfold tzero. induction F as [|r T Hr F IH]; [reflexivity|].
  cbn [tscale map length repeat]. f_equal; [|exact IH].
  subst n. clear. induction r as [|v r IH]; [reflexivity|].
  cbn [map length repeat]. f_equal; [ring | exact IH].
Qed.

Lemma is_zero_tzero (B n : nat) (t : tensor) : is_zero B n t <-> t = tzero B n.
Proof.
  split.
  - intros (T & HT & ->). apply tscale_zero. exact HT.
  - intros ->. exists (tzero B n). split; [apply shaped_tzero|].
    symmetry. apply tscale_zero. apply shaped_tzero.
Qed.

Lemma unit_algebra_length (B C D : nat) : length (unit_algebra B C D) = D.
Proof. unfold unit_algebra. rewrite length_map. apply length_seq. Qed.

Lemma unit_algebra_nth (B C D k : nat) :
  k < D -> nth k (unit_algebra B C D) [] = tzero B (C ^ (k + 1)).
Proof.
  intros Hk. unfold unit_algebra.
  rewrite (nth_map_seq (fun i => tzero B (C ^ (i + 1))) [] 0 D k Hk). reflexivity.
Qed.

Lemma graded_unit_algebra (B C D : nat) : graded B C D (unit_algebra B C D).
Proof.
  split; [apply unit_algebra_length|]. intros i Hi. rewrite unit_algebra_nth by exact Hi.
  apply shaped_tzero.
Qed.

Lemma unit_algebra_is_zero (B C D k : nat) :
  k < D -> is_zero B (C ^ (k + 1)) (nth k (unit_algebra B C D) []).
Proof. intros Hk. apply is_zero_tzero. apply unit_algebra_nth. exact Hk. Qed.

(** *** The geometry of the views *)

Lemma views_nth (C d : nat) : forall (pos len i : nat),
  i < d ->
  nth i (misc.slice_by_term_views (Z.of_nat pos) (Z.of_nat len) (Z.of_nat C) d) (0%Z, 0%Z)
  = (Z.of_nat (pos + span len C i), Z.of_nat (len * C ^ i)).
Proof.
  induction d as [|d IH]; intros pos len i Hi; [lia|].
  cbn [misc.slice_by_term_views]. destruct i as [|i].
  - cbn [nth span Nat.pow]. rewrite Nat.add_0_r, Nat.mul_1_r. reflexivity.
  - cbn [nth]. rewrite <- Nat2Z.inj_add, <- Nat2Z.inj_mul. rewrite IH by lia.
    cbn [span Nat.pow]. f_equal; f_equal; lia.
Qed.

Lemma span_S (len C d : nat) : span len C (S d) = span len C d + len * C ^ d.
Proof.
  revert len; induction d as [|d IH]; intros len.
  - cbn. lia.
  - change (span len C (S (S d))) with (len + span (len * C) C (S d)).
    rewrite IH. cbn [span Nat.pow]. lia.
Qed.

Lemma span_mono (len C d e : nat) : d <= e -> span len C d <= span len C e.
Proof.
  induction 1 as [|e H IH]; [lia|]. rewrite span_S. lia.
Qed.

Lemma signature_channels_span (C D : nat) :
  signature_channels C (Z.of_nat D) = span C C D.
Proof.
  unfold signature_channels. rewrite Nat2Z.id.
  assert (H : forall d w, fold_left (fun w k => w + C ^ k)%nat (seq 1 d) w = (w + span C C d)%nat).
  { induction d as [|d IH]; intros w.
    - cbn. lia.
    - rewrite seq_S, fold_left_app, IH. cbn [fold_left plus]. rewrite span_S.
      replace (C * C ^ d) with (C ^ S d) by reflexivity. lia. }
  rewrite H. reflexivity.
Qed.

Lemma nth_map_in {A B1 : Type} (f : A -> B1) (l : list A) (d : A) (d' : B1) (i : nat) :
  i < length l -> nth i (map f l) d' = f (nth i l d).
Proof.
  revert i; induction l as [|x l IH]; intros [|i] H; cbn in *; try lia; auto.
  apply IH. lia.
Qed.

Lemma slice_by_term_nth (buf : tensor) (C D i : nat) :
  i < D ->
  nth i (misc.slice_by_term buf C D) []
  = map (narrow (span C C i) (C ^ (i + 1))) buf.
Proof.
  intros Hi. unfold misc.slice_by_term.
  rewrite (nth_map_in _ _ (0%Z, 0%Z)) by (rewrite slice_by_term_views_length; exact Hi).
  pose proof (views_nth C D 0 C i Hi) as E. change (Z.of_nat 0) with 0%Z in E.
  rewrite E. cbn [fst snd plus]. rewrite !Nat2Z.id.
  replace (C * C ^ i) with (C ^ (i + 1)) by (rewrite Nat.add_1_r; reflexivity).
  reflexivity.
Qed.

(** A (batch, W) tensor sliced by term is a member of the tensor algebra. *)
Lemma graded_slice_by_term (B C D : nat) (buf : tensor) :
  shaped B (span C C D) buf -> graded B C D (misc.slice_by_term buf C D).
Proof.
  intros [L F]. split; [apply slice_by_term_length|]. intros i Hi.
  rewrite slice_by_term_nth by exact Hi. split; [rewrite length_map; exact L|].
  rewrite Forall_map. eapply Forall_impl; [|exact F]. intros row Hrow. cbn beta.
  apply narrow_length. rewrite Hrow.
  pose proof (span_mono C C (S i) D ltac:(lia)) as H. rewrite span_S in H.
  replace (C ^ (i + 1)) with (C * C ^ i) by (rewrite Nat.add_1_r; reflexivity). exact H.
Qed.

Lemma zipw_map_same {A B1 B2 C1 : Type} (f : B1 -> B2 -> C1) (g : A -> B1) (h : A -> B2)
      (l : list A) :
  zipw f (map g l) (map h l) = map (fun x => f (g x) (h x)) l.
Proof. induction l as [|x l IH]; [reflexivity|]. cbn [map zipw]. f_equal. exact IH. Qed.

Lemma unslice_views (buf : tensor) (C d : nat) : forall pos len : nat,
  fold_left (zipw (@app K))
            (map (fun v : Z * Z => map (narrow (Z.to_nat (fst v)) (Z.to_nat (snd v))) buf)
                 (misc.slice_by_term_views (Z.of_nat pos) (Z.of_nat len) (Z.of_nat C) d))
            (map (firstn pos) buf)
  = map (firstn (pos + span len C d)) buf.
Proof.
  induction d as [|d IH]; intros pos len.
  - cbn [misc.slice_by_term_views map fold_left span]. rewrite Nat.add_0_r. reflexivity.
  - cbn [misc.slice_by_term_views map fold_left fst snd span]. rewrite !Nat2Z.id.
    rewrite zipw_map_same.
    rewrite (map_ext _ (firstn (pos + len)))
      by (intros row; unfold narrow; symmetry; apply firstn_plus).
    rewrite <- Nat2Z.inj_add, <- Nat2Z.inj_mul, IH. f_equal. f_equal. lia.
Qed.

(** Reading a tensor through the views and laying the terms side by side
    gives the tensor back. *)
Lemma unslice_slice (B C D : nat) (buf : tensor) :
  1 <= D -> shaped B (span C C D) buf -> misc.unslice (misc.slice_by_term buf C D) = buf.
Proof.
  intros HD [L F]. unfold misc.slice_by_term. destruct D as [|d]; [lia|].
  cbn [misc.slice_by_term_views map misc.unslice fst snd].
  change (Z.to_nat 0) with 0. rewrite Nat2Z.id. rewrite Z.add_0_l.
  rewrite (map_ext (narrow 0 C) (firstn C)) by reflexivity.
  rewrite <- Nat2Z.inj_mul. rewrite (unslice_views buf C d C (C * C)).
  rewrite <- (map_id buf) at 2. apply map_ext_in. intros row Hrow.
  apply firstn_all2. rewrite (proj1 (Forall_forall _ _) F row Hrow). cbn [span]. lia.
Qed.

End UnitSlices.

Section GeneralForward.
Context {K : ExactField}.

Local Abbreviation vec := (vec K).
Local Abbreviation tensor := (tensor K).
Local Abbreviation tensor3 := (tensor3 K).
Local Abbreviation talg := (talg K).

Lemma ScalarType_eqb_eq (a b : ScalarType) : ScalarType_eqb a b = true -> a = b.
Proof. destruct a, b; cbn; congruence. Qed.

Lemma Device_eqb_eq (a b : Device) : Device_eqb a b = true -> a = b.
Proof.
  destruct a as [|i], b as [|j]; cbn; try congruence.
  intros H. apply Nat.eqb_eq in H. congruence.
Qed.

Lemma TensorOptions_eqb_eq (a b : TensorOptions) : TensorOptions_eqb a b = true -> a = b.
Proof.
  unfold TensorOptions_eqb. intros H. apply andb_true_iff in H. destruct H as [H1 H2].
  destruct a, b. cbn in *. f_equal; [apply ScalarType_eqb_eq | apply Device_eqb_eq]; assumption.
Qed.

Lemma sizes_2 (t : Tensor K) (b n : nat) :
  ndimension t = 2 -> size t batch_dim = b -> size t channel_dim = n -> sizes t = [b; n].
Proof.
  unfold ndimension, size, ndimension.
  destruct (sizes t) as [|x [|y [|z l]]]; cbn [length]; try discriminate.
  intros _ Hb Hc. cbv in Hb, Hc. congruence.
Qed.

(** What [signature_checkargs] has checked when it returns. *)
Lemma checkargs_accepts (path bv iv : Tensor K) (depth : Z) (basepoint initial : bool) :
  signature_checkargs path depth basepoint bv initial iv = None ->
  exists N B C,
    sizes path = [N; B; C] /\ 1 <= N /\ (basepoint = false -> 2 <= N) /\
    1 <= B /\ 1 <= C /\ (1 <= depth)%Z /\ is_floating_point path = true /\
    (basepoint = true -> sizes bv = [B; C] /\ options bv = options path) /\
    (initial = true ->
     sizes iv = [B; signature_channels C depth] /\ options iv = options path).
Proof.
  intros H. destruct (checkargs_sizes path bv iv depth basepoint initial H)
    as (N & B & C & Hs & HN & HN2 & HB & HC & HD & Hf).
  exists N, B, C. repeat (split; [assumption|]).
  revert H. unfold signature_checkargs.
  destruct (size_3 path N B C Hs) as (E1 & E2 & E3). rewrite E1, E2, E3.
  change (ndimension path) with (length (sizes path)). rewrite Hs.
  change (length [N; B; C] =? 2) with false. change (length [N; B; C] =? 3) with true.
  cbn [negb].
  destruct ((B =? 0) || (N =? 0) || (C =? 0)); [discriminate|].
  destruct (negb basepoint && (N =? 1)); [discriminate|].
  destruct (depth <? 1)%Z; [discriminate|].
  destruct (negb (is_floating_point path)); [discriminate|].
  cbv zeta.
  assert (Hchk : forall (v : Tensor K) (n : nat) (e1 e2 e3 : invalid_argument),
             (if negb (ndimension v =? 2) then Some e1
              else if negb (size v channel_dim =? n) || negb (size v batch_dim =? B)
                   then Some e2
                   else if negb (TensorOptions_eqb (make_opts path) (make_opts v))
                        then Some e3 else None) = None ->
             sizes v = [B; n] /\ options v = options path).
  { intros v n e1 e2 e3. destruct (ndimension v =? 2) eqn:Ed; [|discriminate].
    destruct (size v channel_dim =? n) eqn:Ec; [|discriminate].
    destruct (size v batch_dim =? B) eqn:Eb; [|discriminate].
    destruct (TensorOptions_eqb (make_opts path) (make_opts v)) eqn:Eo; [|discriminate].
    intros _. apply Nat.eqb_eq in Ed, Ec, Eb. split; [apply sizes_2; assumption|].
    symmetry. apply TensorOptions_eqb_eq. exact Eo. }
  destruct basepoint.
  - destruct (if negb (ndimension bv =? 2) then _ else _) eqn:Ebv; [discriminate|].
    intros Hiv. split; [intros _; apply (Hchk bv C _ _ _ Ebv)|].
    destruct initial; [|discriminate]. intros _. apply (Hchk iv _ _ _ _ Hiv).
  - intros Hiv. split; [discriminate|].
    destruct initial; [|discriminate]. intros _. apply (Hchk iv _ _ _ _ Hiv).
Qed.

Lemma well_formed_data2 (t : Tensor K) (B n : nat) :
  well_formed t = true -> sizes t = [B; n] ->
  exists x, data t = D2 x /\ shaped B n x.
Proof.
  intros Hw Hs. unfold well_formed in Hw. rewrite Hs in Hw.
  destruct (data t) as [x|p|l] eqn:Hd; try discriminate.
  exists x. split; [reflexivity|]. apply rows_ok_shaped. exact Hw.
Qed.

Lemma graded_first_signature (B C D : nat) (inverse initial : bool) (r : list K)
      (iv x : tensor) :
  shaped B C x -> length r = D - 1 -> (initial = true -> shaped B (span C C D) iv) ->
  graded B C D (first_signature inverse initial r C D iv x).
Proof.
  intros Hx Lr Hiv. unfold first_signature. destruct initial.
  - apply graded_fused; auto. apply graded_slice_by_term. auto.
  - apply graded_rexp; [exact Hx | apply repeat_length].
Qed.

End GeneralForward.

Section GeneralValue.
Context {K : ExactField}.

Local Abbreviation vec := (vec K).
Local Abbreviation tensor := (tensor K).
Local Abbreviation tensor3 := (tensor3 K).
Local Abbreviation talg := (talg K).

Lemma signature_channels_depth (C : nat) (depth : Z) :
  (1 <= depth)%Z -> signature_channels C depth = span C C (Z.to_nat depth).
Proof.
  intros H. rewrite <- signature_channels_span. rewrite Z2Nat.id by lia. reflexivity.
Qed.

Lemma valid_input_intro (path bv iv : Tensor K) (depth : Z) (basepoint initial : bool) :
  signature_checkargs path depth basepoint bv initial iv = None ->
  well_formed path = true ->
  (basepoint = true -> well_formed bv = true) ->
  (initial = true -> well_formed iv = true) ->
  exists N B C p, valid_input path bv iv depth basepoint initial N B C p.
Proof.
  intros Hc Hw Hwb Hwi.
  destruct (checkargs_accepts path bv iv depth basepoint initial Hc)
    as (N & B & C & Hs & HN & HN2 & HB & HC & HD & Hf & Hbv & Hiv).
  destruct (well_formed_data3 path N B C Hw Hs) as (p & Hd & Hp).
  exists N, B, C, p. split; auto.
  - destruct basepoint; [lia | specialize (HN2 eq_refl); lia].
  - intros E. destruct (Hbv E) as [Hsb _].
    destruct (well_formed_data2 bv B C (Hwb E) Hsb) as (x & Hx & Sx).
    unfold as2. rewrite Hx. exact Sx.
  - intros E. destruct (Hiv E) as [Hsi Hoi].
    destruct (well_formed_data2 iv B _ (Hwi E) Hsi) as (x & Hx & Sx).
    unfold as2. rewrite Hx. rewrite <- signature_channels_depth by exact HD. auto.
Qed.

(** The value of [signature_forward] without [stream], from what the
    driver leaves. *)
Lemma forward_general_with (env : omp) (junk : K) (path bv iv : Tensor K) (depth : Z)
      (basepoint inverse initial : bool) (N B C : nat) (p : tensor3) :
  signature_checkargs path depth basepoint bv initial iv = None ->
  valid_input path bv iv depth basepoint initial N B C p ->
  let D := Z.to_nat depth in
  let r := misc.make_reciprocals D in
  let pi := signature_detail.compute_path_increments junk p basepoint (as2 bv) inverse in
  (forall (a0 : talg) (signature : tensor3) (views : list (Z * Z)),
      graded B C D a0 ->
      forward_drive (dtype (options path)) env junk (is_cuda path) pi r a0 inverse B N
                    (N - (if basepoint then 0 else 1)) (signature_channels C depth) C D false
                    signature views
      = Ok (signature, drive inverse r a0 (tl pi))) ->
  signature_forward env junk path depth false basepoint bv inverse initial iv
  = Ok ({| sizes := [B; signature_channels C depth]; options := options path;
           data := D2 (misc.unslice
                         (drive inverse r
                                (first_signature inverse initial r C D (as2 iv) (nth 0 pi []))
                                (tl pi))) |},
        {| sizes := [N - (if basepoint then 0 else 1); B; C]; options := options path;
           data := D3 pi |}).
Proof.
  intros Hc [Hs Hd Hp HS HB HD Hbv Hiv] D r pi Hdrive.
  unfold signature_forward. rewrite Hc.
  destruct (size_3 path N B C Hs) as (E1 & E2 & E3). rewrite E1, E2, E3.
  assert (Eas : as3 path = p) by (unfold as3; rewrite Hd; reflexivity).
  rewrite !Eas. unfold make_opts. cbv zeta. fold D. fold r. fold pi.
  assert (HN : 1 <= N) by (destruct basepoint; lia).
  pose proof (compute_path_increments_shaped N B C junk p basepoint (as2 bv) inverse Hp HN Hbv)
    as Hpi.
  fold pi in Hpi.
  assert (Lr : length r = D - 1) by apply make_reciprocals_length.
  assert (Hx : shaped B C (nth 0 pi [])) by (apply (shaped3_nth _ B C pi 0 Hpi); lia).
  assert (Ea0 : (if initial
                 then ta_ops.mult_fused_restricted_exp
                        (nth 0 pi []) (misc.slice_by_term (if initial then as2 iv
                                                           else empty2 junk B
                                                                  (signature_channels C depth))
                                                          C D) inverse r
                 else ta_ops.restricted_exp
                        (nth 0 pi []) (misc.slice_by_term (if initial then as2 iv
                                                           else empty2 junk B
                                                                  (signature_channels C depth))
                                                          C D) r)
                = first_signature inverse initial r C D (as2 iv) (nth 0 pi [])).
  { unfold first_signature. destruct initial; [reflexivity|].
    apply restricted_exp_out. rewrite slice_by_term_length, repeat_length. reflexivity. }
  rewrite Ea0. rewrite Hdrive; [reflexivity|].
  apply (graded_first_signature B C D); auto. intros E. apply (Hiv E).
Qed.

(** The same on every branch that does not combine chunks under
    [inverse]. *)
Lemma forward_general (env : omp) (junk : K) (path bv iv : Tensor K) (depth : Z)
      (basepoint inverse initial : bool) (N B C : nat) (p : tensor3) :
  omp_ok env ->
  signature_checkargs path depth basepoint bv initial iv = None ->
  valid_input path bv iv depth basepoint initial N B C p ->
  has_kernel path = true ->
  inverse = false \/ is_cuda path = true \/ get_max_parallelism env = 1 ->
  let D := Z.to_nat depth in
  let r := misc.make_reciprocals D in
  let pi := signature_detail.compute_path_increments junk p basepoint (as2 bv) inverse in
  signature_forward env junk path depth false basepoint bv inverse initial iv
  = Ok ({| sizes := [B; signature_channels C depth]; options := options path;
           data := D2 (misc.unslice
                         (drive inverse r
                                (first_signature inverse initial r C D (as2 iv) (nth 0 pi []))
                                (tl pi))) |},
        {| sizes := [N - (if basepoint then 0 else 1); B; C]; options := options path;
           data := D3 pi |}).
Proof.
  intros Hok Hc V Hk Hser D r pi.
  apply (forward_general_with env junk path bv iv depth basepoint inverse initial N B C p Hc V).
  destruct V as [Hs Hd Hp HS HB HD Hbv Hiv].
  assert (HN : 1 <= N) by (destruct basepoint; lia).
  intros a0 signature views Ha0.
  apply (forward_drive_value _ env junk _ _ _ a0 inverse B N _ _ C (Z.to_nat depth)); auto;
    try (apply (compute_path_increments_shaped N B C); auto);
    try apply make_reciprocals_length.
Qed.

(** The value of [signature_forward] under [stream]. *)
Lemma forward_stream_general (env : omp) (junk : K) (path bv iv : Tensor K) (depth : Z)
      (basepoint inverse initial : bool) (N B C : nat) (p : tensor3) :
  omp_ok env ->
  signature_checkargs path depth basepoint bv initial iv = None ->
  valid_input path bv iv depth basepoint initial N B C p ->
  has_kernel path = true ->
  let D := Z.to_nat depth in
  let r := misc.make_reciprocals D in
  let pi := signature_detail.compute_path_increments junk p basepoint (as2 bv) inverse in
  let S := N - (if basepoint then 0 else 1) in
  exists sig3 : tensor3,
    signature_forward env junk path depth true basepoint bv inverse initial iv
    = Ok ({| sizes := [S; B; signature_channels C depth]; options := options path;
             data := D3 sig3 |},
          {| sizes := [S; B; C]; options := options path; data := D3 pi |}) /\
    length sig3 = S /\
    forall s, s < S ->
              nth s sig3 []
              = misc.unslice
                  (drive inverse r
                         (first_signature inverse initial r C D (as2 iv) (nth 0 pi []))
                         (firstn s (tl pi))).
Proof.
  intros Hok Hc [Hs Hd Hp HS HB HD Hbv Hiv] Hk D r pi S.
  unfold signature_forward. rewrite Hc.
  destruct (size_3 path N B C Hs) as (E1 & E2 & E3). rewrite E1, E2, E3.
  assert (Eas : as3 path = p) by (unfold as3; rewrite Hd; reflexivity).
  rewrite !Eas. unfold make_opts. cbv zeta. fold D. fold r. fold pi. fold S.
  assert (HN : 1 <= N) by (destruct basepoint; lia).
  pose proof (compute_path_increments_shaped N B C junk p basepoint (as2 bv) inverse Hp HN Hbv)
    as Hpi.
  fold pi in Hpi. fold S in Hpi.
  assert (Lr : length r = D - 1) by apply make_reciprocals_length.
  assert (Hx : shaped B C (nth 0 pi [])) by (apply (shaped3_nth _ B C pi 0 Hpi); lia).
  set (W := signature_channels C depth).
  set (first_term := if initial then as2 iv else nth 0 (empty3 junk S B W) []).
  assert (Ea0 : (if initial
                 then ta_ops.mult_fused_restricted_exp
                        (nth 0 pi []) (misc.slice_by_term first_term C D) inverse r
                 else ta_ops.restricted_exp
                        (nth 0 pi []) (misc.slice_by_term first_term C D) r)
                = first_signature inverse initial r C D (as2 iv) (nth 0 pi [])).
  { unfold first_signature. subst first_term. destruct initial; [reflexivity|].
    apply restricted_exp_out. rewrite slice_by_term_length, repeat_length. reflexivity. }
  rewrite Ea0.
  set (a0 := first_signature inverse initial r C D (as2 iv) (nth 0 pi [])).
  assert (Ha0 : graded B C D a0).
  { apply (graded_first_signature B C D); auto. intros E. apply (Hiv E). }
  set (signature := upd 0 (misc.unslice a0) (empty3 junk S B W)).
  assert (Ls : length signature = S)
    by (subst signature; rewrite upd_length; apply repeat_length).
  assert (H0 : nth 0 signature [] = misc.unslice a0)
    by (subst signature; apply nth_upd_same; unfold empty3; rewrite repeat_length; lia).
  destruct (forward_drive_stream (dtype (options path)) env junk (is_cuda path) pi r a0 inverse
                                 B N S W C D signature Hk Hok HS Hpi Lr Ha0 Ls H0)
    as ([sig3 at_stream] & Edr & L1 & P).
  rewrite Edr.
  cbn [fst] in L1, P. exists sig3. split; [reflexivity|]. split; [exact L1 | exact P].
Qed.

End GeneralValue.

Section MoreForward.
Context {K : ExactField}.

Local Abbreviation vec := (vec K).
Local Abbreviation tensor := (tensor K).
Local Abbreviation tensor3 := (tensor3 K).
Local Abbreviation talg := (talg K).

Lemma TensorOptions_eqb_refl (a : TensorOptions) : TensorOptions_eqb a a = true.
Proof.
  destruct a as [d v]. unfold TensorOptions_eqb. cbn [dtype device].
  apply andb_true_iff. split; [destruct d; reflexivity|].
  destruct v as [|i]; [reflexivity | apply Nat.eqb_refl].
Qed.

(** [signature_checkargs] returns on the inputs with the sizes, dtype and
    device that it checks. *)
Lemma checkargs_complete (path bv iv : Tensor K) (depth : Z) (basepoint initial : bool)
      (N B C : nat) :
  sizes path = [N; B; C] -> 1 <= N -> (basepoint = false -> 2 <= N) -> 1 <= B -> 1 <= C ->
  (1 <= depth)%Z -> is_floating_point path = true ->
  (basepoint = true -> sizes bv = [B; C] /\ options bv = options path) ->
  (initial = true -> sizes iv = [B; signature_channels C depth] /\ options iv = options path) ->
  signature_checkargs path depth basepoint bv initial iv = None.
Proof.
  intros Hs HN HN2 HB HC HD Hf Hbv Hiv. unfold signature_checkargs.
  destruct (size_3 path N B C Hs) as (E1 & E2 & E3). rewrite E1, E2, E3.
  change (ndimension path) with (length (sizes path)). rewrite Hs.
  change (length [N; B; C] =? 2) with false. change (length [N; B; C] =? 3) with true.
  cbn [negb].
  replace (B =? 0) with false by (symmetry; apply Nat.eqb_neq; lia).
  replace (N =? 0) with false by (symmetry; apply Nat.eqb_neq; lia).
  replace (C =? 0) with false by (symmetry; apply Nat.eqb_neq; lia).
  cbn [orb].
  replace (negb basepoint && (N =? 1)) with false.
  2:{ destruct basepoint; [reflexivity|]. specialize (HN2 eq_refl).
      symmetry. apply andb_false_iff. right. apply Nat.eqb_neq. lia. }
  replace (depth <? 1)%Z with false by (symmetry; apply Z.ltb_ge; lia).
  rewrite Hf. cbn [negb]. cbv zeta.
  assert (Hchk : forall (v : Tensor K) (n : nat) (e1 e2 e3 : invalid_argument),
             sizes v = [B; n] -> options v = options path ->
             (if negb (ndimension v =? 2) then Some e1
              else if negb (size v channel_dim =? n) || negb (size v batch_dim =? B)
                   then Some e2
                   else if negb (TensorOptions_eqb (make_opts path) (make_opts v))
                        then Some e3 else None) = None).
  { intros v n e1 e2 e3 Hsv Hov. destruct (size_2 v B n Hsv) as [Eb Ec].
    rewrite Eb, Ec, !Nat.eqb_refl. unfold ndimension. rewrite Hsv. cbn [length Nat.eqb negb orb].
    unfold make_opts. rewrite Hov, TensorOptions_eqb_refl. reflexivity. }
  destruct basepoint.
  - destruct (Hbv eq_refl) as [H1 H2]. rewrite (Hchk bv C _ _ _ H1 H2).
    destruct initial; [|reflexivity]. destruct (Hiv eq_refl) as [H3 H4].
    apply Hchk; assumption.
  - destruct initial; [|reflexivity]. destruct (Hiv eq_refl) as [H3 H4].
    apply Hchk; assumption.
Qed.

(** The increments do not depend on what [empty_like] hands out. *)
Lemma compute_path_increments_junk (N B C : nat) (junk junk' : K) (path : tensor3)
      (basepoint : bool) (bv : tensor) (inverse : bool) :
  shaped3 N B C path -> 1 <= N -> (basepoint = true -> shaped B C bv) ->
  signature_detail.compute_path_increments junk path basepoint bv inverse
  = signature_detail.compute_path_increments junk' path basepoint bv inverse.
Proof.
  intros Hp HN Hb. apply (nth_ext _ _ [] []).
  - rewrite !(compute_path_increments_length N B C) by assumption. reflexivity.
  - intros s Hs. rewrite (compute_path_increments_length N B C) in Hs by assumption.
    destruct basepoint.
    + destruct s as [|s].
      * rewrite !(compute_path_increments_basepoint_0 N B C) by assumption. reflexivity.
      * rewrite !(compute_path_increments_basepoint_nth N B C) by (auto; lia). reflexivity.
    + reflexivity.
Qed.

(** With a basepoint the increments are those of the path with the
    basepoint in front. *)
Lemma increments_prepend (N B C : nat) (junk junk' : K) (path : tensor3) (bv bv' : tensor)
      (inverse : bool) :
  shaped3 N B C path -> 1 <= N -> shaped B C bv ->
  signature_detail.compute_path_increments junk path true bv inverse
  = signature_detail.compute_path_increments junk' (bv :: path) false bv' inverse.
Proof.
  intros Hp HN Hb.
  assert (Hp' : shaped3 (S N) B C (bv :: path)).
  { destruct Hp as [L F]. split; [cbn [length]; lia | constructor; assumption]. }
  apply (nth_ext _ _ [] []).
  - rewrite (compute_path_increments_length N B C), (compute_path_increments_length (S N) B C)
      by (auto; lia). lia.
  - intros s Hs. rewrite (compute_path_increments_length N B C) in Hs by (auto; lia).
    rewrite (compute_path_increments_nth (S N) B C) by (auto; lia).
    destruct s as [|s].
    + rewrite (compute_path_increments_basepoint_0 N B C) by assumption. reflexivity.
    + rewrite (compute_path_increments_basepoint_nth N B C) by (auto; lia).
      replace (S s + 1) with (S (S s)) by lia. replace (S s - 1) with s by lia.
      cbn [nth]. reflexivity.
Qed.

(** Under [inverse] a factor on the right stays on the right. *)
Lemma drive_true_mult (B C D : nat) (r : list K) (A : talg) (ys : list tensor) :
  forall e : talg,
    graded B C D A -> graded B C D e -> Forall (shaped B C) ys -> length r = D - 1 ->
    drive true r (ta_ops.mult e A) ys = ta_ops.mult (drive true r e ys) A.
Proof.
  induction ys as [|y ys IH]; intros e HA He Hys Lr; [reflexivity|].
  apply Forall_cons_iff in Hys. destruct Hys as [Hy Hys]. cbn [drive fold_left].
  fold (drive true r (ta_ops.mult_fused_restricted_exp y (ta_ops.mult e A) true r) ys).
  fold (drive true r (ta_ops.mult_fused_restricted_exp y e true r) ys).
  assert (HE : graded B C D (ta_ops.restricted_exp y (repeat [] D) r))
    by (apply graded_rexp; [exact Hy | apply repeat_length]).
  rewrite (fused_inverse_is_exp_mult B C D y (ta_ops.mult e A) (repeat [] D) r)
    by (auto using graded_mult, repeat_length).
  rewrite (fused_inverse_is_exp_mult B C D y e (repeat [] D) r)
    by (auto using repeat_length).
  rewrite <- (mult_assoc B C D) by assumption.
  apply IH; auto. apply graded_mult; assumption.
Qed.







End MoreForward.

Section CombineValue.
Context {K : ExactField}.

Local Abbreviation vec := (vec K).
Local Abbreviation tensor := (tensor K).
Local Abbreviation tensor3 := (tensor3 K).
Local Abbreviation talg := (talg K).

(** [signature_combine_forward] on two well-formed signatures. *)
Lemma combine_forward_shaped (B C : nat) (depth : Z) (s1 s2 : Tensor K) (x1 x2 : tensor) :
  sizes s1 = [B; signature_channels C depth] -> data s1 = D2 x1 ->
  sizes s2 = [B; signature_channels C depth] -> data s2 = D2 x2 ->
  signature_combine_forward s1 s2 C depth
  = Ok {| sizes := [B; signature_channels C depth]; options := options s1;
          data := D2 (misc.unslice
                        (ta_ops.mult (misc.slice_by_term x1 C (Z.to_nat depth))
                                     (misc.slice_by_term x2 C (Z.to_nat depth)))) |}.
Proof.
  intros Hs1 Hd1 Hs2 Hd2. unfold signature_combine_forward.
  destruct (size_2 s1 _ _ Hs1) as [Eb1 Ec1]. destruct (size_2 s2 _ _ Hs2) as [Eb2 Ec2].
  rewrite Eb1, Ec1, Eb2, Ec2. unfold ndimension. rewrite Hs1, Hs2.
  cbn [length]. rewrite !Nat.eqb_refl. cbn [negb orb]. cbv zeta.
  unfold as2. rewrite Hd1, Hd2. reflexivity.
Qed.

Lemma tensor_eta (t : Tensor K) :
  t = {| sizes := sizes t; options := options t; data := data t |}.
Proof. destruct t; reflexivity. Qed.

End CombineValue.

Section SumsAndPairings.
Context {K : ExactField}.
Add Field KfieldC1 : (field_laws K).

Notation "0" := (fzero K) : field_scope.
Notation "1" := (fone K) : field_scope.
Infix "+" := (fadd K) : field_scope.
Infix "*" := (fmul K) : field_scope.
Infix "-" := (fsub K) : field_scope.
Notation "- x" := (fopp K x) : field_scope.

Local Abbreviation vec := (vec K).
Local Abbreviation tensor := (tensor K).
Local Abbreviation tensor3 := (tensor3 K).
Local Abbreviation talg := (talg K).

(** ** More on finite sums *)

Lemma ksum_zero (n : nat) : ksum (fun _ => 0%F) n = 0%F.
Proof. induction n as [|n IH]; cbn [ksum]; [reflexivity | rewrite IH; ring]. Qed.

Lemma ksum_sub (f g : nat -> K) (n : nat) :
  ksum (fun i => (f i - g i)%F) n = (ksum f n - ksum g n)%F.
Proof. induction n as [|n IH]; cbn [ksum]; [ring | rewrite IH; ring]. Qed.

Lemma ksum_scale_r (c : K) (f : nat -> K) (n : nat) :
  ksum (fun i => (f i * c)%F) n = (ksum f n * c)%F.
Proof. induction n as [|n IH]; cbn [ksum]; [ring | rewrite IH; ring]. Qed.

Lemma ksum_split (f : nat -> K) (a b : nat) :
  ksum f (a + b) = (ksum f a + ksum (fun i => f (a + i)%nat) b)%F.
Proof.
  induction b as [|b IH]; [rewrite Nat.add_0_r; cbn [ksum]; ring|].
  rewrite Nat.add_succ_r. cbn [ksum]. rewrite IH. ring.
Qed.

Lemma ksum_prod (f : nat -> K) (m n : nat) :
  ksum f (m * n) = ksum (fun p => ksum (fun q => f (p * n + q)%nat) n) m.
Proof.
  induction m as [|m IH]; [reflexivity|].
  cbn [ksum]. rewrite <- IH. replace (S m * n)%nat with (m * n + n)%nat by lia.
  apply ksum_split.
Qed.

Lemma ksum_swap (u : nat -> nat -> K) (m n : nat) :
  ksum (fun i => ksum (fun j => u i j) n) m = ksum (fun j => ksum (fun i => u i j) m) n.
Proof.
  induction m as [|m IH]; cbn [ksum]; [symmetry; apply ksum_zero|].
  rewrite IH, <- ksum_add. reflexivity.
Qed.

(** Summing over the pairs j < t < n by t or by j. *)
Lemma ksum_triangle (u : nat -> nat -> K) (n : nat) :
  ksum (fun t => ksum (fun j => u j t) t) n
  = ksum (fun j => ksum (fun i => u j (j + 1 + i)%nat) (n - 1 - j)) n.
Proof.
  induction n as [|n IH]; [reflexivity|].
  cbn [ksum]. rewrite IH. replace (S n - 1 - n)%nat with 0%nat by lia. cbn [ksum].
  rewrite (ksum_ext (fun j => ksum (fun i => u j (j + 1 + i)%nat) (S n - 1 - j))
                    (fun j => (ksum (fun i => u j (j + 1 + i)%nat) (n - 1 - j) + u j n)%F) n).
  - rewrite ksum_add. ring.
  - intros j Hj. replace (S n - 1 - j)%nat with (S (n - 1 - j)) by lia. cbn [ksum].
    replace (j + 1 + (n - 1 - j))%nat with n by lia. reflexivity.
Qed.

(** ** Entries of the broadcast and the batched products *)

Lemma nth_bmul_cr (a b : vec) (p q : nat) :
  q < length b ->
  nth (p * length b + q) (bmul_cr a b) 0%F = (nth p a 0%F * nth q b 0%F)%F.
Proof.
  intros Hq. revert p. induction a as [|x a IH]; intros p.
  - cbn. destruct (p * length b + q)%nat, p; ring.
  - rewrite bmul_cr_cons. destruct p as [|p].
    + cbn [Nat.mul Nat.add nth]. rewrite app_nth1 by (rewrite length_map; exact Hq).
      rewrite (nth_indep _ 0%F (x * 0)%F) by (rewrite length_map; exact Hq).
      rewrite (map_nth (fun v => (x * v)%F)). reflexivity.
    + replace (S p * length b + q)%nat with (length (map (fun v => (x * v)%F) b)
                                              + (p * length b + q))%nat
        by (rewrite length_map; lia).
      rewrite app_nth2_plus. cbn [nth]. apply IH.
Qed.

Lemma nth_flat_map_seq (F : nat -> nat -> K) (n p i j : nat) :
  i < n -> j < p ->
  nth (i * p + j) (flat_map (fun i => map (fun j => F i j) (seq 0 p)) (seq 0 n)) 0%F = F i j.
Proof.
  intros Hi Hj.
  enough (H : forall s, nth (i * p + j)
                            (flat_map (fun i => map (fun j => F i j) (seq 0 p)) (seq s n)) 0%F
                        = F (s + i)%nat j) by apply (H 0%nat).
  revert i Hi. induction n as [|n IH]; intros i Hi s; [lia|].
  cbn [seq flat_map]. destruct i as [|i].
  - cbn [Nat.mul Nat.add]. rewrite app_nth1 by (rewrite length_map, length_seq; exact Hj).
    rewrite Nat.add_0_r. apply nth_map_seq. exact Hj.
  - replace (S i * p + j)%nat with (length (map (fun j => F s j) (seq 0 p)) + (i * p + j))%nat
      by (rewrite length_map, length_seq; lia).
    rewrite app_nth2_plus, IH by lia. f_equal. lia.
Qed.

Lemma matmul_length (n m p : nat) (a b : vec) : length (matmul n m p a b) = (n * p)%nat.
Proof.
  unfold matmul. generalize 0%nat at 2. induction n as [|n IH]; intros s; [reflexivity|].
  cbn [seq flat_map]. rewrite length_app, length_map, length_seq, IH. reflexivity.
Qed.

Lemma nth_matmul (n m p : nat) (a b : vec) (i j : nat) :
  i < n -> j < p ->
  nth (i * p + j) (matmul n m p a b) 0%F
  = ksum (fun k => (nth (i * m + k) a 0%F * nth (k * p + j) b 0%F)%F) m.
Proof. intros Hi Hj. unfold matmul. apply nth_flat_map_seq; assumption. Qed.

(** ** Pairings

    The sum over all entries of the products of two tensors of one shape:
    the pairing between a gradient and a perturbation. *)

Lemma ksum_extend (f : nat -> K) (n N : nat) :
  n <= N -> (forall i, n <= i -> f i = 0%F) -> ksum f N = ksum f n.
Proof.
  intros Hn Hz. replace N with (n + (N - n))%nat by lia. rewrite ksum_split.
  rewrite (ksum_ext (fun i => f (n + i)%nat) (fun _ => 0%F)) by (intros; apply Hz; lia).
  rewrite ksum_zero. ring.
Qed.

Lemma vdot_upto (g x : vec) (N : nat) :
  length g <= N \/ length x <= N ->
  vdot g x = ksum (fun i => (nth i g 0 * nth i x 0)%F) N.
Proof.
  intros H. unfold vdot.
  destruct (Nat.le_gt_cases (length g) N) as [Hg | Hg].
  - symmetry. apply ksum_extend; [exact Hg|]. intros i Hi.
    rewrite (nth_overflow g) by lia. ring.
  - destruct H as [H | H]; [lia|]. apply ksum_extend; [lia|]. intros i Hi.
    rewrite (nth_overflow x) by lia. ring.
Qed.

Lemma vdot_nil_l (x : vec) : vdot [] x = 0%F.
Proof. reflexivity. Qed.

Lemma vdot_nil_r (g : vec) : vdot g [] = 0%F.
Proof. rewrite (vdot_upto g [] 0) by (right; cbn; lia). reflexivity. Qed.

Lemma tdot_upto (g x : tensor) (N : nat) :
  length g <= N \/ length x <= N ->
  tdot g x = ksum (fun b => vdot (nth b g []) (nth b x [])) N.
Proof.
  intros H. unfold tdot.
  destruct (Nat.le_gt_cases (length g) N) as [Hg | Hg].
  - symmetry. apply ksum_extend; [exact Hg|]. intros i Hi.
    rewrite (nth_overflow g) by lia. apply vdot_nil_l.
  - destruct H as [H | H]; [lia|]. apply ksum_extend; [lia|]. intros i Hi.
    rewrite (nth_overflow x) by lia. apply vdot_nil_r.
Qed.

Lemma tdot_nil_l (x : tensor) : tdot [] x = 0%F.
Proof. reflexivity. Qed.

Lemma tdot_nil_r (g : tensor) : tdot g [] = 0%F.
Proof.
  rewrite (tdot_upto g [] 0) by (right; cbn; lia). reflexivity.
Qed.

Lemma adot_upto (g a : talg) (N : nat) :
  length g <= N \/ length a <= N ->
  adot g a = ksum (fun t => tdot (nth t g []) (nth t a [])) N.
Proof.
  intros H. unfold adot.
  destruct (Nat.le_gt_cases (length g) N) as [Hg | Hg].
  - symmetry. apply ksum_extend; [exact Hg|]. intros i Hi.
    rewrite (nth_overflow g) by lia. apply tdot_nil_l.
  - destruct H as [H | H]; [lia|]. apply ksum_extend; [lia|]. intros i Hi.
    rewrite (nth_overflow a) by lia. apply tdot_nil_r.
Qed.

Lemma nth_vadd (a b : vec) (i : nat) : nth i (vadd a b) 0%F = (nth i a 0 + nth i b 0)%F.
Proof. apply nth_zip_pad; intros; ring. Qed.

Lemma nth_tadd (a b : tensor) (i : nat) : nth i (tadd a b) [] = vadd (nth i a []) (nth i b []).
Proof.
  apply nth_zip_pad; intros x; [reflexivity | apply vadd_nil_r].
Qed.

Lemma vdot_vadd_l (g h x : vec) : vdot (vadd g h) x = (vdot g x + vdot h x)%F.
Proof.
  set (N := Nat.max (length g) (length h)).
  rewrite (vdot_upto (vadd g h) x N) by (left; rewrite vadd_length; lia).
  rewrite (vdot_upto g x N), (vdot_upto h x N) by (left; lia).
  rewrite <- ksum_add. apply ksum_ext. intros i _. rewrite nth_vadd. ring.
Qed.

Lemma vdot_vadd_r (g x y : vec) : vdot g (vadd x y) = (vdot g x + vdot g y)%F.
Proof.
  unfold vdot. rewrite <- ksum_add. apply ksum_ext. intros i _. rewrite nth_vadd. ring.
Qed.

Lemma tdot_tadd_l (g h x : tensor) : tdot (tadd g h) x = (tdot g x + tdot h x)%F.
Proof.
  set (N := Nat.max (length g) (length h)).
  rewrite (tdot_upto (tadd g h) x N) by (left; rewrite tadd_length; lia).
  rewrite (tdot_upto g x N), (tdot_upto h x N) by (left; lia).
  rewrite <- ksum_add. apply ksum_ext. intros i _. rewrite nth_tadd. apply vdot_vadd_l.
Qed.

Lemma tdot_tadd_r (g x y : tensor) : tdot g (tadd x y) = (tdot g x + tdot g y)%F.
Proof.
  unfold tdot. rewrite <- ksum_add. apply ksum_ext. intros i _. rewrite nth_tadd.
  apply vdot_vadd_r.
Qed.

Lemma tdot_tsum_l (f : nat -> tensor) (x : tensor) (n : nat) :
  tdot (tsum f n) x = ksum (fun i => tdot (f i) x) n.
Proof.
  induction n as [|n IH]; [reflexivity|]. cbn [tsum ksum]. rewrite tdot_tadd_l, IH. reflexivity.
Qed.

Lemma tdot_tsum_r (g : tensor) (f : nat -> tensor) (n : nat) :
  tdot g (tsum f n) = ksum (fun i => tdot g (f i)) n.
Proof.
  induction n as [|n IH]; [apply tdot_nil_r|]. cbn [tsum ksum]. rewrite tdot_tadd_r, IH.
  reflexivity.
Qed.

Lemma nth_zipw_sub (x y : vec) (i : nat) :
  length x = length y -> nth i (zipw (fsub K) x y) 0%F = (nth i x 0 - nth i y 0)%F.
Proof.
  intros L. destruct (Nat.lt_ge_cases i (length x)) as [Hi | Hi].
  - apply nth_zipw; lia.
  - rewrite !nth_overflow by (rewrite ?zipw_length; lia). ring.
Qed.

Lemma shaped_row (B n : nat) (t : tensor) (b : nat) :
  shaped B n t -> b < B -> length (nth b t []) = n.
Proof.
  intros [L F] Hb. apply (proj1 (Forall_nth _ _) F). lia.
Qed.

Lemma tdot_tsub_r (B n : nat) (g x y : tensor) :
  shaped B n x -> shaped B n y -> tdot g (tsub x y) = (tdot g x - tdot g y)%F.
Proof.
  intros Hx Hy. assert (Lx : length x = B) by apply Hx. assert (Ly : length y = B) by apply Hy.
  rewrite (tdot_upto g (tsub x y) B), (tdot_upto g x B), (tdot_upto g y B)
    by (right; unfold tsub; rewrite ?zipw_length; lia).
  rewrite <- ksum_sub. apply ksum_ext. intros b Hb.
  unfold tsub. rewrite (nth_zipw _ [] [] []) by lia.
  set (xb := nth b x []). set (yb := nth b y []).
  assert (L : length xb = length yb)
    by (unfold xb, yb; rewrite (shaped_row B n x), (shaped_row B n y); auto).
  set (N := length xb).
  rewrite (vdot_upto _ (zipw (fsub K) xb yb) N), (vdot_upto _ xb N), (vdot_upto _ yb N)
    by (right; rewrite ?zipw_length; lia).
  rewrite <- ksum_sub. apply ksum_ext. intros i _. rewrite nth_zipw_sub by exact L. ring.
Qed.

(** ** The batched products are the adjoints of the broadcast product *)

Lemma vdot_outer (G a b : vec) :
  length G = (length a * length b)%nat ->
  vdot G (bmul_cr a b)
  = ksum (fun p => ksum (fun q => (nth (p * length b + q) G 0 * (nth p a 0 * nth q b 0))%F)
                        (length b)) (length a).
Proof.
  intros LG. unfold vdot. rewrite LG, ksum_prod. apply ksum_ext. intros p _.
  apply ksum_ext. intros q Hq. rewrite nth_bmul_cr by exact Hq. reflexivity.
Qed.

Lemma vdot_matmul_col (G a b : vec) :
  length G = (length a * length b)%nat ->
  vdot G (bmul_cr a b) = vdot (matmul (length a) (length b) 1 G b) a.
Proof.
  intros LG. rewrite vdot_outer by exact LG. unfold vdot.
  rewrite matmul_length, Nat.mul_1_r. apply ksum_ext. intros p Hp.
  replace (nth p (matmul (length a) (length b) 1 G b) 0%F)
    with (nth (p * 1 + 0) (matmul (length a) (length b) 1 G b) 0%F)
    by (f_equal; lia).
  rewrite nth_matmul by lia. rewrite <- ksum_scale_r. apply ksum_ext. intros q _.
  replace (q * 1 + 0)%nat with q by lia. ring.
Qed.

Lemma vdot_matmul_row (G a b : vec) :
  length G = (length a * length b)%nat ->
  vdot G (bmul_cr a b) = vdot (matmul 1 (length a) (length b) a G) b.
Proof.
  intros LG. rewrite vdot_outer by exact LG. unfold vdot.
  rewrite matmul_length, Nat.mul_1_l. rewrite ksum_swap. apply ksum_ext. intros q Hq.
  replace (nth q (matmul 1 (length a) (length b) a G) 0%F)
    with (nth (0 * length b + q) (matmul 1 (length a) (length b) a G) 0%F)
    by (f_equal; lia).
  rewrite nth_matmul by lia. rewrite <- ksum_scale_r. apply ksum_ext. intros p _.
  cbn [Nat.mul Nat.add]. ring.
Qed.

Lemma channel_size_shaped (B n : nat) (t : tensor) :
  shaped B n t -> 0 < B -> channel_size t = n.
Proof. intros H HB. unfold channel_size. apply (shaped_row B n); assumption. Qed.

(** [bmm(out_view, arg2[k].unsqueeze(channel_dim))] is the gradient of
    [arg1[j] (x) arg2[k]] in [arg1[j]]. *)
Lemma tdot_bmm_col (B m n : nat) (G a0 b0 a b : tensor) :
  shaped B (m * n) G -> shaped B m a0 -> shaped B n b0 -> shaped B m a -> shaped B n b ->
  tdot G (tmul_cr a b) = tdot (bmm (channel_size a0) (channel_size b0) 1 G b) a.
Proof.
  intros HG Ha0 Hb0 Ha Hb.
  assert (LG : length G = B) by apply HG. assert (La : length a = B) by apply Ha.
  assert (Lb : length b = B) by apply Hb.
  rewrite (tdot_upto G _ B) by (left; lia).
  rewrite (tdot_upto (bmm _ _ _ _ _) a B) by (right; lia).
  apply ksum_ext. intros r Hr.
  rewrite (channel_size_shaped B m a0), (channel_size_shaped B n b0) by (auto; lia).
  unfold tmul_cr, bmm. rewrite !(nth_zipw _ [] [] []) by lia.
  pose proof (shaped_row B m a r Ha Hr) as Em. pose proof (shaped_row B n b r Hb Hr) as En.
  pose proof (shaped_row B _ G r HG Hr) as EG.
  rewrite <- Em, <- En in EG |- *. apply vdot_matmul_col. exact EG.
Qed.

(** [bmm(arg1[j].unsqueeze(channel_dim - 1), out_view)] is the gradient of
    [arg1[j] (x) arg2[k]] in [arg2[k]]. *)
Lemma tdot_bmm_row (B m n : nat) (G a0 b0 a b : tensor) :
  shaped B (m * n) G -> shaped B m a0 -> shaped B n b0 -> shaped B m a -> shaped B n b ->
  tdot G (tmul_cr a b) = tdot (bmm 1 (channel_size a0) (channel_size b0) a G) b.
Proof.
  intros HG Ha0 Hb0 Ha Hb.
  assert (LG : length G = B) by apply HG. assert (La : length a = B) by apply Ha.
  assert (Lb : length b = B) by apply Hb.
  rewrite (tdot_upto G _ B) by (left; lia).
  rewrite (tdot_upto (bmm _ _ _ _ _) b B) by (right; lia).
  apply ksum_ext. intros r Hr.
  rewrite (channel_size_shaped B m a0), (channel_size_shaped B n b0) by (auto; lia).
  unfold tmul_cr, bmm. rewrite !(nth_zipw _ [] [] []) by lia.
  pose proof (shaped_row B m a r Ha Hr) as Em. pose proof (shaped_row B n b r Hb Hr) as En.
  pose proof (shaped_row B _ G r HG Hr) as EG.
  rewrite <- Em, <- En in EG |- *. apply vdot_matmul_row. exact EG.
Qed.

Lemma shaped_bmm (B n m p : nat) (a b : tensor) :
  length a = B -> length b = B -> shaped B (n * p) (bmm n m p a b).
Proof.
  intros La Lb. split.
  - unfold bmm. rewrite zipw_length. lia.
  - apply Forall_forall. intros row Hrow. unfold bmm in Hrow.
    apply In_nth with (d := []) in Hrow. destruct Hrow as (i & Hi & <-).
    rewrite zipw_length in Hi. rewrite (nth_zipw _ [] [] []) by lia. apply matmul_length.
Qed.

End SumsAndPairings.

Section CombineBackwardLoops.
Context {K : ExactField}.
Add Field KfieldC2 : (field_laws K).

Notation "0" := (fzero K) : field_scope.
Notation "1" := (fone K) : field_scope.
Infix "+" := (fadd K) : field_scope.
Infix "*" := (fmul K) : field_scope.
Infix "-" := (fsub K) : field_scope.
Notation "- x" := (fopp K x) : field_scope.

Local Abbreviation vec := (vec K).
Local Abbreviation tensor := (tensor K).
Local Abbreviation tensor3 := (tensor3 K).
Local Abbreviation talg := (talg K).

Lemma mult_inner_backward_loop (a b : talg) (d n : nat) :
  n <= d ->
  forall G1 G2 : talg,
    d < length G1 -> d <= length G2 ->
    let r := fold_left (inner_backward_step a b d) (rev (seq 0 n)) (G1, G2) in
    length (fst r) = length G1 /\ length (snd r) = length G2 /\
    (forall j, nth j (fst r) []
               = if j <? n then tadd (nth j G1 []) (grad_left a b (nth d G1 []) j d)
                 else nth j G1 []) /\
    (forall k, nth k (snd r) []
               = if (d - n <=? k) && (k <? d)
                 then tadd (nth k G2 []) (grad_right a b (nth d G1 []) k d)
                 else nth k G2 []).
Proof.
  induction n as [|n IH]; intros Hn G1 G2 L1 L2 r.
  - subst r. cbn [seq rev fold_left fst snd]. repeat split; try reflexivity.
    intros k. rewrite Nat.sub_0_r.
    destruct (d <=? k) eqn:E1; [|reflexivity]. destruct (k <? d) eqn:E2; [|reflexivity].
    apply Nat.leb_le in E1. apply Nat.ltb_lt in E2. lia.
  - subst r. rewrite seq_S, rev_app_distr. cbn [rev app Nat.add].
    change (fold_left (inner_backward_step a b d) (n :: rev (seq 0 n)) (G1, G2))
      with (fold_left (inner_backward_step a b d) (rev (seq 0 n))
                      (inner_backward_step a b d (G1, G2) n)).
    unfold inner_backward_step at 2 4 6 8. cbv zeta.
    set (G1a := upd n _ G1). set (G2a := upd (d - 1 - n) _ G2).
    assert (L1a : length G1a = length G1) by apply upd_length.
    assert (L2a : length G2a = length G2) by apply upd_length.
    destruct (IH ltac:(lia) G1a G2a ltac:(lia) ltac:(lia)) as (R1 & R2 & N1 & N2).
    split; [rewrite R1; exact L1a|]. split; [rewrite R2; exact L2a|].
    assert (Ed : nth d G1a [] = nth d G1 []) by (subst G1a; apply nth_upd_other; lia).
    split.
    + intros j. rewrite N1, Ed. destruct (j <? n) eqn:E.
      * apply Nat.ltb_lt in E.
        replace (j <? S n) with true by (symmetry; apply Nat.ltb_lt; lia).
        subst G1a. rewrite nth_upd_other by lia. reflexivity.
      * apply Nat.ltb_ge in E. destruct (Nat.eq_dec j n) as [->|Hne].
        -- replace (n <? S n) with true by (symmetry; apply Nat.ltb_lt; lia).
           subst G1a. rewrite nth_upd_same by lia. reflexivity.
        -- replace (j <? S n) with false by (symmetry; apply Nat.ltb_ge; lia).
           subst G1a. apply nth_upd_other. lia.
    + intros k. rewrite N2, Ed.
      destruct ((d - n <=? k) && (k <? d)) eqn:E.
      * apply andb_true_iff in E. destruct E as [E1 E2].
        apply Nat.leb_le in E1. apply Nat.ltb_lt in E2.
        replace ((d - S n <=? k) && (k <? d)) with true
          by (symmetry; apply andb_true_iff; split;
              [apply Nat.leb_le | apply Nat.ltb_lt]; lia).
        subst G2a. rewrite nth_upd_other by lia. reflexivity.
      * destruct (Nat.eq_dec k (d - 1 - n)) as [->|Hne].
        -- replace ((d - S n <=? d - 1 - n) && (d - 1 - n <? d)) with true
             by (symmetry; apply andb_true_iff; split;
                 [apply Nat.leb_le | apply Nat.ltb_lt]; lia).
           subst G2a. rewrite nth_upd_same by lia. unfold grad_right.
           replace (d - 1 - (d - 1 - n)) with n by lia. reflexivity.
        -- replace ((d - S n <=? k) && (k <? d)) with false.
           ++ subst G2a. apply nth_upd_other. lia.
           ++ symmetry. apply andb_false_iff. apply andb_false_iff in E.
              destruct E as [E | E]; [left | right]; [|exact E].
              apply Nat.leb_gt in E. apply Nat.leb_gt. lia.
Qed.

(** [mult_inner_backward] in closed form. *)
Lemma mult_inner_backward_nth (a b G1 G2 : talg) (d : nat) :
  d < length G1 -> d <= length G2 ->
  let r := ta_ops_backward.mult_inner_backward G1 G2 a b d in
  length (fst r) = length G1 /\ length (snd r) = length G2 /\
  (forall j, nth j (fst r) []
             = if j <? d then tadd (nth j G1 []) (grad_left a b (nth d G1 []) j d)
               else nth j G1 []) /\
  (forall k, nth k (snd r) []
             = if k <? d then tadd (nth k G2 []) (grad_right a b (nth d G1 []) k d)
               else nth k G2 []).
Proof.
  intros L1 L2 r.
  destruct (mult_inner_backward_loop a b d d (le_n d) G1 G2 L1 L2) as (R1 & R2 & N1 & N2).
  repeat split; try assumption. intros k. subst r.
  change (ta_ops_backward.mult_inner_backward G1 G2 a b d)
    with (fold_left (inner_backward_step a b d) (rev (seq 0 d)) (G1, G2)).
  rewrite N2. rewrite Nat.sub_diag. reflexivity.
Qed.

Lemma combine_backward_loop (a b g z : talg) (t : nat) :
  t <= length g -> length z = length g ->
  let r := fold_left (sweep_step a b) (seq 0 t) (g, z) in
  length (fst r) = length g /\ length (snd r) = length g /\
  (forall j, nth j (fst r) [] = if j <? t then sweep_left a b g t j else nth j g []) /\
  (forall k, nth k (snd r) [] = if k <? t then sweep_right a b g z t k else nth k z []).
Proof.
  intros Ht Lz. induction t as [|t IH]; intros r.
  - subst r. cbn [seq fold_left fst snd]. repeat split; auto.
  - subst r. rewrite seq_S, fold_left_app. cbn [Nat.add fold_left].
    destruct (IH ltac:(lia)) as (R1 & R2 & N1 & N2).
    destruct (fold_left _ (seq 0 t) (g, z)) as [G1 G2]. cbn [fst snd] in R1, R2, N1, N2.
    unfold sweep_step. cbv zeta.
    set (G2a := upd t _ G2).
    assert (L2a : length G2a = length G2) by apply upd_length.
    destruct (mult_inner_backward_nth a b G1 G2a t ltac:(lia) ltac:(lia))
      as (S1 & S2 & M1 & M2).
    split; [rewrite S1; exact R1|]. split; [rewrite S2, L2a; exact R2|].
    assert (Et : nth t G1 [] = nth t g [])
      by (rewrite N1, Nat.ltb_irrefl; reflexivity).
    split.
    + intros j. rewrite M1, Et, N1. destruct (j <? t) eqn:E.
      * apply Nat.ltb_lt in E.
        replace (j <? S t) with true by (symmetry; apply Nat.ltb_lt; lia).
        unfold sweep_left. replace (S t - 1 - j) with (S (t - 1 - j)) by lia.
        rewrite tsum_S, <- tadd_assoc. replace (j + 1 + (t - 1 - j)) with t by lia.
        reflexivity.
      * apply Nat.ltb_ge in E. destruct (Nat.eq_dec j t) as [->|Hne].
        -- replace (t <? S t) with true by (symmetry; apply Nat.ltb_lt; lia).
           unfold sweep_left. replace (S t - 1 - t) with 0 by lia. cbn [tsum].
           rewrite tadd_nil_r. reflexivity.
        -- replace (j <? S t) with false by (symmetry; apply Nat.ltb_ge; lia).
           reflexivity.
    + intros k. rewrite M2, Et. destruct (k <? t) eqn:E.
      * apply Nat.ltb_lt in E.
        replace (k <? S t) with true by (symmetry; apply Nat.ltb_lt; lia).
        subst G2a. rewrite nth_upd_other by lia. rewrite N2.
        replace (k <? t) with true by (symmetry; apply Nat.ltb_lt; lia).
        unfold sweep_right. replace (S t - 1 - k) with (S (t - 1 - k)) by lia.
        rewrite tsum_S, <- tadd_assoc. replace (k + 1 + (t - 1 - k)) with t by lia.
        reflexivity.
      * apply Nat.ltb_ge in E. destruct (Nat.eq_dec k t) as [->|Hne].
        -- replace (t <? S t) with true by (symmetry; apply Nat.ltb_lt; lia).
           subst G2a. rewrite nth_upd_same by lia. rewrite N2, Nat.ltb_irrefl, Et.
           unfold sweep_right. replace (S t - 1 - t) with 0 by lia. cbn [tsum].
           rewrite tadd_nil_r. reflexivity.
        -- replace (k <? S t) with false by (symmetry; apply Nat.ltb_ge; lia).
           subst G2a. rewrite nth_upd_other by lia. rewrite N2.
           replace (k <? t) with false by (symmetry; apply Nat.ltb_ge; lia).
           reflexivity.
Qed.

End CombineBackwardLoops.

Section CombineBackwardValue.
Context {K : ExactField}.
Add Field KfieldC3 : (field_laws K).

Notation "0" := (fzero K) : field_scope.
Notation "1" := (fone K) : field_scope.
Infix "+" := (fadd K) : field_scope.
Infix "*" := (fmul K) : field_scope.
Infix "-" := (fsub K) : field_scope.
Notation "- x" := (fopp K x) : field_scope.

Local Abbreviation vec := (vec K).
Local Abbreviation tensor := (tensor K).
Local Abbreviation tensor3 := (tensor3 K).
Local Abbreviation talg := (talg K).

(** ** The buffer behind the views *)

Lemma shaped_zipw_app (B p q : nat) (X t : tensor) :
  shaped B p X -> shaped B q t -> shaped B (p + q) (zipw (@app K) X t).
Proof.
  intros [LX FX] [Lt Ft]. split; [rewrite zipw_length; lia|].
  subst B. revert t Lt Ft.
  induction X as [|x X IH]; intros [|y t] Lt Ft; try discriminate; [constructor|].
  inversion FX; inversion Ft; subst. cbn [zipw]. constructor.
  - rewrite length_app. reflexivity.
  - apply IH; auto.
Qed.

Lemma shaped_unslice_from (B C : nat) (a : talg) : forall (acc : tensor) (pos len : nat),
  shaped B pos acc -> graded_from B len C a ->
  shaped B (pos + span len C (length a)) (fold_left (zipw (@app K)) a acc).
Proof.
  induction a as [|t a IH]; intros acc pos len Hacc Ha.
  - cbn [fold_left length span]. rewrite Nat.add_0_r. exact Hacc.
  - destruct (graded_from_tail B len C t a Ha) as [Ht Ha'].
    cbn [fold_left length span]. rewrite Nat.add_assoc. apply IH; [|exact Ha'].
    apply shaped_zipw_app; assumption.
Qed.

Lemma shaped_unslice (B C D : nat) (a : talg) :
  1 <= D -> graded B C D a -> shaped B (span C C D) (misc.unslice a).
Proof.
  intros HD Ha. assert (L : length a = D) by apply Ha.
  assert (Hf := graded_graded_from B C D a Ha).
  destruct a as [|t a]; [cbn in L; lia|].
  destruct (graded_from_tail B C C t a Hf) as [Ht Ha'].
  unfold misc.unslice. rewrite <- L. cbn [length span].
  apply (shaped_unslice_from B C a t C (C * C)); assumption.
Qed.

Lemma ksum_span (f : nat -> K) (len C d : nat) :
  ksum f (span len C d)
  = ksum (fun t => ksum (fun i => f (span len C t + i)%nat) (len * C ^ t)) d.
Proof.
  induction d as [|d IH]; [reflexivity|].
  rewrite span_S, ksum_split, IH. reflexivity.
Qed.

(** The pairing of two buffers is the pairing of their terms. *)
Lemma tdot_slices (B C D : nat) (g x : tensor) :
  shaped B (span C C D) g -> shaped B (span C C D) x ->
  tdot g x = adot (misc.slice_by_term g C D) (misc.slice_by_term x C D).
Proof.
  intros Hg Hx. assert (Lg : length g = B) by apply Hg. assert (Lx : length x = B) by apply Hx.
  unfold adot. rewrite slice_by_term_length.
  rewrite (ksum_ext _ (fun t => ksum (fun b => ksum (fun i =>
             (nth (span C C t + i) (nth b g []) 0 * nth (span C C t + i) (nth b x []) 0)%F)
             (C * C ^ t)) B) D).
  - rewrite ksum_swap. unfold tdot. rewrite Lg. apply ksum_ext. intros b Hb.
    unfold vdot. rewrite (shaped_row B _ g b Hg Hb). apply ksum_span.
  - intros t Ht. rewrite !slice_by_term_nth by exact Ht.
    unfold tdot. rewrite length_map, Lg. apply ksum_ext. intros b Hb.
    rewrite !(nth_map_in _ _ []) by lia.
    assert (Hspan : span C C t + C ^ (t + 1) <= span C C D).
    { pose proof (span_mono C C (S t) D ltac:(lia)) as H. rewrite span_S in H.
      replace (C ^ (t + 1)) with (C * C ^ t) by (rewrite Nat.add_1_r; reflexivity).
      exact H. }
    unfold vdot. rewrite narrow_length by (rewrite (shaped_row B _ g b Hg Hb); exact Hspan).
    replace (C ^ (t + 1)) with (C * C ^ t) by (rewrite Nat.add_1_r; reflexivity).
    apply ksum_ext. intros i Hi. rewrite !nth_narrow by exact Hi. reflexivity.
Qed.

Lemma tdot_unslice (B C D : nat) (G : talg) (x : tensor) :
  1 <= D -> graded B C D G -> shaped B (span C C D) x ->
  tdot (misc.unslice G) x = adot G (misc.slice_by_term x C D).
Proof.
  intros HD HG Hx.
  rewrite (tdot_slices B C D) by (auto using shaped_unslice).
  rewrite (slice_unslice B C D) by exact HG. reflexivity.
Qed.

Lemma ksum_rev (f : nat -> K) (n : nat) : ksum f n = ksum (fun i => f (n - 1 - i)%nat) n.
Proof.
  induction n as [|n IH]; [reflexivity|].
  rewrite (ksum_shift (fun i => f (S n - 1 - i)%nat)). cbn [ksum]. rewrite IH.
  replace (S n - 1 - 0)%nat with n by lia.
  rewrite (ksum_ext (fun i => f (S n - 1 - S i)%nat) (fun i => f (n - 1 - i)%nat))
    by (intros i Hi; f_equal; lia).
  ring.
Qed.

(** ** Shapes of the gradients *)

Lemma shaped_grad_left (B C D : nat) (a b : talg) (G : tensor) (j d : nat) :
  graded B C D a -> graded B C D b -> j < d -> d < D -> shaped B (C ^ (d + 1)) G ->
  shaped B (C ^ (j + 1)) (grad_left a b G j d).
Proof.
  intros Ha Hb Hj Hd HG. unfold grad_left.
  assert (Hbk : shaped B (C ^ (d - 1 - j + 1)) (nth (d - 1 - j) b [])) by (apply Hb; lia).
  destruct (Nat.eq_dec B 0) as [-> | HB].
  - destruct HG as [LG _]. destruct G; [|discriminate]. split; [reflexivity | constructor].
  - rewrite (channel_size_shaped B (C ^ (j + 1))) by (try apply Ha; lia).
    apply (shaped_cast B (C ^ (j + 1) * 1)); [lia|].
    apply shaped_bmm; [apply HG | apply Hbk].
Qed.

Lemma shaped_grad_right (B C D : nat) (a b : talg) (G : tensor) (k d : nat) :
  graded B C D a -> graded B C D b -> k < d -> d < D -> shaped B (C ^ (d + 1)) G ->
  shaped B (C ^ (k + 1)) (grad_right a b G k d).
Proof.
  intros Ha Hb Hk Hd HG. unfold grad_right.
  assert (Haj : shaped B (C ^ (d - 1 - k + 1)) (nth (d - 1 - k) a [])) by (apply Ha; lia).
  destruct (Nat.eq_dec B 0) as [-> | HB].
  - destruct Haj as [La _]. destruct (nth (d - 1 - k) a []); [|discriminate].
    split; [reflexivity | constructor].
  - rewrite (channel_size_shaped B (C ^ (k + 1)) (nth k b [])) by (try apply Hb; lia).
    apply (shaped_cast B (1 * C ^ (k + 1))); [lia|].
    apply shaped_bmm; [apply Haj | apply HG].
Qed.

Lemma graded_sweep_left (B C D : nat) (a b g : talg) (G1 : talg) :
  graded B C D a -> graded B C D b -> graded B C D g ->
  length G1 = D -> (forall j, j < D -> nth j G1 [] = sweep_left a b g D j) ->
  graded B C D G1.
Proof.
  intros Ha Hb Hg L N. split; [exact L|]. intros j Hj. rewrite N by exact Hj.
  unfold sweep_left. apply shaped_tadd_z; [apply Hg; exact Hj|].
  apply zshaped_tsum. intros i Hi. apply shaped_zshaped.
  apply (shaped_grad_left B C D); auto; try lia. apply Hg. lia.
Qed.

Lemma graded_sweep_right (B C D : nat) (a b g z : talg) (G2 : talg) :
  graded B C D a -> graded B C D b -> graded B C D g -> graded B C D z ->
  length G2 = D -> (forall k, k < D -> nth k G2 [] = sweep_right a b g z D k) ->
  graded B C D G2.
Proof.
  intros Ha Hb Hg Hz L N. split; [exact L|]. intros k Hk. rewrite N by exact Hk.
  unfold sweep_right. apply shaped_tadd_z.
  - apply shaped_tadd; [apply Hz | apply Hg]; exact Hk.
  - apply zshaped_tsum. intros i Hi. apply shaped_zshaped.
    apply (shaped_grad_right B C D); auto; try lia. apply Hg. lia.
Qed.

End CombineBackwardValue.

Section CombineBackwardAdjoint.
Context {K : ExactField}.
Add Field KfieldC4 : (field_laws K).

Notation "0" := (fzero K) : field_scope.
Notation "1" := (fone K) : field_scope.
Infix "+" := (fadd K) : field_scope.
Infix "*" := (fmul K) : field_scope.
Infix "-" := (fsub K) : field_scope.
Notation "- x" := (fopp K x) : field_scope.

Local Abbreviation vec := (vec K).
Local Abbreviation tensor := (tensor K).
Local Abbreviation tensor3 := (tensor3 K).
Local Abbreviation talg := (talg K).

Lemma adot_mult_terms (g y b : talg) (D : nat) :
  length g = D -> length y = D ->
  adot g (ta_ops.mult y b)
  = (ksum (fun t => tdot (nth t g []) (nth t y [])) D
     + ksum (fun t => ksum (fun j => tdot (nth t g [])
                                          (tmul_cr (nth j y []) (nth (t - 1 - j) b []))) t) D
     + ksum (fun t => tdot (nth t g []) (nth t b [])) D)%F.
Proof.
  intros Lg Ly. unfold adot. rewrite Lg, <- !ksum_add. apply ksum_ext. intros t Ht.
  rewrite mult_nth by lia. unfold mult_term. rewrite !tdot_tadd_r, tdot_tsum_r. reflexivity.
Qed.

(** The first vector of views after the sweep pairs with a perturbation of
    [arg1] as the gradient pairs with the change of the product. *)
Lemma adot_mult_left (B C D : nat) (a b g y G1 : talg) :
  graded B C D a -> graded B C D b -> graded B C D g -> graded B C D y ->
  length G1 = D -> (forall j, j < D -> nth j G1 [] = sweep_left a b g D j) ->
  adot g (ta_ops.mult y b) = (adot G1 y + adot g b)%F.
Proof.
  intros Ha Hb Hg Hy L1 N1.
  assert (Lg : length g = D) by apply Hg. assert (Ly : length y = D) by apply Hy.
  rewrite (adot_mult_terms g y b D Lg Ly). unfold adot at 2. rewrite Lg. f_equal.
  set (u := fun j t => tdot (grad_left a b (nth t g []) j t) (nth j y [])).
  rewrite (ksum_ext (fun t => ksum (fun j => tdot (nth t g [])
                                                 (tmul_cr (nth j y []) (nth (t - 1 - j) b [])))
                                   t)
                    (fun t => ksum (fun j => u j t) t) D).
  - rewrite ksum_triangle. unfold adot. rewrite L1, <- ksum_add. apply ksum_ext.
    intros j Hj. rewrite N1 by exact Hj. unfold sweep_left.
    rewrite tdot_tadd_l, tdot_tsum_l. reflexivity.
  - intros t Ht. apply ksum_ext. intros j Hj. unfold u, grad_left.
    apply (tdot_bmm_col B (C ^ (j + 1)) (C ^ (t - 1 - j + 1))).
    + apply (shaped_cast B (C ^ (t + 1))); [|apply Hg; exact Ht].
      rewrite <- Nat.pow_add_r. f_equal. lia.
    + apply Ha. lia.
    + apply Hb. lia.
    + apply Hy. lia.
    + apply Hb. lia.
Qed.

(** The same for the second vector of views, which starts from zeros. *)
Lemma adot_mult_right (B C D : nat) (a b g z y G2 : talg) :
  graded B C D a -> graded B C D b -> graded B C D g -> graded B C D y ->
  (forall k x, k < D -> tdot (nth k z []) x = 0%F) ->
  length G2 = D -> (forall k, k < D -> nth k G2 [] = sweep_right a b g z D k) ->
  adot g (ta_ops.mult a y) = (adot g a + adot G2 y)%F.
Proof.
  intros Ha Hb Hg Hy Hz L2 N2.
  assert (Lg : length g = D) by apply Hg. assert (La : length a = D) by apply Ha.
  rewrite (adot_mult_terms g a y D Lg La). unfold adot at 1. rewrite Lg.
  match goal with
  | |- (?X + ?Y + ?Z)%F = _ =>
    enough (E : (Y + Z)%F = adot G2 y) by (rewrite <- E; ring)
  end.
  set (v := fun k t => tdot (grad_right a b (nth t g []) k t) (nth k y [])).
  rewrite (ksum_ext (fun t => ksum (fun j => tdot (nth t g [])
                                                 (tmul_cr (nth j a []) (nth (t - 1 - j) y [])))
                                   t)
                    (fun t => ksum (fun k => v k t) t) D).
  - rewrite ksum_triangle. unfold adot. rewrite L2, <- ksum_add. apply ksum_ext.
    intros k Hk. cbv beta. rewrite N2 by exact Hk. unfold sweep_right.
    rewrite !tdot_tadd_l, tdot_tsum_l, Hz by exact Hk. unfold v. ring.
  - intros t Ht. rewrite (ksum_rev (fun k => v k t)). apply ksum_ext. intros j Hj.
    unfold v, grad_right. replace (t - 1 - (t - 1 - j)) with j by lia.
    apply (tdot_bmm_row B (C ^ (j + 1)) (C ^ (t - 1 - j + 1))).
    + apply (shaped_cast B (C ^ (t + 1))); [|apply Hg; exact Ht].
      rewrite <- Nat.pow_add_r. f_equal. lia.
    + apply Ha. lia.
    + apply Hb. lia.
    + apply Ha. lia.
    + apply Hy. lia.
Qed.

Lemma shaped_zero_ (B n : nat) (x : tensor) : shaped B n x -> shaped B n (zero_ x).
Proof.
  intros [L F]. split; [unfold zero_; rewrite length_map; exact L|].
  unfold zero_. apply Forall_map. apply (Forall_impl _ (P := fun r => length r = n)); auto.
  intros r Hr. rewrite length_map. exact Hr.
Qed.

Lemma nth_zero_row (row : vec) (s n i : nat) :
  nth i (narrow s n (map (fun _ => 0%F) row)) 0%F = 0%F.
Proof.
  destruct (Nat.lt_ge_cases i n) as [Hi | Hi].
  - rewrite nth_narrow by exact Hi.
    destruct (Nat.lt_ge_cases (s + i) (length row)) as [H | H].
    + rewrite (nth_map_in _ _ 0%F) by exact H. reflexivity.
    + apply nth_overflow. rewrite length_map. exact H.
  - apply nth_overflow. unfold narrow. rewrite length_firstn. lia.
Qed.

Lemma tdot_zero_slice (x y : tensor) (C D k : nat) :
  k < D -> tdot (nth k (misc.slice_by_term (zero_ x) C D) []) y = 0%F.
Proof.
  intros Hk. rewrite slice_by_term_nth by exact Hk. unfold tdot.
  rewrite (ksum_ext _ (fun _ => 0%F)); [apply ksum_zero|].
  intros b Hb. rewrite length_map in Hb. rewrite (nth_map_in _ _ []) by exact Hb.
  unfold zero_ at 1. unfold zero_ in Hb. rewrite length_map in Hb.
  rewrite (nth_map_in _ _ []) by exact Hb. unfold vdot.
  rewrite (ksum_ext _ (fun _ => 0%F)); [apply ksum_zero|].
  intros i _. rewrite nth_zero_row. ring.
Qed.

End CombineBackwardAdjoint.

Section FirstOrder.
Context {K : ExactField}.
Add Field KfieldE1 : (field_laws K).

Notation "0" := (fzero K) : field_scope.
Notation "1" := (fone K) : field_scope.
Infix "+" := (fadd K) : field_scope.
Infix "*" := (fmul K) : field_scope.
Infix "-" := (fsub K) : field_scope.
Notation "- x" := (fopp K x) : field_scope.

Local Abbreviation vec := (vec K).
Local Abbreviation tensor := (tensor K).
Local Abbreviation tensor3 := (tensor3 K).
Local Abbreviation talg := (talg K).

(** ** Derivatives of polynomial functions

    The kernels are polynomial in their inputs, so the derivative along a
    line is the coefficient of [t] in an expansion in powers of [t]. *)

Lemma expands_ext (phi psi : K -> K) (a b : K) :
  (forall t, phi t = psi t) -> expands phi a b -> expands psi a b.
Proof.
  intros E (R & HR & H). exists R. split; [exact HR|]. intros t. rewrite <- E. apply H.
Qed.

Lemma expands_eq (phi : K -> K) (a a' b b' : K) :
  a = a' -> b = b' -> expands phi a b -> expands phi a' b'.
Proof. intros -> ->. auto. Qed.

Lemma expands_const (c : K) : expands (fun _ => c) c 0%F.
Proof. exists (fun _ => 0%F). split; [constructor|]. intros t. ring. Qed.

Lemma expands_line (a b : K) : expands (fun t => (a + b * t)%F) a b.
Proof. exists (fun _ => 0%F). split; [constructor|]. intros t. ring. Qed.

Lemma expands_add (phi psi : K -> K) (a b c d : K) :
  expands phi a b -> expands psi c d ->
  expands (fun t => (phi t + psi t)%F) (a + c)%F (b + d)%F.
Proof.
  intros (R & HR & H) (S & HS & H'). exists (fun t => (R t + S t)%F).
  split; [constructor; assumption|]. intros t. rewrite H, H'. ring.
Qed.

Lemma expands_mul (phi psi : K -> K) (a b c d : K) :
  expands phi a b -> expands psi c d ->
  expands (fun t => (phi t * psi t)%F) (a * c)%F (b * c + a * d)%F.
Proof.
  intros (R & HR & H) (S & HS & H').
  exists (fun t => (b * d + (a * S t + R t * c) + t * ((b * S t + R t * d) + t * (R t * S t)))%F).
  split.
  - repeat (apply poly_add || apply poly_mul || apply poly_const || apply poly_var
            || assumption).
  - intros t. rewrite H, H'. ring.
Qed.

Lemma expands_scale (c : K) (phi : K -> K) (a b : K) :
  expands phi a b -> expands (fun t => (c * phi t)%F) (c * a)%F (c * b)%F.
Proof.
  intros (R & HR & H). exists (fun t => (c * R t)%F).
  split; [repeat constructor; assumption|]. intros t. rewrite H. ring.
Qed.

Lemma expands_opp (phi : K -> K) (a b : K) :
  expands phi a b -> expands (fun t => (- phi t)%F) (- a)%F (- b)%F.
Proof.
  intros (R & HR & H). exists (fun t => ((- (1)) * R t)%F).
  split; [repeat constructor; assumption|]. intros t. rewrite H. ring.
Qed.

Lemma expands_sub (phi psi : K -> K) (a b c d : K) :
  expands phi a b -> expands psi c d ->
  expands (fun t => (phi t - psi t)%F) (a - c)%F (b - d)%F.
Proof.
  intros H H'. apply (expands_ext (fun t => (phi t + - psi t)%F)); [intros; ring|].
  apply (expands_eq _ (a + - c)%F _ (b + - d)%F); [ring | ring|].
  apply expands_add; [exact H | apply expands_opp; exact H'].
Qed.

Lemma expands_ksum (phi : nat -> K -> K) (a b : nat -> K) (n : nat) :
  (forall i, i < n -> expands (phi i) (a i) (b i)) ->
  expands (fun t => ksum (fun i => phi i t) n) (ksum a n) (ksum b n).
Proof.
  induction n as [|n IH]; intros H; cbn [ksum].
  - apply expands_const.
  - apply expands_add; [apply IH; intros; apply H; lia | apply H; lia].
Qed.

(** The first coefficient is the value at 0. *)
Lemma expands_value (phi : K -> K) (a b : K) : expands phi a b -> phi 0%F = a.
Proof. intros (R & _ & H). rewrite H. ring. Qed.

End FirstOrder.

Section Families.
Context {K : ExactField}.
Add Field KfieldE2 : (field_laws K).

Notation "0" := (fzero K) : field_scope.
Notation "1" := (fone K) : field_scope.
Infix "+" := (fadd K) : field_scope.
Infix "*" := (fmul K) : field_scope.
Infix "-" := (fsub K) : field_scope.
Notation "- x" := (fopp K x) : field_scope.

Local Abbreviation vec := (vec K).
Local Abbreviation tensor := (tensor K).
Local Abbreviation tensor3 := (tensor3 K).
Local Abbreviation talg := (talg K).

(** ** Tensors along a line *)

Lemma ent_overflow (B n : nat) (x : tensor) (b i : nat) :
  shaped B n x -> B <= b \/ n <= i -> ent x b i = 0%F.
Proof.
  intros Hx H. unfold ent. destruct (Nat.lt_ge_cases b B) as [Hb | Hb].
  - apply nth_overflow. rewrite (shaped_row B n x b Hx Hb). destruct H; lia.
  - rewrite (nth_overflow x) by (destruct Hx as [-> _]; exact Hb). destruct i; reflexivity.
Qed.

Lemma tensor_ext (B n : nat) (x y : tensor) :
  shaped B n x -> shaped B n y ->
  (forall b i, b < B -> i < n -> ent x b i = ent y b i) -> x = y.
Proof.
  intros Hx Hy H. apply (nth_ext _ _ [] []).
  - destruct Hx as [-> _], Hy as [-> _]. reflexivity.
  - intros b Hb. assert (Hb' : b < B) by (destruct Hx as [<- _]; exact Hb).
    apply (nth_ext _ _ 0%F 0%F).
    + rewrite (shaped_row B n x b Hx Hb'), (shaped_row B n y b Hy Hb'). reflexivity.
    + intros i Hi. rewrite (shaped_row B n x b Hx Hb') in Hi. apply H; assumption.
Qed.

Lemma ent_tadd (x y : tensor) (b i : nat) : ent (tadd x y) b i = (ent x b i + ent y b i)%F.
Proof. unfold ent. rewrite nth_tadd, nth_vadd. reflexivity. Qed.

Lemma nth_map_rows (f : vec -> vec) (x : tensor) (b : nat) :
  f [] = [] -> nth b (map f x) [] = f (nth b x []).
Proof. intros H. rewrite <- H at 1. apply map_nth. Qed.

Lemma ent_tscale (s : K) (x : tensor) (b i : nat) : ent (tscale s x) b i = (ent x b i * s)%F.
Proof.
  unfold ent, tscale. rewrite nth_map_rows by reflexivity.
  destruct (Nat.lt_ge_cases i (length (nth b x []))) as [Hi | Hi].
  - rewrite (nth_map_in (fun v => (v * s)%F) _ 0%F) by exact Hi. reflexivity.
  - rewrite !nth_overflow by (rewrite ?length_map; exact Hi). ring.
Qed.

Lemma ent_tneg (x : tensor) (b i : nat) : ent (tneg x) b i = (- ent x b i)%F.
Proof.
  unfold ent, tneg. rewrite nth_map_rows by reflexivity.
  destruct (Nat.lt_ge_cases i (length (nth b x []))) as [Hi | Hi].
  - rewrite (nth_map_in (fopp K) _ 0%F) by exact Hi. reflexivity.
  - rewrite !nth_overflow by (rewrite ?length_map; exact Hi). ring.
Qed.

Lemma ent_tmul_cr (B m n : nat) (x y : tensor) (b i : nat) :
  shaped B m x -> shaped B n y -> b < B -> i < m * n ->
  ent (tmul_cr x y) b i = (ent x b (i / n) * ent y b (i mod n))%F.
Proof.
  intros Hx Hy Hb Hi. assert (Hn : n <> 0) by (intros ->; lia).
  assert (Lx : length x = B) by apply Hx. assert (Ly : length y = B) by apply Hy.
  unfold ent, tmul_cr.
  rewrite (nth_zipw _ [] [] []) by lia.
  pose proof (shaped_row B n y b Hy Hb) as Ln.
  replace (nth i (bmul_cr (nth b x []) (nth b y [])) 0%F)
    with (nth (i / n * length (nth b y []) + i mod n) (bmul_cr (nth b x []) (nth b y [])) 0%F)
    by (f_equal; rewrite Ln; pose proof (Nat.div_mod_eq i n); lia).
  apply nth_bmul_cr. rewrite Ln. apply Nat.mod_upper_bound. exact Hn.
Qed.

Lemma ent_tsub (B n : nat) (x y : tensor) (b i : nat) :
  shaped B n x -> shaped B n y -> ent (tsub x y) b i = (ent x b i - ent y b i)%F.
Proof.
  intros Hx Hy. destruct (Nat.lt_ge_cases b B) as [Hb | Hb].
  - assert (Lx : length x = B) by apply Hx. assert (Ly : length y = B) by apply Hy.
    unfold ent, tsub.
    rewrite (nth_zipw _ [] [] []) by lia.
    apply nth_zipw_sub. rewrite (shaped_row B n x b Hx Hb), (shaped_row B n y b Hy Hb).
    reflexivity.
  - rewrite (ent_overflow B n (tsub x y)), (ent_overflow B n x), (ent_overflow B n y)
      by (auto using shaped_tsub). ring.
Qed.

(** ** Closure of the expansions under the operations of the kernels *)

Lemma texp_ext (B n : nat) (Phi Psi : K -> tensor) (A T : tensor) :
  (forall t, Phi t = Psi t) -> texp B n Phi A T -> texp B n Psi A T.
Proof.
  intros E (H1 & H2 & H3 & H4). split; [|split; [|split]]; auto.
  - intros t. rewrite <- E. apply H1.
  - intros b i Hb Hi. apply (expands_ext (fun t => ent (Phi t) b i)); auto.
    intros t. rewrite E. reflexivity.
Qed.

Lemma texp_cast (B n n' : nat) (Phi : K -> tensor) (A T : tensor) :
  n = n' -> texp B n Phi A T -> texp B n' Phi A T.
Proof. intros ->. auto. Qed.

Lemma texp_const (B n : nat) (A : tensor) (Z : tensor) :
  shaped B n A -> shaped B n Z -> (forall b i, ent Z b i = 0%F) ->
  texp B n (fun _ => A) A Z.
Proof.
  intros HA HZ H0. split; [|split; [|split]]; auto.
  intros b i _ _. rewrite H0. apply expands_const.
Qed.

Lemma texp_line (B n : nat) (x d : tensor) :
  shaped B n x -> shaped B n d -> texp B n (fun t => tadd x (tscale t d)) x d.
Proof.
  intros Hx Hd. split; [|split; [exact Hx | split; [exact Hd|]]].
  - intros t. apply shaped_tadd; [exact Hx | apply shaped_tscale; exact Hd].
  - intros b i _ _.
    apply (expands_ext (fun t => (ent x b i + ent d b i * t)%F)); [|apply expands_line].
    intros t. rewrite ent_tadd, ent_tscale. reflexivity.
Qed.

Lemma texp_tadd (B n : nat) (Phi Psi : K -> tensor) (A T A' T' : tensor) :
  texp B n Phi A T -> texp B n Psi A' T' ->
  texp B n (fun t => tadd (Phi t) (Psi t)) (tadd A A') (tadd T T').
Proof.
  intros (H1 & H2 & H3 & H4) (H1' & H2' & H3' & H4').
  split; [|split; [|split]]; try (intros; apply shaped_tadd; auto).
  intros b i Hb Hi.
  apply (expands_ext (fun t => (ent (Phi t) b i + ent (Psi t) b i)%F));
    [intros t; rewrite ent_tadd; reflexivity|].
  rewrite !ent_tadd. apply expands_add; auto.
Qed.

Lemma texp_tscale (B n : nat) (s : K) (Phi : K -> tensor) (A T : tensor) :
  texp B n Phi A T -> texp B n (fun t => tscale s (Phi t)) (tscale s A) (tscale s T).
Proof.
  intros (H1 & H2 & H3 & H4).
  split; [|split; [|split]]; try (intros; apply shaped_tscale; auto).
  intros b i Hb Hi.
  apply (expands_ext (fun t => (s * ent (Phi t) b i)%F));
    [intros t; rewrite ent_tscale; ring|].
  apply (expands_eq _ (s * ent A b i)%F _ (s * ent T b i)%F);
    [rewrite ent_tscale; ring | rewrite ent_tscale; ring|].
  apply expands_scale; auto.
Qed.

Lemma texp_tmul_cr (B m n : nat) (Phi Psi : K -> tensor) (A T A' T' : tensor) :
  texp B m Phi A T -> texp B n Psi A' T' ->
  texp B (m * n) (fun t => tmul_cr (Phi t) (Psi t)) (tmul_cr A A')
       (tadd (tmul_cr T A') (tmul_cr A T')).
Proof.
  intros (H1 & H2 & H3 & H4) (H1' & H2' & H3' & H4').
  split; [|split; [|split]].
  - intros t. apply shaped_tmul_cr; auto.
  - apply shaped_tmul_cr; auto.
  - apply shaped_tadd; apply shaped_tmul_cr; auto.
  - intros b i Hb Hi. assert (Hn : n <> 0) by (intros ->; lia).
    assert (Hq : i mod n < n) by (apply Nat.mod_upper_bound; exact Hn).
    assert (Hp : i / n < m) by (apply Nat.Div0.div_lt_upper_bound; lia).
    apply (expands_ext (fun t => (ent (Phi t) b (i / n) * ent (Psi t) b (i mod n))%F)).
    + intros t. symmetry. apply (ent_tmul_cr B m n); auto.
    + rewrite ent_tadd, !(ent_tmul_cr B m n) by auto. apply expands_mul; auto.
Qed.

Lemma texp_fused_product (B m n : nat) (inverse : bool) (Phi Psi : K -> tensor)
      (A T A' T' : tensor) :
  texp B m Phi A T -> texp B n Psi A' T' ->
  texp B (m * n) (fun t => ta_ops.fused_product inverse (Phi t) (Psi t))
       (ta_ops.fused_product inverse A A')
       (tadd (ta_ops.fused_product inverse T A') (ta_ops.fused_product inverse A T')).
Proof.
  intros H H'. destruct inverse.
  - apply (texp_ext B (m * n) (fun t => tmul_cr (Psi t) (Phi t)));
      [intros t; symmetry; apply fused_product_true|].
    rewrite !fused_product_true, tadd_comm. apply (texp_cast B (n * m)); [lia|].
    apply texp_tmul_cr; assumption.
  - apply (texp_ext B (m * n) (fun t => tmul_cr (Phi t) (Psi t)));
      [intros t; symmetry; apply fused_product_false|].
    rewrite !fused_product_false. apply texp_tmul_cr; assumption.
Qed.

(** ** Pairings along a line *)

Lemma tdot_ent (B n : nat) (G x : tensor) :
  shaped B n x ->
  tdot G x = ksum (fun b => ksum (fun i => (ent G b i * ent x b i)%F) n) B.
Proof.
  intros Hx. rewrite (tdot_upto G x B) by (right; destruct Hx as [-> _]; lia).
  apply ksum_ext. intros b Hb.
  apply vdot_upto. right. rewrite (shaped_row B n x b Hx Hb). lia.
Qed.

Lemma texp_tdot (B n : nat) (G : tensor) (Phi : K -> tensor) (A T : tensor) :
  texp B n Phi A T -> expands (fun t => tdot G (Phi t)) (tdot G A) (tdot G T).
Proof.
  intros (H1 & H2 & H3 & H4).
  apply (expands_ext (fun t => ksum (fun b => ksum (fun i => (ent G b i * ent (Phi t) b i)%F)
                                                   n) B)).
  { intros t. symmetry. apply (tdot_ent B n). apply H1. }
  rewrite (tdot_ent B n G A H2), (tdot_ent B n G T H3).
  apply (expands_ksum (fun b t => ksum (fun i => (ent G b i * ent (Phi t) b i)%F) n)).
  intros b Hb.
  apply (expands_ksum (fun i t => (ent G b i * ent (Phi t) b i)%F)).
  intros i Hi. apply expands_scale. apply H4; assumption.
Qed.

Lemma aexp_adot (B C D : nat) (G : talg) (Phi : K -> talg) (A T : talg) :
  aexp B C D Phi A T -> expands (fun t => adot G (Phi t)) (adot G A) (adot G T).
Proof.
  intros (H1 & H2 & H3 & H4).
  apply (expands_ext (fun t => ksum (fun d => tdot (nth d G []) (nth d (Phi t) [])) D)).
  { intros t. symmetry. apply adot_upto. right. rewrite H1. lia. }
  rewrite (adot_upto G A D), (adot_upto G T D) by (right; lia).
  apply (expands_ksum (fun d t => tdot (nth d G []) (nth d (Phi t) []))).
  intros d Hd. apply (texp_tdot B (C ^ (d + 1))). apply H4. exact Hd.
Qed.

End Families.

Section ExponentialGradient.
Context {K : ExactField}.
Add Field KfieldE3 : (field_laws K).

Notation "0" := (fzero K) : field_scope.
Notation "1" := (fone K) : field_scope.
Infix "+" := (fadd K) : field_scope.
Infix "*" := (fmul K) : field_scope.
Infix "-" := (fsub K) : field_scope.
Notation "- x" := (fopp K x) : field_scope.

Local Abbreviation vec := (vec K).
Local Abbreviation tensor := (tensor K).
Local Abbreviation tensor3 := (tensor3 K).
Local Abbreviation talg := (talg K).

(** ** The derivative of the restricted exponential *)

Lemma shaped_xpow_tangent (B C : nat) (x dx : tensor) (k : nat) :
  shaped B C x -> shaped B C dx -> shaped B (C ^ (k + 1)) (xpow_tangent x dx k).
Proof.
  intros Hx Hd. induction k as [|k IH].
  - cbn. rewrite Nat.mul_1_r. exact Hd.
  - cbn [xpow_tangent]. replace (C ^ (S k + 1)) with (C * C ^ (k + 1)) by (cbn; lia).
    apply shaped_tadd; apply shaped_tmul_cr; auto using shaped_xpow.
Qed.

Lemma shaped_rexp_tangent (B C : nat) (x dx : tensor) (r : list K) (k : nat) :
  shaped B C x -> shaped B C dx -> shaped B (C ^ (k + 1)) (rexp_tangent x dx r k).
Proof. intros Hx Hd. apply shaped_tscale. apply shaped_xpow_tangent; assumption. Qed.

Lemma rexp_tangent_0 (x dx : tensor) (r : list K) : rexp_tangent x dx r 0 = dx.
Proof. unfold rexp_tangent. cbn [ecoef xpow_tangent]. apply tscale_one. Qed.

Lemma rexp_tangent_S (x dx : tensor) (r : list K) (k : nat) :
  rexp_tangent x dx r (S k)
  = tscale (nth k r 0%F) (tadd (tmul_cr dx (rexp_term x r k))
                               (tmul_cr x (rexp_tangent x dx r k))).
Proof.
  unfold rexp_tangent, rexp_term. cbn [ecoef xpow_tangent].
  rewrite !tscale_tmul_r, <- tscale_tadd, tscale_tscale. apply tscale_ext. ring.
Qed.

Lemma texp_xpow (B C : nat) (Phi : K -> tensor) (x dx : tensor) (k : nat) :
  texp B C Phi x dx ->
  texp B (C ^ (k + 1)) (fun t => xpow (Phi t) k) (xpow x k) (xpow_tangent x dx k).
Proof.
  intros H. induction k as [|k IH].
  - cbn [xpow xpow_tangent]. apply (texp_cast B C); [cbn; lia | exact H].
  - cbn [xpow xpow_tangent]. apply (texp_cast B (C * C ^ (k + 1))); [cbn; lia|].
    apply texp_tmul_cr; assumption.
Qed.

Lemma texp_rexp_term (B C : nat) (Phi : K -> tensor) (x dx : tensor) (r : list K) (k : nat) :
  texp B C Phi x dx ->
  texp B (C ^ (k + 1)) (fun t => rexp_term (Phi t) r k) (rexp_term x r k)
       (rexp_tangent x dx r k).
Proof. intros H. apply texp_tscale. apply texp_xpow. exact H. Qed.

(** The restricted exponential along a line. *)
Lemma aexp_restricted_exp (B C : nat) (Phi : K -> tensor) (x dx : tensor) (out : talg)
      (r : list K) :
  texp B C Phi x dx ->
  aexp B C (length out) (fun t => ta_ops.restricted_exp (Phi t) out r)
       (ta_ops.restricted_exp x out r)
       (map (rexp_tangent x dx r) (seq 0 (length out))).
Proof.
  intros H. split; [|split; [|split]].
  - intros t. apply restricted_exp_length.
  - apply restricted_exp_length.
  - rewrite length_map, length_seq. reflexivity.
  - intros d Hd. rewrite restricted_exp_nth by exact Hd.
    rewrite (nth_map_seq _ _ 0) by exact Hd. cbn [plus].
    apply (texp_ext B _ (fun t => rexp_term (Phi t) r d)).
    + intros t. symmetry. apply restricted_exp_nth. exact Hd.
    + apply texp_rexp_term. exact H.
Qed.

(** ** Pairings and scalars *)

Lemma tdot_tscale_r (s : K) (G X : tensor) : tdot G (tscale s X) = (s * tdot G X)%F.
Proof.
  unfold tdot. rewrite <- ksum_scale. apply ksum_ext. intros b _.
  unfold vdot. rewrite <- ksum_scale. apply ksum_ext. intros i _.
  change (nth i (nth b (tscale s X) []) 0%F) with (ent (tscale s X) b i).
  rewrite ent_tscale. unfold ent. ring.
Qed.

Lemma tdot_tscale_l (s : K) (G X : tensor) : tdot (tscale s G) X = (s * tdot G X)%F.
Proof.
  unfold tdot, tscale. rewrite length_map, <- ksum_scale.
  apply ksum_ext. intros b Hb. rewrite nth_map_rows by reflexivity.
  unfold vdot. rewrite length_map, <- ksum_scale. apply ksum_ext. intros i Hi.
  rewrite (nth_map_in (fun v => (v * s)%F) _ 0%F) by exact Hi. ring.
Qed.

Lemma shaped_bmm_to (B n m p q : nat) (a b : tensor) :
  length a = B -> length b = B -> (0 < B -> (n * p)%nat = q) -> shaped B q (bmm n m p a b).
Proof.
  intros La Lb Hq. destruct (Nat.eq_dec B 0) as [-> | HB].
  - destruct a; [|discriminate]. split; [reflexivity | constructor].
  - rewrite <- Hq by lia. apply shaped_bmm; assumption.
Qed.

(** ** [restricted_exp_backward] against the derivative *)

Section Loop.
Variables (B C D : nat) (x dx : tensor) (out : talg) (r : list K) (DE : nat -> tensor).
Hypothesis Hx : shaped B C x.
Hypothesis Hdx : shaped B C dx.
Hypothesis Hout : graded B C D out.
Hypothesis HDE : forall k, k < D -> shaped B (C ^ (k + 1)) (DE k).
Hypothesis Hrec : forall k, S k < D ->
  DE (S k) = tscale (nth k r 0%F) (tadd (tmul_cr dx (nth k out [])) (tmul_cr x (DE k))).

Lemma rexp_backward_step_pairing (gin : tensor) (gout : talg) (i : nat) :
  S i < D -> zshaped B C gin -> graded B C D gout ->
  let res := rexp_backward_step x out r (gin, gout) i in
  shaped B C (fst res) /\ graded B C D (snd res) /\
  (forall k, k < i -> nth k (snd res) [] = nth k gout []) /\
  (tdot (fst res) dx + tdot (nth i (snd res) []) (DE i)
   = tdot gin dx + tdot (nth i gout []) (DE i) + tdot (nth (S i) gout []) (DE (S i)))%F.
Proof.
  intros Hi Hgin Hgout res. subst res. unfold rexp_backward_step. cbv zeta. cbn [fst snd].
  assert (Lg : length gout = D) by apply Hgout.
  replace (i + 1)%nat with (S i) by lia.
  set (g1 := upd (S i) _ gout).
  assert (Lg1 : length g1 = D) by (subst g1; rewrite upd_length; exact Lg).
  assert (Hview : nth (S i) g1 [] = tscale (nth i r 0%F) (nth (S i) gout []))
    by (subst g1; apply nth_upd_same; lia).
  assert (Hg1i : nth i g1 [] = nth i gout []) by (subst g1; apply nth_upd_other; lia).
  rewrite Hview, Hg1i.
  set (view := tscale (nth i r 0%F) (nth (S i) gout [])).
  assert (Sview : shaped B (C * C ^ (i + 1)) view).
  { subst view. apply shaped_tscale. apply (shaped_cast B (C ^ (S i + 1))); [cbn; lia|].
    apply Hgout. exact Hi. }
  assert (Souti : shaped B (C ^ (i + 1)) (nth i out [])) by (apply Hout; lia).
  assert (SDEi : shaped B (C ^ (i + 1)) (DE i)) by (apply HDE; lia).
  assert (Lview : length view = B) by apply Sview.
  assert (S1 : shaped B C (bmm (channel_size x) (channel_size (nth i out [])) 1 view
                               (nth i out []))).
  { apply shaped_bmm_to; [exact Lview | apply Souti|]. intros HB.
    rewrite (channel_size_shaped B C x Hx HB). lia. }
  assert (S2 : shaped B (C ^ (i + 1))
                      (bmm 1 (channel_size x) (channel_size (nth i out [])) x view)).
  { apply shaped_bmm_to; [apply Hx | exact Lview|]. intros HB.
    rewrite (channel_size_shaped B _ (nth i out []) Souti HB). lia. }
  split; [rewrite tadd_comm; apply shaped_tadd_z; assumption|].
  split.
  { split; [rewrite upd_length; exact Lg1|]. intros k Hk.
    destruct (Nat.eq_dec k i) as [-> | Hne].
    - rewrite nth_upd_same by lia. apply shaped_tadd; [apply Hgout; lia | exact S2].
    - rewrite nth_upd_other by lia. subst g1. destruct (Nat.eq_dec k (S i)) as [-> | Hne'].
      + rewrite nth_upd_same by lia. apply shaped_tscale. apply Hgout. exact Hi.
      + rewrite nth_upd_other by lia. apply Hgout. exact Hk. }
  split.
  { intros k Hk. rewrite nth_upd_other by lia. subst g1. apply nth_upd_other. lia. }
  rewrite nth_upd_same by lia. rewrite !tdot_tadd_l.
  rewrite <- (tdot_bmm_col B C (C ^ (i + 1)) view x (nth i out []) dx (nth i out []))
    by assumption.
  rewrite <- (tdot_bmm_row B C (C ^ (i + 1)) view x (nth i out []) x (DE i)) by assumption.
  rewrite (Hrec i Hi). subst view. rewrite !tdot_tscale_l, tdot_tscale_r, tdot_tadd_r. ring.
Qed.

Lemma rexp_backward_loop (n : nat) :
  n < D ->
  forall (gin : tensor) (gout : talg),
    shaped B C gin -> graded B C D gout ->
    let res := fold_left (rexp_backward_step x out r) (rev (seq 0 n)) (gin, gout) in
    shaped B C (fst res) /\ graded B C D (snd res) /\
    (tdot (fst res) dx + tdot (nth 0 (snd res) []) (DE 0)
     = tdot gin dx + ksum (fun k => tdot (nth k gout []) (DE k)) (S n))%F.
Proof.
  induction n as [|n IH]; intros Hn gin gout Hgin Hgout res.
  - subst res. cbn [seq rev fold_left fst snd ksum].
    split; [exact Hgin|]. split; [exact Hgout|]. ring.
  - subst res. rewrite seq_S, rev_app_distr. cbn [rev app Nat.add].
    change (fold_left (rexp_backward_step x out r) (n :: rev (seq 0 n)) (gin, gout))
      with (fold_left (rexp_backward_step x out r) (rev (seq 0 n))
                      (rexp_backward_step x out r (gin, gout) n)).
    destruct (rexp_backward_step_pairing gin gout n Hn (shaped_zshaped _ _ _ Hgin) Hgout)
      as (S1 & S2 & Keep & P).
    destruct (rexp_backward_step x out r (gin, gout) n) as [gin1 gout1].
    cbn [fst snd] in S1, S2, Keep, P.
    destruct (IH ltac:(lia) gin1 gout1 S1 S2) as (R1 & R2 & Q).
    split; [exact R1|]. split; [exact R2|]. rewrite Q.
    change (ksum (fun k => tdot (nth k gout []) (DE k)) (S (S n)))
      with (ksum (fun k => tdot (nth k gout []) (DE k)) (S n)
            + tdot (nth (S n) gout []) (DE (S n)))%F.
    cbn [ksum]. rewrite (ksum_ext (fun k => tdot (nth k gout1 []) (DE k))
                                  (fun k => tdot (nth k gout []) (DE k)) n)
      by (intros k Hk; rewrite Keep by exact Hk; reflexivity).
    match goal with
    | |- (?a + (?s + ?b))%F = _ => transitivity (s + (a + b))%F; [ring|]
    end.
    rewrite P. ring.
Qed.

End Loop.

(** [restricted_exp_backward] pairs with a direction as the incoming
    gradient pairs with the derivative of the exponential. *)
Lemma rexp_backward_pairing (B C D : nat) (x dx gin0 : tensor) (out G : talg) (r : list K)
      (DE : nat -> tensor) :
  1 <= D -> shaped B C x -> shaped B C dx -> graded B C D out -> graded B C D G ->
  (forall k, k < D -> shaped B (C ^ (k + 1)) (DE k)) ->
  DE 0 = dx ->
  (forall k, S k < D ->
             DE (S k) = tscale (nth k r 0%F) (tadd (tmul_cr dx (nth k out []))
                                                  (tmul_cr x (DE k)))) ->
  let res := ta_ops_backward.restricted_exp_backward gin0 G x out r in
  shaped B C (fst res) /\
  tdot (fst res) dx = ksum (fun k => tdot (nth k G []) (DE k)) D.
Proof.
  intros HD Hx Hdx Hout HG HDE H0 Hrec res. subst res.
  assert (Lout : length out = D) by apply Hout.
  unfold ta_ops_backward.restricted_exp_backward. cbv zeta. rewrite Lout.
  destruct (1 <? D) eqn:E.
  - apply Nat.ltb_lt in E.
    change (fold_left _ (rev (seq 0 (D - 2))) ?st)
      with (fold_left (rexp_backward_step x out r) (rev (seq 0 (D - 2))) st).
    replace (D - 1) with (S (D - 2)) by lia.
    pose proof (rexp_backward_step_pairing B C D x dx out r DE Hx Hdx Hout HDE Hrec [] G
                                           (D - 2) ltac:(lia) (or_introl eq_refl) HG)
      as (S1 & S2 & Keep & P).
    unfold rexp_backward_step in S1, S2, Keep, P. cbv zeta in S1, S2, Keep, P.
    cbn [fst snd] in S1, S2, Keep, P.
    replace (D - 2 + 1) with (S (D - 2)) in S1, S2, Keep, P by lia.
    rewrite tadd_nil_l in S1, P.
    match goal with
    | |- context [fold_left _ _ (?a, ?b)] => set (gin1 := a) in *; set (gout1 := b) in *
    end.
    destruct (rexp_backward_loop B C D x dx out r DE Hx Hdx Hout HDE Hrec (D - 2)
                                 ltac:(lia) gin1 gout1 S1 S2) as (R1 & R2 & Q).
    destruct (fold_left _ _ (gin1, gout1)) as [gin2 gout2]. cbn [fst snd] in R1, R2, Q |- *.
    split; [apply shaped_tadd; [exact R1 | apply (shaped_cast B (C ^ (0 + 1)));
                                           [cbn; lia | apply R2; lia]]|].
    assert (ED : ksum (fun k => tdot (nth k G []) (DE k)) D
                 = (ksum (fun k => tdot (nth k G []) (DE k)) (D - 2)
                    + tdot (nth (D - 2) G []) (DE (D - 2)%nat)
                    + tdot (nth (S (D - 2)) G []) (DE (S (D - 2))))%F).
    { replace D with (S (S (D - 2))) at 1 by lia. reflexivity. }
    rewrite tdot_tadd_l. rewrite H0 in Q. rewrite Q, ED.
    cbn [ksum]. rewrite (ksum_ext (fun k => tdot (nth k gout1 []) (DE k))
                                  (fun k => tdot (nth k G []) (DE k)) (D - 2))
      by (intros k Hk; rewrite Keep by exact Hk; reflexivity).
    rewrite tdot_nil_l in P.
    match goal with
    | |- (?a + (?s + ?b))%F = _ => transitivity (s + (a + b))%F; [ring|]
    end.
    rewrite P. ring.
  - apply Nat.ltb_ge in E. assert (E1 : D = 1) by lia. rewrite E1. cbn [fst snd ksum].
    split; [apply (shaped_cast B (C ^ (0 + 1))); [cbn; lia | apply HG; lia]|].
    rewrite H0. ring.
Qed.

End ExponentialGradient.

Section FusedTangent.
Context {K : ExactField}.
Add Field KfieldE4 : (field_laws K).

Notation "0" := (fzero K) : field_scope.
Notation "1" := (fone K) : field_scope.
Infix "+" := (fadd K) : field_scope.
Infix "*" := (fmul K) : field_scope.
Infix "-" := (fsub K) : field_scope.
Notation "- x" := (fopp K x) : field_scope.

Local Abbreviation vec := (vec K).
Local Abbreviation tensor := (tensor K).
Local Abbreviation tensor3 := (tensor3 K).
Local Abbreviation talg := (talg K).

(** ** The derivative of the fused kernel *)

Lemma scratch_chain_O (inverse : bool) (x : tensor) (r : list K) (prev : talg) (d : nat) :
  d - 1 < length r ->
  scratch_chain inverse x r prev d 0 = tadd (nth 0 prev []) (tscale (nth (d - 1) r 0%F) x).
Proof.
  intros Hr. unfold scratch_chain. cbn [seq fold_left].
  rewrite nth_next_divided by exact Hr. reflexivity.
Qed.

Lemma scratch_chain_S (inverse : bool) (x : tensor) (r : list K) (prev : talg) (d m : nat) :
  d - 1 - S m < length r ->
  scratch_chain inverse x r prev d (S m)
  = tadd (nth (S m) prev [])
         (ta_ops.fused_product inverse (scratch_chain inverse x r prev d m)
                               (tscale (nth (d - 1 - S m) r 0%F) x)).
Proof.
  intros Hr. unfold scratch_chain. rewrite seq_S, fold_left_app. cbn [fold_left plus].
  rewrite (nth_next_divided x r (d - 1 - S m)) by exact Hr. reflexivity.
Qed.

Lemma shaped_fused_product (B m n : nat) (inverse : bool) (a b : tensor) :
  shaped B m a -> shaped B n b -> shaped B (m * n) (ta_ops.fused_product inverse a b).
Proof.
  intros Ha Hb. destruct inverse; [rewrite fused_product_true | rewrite fused_product_false].
  - apply (shaped_cast B (n * m)); [lia|]. apply shaped_tmul_cr; assumption.
  - apply shaped_tmul_cr; assumption.
Qed.

Lemma shaped_scratch_tangent (B C D : nat) (inverse : bool) (x dx : tensor) (r : list K)
      (prev dprev : talg) (d m : nat) :
  graded B C D prev -> graded B C D dprev -> shaped B C x -> shaped B C dx ->
  d - 1 < length r -> m <= d - 1 -> d < D ->
  shaped B (C ^ (m + 1)) (scratch_tangent inverse x dx r prev dprev d m).
Proof.
  intros Hp Hdp Hx Hdx Hr. induction m as [|m IH]; intros Hm Hd.
  - cbn [scratch_tangent]. apply shaped_tadd; [apply Hdp; lia|].
    apply (shaped_cast B C); [cbn; lia|]. apply shaped_tscale; exact Hdx.
  - cbn [scratch_tangent]. apply shaped_tadd; [apply Hdp; lia|].
    apply (shaped_cast B (C ^ (m + 1) * C));
      [rewrite Nat.mul_comm; replace (S m + 1) with (S (m + 1)) by lia; reflexivity|].
    apply shaped_tadd; apply shaped_fused_product;
      auto using shaped_tscale.
    + apply IH; lia.
    + apply (shaped_scratch_chain B C D); auto; lia.
Qed.

Lemma shaped_fused_tangent (B C D : nat) (inverse : bool) (x dx : tensor) (r : list K)
      (prev dprev : talg) (d : nat) :
  graded B C D prev -> graded B C D dprev -> shaped B C x -> shaped B C dx ->
  length r = D - 1 -> d < D ->
  shaped B (C ^ (d + 1)) (fused_tangent inverse x dx r prev dprev d).
Proof.
  intros Hp Hdp Hx Hdx Lr Hd. unfold fused_tangent. destruct d as [|d]; cbn [Nat.eqb].
  - apply shaped_tadd; [apply Hdp; lia|]. apply (shaped_cast B C); [cbn; lia | exact Hdx].
  - apply shaped_tadd; [apply Hdp; lia|].
    apply (shaped_cast B (C ^ (S d - 1 + 1) * C)).
    { replace (S d - 1 + 1) with (S d) by lia. replace (S d + 1) with (S (S d)) by lia.
      cbn [Nat.pow]. lia. }
    apply shaped_tadd; apply shaped_fused_product; auto.
    + apply (shaped_scratch_tangent B C D); auto; lia.
    + apply (shaped_scratch_chain B C D); auto; lia.
Qed.

Lemma texp_scratch_chain (B C D : nat) (inverse : bool) (X : K -> tensor) (P : K -> talg)
      (x dx : tensor) (r : list K) (prev dprev : talg) (d m : nat) :
  texp B C X x dx -> aexp B C D P prev dprev ->
  d - 1 < length r -> m <= d - 1 -> d < D ->
  texp B (C ^ (m + 1)) (fun t => scratch_chain inverse (X t) r (P t) d m)
       (scratch_chain inverse x r prev d m)
       (scratch_tangent inverse x dx r prev dprev d m).
Proof.
  intros HX HP Hr. destruct HP as (LP & Lp & Ldp & HP).
  induction m as [|m IH]; intros Hm Hd.
  - apply (texp_ext B _ (fun t => tadd (nth 0 (P t) [])
                                       (tscale (nth (d - 1) r 0%F) (X t)))).
    { intros t. symmetry. apply scratch_chain_O. exact Hr. }
    rewrite scratch_chain_O by exact Hr. cbn [scratch_tangent].
    apply texp_tadd; [apply (HP 0); lia|].
    apply (texp_cast B C); [cbn; lia|]. apply texp_tscale. exact HX.
  - apply (texp_ext B _ (fun t => tadd (nth (S m) (P t) [])
                                       (ta_ops.fused_product
                                          inverse (scratch_chain inverse (X t) r (P t) d m)
                                          (tscale (nth (d - 1 - S m) r 0%F) (X t))))).
    { intros t. symmetry. apply scratch_chain_S. lia. }
    rewrite scratch_chain_S by lia. cbn [scratch_tangent].
    apply texp_tadd; [apply (HP (S m)); lia|].
    apply (texp_cast B (C ^ (m + 1) * C));
      [rewrite Nat.mul_comm; replace (S m + 1) with (S (m + 1)) by lia; reflexivity|].
    apply texp_fused_product; [apply IH; lia|]. apply texp_tscale. exact HX.
Qed.

(** The fused kernel along a line. *)
Lemma aexp_fused (B C D : nat) (inverse : bool) (X : K -> tensor) (P : K -> talg)
      (x dx : tensor) (r : list K) (prev dprev : talg) :
  texp B C X x dx -> aexp B C D P prev dprev -> length r = D - 1 ->
  aexp B C D (fun t => ta_ops.mult_fused_restricted_exp (X t) (P t) inverse r)
       (ta_ops.mult_fused_restricted_exp x prev inverse r)
       (map (fused_tangent inverse x dx r prev dprev) (seq 0 D)).
Proof.
  intros HX HP Lr. pose proof HP as (LP & Lp & Ldp & HP').
  split; [|split; [|split]].
  - intros t. rewrite fused_length. apply LP.
  - rewrite fused_length. exact Lp.
  - rewrite length_map, length_seq. reflexivity.
  - intros d Hd. rewrite (nth_map_seq _ _ 0) by exact Hd. cbn [plus].
    rewrite fused_nth by (rewrite Lp; exact Hd). unfold fused_tangent.
    destruct d as [|d]; cbn [Nat.eqb].
    + apply (texp_ext B _ (fun t => tadd (nth 0 (P t) []) (X t))).
      { intros t. rewrite fused_nth by (rewrite LP; exact Hd). reflexivity. }
      apply texp_tadd; [apply (HP' 0); lia|]. apply (texp_cast B C); [cbn; lia | exact HX].
    + apply (texp_ext B _ (fun t => fused_term inverse (X t) r (P t) (S d))).
      { intros t. rewrite fused_nth by (rewrite LP; exact Hd). reflexivity. }
      unfold fused_term. apply texp_tadd; [apply (HP' (S d)); exact Hd|].
      apply (texp_cast B (C ^ (S d - 1 + 1) * C)).
      { replace (S d - 1 + 1) with (S d) by lia. replace (S d + 1) with (S (S d)) by lia.
        cbn [Nat.pow]. lia. }
      apply texp_fused_product; [|exact HX].
      apply (texp_scratch_chain B C D); auto; lia.
Qed.

End FusedTangent.

Section FusedBackward.
Context {K : ExactField}.
Add Field KfieldE5 : (field_laws K).

Notation "0" := (fzero K) : field_scope.
Notation "1" := (fone K) : field_scope.
Infix "+" := (fadd K) : field_scope.
Infix "*" := (fmul K) : field_scope.
Infix "-" := (fsub K) : field_scope.
Notation "- x" := (fopp K x) : field_scope.

Local Abbreviation vec := (vec K).
Local Abbreviation tensor := (tensor K).
Local Abbreviation tensor3 := (tensor3 K).
Local Abbreviation talg := (talg K).

(** ** The batched products against [fused_product] *)

(** The gradient of [fused_product inverse s y] in [s]. *)
Lemma fp_adjoint_chain (B m n : nat) (inverse : bool) (G s0 y0 s y : tensor) :
  shaped B (m * n) G -> shaped B m s0 -> shaped B n y0 -> shaped B m s -> shaped B n y ->
  tdot G (ta_ops.fused_product inverse s y)
  = tdot (if inverse then bmm 1 (channel_size y0) (channel_size s0) y G
          else bmm (channel_size s0) (channel_size y0) 1 G y) s.
Proof.
  intros HG Hs0 Hy0 Hs Hy. destruct inverse.
  - rewrite fused_product_true. apply (tdot_bmm_row B n m); auto.
    apply (shaped_cast B (m * n)); [lia | exact HG].
  - rewrite fused_product_false. apply (tdot_bmm_col B m n); auto.
Qed.

(** The gradient of [fused_product inverse s y] in [y]. *)
Lemma fp_adjoint_factor (B m n : nat) (inverse : bool) (G s0 y0 s y : tensor) :
  shaped B (m * n) G -> shaped B m s0 -> shaped B n y0 -> shaped B m s -> shaped B n y ->
  tdot G (ta_ops.fused_product inverse s y)
  = tdot (if inverse then bmm (channel_size y0) (channel_size s0) 1 G s
          else bmm 1 (channel_size s0) (channel_size y0) s G) y.
Proof.
  intros HG Hs0 Hy0 Hs Hy. destruct inverse.
  - rewrite fused_product_true. apply (tdot_bmm_col B n m); auto.
    apply (shaped_cast B (m * n)); [lia | exact HG].
  - rewrite fused_product_false. apply (tdot_bmm_row B m n); auto.
Qed.

Lemma shaped_chain_gradient (B m n : nat) (inverse : bool) (G s0 y0 y : tensor) :
  shaped B (m * n) G -> shaped B m s0 -> shaped B n y0 -> shaped B n y ->
  shaped B m (if inverse then bmm 1 (channel_size y0) (channel_size s0) y G
              else bmm (channel_size s0) (channel_size y0) 1 G y).
Proof.
  intros HG Hs0 Hy0 Hy. destruct inverse.
  - apply shaped_bmm_to; [apply Hy | apply HG|]. intros HB.
    rewrite (channel_size_shaped B m s0 Hs0 HB). lia.
  - apply shaped_bmm_to; [apply HG | apply Hy|]. intros HB.
    rewrite (channel_size_shaped B m s0 Hs0 HB). lia.
Qed.

Lemma shaped_factor_gradient (B m n : nat) (inverse : bool) (G s0 y0 s : tensor) :
  shaped B (m * n) G -> shaped B m s0 -> shaped B n y0 -> shaped B m s ->
  shaped B n (if inverse then bmm (channel_size y0) (channel_size s0) 1 G s
              else bmm 1 (channel_size s0) (channel_size y0) s G).
Proof.
  intros HG Hs0 Hy0 Hs. destruct inverse.
  - apply shaped_bmm_to; [apply HG | apply Hs|]. intros HB.
    rewrite (channel_size_shaped B n y0 Hy0 HB). lia.
  - apply shaped_bmm_to; [apply Hs | apply HG|]. intros HB.
    rewrite (channel_size_shaped B n y0 Hy0 HB). lia.
Qed.

(** ** Sums over a vector with one entry changed *)

Lemma ksum_change (f g : nat -> K) (n j : nat) :
  j < n -> (forall i, i < n -> i <> j -> f i = g i) ->
  ksum f n = (ksum g n + (f j - g j))%F.
Proof.
  revert j. induction n as [|n IH]; intros j Hj H; [lia|].
  cbn [ksum]. destruct (Nat.eq_dec j n) as [-> | Hne].
  - rewrite (ksum_ext f g n) by (intros i Hi; apply H; lia). ring.
  - rewrite (IH j) by (try lia; intros i Hi Hij; apply H; lia).
    rewrite (H n) by lia. ring.
Qed.

Lemma ksum_upd_add (l : list tensor) (Y : nat -> tensor) (w : tensor) (n j : nat) :
  j < n -> j < length l ->
  ksum (fun i => tdot (nth i (upd j (tadd (nth j l []) w) l) []) (Y i)) n
  = (ksum (fun i => tdot (nth i l []) (Y i)) n + tdot w (Y j))%F.
Proof.
  intros Hj Hl.
  rewrite (ksum_change _ (fun i => tdot (nth i l []) (Y i)) n j Hj).
  - rewrite nth_upd_same by exact Hl. rewrite tdot_tadd_l. ring.
  - intros i _ Hij. cbv beta. rewrite nth_upd_other by lia. reflexivity.
Qed.

Lemma pair_terms_upd_add (l : list tensor) (Y : nat -> tensor) (w : tensor) (n j : nat) :
  j < n -> j < length l ->
  pair_terms (upd j (tadd (nth j l []) w) l) Y n = (pair_terms l Y n + tdot w (Y j))%F.
Proof. apply ksum_upd_add. Qed.

(** ** The loops of [mult_fused_restricted_exp_backward] *)

Section Loops.
Variables (B C D : nat) (inverse : bool) (x dx : tensor) (r : list K) (prev dprev : talg).
Hypothesis Hx : shaped B C x.
Hypothesis Hdx : shaped B C dx.
Hypothesis Hp : graded B C D prev.
Hypothesis Hdp : graded B C D dprev.
Hypothesis Lr : length r = D - 1.

Let nd := map (fun s => tscale s x) r.
Let dnd := fun i => tscale (nth i r 0%F) dx.
Let Sd := scratch_chain inverse x r prev.
Let Td := scratch_tangent inverse x dx r prev dprev.

Lemma fused_inner_step_pairing (d m : nat) (scr : list tensor) (gprev : talg)
      (gnd gs : list tensor) (Y : nat -> tensor) :
  S m <= d - 1 -> d < D ->
  (forall i, i < d -> nth i scr [] = Sd d i) ->
  graded B C D gprev -> shaped_list B C (D - 1) gnd ->
  length gs = d -> shaped B (C ^ (S m + 1)) (nth (S m) gs []) ->
  Y (S m) = nth (S m) dprev [] ->
  let res := fused_backward_inner_step inverse x nd scr d (gprev, gnd, gs) (S m) in
  graded B C D (fst (fst res)) /\ shaped_list B C (D - 1) (snd (fst res)) /\
  length (snd res) = d /\ shaped B (C ^ (m + 1)) (nth m (snd res) []) /\
  (forall i, i <> S m -> nth i (fst (fst res)) [] = nth i gprev []) /\
  (pair_terms (fst (fst res)) Y D + pair_terms (snd (fst res)) dnd (D - 1)
   + tdot (nth m (snd res) []) (Td d m)
   = pair_terms gprev Y D + pair_terms gnd dnd (D - 1)
     + tdot (nth (S m) gs []) (Td d (S m)))%F.
Proof.
  intros Hm Hd Hscr Hgp [Lgnd Hgnd] Lgs Hgs HY res. subst res.
  unfold fused_backward_inner_step. cbv zeta. cbn [fst snd].
  replace (S m - 1) with m by lia.
  set (k := d - 1 - S m).
  assert (Hk : k < length r) by (subst k; lia).
  assert (Lgp : length gprev = D) by apply Hgp.
  assert (End : nth k nd [] = tscale (nth k r 0%F) x)
    by (subst nd; apply nth_next_divided; exact Hk).
  rewrite End, (Hscr m) by lia.
  set (G := nth (S m) gs []) in *.
  assert (SS : shaped B (C ^ (m + 1)) (Sd d m))
    by (subst Sd; apply (shaped_scratch_chain B C D); auto; lia).
  assert (ST : shaped B (C ^ (m + 1)) (Td d m))
    by (subst Td; apply (shaped_scratch_tangent B C D); auto; lia).
  assert (SG : shaped B (C ^ (m + 1) * C) G).
  { apply (shaped_cast B (C ^ (S m + 1))); [|exact Hgs].
    replace (S m + 1) with (S (m + 1)) by lia. cbn [Nat.pow]. lia. }
  assert (Sy : shaped B C (tscale (nth k r 0%F) x)) by (apply shaped_tscale; exact Hx).
  assert (Sdy : shaped B C (tscale (nth k r 0%F) dx)) by (apply shaped_tscale; exact Hdx).
  pose proof (shaped_chain_gradient B (C ^ (m + 1)) C inverse G (Sd d m) x (tscale (nth k r 0%F) x)
                                    SG SS Hx Sy) as S1.
  pose proof (shaped_factor_gradient B (C ^ (m + 1)) C inverse G (Sd d m) x (Sd d m) SG SS Hx SS) as S2.
  split.
  { split; [rewrite upd_length; exact Lgp|]. intros i Hi.
    destruct (Nat.eq_dec i (S m)) as [-> | Hne].
    - rewrite nth_upd_same by lia. apply shaped_tadd; [apply Hgp; lia | exact Hgs].
    - rewrite nth_upd_other by lia. apply Hgp. exact Hi. }
  split.
  { split; [rewrite upd_length; exact Lgnd|]. intros i Hi.
    destruct (Nat.eq_dec i k) as [-> | Hne].
    - rewrite nth_upd_same by lia. apply shaped_tadd; [apply Hgnd; lia | exact S2].
    - rewrite nth_upd_other by lia. apply Hgnd. exact Hi. }
  split; [rewrite upd_length; exact Lgs|].
  rewrite nth_upd_same by lia.
  split; [exact S1|].
  split; [intros i Hi; apply nth_upd_other; lia|].
  rewrite pair_terms_upd_add by lia. rewrite pair_terms_upd_add by lia.
  rewrite <- (fp_adjoint_chain B (C ^ (m + 1)) C inverse G (Sd d m) x (Td d m) (tscale (nth k r 0%F) x))
    by assumption.
  unfold dnd at 2.
  rewrite <- (fp_adjoint_factor B (C ^ (m + 1)) C inverse G (Sd d m) x (Sd d m)
                                (tscale (nth k r 0%F) dx)) by assumption.
  subst Td. cbn [scratch_tangent]. fold k. rewrite !tdot_tadd_r, HY. subst Sd. ring.
Qed.

Lemma fused_inner_loop (d : nat) (scr : list tensor) (Y : nat -> tensor) (m : nat) :
  m <= d - 1 -> d < D ->
  (forall i, i < d -> nth i scr [] = Sd d i) ->
  (forall j, 1 <= j <= m -> Y j = nth j dprev []) ->
  forall (gprev : talg) (gnd gs : list tensor),
    graded B C D gprev -> shaped_list B C (D - 1) gnd ->
    length gs = d -> shaped B (C ^ (m + 1)) (nth m gs []) ->
    let res := fold_left (fused_backward_inner_step inverse x nd scr d) (rev (seq 1 m))
                         (gprev, gnd, gs) in
    graded B C D (fst (fst res)) /\ shaped_list B C (D - 1) (snd (fst res)) /\
    length (snd res) = d /\ shaped B (C ^ (0 + 1)) (nth 0 (snd res) []) /\
    (forall i, i = 0 \/ m < i -> nth i (fst (fst res)) [] = nth i gprev []) /\
    (pair_terms (fst (fst res)) Y D + pair_terms (snd (fst res)) dnd (D - 1)
     + tdot (nth 0 (snd res) []) (Td d 0)
     = pair_terms gprev Y D + pair_terms gnd dnd (D - 1) + tdot (nth m gs []) (Td d m))%F.
Proof.
  intros Hm Hd Hscr. induction m as [|m IH]; intros HY gprev gnd gs Hgp Hgnd Lgs Hgs res.
  - subst res. cbn [seq rev fold_left fst snd]. repeat (split; [assumption|]).
    split; [reflexivity|]. split; reflexivity.
  - subst res. rewrite seq_S, rev_app_distr. cbn [rev app Nat.add].
    change (fold_left ?f (S m :: ?l) ?st) with (fold_left f l (f st (S m))).
    destruct (fused_inner_step_pairing d m scr gprev gnd gs Y Hm Hd Hscr Hgp Hgnd Lgs Hgs
                                       (HY (S m) ltac:(lia)))
      as (R1 & R2 & R3 & R4 & Keep & P).
    destruct (fused_backward_inner_step inverse x nd scr d (gprev, gnd, gs) (S m))
      as [[gprev1 gnd1] gs1].
    cbn [fst snd] in R1, R2, R3, R4, Keep, P.
    destruct (IH ltac:(lia) ltac:(intros; apply HY; lia) gprev1 gnd1 gs1 R1 R2 R3 R4)
      as (Q1 & Q2 & Q3 & Q4 & Keep' & Q).
    repeat (split; [assumption|]).
    split.
    + intros i Hi. rewrite Keep' by (destruct Hi; [left | right]; lia).
      apply Keep. destruct Hi; lia.
    + rewrite Q, P. reflexivity.
Qed.

End Loops.

End FusedBackward.

Section FusedBackwardOuter.
Context {K : ExactField}.
Add Field KfieldE6 : (field_laws K).

Notation "0" := (fzero K) : field_scope.
Notation "1" := (fone K) : field_scope.
Infix "+" := (fadd K) : field_scope.
Infix "*" := (fmul K) : field_scope.
Infix "-" := (fsub K) : field_scope.
Notation "- x" := (fopp K x) : field_scope.

Local Abbreviation vec := (vec K).
Local Abbreviation tensor := (tensor K).
Local Abbreviation tensor3 := (tensor3 K).
Local Abbreviation talg := (talg K).

Lemma last_nth_length {A : Type} (l : list A) (d : A) : last l d = nth (length l - 1) l d.
Proof.
  induction l as [|a l IH]; [reflexivity|].
  destruct l as [|b l]; [reflexivity|].
  change (last (a :: b :: l) d) with (last (b :: l) d). rewrite IH. cbn [length].
  replace (S (S (length l)) - 1) with (S (S (length l) - 1)) by lia. reflexivity.
Qed.

Lemma nth_rev_seq (n d : nat) : 1 <= d <= n -> nth (n - d) (rev (seq 1 n)) 0 = d.
Proof.
  intros Hd. rewrite rev_nth by (rewrite length_seq; lia). rewrite length_seq.
  rewrite seq_nth by lia. lia.
Qed.

Section Loops.
Variables (B C D : nat) (inverse : bool) (x dx : tensor) (r : list K) (prev dprev : talg)
          (junk : K).
Hypothesis Hx : shaped B C x.
Hypothesis Hdx : shaped B C dx.
Hypothesis Hp : graded B C D prev.
Hypothesis Hdp : graded B C D dprev.
Hypothesis Lr : length r = D - 1.

Let nd := map (fun s => tscale s x) r.
Let dnd := fun i => tscale (nth i r 0%F) dx.
Let Sd := scratch_chain inverse x r prev.
Let Td := scratch_tangent inverse x dx r prev dprev.
Let W := mixed_directions inverse x dx r prev dprev.
Let all_scratches := map (ta_ops_backward.fused_scratches prev nd inverse)
                         (rev (seq 1 (D - 1))).
Let all_grad_scratches := map (map (map (map (fun _ : K => junk)))) all_scratches.

Lemma fused_scratches_spec (d : nat) :
  1 <= d ->
  length (ta_ops_backward.fused_scratches prev nd inverse d) = d /\
  forall j, j < d -> nth j (ta_ops_backward.fused_scratches prev nd inverse d) [] = Sd d j.
Proof.
  intros Hd. unfold ta_ops_backward.fused_scratches. cbv zeta.
  set (F := fun (st : tensor * list tensor) (j : nat) =>
              let '(scratch, scratches) := st in
              let k := d - 1 - j in
              let scratch0 := tadd (nth j prev [])
                                   (ta_ops.fused_product inverse scratch (nth k nd [])) in
              (scratch0, scratches ++ [scratch0])).
  assert (H : forall m,
             fold_left F (seq 1 m) (tadd (nth 0 prev []) (nth (d - 1) nd []),
                                    [tadd (nth 0 prev []) (nth (d - 1) nd [])])
             = (Sd d m, map (Sd d) (seq 0 (S m)))).
  { induction m as [|m IH]; [reflexivity|].
    rewrite seq_S, fold_left_app, IH. cbn [fold_left Nat.add]. unfold F at 1. cbv zeta.
    assert (E : tadd (nth (S m) prev [])
                     (ta_ops.fused_product inverse (Sd d m) (nth (d - 1 - S m) nd []))
                = Sd d (S m)).
    { subst Sd nd. unfold scratch_chain. rewrite (seq_S m 1), fold_left_app. reflexivity. }
    rewrite E. f_equal. rewrite (seq_S (S m) 0), map_app. reflexivity. }
  rewrite H. cbn [snd]. split.
  - rewrite length_map, length_seq. lia.
  - intros j Hj. replace (S (d - 1)) with d by lia.
    rewrite (nth_map_seq _ _ 0) by exact Hj. reflexivity.
Qed.

Lemma fused_outer_step_pairing (d : nat) (gnext : tensor) (gprev : talg)
      (gnd : list tensor) :
  1 <= d -> d < D ->
  shaped B C gnext -> graded B C D gprev -> shaped_list B C (D - 1) gnd ->
  let res := fused_backward_outer_step inverse x nd all_scratches all_grad_scratches
                                       (gnext, gprev, gnd) d in
  shaped B C (fst (fst res)) /\ graded B C D (snd (fst res)) /\
  shaped_list B C (D - 1) (snd res) /\
  (tdot (fst (fst res)) dx + pair_terms (snd res) dnd (D - 1)
   + pair_terms (snd (fst res)) (W d) D
   = tdot gnext dx + pair_terms gnd dnd (D - 1) + pair_terms gprev (W (d - 1)) D)%F.
Proof.
  intros Hd1 Hd Hgn Hgp Hgnd res. subst res. unfold fused_backward_outer_step. cbv zeta.
  assert (Las : length all_scratches = D - 1)
    by (subst all_scratches; rewrite length_map, length_rev, length_seq; reflexivity).
  assert (Escr : nth (length all_scratches - d) all_scratches []
                 = ta_ops_backward.fused_scratches prev nd inverse d).
  { rewrite Las. subst all_scratches.
    rewrite (nth_map_in _ _ 0) by (rewrite length_rev, length_seq; lia).
    rewrite nth_rev_seq by lia. reflexivity. }
  assert (Egs : nth (length all_scratches - d) all_grad_scratches []
                = map (map (map (fun _ : K => junk)))
                      (ta_ops_backward.fused_scratches prev nd inverse d)).
  { subst all_grad_scratches. rewrite (nth_map_in _ _ []) by (rewrite Las; lia).
    rewrite Escr. reflexivity. }
  rewrite Egs, Escr.
  destruct (fused_scratches_spec d Hd1) as [Lscr Hscr].
  set (scr := ta_ops_backward.fused_scratches prev nd inverse d) in *.
  set (gs0 := map (map (map (fun _ : K => junk))) scr).
  assert (Lgs0 : length gs0 = d) by (subst gs0; rewrite length_map; exact Lscr).
  rewrite Lgs0, last_nth_length, Lscr, (Hscr (d - 1)) by lia.
  set (view := nth d gprev []).
  assert (Sview : shaped B (C ^ (d - 1 + 1) * C) view).
  { apply (shaped_cast B (C ^ (d + 1))); [|apply Hgp; exact Hd].
    replace (d + 1) with (S (d - 1 + 1)) by lia. cbn [Nat.pow]. lia. }
  assert (SS : shaped B (C ^ (d - 1 + 1)) (Sd d (d - 1)))
    by (subst Sd; apply (shaped_scratch_chain B C D); auto; lia).
  assert (ST : shaped B (C ^ (d - 1 + 1)) (Td d (d - 1)))
    by (subst Td; apply (shaped_scratch_tangent B C D); auto; lia).
  pose proof (shaped_chain_gradient B (C ^ (d - 1 + 1)) C inverse view (Sd d (d - 1)) x x
                                    Sview SS Hx Hx) as S1.
  pose proof (shaped_factor_gradient B (C ^ (d - 1 + 1)) C inverse view (Sd d (d - 1)) x
                                     (Sd d (d - 1)) Sview SS Hx SS) as S2.
  set (gs1 := upd (d - 1) _ gs0).
  assert (Lgs1 : length gs1 = d) by (subst gs1; rewrite upd_length; exact Lgs0).
  assert (Egs1 : nth (d - 1) gs1 []
                 = if inverse
                   then bmm 1 (channel_size x) (channel_size (Sd d (d - 1))) x view
                   else bmm (channel_size (Sd d (d - 1))) (channel_size x) 1 view x)
    by (subst gs1; apply nth_upd_same; lia).
  assert (Sgs1 : shaped B (C ^ (d - 1 + 1)) (nth (d - 1) gs1 []))
    by (rewrite Egs1; exact S1).
  set (gnext1 := tadd gnext _).
  destruct (fused_inner_loop B C D inverse x dx r prev dprev Hx Hdx Hp Hdp Lr d scr (W d)
                             (d - 1) (le_n _) Hd Hscr) with (gprev := gprev) (gnd := gnd)
                                                             (gs := gs1)
    as (R1 & R2 & R3 & R4 & Keep & P); auto.
  { intros j Hj. subst W. unfold mixed_directions.
    replace (j <=? d) with true by (symmetry; apply Nat.leb_le; lia). reflexivity. }
  fold nd in R1, R2, R3, R4, Keep, P |- *. fold Td dnd in P. fold dnd in R2.
  destruct (fold_left (fused_backward_inner_step inverse x nd scr d) (rev (seq 1 (d - 1)))
                      (gprev, gnd, gs1)) as [[gprev2 gnd2] gs2].
  cbn [fst snd] in R1, R2, R3, R4, Keep, P |- *.
  assert (Lgp2 : length gprev2 = D) by apply R1.
  destruct R2 as [Lgnd2 Hgnd2].
  assert (Sg0 : shaped B C (nth 0 gs2 []))
    by (apply (shaped_cast B (C ^ (0 + 1))); [cbn; lia | exact R4]).
  split; [subst gnext1; apply shaped_tadd; assumption|].
  split.
  { split; [rewrite upd_length; exact Lgp2|]. intros i Hi.
    destruct (Nat.eq_dec i 0) as [-> | Hne].
    - rewrite nth_upd_same by lia. apply shaped_tadd; [apply R1; lia | exact R4].
    - rewrite nth_upd_other by lia. apply R1. exact Hi. }
  split.
  { split; [rewrite upd_length; exact Lgnd2|]. intros i Hi.
    destruct (Nat.eq_dec i (d - 1)) as [-> | Hne].
    - rewrite nth_upd_same by lia. apply shaped_tadd; [apply Hgnd2; lia | exact Sg0].
    - rewrite nth_upd_other by lia. apply Hgnd2. exact Hi. }
  rewrite !pair_terms_upd_add by lia.
  subst gnext1. rewrite tdot_tadd_l.
  rewrite <- (fp_adjoint_factor B (C ^ (d - 1 + 1)) C inverse view (Sd d (d - 1)) x
                                (Sd d (d - 1)) dx) by assumption.
  assert (EW0 : W d 0 = nth 0 dprev []) by reflexivity.
  assert (ET0 : Td d 0 = tadd (nth 0 dprev []) (dnd (d - 1))) by reflexivity.
  rewrite EW0. rewrite ET0, tdot_tadd_r in P.
  assert (EP : (pair_terms gprev2 (W d) D + pair_terms gnd2 dnd (D - 1)
                + tdot (nth 0 gs2 []) (nth 0 dprev []) + tdot (nth 0 gs2 []) (dnd (d - 1))
                = pair_terms gprev (W d) D + pair_terms gnd dnd (D - 1)
                  + tdot view (ta_ops.fused_product inverse (Td d (d - 1)) x))%F).
  { rewrite (fp_adjoint_chain B (C ^ (d - 1 + 1)) C inverse view (Sd d (d - 1)) x
                              (Td d (d - 1)) x) by assumption.
    rewrite <- Egs1, <- P. ring. }
  assert (EWd : pair_terms gprev (W d) D
                = (pair_terms gprev (W (d - 1)) D
                   + (tdot view (nth d dprev [])
                      - tdot view (fused_tangent inverse x dx r prev dprev d)))%F).
  { unfold pair_terms.
    rewrite (ksum_change (fun i => tdot (nth i gprev []) (W d i))
                         (fun i => tdot (nth i gprev []) (W (d - 1) i)) D d Hd).
    { cbv beta. fold view. subst W. unfold mixed_directions.
      replace (d <=? d) with true by (symmetry; apply Nat.leb_le; lia).
      replace (d <=? d - 1) with false by (symmetry; apply Nat.leb_gt; lia). reflexivity. }
    intros i Hi Hne. cbv beta. subst W. unfold mixed_directions.
    destruct (Nat.le_gt_cases i (d - 1)) as [H | H].
    - replace (i <=? d) with true by (symmetry; apply Nat.leb_le; lia).
      replace (i <=? d - 1) with true by (symmetry; apply Nat.leb_le; lia). reflexivity.
    - replace (i <=? d) with false by (symmetry; apply Nat.leb_gt; lia).
      replace (i <=? d - 1) with false by (symmetry; apply Nat.leb_gt; lia). reflexivity. }
  assert (EWd' : (tdot view (nth d dprev []) - tdot view (fused_tangent inverse x dx r prev dprev d)
                  = - (tdot view (ta_ops.fused_product inverse (Td d (d - 1)) x)
                       + tdot view (ta_ops.fused_product inverse (Sd d (d - 1)) dx)))%F).
  { unfold fused_tangent. replace (d =? 0) with false by (symmetry; apply Nat.eqb_neq; lia).
    rewrite !tdot_tadd_r. subst Td Sd. ring. }
  match goal with
  | |- (?a + ?b + (?c + ?e) + (?p + ?q))%F = _ =>
    transitivity (a + b + (p + c + q + e))%F; [ring|]
  end.
  subst W. cbv beta in *.
  match goal with
  | H : (?p + ?c + ?q + ?e)%F = _ |- (_ + (?p' + ?c' + ?q' + ?e'))%F = _ =>
    change (p' + c' + q' + e')%F with (p + c + q + e)%F; rewrite H
  end.
  rewrite EWd, EWd'. ring.
Qed.

End Loops.

End FusedBackwardOuter.

Section FusedBackwardValue.
Context {K : ExactField}.
Add Field KfieldE7 : (field_laws K).

Notation "0" := (fzero K) : field_scope.
Notation "1" := (fone K) : field_scope.
Infix "+" := (fadd K) : field_scope.
Infix "*" := (fmul K) : field_scope.
Infix "-" := (fsub K) : field_scope.
Notation "- x" := (fopp K x) : field_scope.

Local Abbreviation vec := (vec K).
Local Abbreviation tensor := (tensor K).
Local Abbreviation tensor3 := (tensor3 K).
Local Abbreviation talg := (talg K).

Lemma tdot_zero_ (t y : tensor) : tdot (zero_ t) y = 0%F.
Proof.
  unfold tdot. rewrite (ksum_ext _ (fun _ => 0%F)); [apply ksum_zero|].
  intros b Hb. unfold zero_ in *. rewrite length_map in Hb.
  rewrite (nth_map_in _ _ []) by exact Hb. unfold vdot.
  rewrite (ksum_ext _ (fun _ => 0%F)); [apply ksum_zero|].
  intros i Hi. rewrite length_map in Hi.
  rewrite (nth_map_in (fun _ => 0%F) _ 0%F) by exact Hi. ring.
Qed.

(** [mult_fused_restricted_exp_backward] as its two loops. *)
Lemma fused_backward_unfold (junk : K) (grad_next : tensor) (grad_prev : talg) (next : tensor)
      (prev : talg) (inverse : bool) (r : list K) :
  ta_ops_backward.mult_fused_restricted_exp_backward junk grad_next grad_prev next prev
                                                     inverse r
  = let next_divided := map (fun s => tscale s next) r in
    let all_scratches :=
      map (ta_ops_backward.fused_scratches prev next_divided inverse)
          (rev (seq 1 (length prev - 1))) in
    let all_grad_scratches := map (map (map (map (fun _ : K => junk)))) all_scratches in
    let st := fold_left (fused_backward_outer_step inverse next next_divided all_scratches
                                                   all_grad_scratches)
                        (seq 1 (length prev - 1))
                        (nth 0 grad_prev [], grad_prev, map zero_ next_divided) in
    (if 1 <? length prev
     then fold_left (fun acc i => tadd acc (tscale (nth i r 0%F) (nth i (snd st) [])))
                    (seq 0 (length prev - 1)) (fst (fst st))
     else fst (fst st),
     snd (fst st)).
Proof.
  unfold ta_ops_backward.mult_fused_restricted_exp_backward. cbv zeta.
  match goal with
  | |- context [fold_left ?f (seq 1 (length prev - 1)) ?i] =>
    set (l := seq 1 (length prev - 1));
    change f with (fused_backward_outer_step
                     inverse next (map (fun s => tscale s next) r)
                     (map (ta_ops_backward.fused_scratches
                             prev (map (fun s => tscale s next) r) inverse)
                          (rev (seq 1 (length prev - 1))))
                     (map (map (map (map (fun _ : K => junk))))
                          (map (ta_ops_backward.fused_scratches
                                  prev (map (fun s => tscale s next) r) inverse)
                               (rev (seq 1 (length prev - 1))))));
    destruct (fold_left _ l i) as [[a b] c]
  end.
  reflexivity.
Qed.

Section Loops.
Variables (B C D : nat) (inverse : bool) (x dx : tensor) (r : list K) (prev dprev : talg)
          (junk : K).
Hypothesis Hx : shaped B C x.
Hypothesis Hdx : shaped B C dx.
Hypothesis Hp : graded B C D prev.
Hypothesis Hdp : graded B C D dprev.
Hypothesis Lr : length r = D - 1.

Let nd := map (fun s => tscale s x) r.
Let dnd := fun i => tscale (nth i r 0%F) dx.
Let W := mixed_directions inverse x dx r prev dprev.
Let all_scratches := map (ta_ops_backward.fused_scratches prev nd inverse)
                         (rev (seq 1 (D - 1))).
Let all_grad_scratches := map (map (map (map (fun _ : K => junk)))) all_scratches.

Lemma fused_outer_loop (n : nat) (gnext : tensor) (gprev : talg) (gnd : list tensor) :
  n <= D - 1 ->
  shaped B C gnext -> graded B C D gprev -> shaped_list B C (D - 1) gnd ->
  let res := fold_left (fused_backward_outer_step inverse x nd all_scratches
                                                  all_grad_scratches)
                       (seq 1 n) (gnext, gprev, gnd) in
  shaped B C (fst (fst res)) /\ graded B C D (snd (fst res)) /\
  shaped_list B C (D - 1) (snd res) /\
  (tdot (fst (fst res)) dx + pair_terms (snd res) dnd (D - 1)
   + pair_terms (snd (fst res)) (W n) D
   = tdot gnext dx + pair_terms gnd dnd (D - 1) + pair_terms gprev (W 0) D)%F.
Proof.
  intros Hn Hgn Hgp Hgnd. induction n as [|n IH]; intros res.
  - subst res. cbn [seq fold_left fst snd]. repeat (split; [assumption|]). reflexivity.
  - subst res. rewrite seq_S, fold_left_app. cbn [fold_left Nat.add].
    destruct (IH ltac:(lia)) as (R1 & R2 & R3 & P).
    destruct (fold_left _ (seq 1 n) (gnext, gprev, gnd)) as [[gnext1 gprev1] gnd1].
    cbn [fst snd] in R1, R2, R3, P.
    destruct (fused_outer_step_pairing B C D inverse x dx r prev dprev junk Hx Hdx Hp Hdp Lr
                                       (S n) gnext1 gprev1 gnd1 ltac:(lia) ltac:(lia)
                                       R1 R2 R3) as (Q1 & Q2 & Q3 & Q).
    fold nd all_scratches all_grad_scratches dnd W in Q1, Q2, Q3, Q.
    repeat (split; [assumption|]).
    rewrite Q. replace (S n - 1) with n by lia. exact P.
Qed.

Lemma scaled_sum_pairing (gnd : list tensor) (n : nat) :
  n <= D - 1 -> shaped_list B C (D - 1) gnd ->
  forall acc : tensor,
    shaped B C acc ->
    let res := fold_left (fun acc i => tadd acc (tscale (nth i r 0%F) (nth i gnd [])))
                         (seq 0 n) acc in
    shaped B C res /\ tdot res dx = (tdot acc dx + pair_terms gnd dnd n)%F.
Proof.
  intros Hn [Lg Hg]. induction n as [|n IH]; intros acc Hacc res.
  - subst res. cbn [seq fold_left]. split; [exact Hacc|]. unfold pair_terms. cbn [ksum]. ring.
  - subst res. rewrite seq_S, fold_left_app. cbn [fold_left Nat.add].
    destruct (IH ltac:(lia) acc Hacc) as [S1 P].
    split; [apply shaped_tadd; [exact S1 | apply shaped_tscale; apply Hg; lia]|].
    rewrite tdot_tadd_l, P. unfold pair_terms. cbn [ksum]. unfold dnd.
    rewrite tdot_tscale_l, tdot_tscale_r. ring.
Qed.

(** The gradients that [mult_fused_restricted_exp_backward] returns pair
    with a direction as the incoming gradient pairs with the derivative of
    the kernel. *)
Lemma fused_backward_pairing (gn0 : tensor) (G : talg) :
  1 <= D -> graded B C D G ->
  let res := ta_ops_backward.mult_fused_restricted_exp_backward junk gn0 G x prev inverse r in
  shaped B C (fst res) /\ graded B C D (snd res) /\
  (tdot (fst res) dx + adot (snd res) dprev
   = ksum (fun d => tdot (nth d G []) (fused_tangent inverse x dx r prev dprev d)) D)%F.
Proof.
  intros HD HG res. subst res. rewrite fused_backward_unfold. cbv zeta.
  assert (Lp : length prev = D) by apply Hp. rewrite Lp.
  fold nd. fold all_scratches. fold all_grad_scratches.
  assert (Hz : shaped_list B C (D - 1) (map zero_ nd)).
  { split; [subst nd; rewrite !length_map; exact Lr|]. intros i Hi.
    rewrite (nth_map_in _ _ []) by (subst nd; rewrite length_map; lia).
    apply shaped_zero_. subst nd. rewrite nth_next_divided by lia.
    apply shaped_tscale. exact Hx. }
  assert (SG0 : shaped B C (nth 0 G []))
    by (apply (shaped_cast B (C ^ (0 + 1))); [cbn; lia | apply HG; lia]).
  destruct (fused_outer_loop (D - 1) (nth 0 G []) G (map zero_ nd) (le_n _) SG0 HG Hz)
    as (R1 & R2 & R3 & P).
  destruct (fold_left _ (seq 1 (D - 1)) (nth 0 G [], G, map zero_ nd))
    as [[gnext gprev] gnd].
  cbn [fst snd] in R1, R2, R3, P |- *.
  assert (Ezero : pair_terms (map zero_ nd) dnd (D - 1) = 0%F).
  { unfold pair_terms. rewrite (ksum_ext _ (fun _ => 0%F)); [apply ksum_zero|].
    intros i Hi. rewrite (nth_map_in _ _ []) by (subst nd; rewrite length_map; lia).
    apply tdot_zero_. }
  assert (EW0 : pair_terms G (W 0) D
                = (ksum (fun d => tdot (nth d G [])
                                       (fused_tangent inverse x dx r prev dprev d)) D
                   - tdot (nth 0 G []) dx)%F).
  { unfold pair_terms.
    rewrite (ksum_change (fun i => tdot (nth i G []) (W 0 i))
                         (fun d => tdot (nth d G []) (fused_tangent inverse x dx r prev dprev d))
                         D 0 ltac:(lia)).
    - cbv beta. subst W. unfold mixed_directions, fused_tangent. cbn [Nat.leb Nat.eqb].
      rewrite tdot_tadd_r. ring.
    - intros i Hi Hne. cbv beta. subst W. unfold mixed_directions.
      replace (i <=? 0) with false by (symmetry; apply Nat.leb_gt; lia). reflexivity. }
  assert (EWD : pair_terms gprev (W (D - 1)) D = adot gprev dprev).
  { unfold pair_terms, adot. destruct R2 as [-> _]. apply ksum_ext. intros i Hi.
    subst W. unfold mixed_directions.
    replace (i <=? D - 1) with true by (symmetry; apply Nat.leb_le; lia). reflexivity. }
  rewrite Ezero, EW0, EWD in P.
  destruct (1 <? D) eqn:E.
  - destruct (scaled_sum_pairing gnd (D - 1) (le_n _) R3 gnext R1) as [S1 Q].
    split; [exact S1|]. split; [exact R2|]. rewrite Q.
    match goal with
    | |- (?a + ?b + ?c)%F = _ => transitivity (a + b + c)%F; [reflexivity|]
    end.
    match type of P with
    | (?a + ?b + ?c)%F = _ => transitivity (a + b + c)%F; [ring | rewrite P; ring]
    end.
  - apply Nat.ltb_ge in E. assert (ED : D - 1 = 0) by lia.
    split; [exact R1|]. split; [exact R2|].
    rewrite ED in P. unfold pair_terms at 1 in P. cbn [ksum] in P.
    match type of P with
    | (?a + ?z + ?c)%F = _ => transitivity (a + z + c)%F; [ring | rewrite P; ring]
    end.
Qed.

End Loops.

Lemma aexp_aline (B C D : nat) (a da : talg) :
  graded B C D a -> graded B C D da -> aexp B C D (aline a da) a da.
Proof.
  intros Ha Hda. assert (La : length a = D) by apply Ha.
  assert (Lda : length da = D) by apply Hda.
  split; [|split; [exact La | split; [exact Lda|]]].
  - intros t. unfold aline. rewrite zipw_length. lia.
  - intros d Hd.
    apply (texp_ext B _ (fun t => tadd (nth d a []) (tscale t (nth d da [])))).
    + intros t. unfold aline.
      rewrite (nth_zipw (fun p d => tadd p (tscale t d)) [] [] []) by lia. reflexivity.
    + apply texp_line; [apply Ha | apply Hda]; exact Hd.
Qed.

End FusedBackwardValue.

Section IncrementsBackward.
Context {K : ExactField}.
Add Field KfieldF1 : (field_laws K).

Notation "0" := (fzero K) : field_scope.
Notation "1" := (fone K) : field_scope.
Infix "+" := (fadd K) : field_scope.
Infix "*" := (fmul K) : field_scope.
Infix "-" := (fsub K) : field_scope.
Notation "- x" := (fopp K x) : field_scope.

Local Abbreviation vec := (vec K).
Local Abbreviation tensor := (tensor K).
Local Abbreviation tensor3 := (tensor3 K).
Local Abbreviation talg := (talg K).

Lemma tdot_tsub_l (B n : nat) (g h x : tensor) :
  shaped B n g -> shaped B n h -> tdot (tsub g h) x = (tdot g x - tdot h x)%F.
Proof.
  intros Hg Hh. assert (Lg : length g = B) by apply Hg. assert (Lh : length h = B) by apply Hh.
  rewrite (tdot_upto (tsub g h) x B), (tdot_upto g x B), (tdot_upto h x B)
    by (left; unfold tsub; rewrite ?zipw_length; lia).
  rewrite <- ksum_sub. apply ksum_ext. intros b Hb.
  unfold tsub. rewrite (nth_zipw _ [] [] []) by lia.
  set (gb := nth b g []). set (hb := nth b h []).
  assert (L : length gb = length hb)
    by (unfold gb, hb; rewrite (shaped_row B n g), (shaped_row B n h); auto).
  set (N := length gb).
  rewrite (vdot_upto (zipw (fsub K) gb hb) _ N), (vdot_upto gb _ N), (vdot_upto hb _ N)
    by (left; rewrite ?zipw_length; lia).
  rewrite <- ksum_sub. apply ksum_ext. intros i _. rewrite nth_zipw_sub by exact L. ring.
Qed.

Lemma tdot_tneg_l (g x : tensor) : tdot (tneg g) x = (- tdot g x)%F.
Proof.
  rewrite tneg_tscale, tdot_tscale_l. ring.
Qed.

Lemma shaped_empty2 (junk : K) (B C : nat) : shaped B C (empty2 junk B C).
Proof.
  unfold empty2. split; [apply repeat_length|]. apply Forall_forall. intros row Hrow.
  apply repeat_spec in Hrow. subst row. apply repeat_length.
Qed.

Lemma nth_empty3 (junk : K) (S B C i : nat) :
  i < S -> nth i (empty3 junk S B C) [] = empty2 junk B C.
Proof. intros Hi. unfold empty3. apply nth_repeat_lt. exact Hi. Qed.

Lemma shaped_junk_like (junk : K) (B C : nat) (t : tensor) :
  shaped B C t -> shaped B C (map (map (fun _ => junk)) t).
Proof.
  intros [L F]. split; [rewrite length_map; exact L|].
  apply Forall_map. apply (Forall_impl _ (P := fun r => length r = C)); auto.
  intros row Hrow. rewrite length_map. exact Hrow.
Qed.

(** Sums of differences of neighbours. *)
Lemma ksum_shift_up (f : nat -> K) (n : nat) :
  ksum (fun i => if i =? 0 then 0%F else f (i - 1)%nat) (S n) = ksum f n.
Proof.
  rewrite ksum_shift. cbn [Nat.eqb]. rewrite (ksum_ext _ f).
  - ring.
  - intros i _. cbn [Nat.eqb]. replace (S i - 1)%nat with i by lia. reflexivity.
Qed.

Lemma ksum_cut (f : nat -> K) (n : nat) :
  ksum (fun i => if i <? n then f i else 0%F) (S n) = ksum f n.
Proof.
  cbn [ksum]. rewrite Nat.ltb_irrefl. rewrite (ksum_ext _ f).
  - ring.
  - intros i Hi. apply Nat.ltb_lt in Hi. rewrite Hi. reflexivity.
Qed.

Lemma shaped3_intro (N B C : nat) (l : tensor3) :
  length l = N -> (forall i, i < N -> shaped B C (nth i l [])) -> shaped3 N B C l.
Proof.
  intros L H. split; [exact L|]. apply Forall_nth. intros i d Hi.
  rewrite (nth_indep _ d []) by exact Hi. apply H. lia.
Qed.

Lemma tdot3_upto (g x : tensor3) (N : nat) :
  length g <= N \/ length x <= N ->
  tdot3 g x = ksum (fun s => tdot (nth s g []) (nth s x [])) N.
Proof.
  intros H. unfold tdot3.
  destruct (Nat.le_gt_cases (length g) N) as [Hg | Hg].
  - symmetry. apply ksum_extend; [exact Hg|]. intros i Hi.
    rewrite (nth_overflow g) by lia. apply tdot_nil_l.
  - destruct H as [H | H]; [lia|]. apply ksum_extend; [lia|]. intros i Hi.
    rewrite (nth_overflow x) by lia. apply tdot_nil_r.
Qed.

Section Branches.
Variables (T B C : nat) (junk : K) (g : tensor3).
Hypothesis Hg : shaped3 T B C g.
Hypothesis HS : 1 <= T.

Let Lg : length g = T := proj1 Hg.

(** Without basepoint and without [inverse]. *)
Lemma increments_backward_plain (p : tensor3) (n : nat) :
  n = T -> shaped3 (T + 1) B C p ->
  let e := empty3 junk (T + 1) B C in
  let c1 := upd 0 (zero_ (nth 0 e [])) e in
  let c2 := signature_detail.write_narrow 1 g c1 in
  let gp := signature_detail.write_narrow 0 (tsub3 (narrow 0 n c2) g) c2 in
  shaped3 (T + 1) B C gp /\
  tdot3 gp p = ksum (fun s => tdot (nth s g []) (tsub (nth (s + 1) p []) (nth s p []))) T.
Proof.
  intros -> Hp e c1 c2 gp.
  assert (Le : length e = T + 1) by (subst e; unfold empty3; apply repeat_length).
  assert (Lc1 : length c1 = T + 1) by (subst c1; rewrite upd_length; exact Le).
  assert (Lc2 : length c2 = T + 1)
    by (subst c2; rewrite write_narrow_length; rewrite ?Lg, ?Lc1; lia).
  assert (Ec2 : forall i, i <= T ->
                          nth i c2 [] = if i =? 0 then zero_ (empty2 junk B C)
                                        else nth (i - 1) g []).
  { intros i Hi. subst c2. rewrite nth_write_narrow by (rewrite Lg, Lc1; lia). rewrite Lg.
    destruct i as [|i].
    - cbn [Nat.leb andb Nat.eqb]. subst c1. rewrite nth_upd_same by lia.
      subst e. rewrite nth_empty3 by lia. reflexivity.
    - replace ((1 <=? S i) && (S i <? 1 + T)) with true
        by (symmetry; apply andb_true_iff; split; [apply Nat.leb_le | apply Nat.ltb_lt]; lia).
      cbn [Nat.eqb]. reflexivity. }
  assert (Sc2 : forall i, i <= T -> shaped B C (nth i c2 [])).
  { intros i Hi. rewrite Ec2 by exact Hi. destruct i; cbn [Nat.eqb].
    - apply shaped_zero_. apply shaped_empty2.
    - apply (shaped3_nth T B C g); [exact Hg | lia]. }
  assert (Lt : length (tsub3 (narrow 0 T c2) g) = T).
  { unfold tsub3. rewrite zipw_length, narrow_length by lia. lia. }
  assert (Egp : forall i, i <= T ->
                          nth i gp [] = if i <? T then tsub (nth i c2 []) (nth i g [])
                                        else nth i c2 []).
  { intros i Hi. subst gp. rewrite nth_write_narrow by (rewrite Lt, Lc2; lia). rewrite Lt.
    cbn [Nat.leb andb Nat.add]. destruct (i <? T) eqn:E; [|reflexivity].
    apply Nat.ltb_lt in E. rewrite Nat.sub_0_r.
    rewrite nth_tsub3 by (rewrite ?narrow_length; lia).
    rewrite nth_narrow by lia. reflexivity. }
  assert (Lgp : length gp = T + 1)
    by (subst gp; rewrite write_narrow_length; rewrite ?Lt, ?Lc2; lia).
  split.
  { apply shaped3_intro; [exact Lgp|]. intros i Hi. rewrite Egp by lia.
    destruct (i <? T) eqn:E.
    - apply Nat.ltb_lt in E. apply shaped_tsub; [apply Sc2; lia|].
      apply (shaped3_nth T B C g); assumption.
    - apply Sc2. lia. }
  rewrite (tdot3_upto gp p (T + 1)) by (left; lia).
  set (P := fun s i => tdot (nth s g []) (nth i p [])).
  rewrite (ksum_ext _ (fun i => ((if i =? 0 then 0 else P (i - 1)%nat (i - 1 + 1)%nat)
                                 - (if i <? T then P i i else 0))%F)).
  - rewrite ksum_sub. replace (T + 1) with (S T) by lia.
    rewrite (ksum_shift_up (fun s => P s (s + 1)%nat)), (ksum_cut (fun s => P s s)).
    rewrite <- ksum_sub. apply ksum_ext. intros s Hs. unfold P.
    rewrite (tdot_tsub_r B C) by (apply (shaped3_nth (T + 1) B C p); auto; lia).
    reflexivity.
  - intros i Hi. rewrite Egp by lia. rewrite !Ec2 by lia. unfold P.
    destruct i as [|i].
    + cbn [Nat.eqb]. replace (0 <? T) with true by (symmetry; apply Nat.ltb_lt; lia).
      rewrite (tdot_tsub_l B C), tdot_zero_;
        [reflexivity | apply shaped_zero_; apply shaped_empty2
         | apply (shaped3_nth T B C g); auto; lia].
    + cbn [Nat.eqb]. replace (S i - 1) with i by lia.
      replace (i + 1) with (S i) by lia.
      destruct (S i <? T) eqn:E.
      * apply Nat.ltb_lt in E.
        rewrite (tdot_tsub_l B C) by (apply (shaped3_nth T B C g); auto; lia).
        reflexivity.
      * ring.
Qed.

(** Without basepoint, with [inverse]. *)
Lemma increments_backward_inverse (p : tensor3) (n : nat) :
  n = T -> shaped3 (T + 1) B C p ->
  let e := empty3 junk (T + 1) B C in
  let c1 := upd (length e - 1) (zero_ (nth (length e - 1) e [])) e in
  let c2 := signature_detail.write_narrow 0 g c1 in
  let gp := signature_detail.write_narrow 1 (tsub3 (narrow 1 n c2) g) c2 in
  shaped3 (T + 1) B C gp /\
  tdot3 gp p = ksum (fun s => tdot (nth s g []) (tsub (nth s p []) (nth (s + 1) p []))) T.
Proof.
  intros -> Hp e c1 c2 gp.
  assert (Le : length e = T + 1) by (subst e; unfold empty3; apply repeat_length).
  assert (Ec1 : c1 = upd T (zero_ (empty2 junk B C)) e).
  { subst c1. rewrite Le. replace (T + 1 - 1) with T by lia.
    subst e. rewrite nth_empty3 by lia. reflexivity. }
  assert (Lc1 : length c1 = T + 1) by (rewrite Ec1, upd_length; exact Le).
  assert (Lc2 : length c2 = T + 1)
    by (subst c2; rewrite write_narrow_length; rewrite ?Lg, ?Lc1; lia).
  assert (Ec2 : forall i, i <= T ->
                          nth i c2 [] = if i <? T then nth i g []
                                        else zero_ (empty2 junk B C)).
  { intros i Hi. subst c2. rewrite nth_write_narrow by (rewrite Lg, Lc1; lia). rewrite Lg.
    cbn [Nat.leb andb Nat.add]. rewrite Nat.sub_0_r.
    destruct (i <? T) eqn:E; [reflexivity|]. apply Nat.ltb_ge in E.
    assert (i = T) by lia. subst i. rewrite Ec1. apply nth_upd_same. lia. }
  assert (Sc2 : forall i, i <= T -> shaped B C (nth i c2 [])).
  { intros i Hi. rewrite Ec2 by exact Hi. destruct (i <? T) eqn:E.
    - apply Nat.ltb_lt in E. apply (shaped3_nth T B C g); assumption.
    - apply shaped_zero_. apply shaped_empty2. }
  assert (Lt : length (tsub3 (narrow 1 T c2) g) = T).
  { unfold tsub3. rewrite zipw_length, narrow_length by lia. lia. }
  assert (Egp : forall i, i <= T ->
                          nth i gp [] = if i =? 0 then nth 0 c2 []
                                        else tsub (nth i c2 []) (nth (i - 1) g [])).
  { intros i Hi. subst gp. rewrite nth_write_narrow by (rewrite Lt, Lc2; lia). rewrite Lt.
    destruct i as [|i]; [reflexivity|].
    replace ((1 <=? S i) && (S i <? 1 + T)) with true
      by (symmetry; apply andb_true_iff; split; [apply Nat.leb_le | apply Nat.ltb_lt]; lia).
    cbn [Nat.eqb]. replace (S i - 1) with i by lia.
    rewrite nth_tsub3 by (rewrite ?narrow_length; lia).
    rewrite nth_narrow by lia. reflexivity. }
  assert (Lgp : length gp = T + 1)
    by (subst gp; rewrite write_narrow_length; rewrite ?Lt, ?Lc2; lia).
  split.
  { apply shaped3_intro; [exact Lgp|]. intros i Hi. rewrite Egp by lia.
    destruct i as [|i]; cbn [Nat.eqb].
    - apply Sc2. lia.
    - apply shaped_tsub; [apply Sc2; lia|].
      apply (shaped3_nth T B C g); [exact Hg | lia]. }
  rewrite (tdot3_upto gp p (T + 1)) by (left; lia).
  set (P := fun s i => tdot (nth s g []) (nth i p [])).
  rewrite (ksum_ext _ (fun i => ((if i <? T then P i i else 0)
                                 - (if i =? 0 then 0 else P (i - 1)%nat (i - 1 + 1)%nat))%F)).
  - rewrite ksum_sub. replace (T + 1) with (S T) by lia.
    rewrite (ksum_shift_up (fun s => P s (s + 1)%nat)), (ksum_cut (fun s => P s s)).
    rewrite <- ksum_sub. apply ksum_ext. intros s Hs. unfold P.
    rewrite (tdot_tsub_r B C) by (apply (shaped3_nth (T + 1) B C p); auto; lia).
    reflexivity.
  - intros i Hi. rewrite Egp by lia. rewrite !Ec2 by lia. unfold P.
    destruct i as [|i].
    + cbn [Nat.eqb]. replace (0 <? T) with true by (symmetry; apply Nat.ltb_lt; lia). ring.
    + cbn [Nat.eqb]. replace (S i - 1) with i by lia.
      replace (i + 1) with (S i) by lia.
      destruct (S i <? T) eqn:E.
      * apply Nat.ltb_lt in E.
        rewrite (tdot_tsub_l B C) by (apply (shaped3_nth T B C g); auto; lia).
        reflexivity.
      * rewrite (tdot_tsub_l B C), tdot_zero_;
          [reflexivity | apply shaped_zero_; apply shaped_empty2
           | apply (shaped3_nth T B C g); auto; lia].
Qed.

(** With a basepoint, without [inverse]. *)
Lemma increments_backward_basepoint (p : tensor3) (bv : tensor) (n : nat) :
  n = T - 1 -> shaped3 T B C p -> shaped B C bv ->
  let gp := signature_detail.write_narrow 0 (tsub3 (narrow 0 n g) (narrow 1 n g)) g in
  shaped3 T B C gp /\
  (tdot3 gp p + tdot (tneg (nth 0 g [])) bv)%F
  = ksum (fun s => tdot (nth s g [])
                        (if s =? 0 then tsub (nth 0 p []) bv
                         else tsub (nth s p []) (nth (s - 1) p []))) T.
Proof.
  intros -> Hp Hbv gp.
  assert (Lt : length (tsub3 (narrow 0 (T - 1) g) (narrow 1 (T - 1) g)) = T - 1).
  { unfold tsub3. rewrite zipw_length, !narrow_length by lia. lia. }
  assert (Egp : forall i, i < T ->
                          nth i gp [] = if i <? T - 1 then tsub (nth i g []) (nth (i + 1) g [])
                                        else nth i g []).
  { intros i Hi. subst gp. rewrite nth_write_narrow by (rewrite Lt, Lg; lia). rewrite Lt.
    cbn [Nat.leb andb Nat.add]. rewrite Nat.sub_0_r.
    destruct (i <? T - 1) eqn:E; [|reflexivity]. apply Nat.ltb_lt in E.
    rewrite nth_tsub3 by (rewrite ?narrow_length; lia).
    rewrite !nth_narrow by lia. cbn [Nat.add]. rewrite Nat.add_1_r. reflexivity. }
  assert (Lgp : length gp = T)
    by (subst gp; rewrite write_narrow_length; rewrite ?Lt, ?Lg; lia).
  split.
  { apply shaped3_intro; [exact Lgp|]. intros i Hi. rewrite Egp by lia.
    destruct (i <? T - 1) eqn:E.
    - apply Nat.ltb_lt in E.
      apply shaped_tsub; apply (shaped3_nth T B C g); auto; lia.
    - apply (shaped3_nth T B C g); assumption. }
  rewrite (tdot3_upto gp p T) by (left; lia). rewrite tdot_tneg_l.
  set (P := fun s i => tdot (nth s g []) (nth i p [])).
  set (X := tdot (nth 0 g []) bv).
  rewrite (ksum_ext _ (fun i => (P i i - (if i <? T - 1 then P (i + 1)%nat i else 0))%F)).
  - rewrite (ksum_ext (fun s => tdot _ _)
                      (fun s => (P s s - (if s =? 0 then X else P s (s - 1)%nat))%F)).
    + rewrite !ksum_sub. destruct T as [|m]; [lia|].
      replace (S m - 1) with m by lia.
      rewrite (ksum_cut (fun i => P (i + 1)%nat i)).
      rewrite (ksum_shift (fun s => if s =? 0 then X else P s (s - 1)%nat)).
      cbn [Nat.eqb].
      rewrite (ksum_ext (fun i => P (S i) (S i - 1)%nat) (fun i => P (i + 1)%nat i)).
      * ring.
      * intros i _. replace (S i - 1) with i by lia. rewrite Nat.add_1_r. reflexivity.
    + intros s Hs. unfold P, X. destruct s as [|s]; cbn [Nat.eqb].
      * apply (tdot_tsub_r B C); [apply (shaped3_nth T B C p); auto | exact Hbv].
      * apply (tdot_tsub_r B C); apply (shaped3_nth T B C p); auto; lia.
  - intros i Hi. rewrite Egp by lia. unfold P.
    destruct (i <? T - 1) eqn:E.
    + apply Nat.ltb_lt in E.
      apply (tdot_tsub_l B C); apply (shaped3_nth T B C g); auto; lia.
    + ring.
Qed.

(** With a basepoint and with [inverse]. *)
Lemma increments_backward_basepoint_inverse (p : tensor3) (bv : tensor) (n : nat) :
  n = T - 1 -> shaped3 T B C p -> shaped B C bv ->
  let e := signature_detail.empty_like3 junk g in
  let c1 := signature_detail.write_narrow 0 (narrow 1 n g) e in
  let c2 := upd (length c1 - 1) (zero_ (nth (length c1 - 1) c1 [])) c1 in
  let gp := tsub3 c2 g in
  shaped3 T B C gp /\
  (tdot3 gp p + tdot (nth 0 g []) bv)%F
  = ksum (fun s => tdot (nth s g [])
                        (if s =? 0 then tsub bv (nth 0 p [])
                         else tsub (nth (s - 1) p []) (nth s p []))) T.
Proof.
  intros -> Hp Hbv e c1 c2 gp.
  assert (Le : length e = T)
    by (subst e; unfold signature_detail.empty_like3; rewrite length_map; exact Lg).
  assert (Se : forall i, i < T -> shaped B C (nth i e [])).
  { intros i Hi. subst e. unfold signature_detail.empty_like3.
    rewrite (nth_map_in _ _ []) by lia. apply shaped_junk_like.
    apply (shaped3_nth T B C g); assumption. }
  assert (Ln : length (narrow 1 (T - 1) g) = T - 1) by (apply narrow_length; lia).
  assert (Lc1 : length c1 = T)
    by (subst c1; rewrite write_narrow_length; rewrite ?Ln, ?Le; lia).
  assert (Ec1 : forall i, i < T ->
                          nth i c1 [] = if i <? T - 1 then nth (i + 1) g [] else nth i e []).
  { intros i Hi. subst c1. rewrite nth_write_narrow by (rewrite Ln, Le; lia). rewrite Ln.
    cbn [Nat.leb andb Nat.add]. rewrite Nat.sub_0_r.
    destruct (i <? T - 1) eqn:E; [|reflexivity]. apply Nat.ltb_lt in E.
    rewrite nth_narrow by lia. cbn [Nat.add]. rewrite Nat.add_1_r. reflexivity. }
  assert (Sc1 : forall i, i < T -> shaped B C (nth i c1 [])).
  { intros i Hi. rewrite Ec1 by exact Hi. destruct (i <? T - 1) eqn:E.
    - apply Nat.ltb_lt in E. apply (shaped3_nth T B C g); auto; lia.
    - apply Se. exact Hi. }
  assert (Lc2 : length c2 = T) by (subst c2; rewrite upd_length; exact Lc1).
  assert (Ec2 : forall i, i < T ->
                          nth i c2 [] = if i <? T - 1 then nth (i + 1) g []
                                        else zero_ (nth (T - 1) c1 [])).
  { intros i Hi. subst c2. rewrite Lc1. destruct (i <? T - 1) eqn:E.
    - apply Nat.ltb_lt in E. rewrite nth_upd_other by lia. rewrite Ec1 by lia.
      replace (i <? T - 1) with true by (symmetry; apply Nat.ltb_lt; lia). reflexivity.
    - apply Nat.ltb_ge in E. assert (i = T - 1) by lia. subst i.
      apply nth_upd_same. lia. }
  assert (Egp : forall i, i < T -> nth i gp [] = tsub (nth i c2 []) (nth i g []))
    by (intros i Hi; subst gp; apply nth_tsub3; lia).
  assert (Lgp : length gp = T)
    by (subst gp; unfold tsub3; rewrite zipw_length; lia).
  assert (Sc2 : forall i, i < T -> shaped B C (nth i c2 [])).
  { intros i Hi. rewrite Ec2 by exact Hi. destruct (i <? T - 1) eqn:E.
    - apply Nat.ltb_lt in E. apply (shaped3_nth T B C g); auto; lia.
    - apply shaped_zero_. apply Sc1. lia. }
  split.
  { apply shaped3_intro; [exact Lgp|]. intros i Hi. rewrite Egp by lia.
    apply shaped_tsub; [apply Sc2; lia | apply (shaped3_nth T B C g); auto]. }
  rewrite (tdot3_upto gp p T) by (left; lia).
  set (P := fun s i => tdot (nth s g []) (nth i p [])).
  set (X := tdot (nth 0 g []) bv).
  rewrite (ksum_ext _ (fun i => ((if i <? T - 1 then P (i + 1)%nat i else 0) - P i i)%F)).
  - rewrite (ksum_ext (fun s => tdot _ _)
                      (fun s => ((if s =? 0 then X else P s (s - 1)%nat) - P s s)%F)).
    + rewrite !ksum_sub. destruct T as [|m]; [lia|].
      replace (S m - 1) with m by lia.
      rewrite (ksum_cut (fun i => P (i + 1)%nat i)).
      rewrite (ksum_shift (fun s => if s =? 0 then X else P s (s - 1)%nat)).
      cbn [Nat.eqb].
      rewrite (ksum_ext (fun i => P (S i) (S i - 1)%nat) (fun i => P (i + 1)%nat i)).
      * ring.
      * intros i _. replace (S i - 1) with i by lia. rewrite Nat.add_1_r. reflexivity.
    + intros s Hs. unfold P, X. destruct s as [|s]; cbn [Nat.eqb].
      * apply (tdot_tsub_r B C); [exact Hbv | apply (shaped3_nth T B C p); auto].
      * apply (tdot_tsub_r B C); apply (shaped3_nth T B C p); auto; lia.
  - intros i Hi. rewrite Egp by lia.
    rewrite (tdot_tsub_l B C) by
        (try (apply Sc2; lia); apply (shaped3_nth T B C g); auto; lia).
    rewrite Ec2 by lia. unfold P.
    destruct (i <? T - 1) eqn:E; [reflexivity|]. rewrite tdot_zero_. reflexivity.
Qed.

End Branches.

Lemma well_formed_shaped3 (N B C : nat) (p : tensor3) (o : TensorOptions) :
  shaped3 N B C p -> well_formed {| sizes := [N; B; C]; options := o; data := D3 p |} = true.
Proof.
  intros [L F]. unfold well_formed. cbn [data sizes]. apply andb_true_iff. split.
  - apply Nat.eqb_eq. exact L.
  - apply forallb_forall. intros x Hx. apply rows_ok_shaped.
    apply (proj1 (Forall_forall _ _) F). exact Hx.
Qed.

(** The backward pass of the increments is the adjoint of the forward one. *)
Lemma increments_backward_pairing (N B C : nat) (junk junk' : K) (grad : Tensor K)
      (p : tensor3) (bv : tensor) (basepoint inverse : bool) (opts : TensorOptions) :
  1 <= N - (if basepoint then 0 else 1) ->
  well_formed grad = true -> sizes grad = [N - (if basepoint then 0 else 1); B; C] ->
  shaped3 N B C p -> (basepoint = true -> shaped B C bv) ->
  let res := signature_detail_backward.compute_path_increments_backward
               junk grad basepoint inverse opts in
  well_formed (fst res) = true /\ sizes (fst res) = [N; B; C] /\
  shaped3 N B C (as3 (fst res)) /\
  (if basepoint then shaped B C (as2 (snd res)) /\ sizes (snd res) = [B; C]
                     /\ well_formed (snd res) = true
   else sizes (snd res) = [0]) /\
  tdot3 (as3 grad) (signature_detail.compute_path_increments junk' p basepoint bv inverse)
  = (tdot3 (as3 (fst res)) p + (if basepoint then tdot (as2 (snd res)) bv else 0))%F.
Proof.
  intros HT Hw Hs Hp Hbv res.
  destruct (well_formed_data3 grad _ B C Hw Hs) as (g & Dg & Hg).
  destruct (size_3 grad _ B C Hs) as (Z1 & Z2 & Z3).
  assert (Ag : as3 grad = g) by (unfold as3; rewrite Dg; reflexivity).
  assert (Lg : length g = N - (if basepoint then 0 else 1)) by apply Hg.
  assert (HN : 1 <= N) by (destruct basepoint; lia).
  assert (Li : length (signature_detail.compute_path_increments junk' p basepoint bv inverse)
               = N - (if basepoint then 0 else 1))
    by (apply (compute_path_increments_length N B C); assumption).
  rewrite Ag, (tdot3_upto g _ (N - (if basepoint then 0 else 1))) by (left; lia).
  subst res. unfold signature_detail_backward.compute_path_increments_backward.
  rewrite Z1, Z2, Z3, Ag. cbv zeta.
  destruct basepoint.
  - rewrite Nat.sub_0_r in *. specialize (Hbv eq_refl).
    assert (S0 : shaped B C (nth 0 g [])) by (apply (shaped3_nth N B C g); auto).
    rewrite (ksum_ext _ (fun s => tdot (nth s g [])
               (if inverse then if s =? 0 then tsub bv (nth 0 p [])
                                else tsub (nth (s - 1) p []) (nth s p [])
                else if s =? 0 then tsub (nth 0 p []) bv
                     else tsub (nth s p []) (nth (s - 1) p [])))).
    2:{ intros s Hs'. f_equal. destruct s as [|s].
        - rewrite (compute_path_increments_basepoint_0 N B C) by assumption.
          destruct inverse; reflexivity.
        - rewrite (compute_path_increments_basepoint_nth N B C) by (auto; lia).
          destruct inverse; reflexivity. }
    destruct inverse; cbn [fst snd].
    + destruct (increments_backward_basepoint_inverse N B C junk g Hg HN p bv (N - 1)
                  eq_refl Hp Hbv) as [Sh E].
      cbv zeta in Sh, E. rewrite Hs.
      split; [apply well_formed_shaped3; exact Sh|]. split; [reflexivity|].
      unfold as3 at 1 2, as2, select. cbn [data sizes tl]. rewrite Ag, ?Hs. cbn [tl].
      split; [exact Sh|]. split.
      * split; [exact S0|]. split; [reflexivity|]. unfold well_formed. cbn [data sizes].
        apply rows_ok_shaped. exact S0.
      * rewrite E. apply ksum_ext. intros s _. reflexivity.
    + destruct (increments_backward_basepoint N B C g Hg HN p bv (N - 1)
                  eq_refl Hp Hbv) as [Sh E].
      cbv zeta in Sh, E. rewrite Hs.
      assert (S0' : shaped B C (tneg (nth 0 g []))).
      { rewrite tneg_tscale. apply shaped_tscale. exact S0. }
      split; [apply well_formed_shaped3; exact Sh|]. split; [reflexivity|].
      unfold as3 at 1 2, as2. cbn [data sizes tl].
      split; [exact Sh|]. split.
      * split; [exact S0'|]. split; [reflexivity|]. unfold well_formed. cbn [data sizes tl].
        apply rows_ok_shaped. exact S0'.
      * rewrite E. apply ksum_ext. intros s _. reflexivity.
  - cbv iota in *. set (T := N - 1) in *. assert (EN : N = T + 1) by (subst T; lia).
    replace (T + 1) with N by exact EN.
    rewrite (ksum_ext _ (fun s => tdot (nth s g [])
               (if inverse then tsub (nth s p []) (nth (s + 1) p [])
                else tsub (nth (s + 1) p []) (nth s p [])))).
    2:{ intros s Hs'. f_equal. apply (compute_path_increments_nth N B C). - exact Hp.
        - fold T. exact Hs'. }
    rewrite EN in Hp.
    destruct inverse; cbn [fst snd].
    + destruct (increments_backward_inverse T B C junk g Hg HT p (N - 1)
                  eq_refl Hp) as [Sh E].
      cbv zeta in Sh, E. rewrite <- EN in Sh, E.
      split; [apply well_formed_shaped3; exact Sh|]. split; [reflexivity|].
      unfold as3 at 1 2. cbn [data sizes].
      split; [exact Sh|]. split; [reflexivity|].
      rewrite E. ring.
    + destruct (increments_backward_plain T B C junk g Hg HT p (N - 1)
                  eq_refl Hp) as [Sh E].
      cbv zeta in Sh, E. rewrite <- EN in Sh, E.
      split; [apply well_formed_shaped3; exact Sh|]. split; [reflexivity|].
      unfold as3 at 1 2. cbn [data sizes].
      split; [exact Sh|]. split; [reflexivity|].
      rewrite E. ring.
Qed.

End IncrementsBackward.

Section SignatureTangents.
Context {K : ExactField}.
Add Field KfieldG1 : (field_laws K).

Notation "0" := (fzero K) : field_scope.
Notation "1" := (fone K) : field_scope.
Infix "+" := (fadd K) : field_scope.
Infix "*" := (fmul K) : field_scope.
Infix "-" := (fsub K) : field_scope.
Notation "- x" := (fopp K x) : field_scope.

Local Abbreviation vec := (vec K).
Local Abbreviation tensor := (tensor K).
Local Abbreviation tensor3 := (tensor3 K).
Local Abbreviation talg := (talg K).

(** ** Writing through the views *)

Lemma write_through_unslice (B C D : nat) (buf : tensor) (terms : talg) :
  1 <= D -> shaped B (span C C D) buf -> graded B C D terms ->
  write_through buf terms = misc.unslice terms.
Proof.
  intros HD Hb Ht. pose proof (shaped_unslice B C D terms HD Ht) as Hu.
  assert (Lb : length buf = B) by apply Hb. assert (Lu : length (misc.unslice terms) = B)
    by apply Hu.
  unfold write_through. rewrite Lb. apply (nth_ext _ _ [] []).
  - rewrite length_map, length_seq. lia.
  - intros b Hb'. rewrite length_map, length_seq in Hb'.
    rewrite (nth_map_seq _ [] 0) by exact Hb'. cbn [plus].
    rewrite (shaped_row B _ _ b Hu Hb').
    rewrite skipn_all2 by (rewrite (shaped_row B _ _ b Hb Hb'); lia).
    apply app_nil_r.
Qed.

(** ** The signatures along the stream and their derivatives *)

Lemma nth_line3 (S B C : nat) (x dx : tensor3) (t : K) (s : nat) :
  shaped3 S B C x -> shaped3 S B C dx -> s < S ->
  nth s (line3 x dx t) [] = tadd (nth s x []) (tscale t (nth s dx [])).
Proof.
  intros [Lx _] [Ld _] Hs. unfold line3.
  apply (nth_zipw (fun a d => tadd a (tscale t d)) [] [] []); lia.
Qed.

Lemma shaped3_line3 (S B C : nat) (x dx : tensor3) (t : K) :
  shaped3 S B C x -> shaped3 S B C dx -> shaped3 S B C (line3 x dx t).
Proof.
  intros Hx Hd. apply shaped3_intro.
  - unfold line3. rewrite zipw_length. destruct Hx as [-> _], Hd as [-> _]. lia.
  - intros s Hs. rewrite (nth_line3 S B C) by assumption.
    apply shaped_tadd; [|apply shaped_tscale]; apply (shaped3_nth S B C); assumption.
Qed.

Lemma firstn_snoc {A : Type} (l : list A) (d : A) (s : nat) :
  s < length l -> firstn (S s) l = firstn s l ++ [nth s l d].
Proof.
  revert s. induction l as [|y l IH]; intros s Hs; cbn in Hs; [lia|].
  destruct s as [|s]; [reflexivity|].
  change (y :: firstn (S s) l = y :: (firstn s l ++ [nth s l d])). f_equal.
  apply IH. lia.
Qed.

(** A channel range of a family that expands. *)
Lemma texp_narrow (B W pos len : nat) (Phi : K -> tensor) (A T : tensor) :
  pos + len <= W -> texp B W Phi A T ->
  texp B len (fun t => map (narrow pos len) (Phi t)) (map (narrow pos len) A)
       (map (narrow pos len) T).
Proof.
  intros Hr (H1 & H2 & H3 & H4).
  assert (Sh : forall x : tensor, shaped B W x -> shaped B len (map (narrow pos len) x)).
  { intros x [L F]. split; [rewrite length_map; exact L|].
    rewrite Forall_map. eapply Forall_impl; [|exact F]. intros row Hrow. cbn beta.
    apply narrow_length. rewrite Hrow. exact Hr. }
  assert (En : forall (x : tensor) b i,
             i < len -> ent (map (narrow pos len) x) b i = ent x b (pos + i)).
  { intros x b i Hi. unfold ent.
    rewrite nth_map_rows by (unfold narrow; destruct pos, len; reflexivity).
    apply nth_narrow. exact Hi. }
  split; [|split; [|split]]; auto.
  intros b i Hb Hi.
  apply (expands_ext (fun t => ent (Phi t) b (pos + i))).
  - intros t. symmetry. apply En. exact Hi.
  - rewrite !En by exact Hi. apply H4; [exact Hb | lia].
Qed.

(** The views of a buffer that moves along a line. *)
Lemma aexp_slice_line (B C D : nat) (iv div : tensor) :
  shaped B (span C C D) iv -> shaped B (span C C D) div ->
  aexp B C D (fun t => misc.slice_by_term (tadd iv (tscale t div)) C D)
       (misc.slice_by_term iv C D) (misc.slice_by_term div C D).
Proof.
  intros Hiv Hdiv. split; [|split; [|split]]; try (intros; apply slice_by_term_length).
  intros d Hd.
  apply (texp_ext B _ (fun t => map (narrow (span C C d) (C ^ (d + 1)))
                                    (tadd iv (tscale t div)))).
  { intros t. symmetry. apply slice_by_term_nth. exact Hd. }
  rewrite !slice_by_term_nth by exact Hd.
  apply (texp_narrow B (span C C D)).
  - pose proof (span_mono C C (S d) D ltac:(lia)) as M. rewrite span_S in M.
    replace (C ^ (d + 1)) with (C * C ^ d) by (rewrite Nat.add_1_r; reflexivity). exact M.
  - apply texp_line; assumption.
Qed.

Section Along.
Variables (B C D S : nat) (inverse initial : bool) (r : list K) (iv div : tensor)
          (incs dincs : tensor3).
Hypothesis HD : 1 <= D.
Hypothesis Lr : length r = D - 1.
Hypothesis Hincs : shaped3 S B C incs.
Hypothesis Hdincs : shaped3 S B C dincs.
Hypothesis Hiv : initial = true -> shaped B (span C C D) iv.
Hypothesis Hdiv : initial = true -> shaped B (span C C D) div.

Lemma graded_sig_at (s : nat) :
  s < S -> graded B C D (sig_at inverse initial r C D iv incs s).
Proof.
  induction s as [|s IH]; intros Hs; cbn [sig_at].
  - apply (graded_first_signature B C D); auto. apply (shaped3_nth S B C); auto.
  - apply graded_fused; [apply IH; lia | apply (shaped3_nth S B C); auto | exact Lr].
Qed.

Lemma graded_first_tangent (x dx : tensor) :
  shaped B C x -> shaped B C dx ->
  graded B C D (first_tangent inverse initial r C D iv div x dx).
Proof.
  intros Hx Hdx. unfold first_tangent. destruct initial.
  - split; [rewrite length_map, length_seq; reflexivity|]. intros i Hi.
    rewrite (nth_map_seq _ [] 0) by exact Hi. cbn [plus].
    apply (shaped_fused_tangent B C D); auto; apply graded_slice_by_term; auto.
  - split; [rewrite length_map, length_seq; reflexivity|]. intros i Hi.
    rewrite (nth_map_seq _ [] 0) by exact Hi. cbn [plus].
    apply shaped_rexp_tangent; assumption.
Qed.

Lemma graded_tan_at (s : nat) :
  s < S -> graded B C D (tan_at inverse initial r C D iv div incs dincs s).
Proof.
  induction s as [|s IH]; intros Hs; cbn [tan_at].
  - apply graded_first_tangent; apply (shaped3_nth S B C); auto.
  - split; [rewrite length_map, length_seq; reflexivity|]. intros i Hi.
    rewrite (nth_map_seq _ [] 0) by exact Hi. cbn [plus].
    apply (shaped_fused_tangent B C D); auto.
    + apply graded_sig_at. lia.
    + apply IH. lia.
    + apply (shaped3_nth S B C); auto.
    + apply (shaped3_nth S B C); auto.
Qed.

(** [sig_at] is the fold of the fused kernel that the forward pass runs. *)
Lemma sig_at_drive (s : nat) :
  s < S ->
  sig_at inverse initial r C D iv incs s
  = drive inverse r (first_signature inverse initial r C D iv (nth 0 incs []))
          (firstn s (tl incs)).
Proof.
  induction s as [|s IH]; intros Hs; [reflexivity|].
  cbn [sig_at]. rewrite IH by lia.
  assert (L : length (tl incs) = S - 1).
  { destruct Hincs as [L _]. destruct incs; cbn in *; lia. }
  rewrite (firstn_snoc (tl incs) [] s) by lia. rewrite drive_app.
  replace (nth s (tl incs) []) with (nth (Datatypes.S s) incs [])
    by (destruct incs; [destruct s|]; reflexivity).
  reflexivity.
Qed.

Lemma texp_line3 (s : nat) :
  s < S -> texp B C (fun t => nth s (line3 incs dincs t) []) (nth s incs []) (nth s dincs []).
Proof.
  intros Hs.
  apply (texp_ext B C (fun t => tadd (nth s incs []) (tscale t (nth s dincs [])))).
  - intros t. symmetry. apply (nth_line3 S B C); assumption.
  - apply texp_line; apply (shaped3_nth S B C); assumption.
Qed.

(** The signatures of a path that moves along a line expand around the
    signatures of the path, with the derivatives [tan_at]. *)
Lemma aexp_sig_at (s : nat) :
  s < S ->
  aexp B C D
       (fun t => sig_at inverse initial r C D (tadd iv (tscale t div)) (line3 incs dincs t) s)
       (sig_at inverse initial r C D iv incs s)
       (tan_at inverse initial r C D iv div incs dincs s).
Proof.
  induction s as [|s IH]; intros Hs.
  - cbn [sig_at tan_at]. unfold first_signature, first_tangent. destruct initial.
    + apply (aexp_fused B C D inverse (fun t => nth 0 (line3 incs dincs t) [])
                        (fun t => misc.slice_by_term (tadd iv (tscale t div)) C D)).
      * apply texp_line3. exact Hs.
      * apply aexp_slice_line; auto.
      * exact Lr.
    + pose proof (aexp_restricted_exp B C (fun t => nth 0 (line3 incs dincs t) [])
                                      (nth 0 incs []) (nth 0 dincs []) (repeat [] D) r
                                      (texp_line3 0 Hs)) as H.
      rewrite repeat_length in H. exact H.
  - cbn [sig_at tan_at].
    apply (aexp_fused B C D inverse (fun t => nth (Datatypes.S s) (line3 incs dincs t) [])
                      (fun t => sig_at inverse initial r C D (tadd iv (tscale t div))
                                       (line3 incs dincs t) s)).
    + apply texp_line3. exact Hs.
    + apply IH. lia.
    + exact Lr.
Qed.

End Along.

End SignatureTangents.

Section BackwardLoop.
Context {K : ExactField}.
Add Field KfieldG2 : (field_laws K).

Notation "0" := (fzero K) : field_scope.
Notation "1" := (fone K) : field_scope.
Infix "+" := (fadd K) : field_scope.
Infix "*" := (fmul K) : field_scope.
Infix "-" := (fsub K) : field_scope.
Notation "- x" := (fopp K x) : field_scope.

Local Abbreviation vec := (vec K).
Local Abbreviation tensor := (tensor K).
Local Abbreviation tensor3 := (tensor3 K).
Local Abbreviation talg := (talg K).

Lemma tdot_unslice_r (B C D : nat) (g : tensor) (a : talg) :
  1 <= D -> shaped B (span C C D) g -> graded B C D a ->
  tdot g (misc.unslice a) = adot (misc.slice_by_term g C D) a.
Proof.
  intros HD Hg Ha. rewrite (tdot_slices B C D) by (auto using shaped_unslice).
  rewrite (slice_unslice B C D) by exact Ha. reflexivity.
Qed.

Lemma tdot_unslice_both (B C D : nat) (g a : talg) :
  1 <= D -> graded B C D g -> graded B C D a ->
  tdot (misc.unslice g) (misc.unslice a) = adot g a.
Proof.
  intros HD Hg Ha. rewrite (tdot_unslice B C D) by (auto using shaped_unslice).
  rewrite (slice_unslice B C D) by exact Ha. reflexivity.
Qed.

Lemma slice_at_stream_views (sig3 : tensor3) (C D s : nat) :
  misc.slice_at_stream (misc.slice_by_term_views 0 (Z.of_nat C) (Z.of_nat C) D) sig3 s
  = misc.slice_by_term (nth s sig3 []) C D.
Proof. reflexivity. Qed.

Section Loop.
Variables (B C D S : nat) (junk : K) (stream inverse initial : bool) (r : list K)
          (iv div : tensor) (incs dincs sig3 G3 : tensor3) (total : K).
Hypothesis HD : 1 <= D.
Hypothesis Er : r = misc.make_reciprocals D.
Hypothesis Hincs : shaped3 S B C incs.
Hypothesis Hdincs : shaped3 S B C dincs.
Hypothesis Hiv : initial = true -> shaped B (span C C D) iv.
Hypothesis Hdiv : initial = true -> shaped B (span C C D) div.
Hypothesis HG3 : stream = true -> shaped3 S B (span C C D) G3.
Hypothesis Hsig3 : stream = true ->
                   forall s, s < S ->
                             nth s sig3 [] = misc.unslice (sig_at inverse initial r C D iv incs s).

Let Lr : length r = D - 1.
Proof. rewrite Er. apply make_reciprocals_length. Qed.

Lemma backward_step_inv (m : nat) (st : tensor3 * tensor * talg) :
  Datatypes.S m < S ->
  backward_inv B C D S stream inverse initial r iv div incs dincs G3 total (Datatypes.S m) st ->
  backward_inv B C D S stream inverse initial r iv div incs dincs G3 total m
               (backward_step junk stream inverse r C D
                              (misc.slice_by_term_views 0 (Z.of_nat C) (Z.of_nat C) D)
                              sig3 G3 incs st (Datatypes.S m)).
Proof.
  intros Hm. destruct st as [[gpi gsas] at_stream].
  intros (Lg & Sg & Se & Hat & P).
  set (A := sig_at inverse initial r C D iv incs) in *.
  set (dA := tan_at inverse initial r C D iv div incs dincs) in *.
  set (x := nth (Datatypes.S m) incs []). set (dx := nth (Datatypes.S m) dincs []).
  assert (Hx : shaped B C x) by (apply (shaped3_nth S B C); auto).
  assert (Hdx : shaped B C dx) by (apply (shaped3_nth S B C); auto).
  assert (HA : graded B C D (A m)) by (apply (graded_sig_at B C D S); auto; lia).
  assert (HdA : graded B C D (dA m)) by (apply (graded_tan_at B C D S); auto; lia).
  assert (HdA' : graded B C D (dA (Datatypes.S m))) by (apply (graded_tan_at B C D S); auto).
  unfold backward_step. cbv zeta. fold x.
  replace (Datatypes.S m - 1) with m by lia.
  assert (Eat : (if stream
                 then misc.slice_at_stream
                        (misc.slice_by_term_views 0 (Z.of_nat C) (Z.of_nat C) D) sig3 m
                 else ta_ops.mult_fused_restricted_exp (tneg x) at_stream inverse r)
                = A m).
  { destruct stream.
    - rewrite slice_at_stream_views, Hsig3 by (auto; lia).
      apply (slice_unslice B C D). exact HA.
    - rewrite Hat by (left; reflexivity). change (A (Datatypes.S m))
        with (ta_ops.mult_fused_restricted_exp x (A m) inverse r).
      rewrite Er. apply (fused_round_trip B C D); assumption. }
  rewrite Eat.
  set (Gs := misc.slice_by_term gsas C D).
  assert (HGs : graded B C D Gs) by (apply graded_slice_by_term; exact Sg).
  destruct (fused_backward_pairing B C D inverse x dx r (A m) (dA m) junk Hx Hdx HA HdA Lr
                                   (nth (Datatypes.S m) gpi []) Gs HD HGs) as (R1 & R2 & R3).
  destruct (ta_ops_backward.mult_fused_restricted_exp_backward _ _ _ _ _ _ _) as [gn G'].
  cbn [fst snd] in R1, R2, R3.
  rewrite (write_through_unslice B C D) by assumption.
  assert (Su : shaped B (span C C D) (misc.unslice G')) by (apply shaped_unslice; assumption).
  unfold backward_inv.
  split; [rewrite upd_length; exact Lg|]. split.
  { destruct stream; [|exact Su]. apply shaped_tadd; [exact Su|].
    apply (shaped3_nth S B (span C C D)); [auto | lia]. }
  split.
  { intros s Hs1 Hs2. destruct (Nat.eq_dec s (Datatypes.S m)) as [-> | Hne].
    - rewrite nth_upd_same by lia. exact R1.
    - rewrite nth_upd_other by lia. apply Se; lia. }
  split; [intros _; reflexivity|].
  rewrite <- P.
  rewrite (ksum_change (fun s => tdot (nth s (upd (Datatypes.S m) gn gpi) []) (above m dincs s))
                       (fun s => tdot (nth s gpi []) (above (Datatypes.S m) dincs s))
                       S (Datatypes.S m) Hm).
  2:{ intros i Hi Hne. cbv beta. rewrite nth_upd_other by lia. unfold above.
      destruct (m <? i) eqn:E1, (Datatypes.S m <? i) eqn:E2; try reflexivity.
      - apply Nat.ltb_lt in E1. apply Nat.ltb_ge in E2. lia.
      - apply Nat.ltb_ge in E1. apply Nat.ltb_lt in E2. lia. }
  cbv beta. rewrite nth_upd_same by lia. unfold above at 2 3.
  replace (m <? Datatypes.S m) with true by (symmetry; apply Nat.ltb_lt; lia).
  rewrite Nat.ltb_irrefl, tdot_nil_r. fold dx.
  assert (EK : tdot gsas (misc.unslice (dA (Datatypes.S m)))
               = (tdot gn dx + adot G' (dA m))%F).
  { rewrite R3. rewrite (tdot_unslice_r B C D) by assumption. fold Gs.
    rewrite (adot_upto Gs _ D) by (left; destruct HGs as [-> _]; lia).
    apply ksum_ext. intros d Hd. f_equal.
    change (dA (Datatypes.S m))
      with (map (fused_tangent inverse x dx r (A m) (dA m)) (seq 0 D)).
    rewrite (nth_map_seq _ [] 0) by exact Hd. reflexivity. }
  rewrite EK.
  destruct stream.
  - rewrite tdot_tadd_l, (tdot_unslice_both B C D) by assumption.
    cbn [ksum]. unfold dA. ring.
  - rewrite (tdot_unslice_both B C D) by assumption. unfold dA. ring.
Qed.

Lemma backward_loop_inv (m : nat) :
  forall st : tensor3 * tensor * talg,
    m < S ->
    backward_inv B C D S stream inverse initial r iv div incs dincs G3 total m st ->
    backward_inv B C D S stream inverse initial r iv div incs dincs G3 total 0
                 (fold_left (backward_step junk stream inverse r C D
                                           (misc.slice_by_term_views 0 (Z.of_nat C)
                                                                     (Z.of_nat C) D)
                                           sig3 G3 incs)
                            (rev (seq 1 m)) st).
Proof.
  induction m as [|m IH]; intros st Hm Hst; [exact Hst|].
  rewrite seq_S, rev_app_distr. cbn [rev app fold_left Nat.add].
  apply IH; [lia|]. apply backward_step_inv; assumption.
Qed.

(** The last step, on the increment 0. *)
Lemma backward_last_step (gpi : tensor3) (gsas : tensor) (at_stream : talg) :
  1 <= S ->
  backward_inv B C D S stream inverse initial r iv div incs dincs G3 total 0
               (gpi, gsas, at_stream) ->
  let grad_next := nth 0 gpi [] in
  let next := nth 0 incs [] in
  let Gs := misc.slice_by_term gsas C D in
  let res :=
    if initial then
      ta_ops_backward.mult_fused_restricted_exp_backward
        junk grad_next Gs next
        (ta_ops.mult_fused_restricted_exp (tneg next) at_stream inverse r) inverse r
    else ta_ops_backward.restricted_exp_backward grad_next Gs next at_stream r in
  shaped3 S B C (upd 0 (fst res) gpi) /\
  (initial = true -> shaped B (span C C D) (write_through gsas (snd res))) /\
  (tdot3 (upd 0 (fst res) gpi) dincs
   + (if initial then tdot (write_through gsas (snd res)) div else 0) = total)%F.
Proof.
  intros HS (Lg & Sg & Se & Hat & P). intros grad_next next Gs res.
  assert (Eat : at_stream = sig_at inverse initial r C D iv incs 0)
    by (apply Hat; destruct stream; [right; lia | left; reflexivity]).
  set (dx := nth 0 dincs []).
  assert (Hx : shaped B C next) by (apply (shaped3_nth S B C); auto).
  assert (Hdx : shaped B C dx) by (apply (shaped3_nth S B C); auto).
  assert (HGs : graded B C D Gs) by (apply graded_slice_by_term; exact Sg).
  assert (HdA : graded B C D (tan_at inverse initial r C D iv div incs dincs 0))
    by (apply (graded_tan_at B C D S); auto).
  assert (Key : shaped B C (fst res) /\
                (initial = true -> shaped B (span C C D) (write_through gsas (snd res))) /\
                (tdot (fst res) dx
                 + (if initial then tdot (write_through gsas (snd res)) div else 0)
                 = tdot gsas (misc.unslice (tan_at inverse initial r C D iv div incs dincs 0)))%F).
  { rewrite (tdot_unslice_r B C D) by assumption. fold Gs.
    rewrite (adot_upto Gs _ D) by (left; destruct HGs as [-> _]; lia).
    subst res. cbn [sig_at tan_at] in *. unfold first_signature in Eat.
    unfold first_tangent. fold next dx. destruct initial.
    - assert (Hsi : graded B C D (misc.slice_by_term iv C D))
        by (apply graded_slice_by_term; auto).
      assert (Hsd : graded B C D (misc.slice_by_term div C D))
        by (apply graded_slice_by_term; auto).
      assert (E : ta_ops.mult_fused_restricted_exp (tneg next) at_stream inverse r
                  = misc.slice_by_term iv C D).
      { rewrite Eat, Er. apply (fused_round_trip B C D); assumption. }
      rewrite E.
      destruct (fused_backward_pairing B C D inverse next dx r (misc.slice_by_term iv C D)
                                       (misc.slice_by_term div C D) junk Hx Hdx Hsi Hsd Lr
                                       grad_next Gs HD HGs) as (R1 & R2 & R3).
      destruct (ta_ops_backward.mult_fused_restricted_exp_backward _ _ _ _ _ _ _)
        as [gn G'].
      cbn [fst snd] in R1, R2, R3 |- *.
      rewrite (write_through_unslice B C D) by assumption.
      split; [exact R1|]. split; [intros _; apply shaped_unslice; assumption|].
      rewrite (tdot_unslice B C D) by auto. rewrite R3.
      apply ksum_ext. intros d Hd. rewrite (nth_map_seq _ [] 0) by exact Hd. reflexivity.
    - assert (Hout : graded B C D at_stream).
      { rewrite Eat. apply graded_rexp; [exact Hx | apply repeat_length]. }
      destruct (rexp_backward_pairing B C D next dx grad_next at_stream Gs r
                                      (rexp_tangent next dx r)) as (R1 & R2); auto.
      + intros k _. apply shaped_rexp_tangent; assumption.
      + apply rexp_tangent_0.
      + intros k Hk. rewrite rexp_tangent_S, Eat.
        rewrite restricted_exp_nth by (rewrite repeat_length; lia). reflexivity.
      + split; [exact R1|]. split; [discriminate|]. rewrite R2.
        match goal with |- (?X + 0)%F = _ => transitivity X; [ring|] end.
        apply ksum_ext. intros d Hd. rewrite (nth_map_seq _ [] 0) by exact Hd. reflexivity. }
  destruct Key as (K1 & K2 & K3).
  assert (Lu : length (upd 0 (fst res) gpi) = S) by (rewrite upd_length; exact Lg).
  split.
  { apply shaped3_intro; [exact Lu|]. intros s Hs. destruct s as [|s].
    - rewrite nth_upd_same by lia. exact K1.
    - rewrite nth_upd_other by lia. apply Se; lia. }
  split; [exact K2|].
  rewrite <- P. unfold tdot3. rewrite Lu.
  rewrite (ksum_change (fun s => tdot (nth s (upd 0 (fst res) gpi) []) (nth s dincs []))
                       (fun s => tdot (nth s gpi []) (above 0 dincs s)) S 0 HS).
  2:{ intros i Hi Hne. cbv beta. rewrite nth_upd_other by lia. unfold above.
      replace (0 <? i) with true by (symmetry; apply Nat.ltb_lt; lia). reflexivity. }
  cbv beta. rewrite nth_upd_same by lia. unfold above at 2. cbn [Nat.ltb Nat.leb].
  rewrite tdot_nil_r. fold dx. rewrite <- K3.
  destruct stream; cbn [ksum]; ring.
Qed.

(** The loop of [signature_backward], from the state it starts in. *)
Lemma backward_loop (G2 sig2 : tensor) :
  1 <= S ->
  (stream = false -> shaped B (span C C D) G2) ->
  (stream = false -> sig2 = misc.unslice (sig_at inverse initial r C D iv incs (S - 1))) ->
  total = (if stream
           then ksum (fun s => tdot (nth s G3 [])
                                    (misc.unslice
                                       (tan_at inverse initial r C D iv div incs dincs s))) S
           else tdot G2 (misc.unslice
                           (tan_at inverse initial r C D iv div incs dincs (S - 1)))) ->
  backward_inv B C D S stream inverse initial r iv div incs dincs G3 total 0
               (fold_left (backward_step junk stream inverse r C D
                                         (misc.slice_by_term_views 0 (Z.of_nat C)
                                                                   (Z.of_nat C) D)
                                         sig3 G3 incs)
                          (rev (seq 1 (S - 1)))
                          (signature_detail.empty_like3 junk incs,
                           if stream then nth (S - 1) G3 [] else G2,
                           if stream then
                             if S <? 2
                             then misc.slice_at_stream
                                    (misc.slice_by_term_views 0 (Z.of_nat C) (Z.of_nat C) D)
                                    sig3 0
                             else []
                           else misc.slice_by_term sig2 C D)).
Proof.
  intros HS HG2 Hsig2 Et. apply backward_loop_inv; [lia|].
  assert (HA : graded B C D (sig_at inverse initial r C D iv incs (S - 1)))
    by (apply (graded_sig_at B C D S); auto; lia).
  unfold backward_inv.
  split; [unfold signature_detail.empty_like3; rewrite length_map; apply Hincs|].
  split.
  { destruct stream; [|auto]. apply (shaped3_nth S B (span C C D)); [auto | lia]. }
  split; [intros s Hs1 Hs2; lia|].
  split.
  { intros Hc. destruct stream.
    - destruct Hc as [Hc | [Hc | Hc]]; [discriminate | lia |].
      replace (S <? 2) with true by (symmetry; apply Nat.ltb_lt; exact Hc).
      replace (S - 1) with 0 by lia.
      rewrite slice_at_stream_views, Hsig3 by (auto; lia).
      apply (slice_unslice B C D). replace 0 with (S - 1) by lia. exact HA.
    - rewrite Hsig2 by reflexivity. apply (slice_unslice B C D). exact HA. }
  rewrite (ksum_ext _ (fun _ => 0%F)).
  2:{ intros s Hs. unfold above.
      replace (S - 1 <? s) with false by (symmetry; apply Nat.ltb_ge; lia).
      apply tdot_nil_r. }
  rewrite ksum_zero, Et. destruct stream.
  - match goal with
    | |- _ = ksum ?f S =>
      assert (E : ksum f S = (ksum f (S - 1) + f (S - 1)%nat)%F)
        by (replace S with (Datatypes.S (S - 1)) at 1 by lia; reflexivity);
        rewrite E
    end.
    ring.
  - ring.
Qed.

End Loop.

End BackwardLoop.

Section BackwardValue.
Context {K : ExactField}.
Add Field KfieldG3 : (field_laws K).

Notation "0" := (fzero K) : field_scope.
Notation "1" := (fone K) : field_scope.
Infix "+" := (fadd K) : field_scope.
Infix "*" := (fmul K) : field_scope.
Infix "-" := (fsub K) : field_scope.
Notation "- x" := (fopp K x) : field_scope.

Local Abbreviation vec := (vec K).
Local Abbreviation tensor := (tensor K).
Local Abbreviation tensor3 := (tensor3 K).
Local Abbreviation talg := (talg K).

(** ** The increments of a path that moves along a line *)

Lemma tsub_line (B C : nat) (a da b db : tensor) (t : K) :
  shaped B C a -> shaped B C da -> shaped B C b -> shaped B C db ->
  tsub (tadd a (tscale t da)) (tadd b (tscale t db))
  = tadd (tsub a b) (tscale t (tsub da db)).
Proof.
  intros Ha Hda Hb Hdb.
  apply (tensor_ext B C).
  - apply shaped_tsub; apply shaped_tadd; auto using shaped_tscale.
  - apply shaped_tadd; [|apply shaped_tscale]; apply shaped_tsub; assumption.
  - intros i j _ _.
    rewrite (ent_tsub B C) by (apply shaped_tadd; auto using shaped_tscale).
    rewrite !ent_tadd, !ent_tscale, !(ent_tsub B C) by assumption. ring.
Qed.

Lemma increments_line (N B C : nat) (junk junk1 junk2 : K) (p dp : tensor3) (b db : tensor)
      (basepoint inverse : bool) (t : K) :
  1 <= N - (if basepoint then 0 else 1) ->
  shaped3 N B C p -> shaped3 N B C dp ->
  (basepoint = true -> shaped B C b) -> (basepoint = true -> shaped B C db) ->
  signature_detail.compute_path_increments junk (line3 p dp t) basepoint
                                           (tadd b (tscale t db)) inverse
  = line3 (signature_detail.compute_path_increments junk1 p basepoint b inverse)
          (signature_detail.compute_path_increments junk2 dp basepoint db inverse) t.
Proof.
  intros HS Hp Hdp Hb Hdb.
  assert (HN : 1 <= N) by (destruct basepoint; lia).
  set (S := N - (if basepoint then 0 else 1)) in *.
  assert (Hl : shaped3 N B C (line3 p dp t)) by (apply shaped3_line3; assumption).
  assert (Hbt : basepoint = true -> shaped B C (tadd b (tscale t db)))
    by (intros E; apply shaped_tadd; [|apply shaped_tscale]; auto).
  pose proof (compute_path_increments_shaped N B C junk _ basepoint _ inverse Hl HN Hbt) as H1.
  pose proof (compute_path_increments_shaped N B C junk1 p basepoint b inverse Hp HN Hb) as H2.
  pose proof (compute_path_increments_shaped N B C junk2 dp basepoint db inverse Hdp HN Hdb)
    as H3.
  fold S in H1, H2, H3.
  pose proof (shaped3_line3 S B C _ _ t H2 H3) as H4.
  apply (nth_ext _ _ [] []).
  - destruct H1 as [-> _], H4 as [-> _]. reflexivity.
  - intros s Hs. destruct H1 as [L1 _]. rewrite L1 in Hs.
    rewrite (nth_line3 S B C) by assumption.
    assert (Hn : forall i, i < N -> nth i (line3 p dp t) []
                                    = tadd (nth i p []) (tscale t (nth i dp [])))
      by (intros i Hi; apply (nth_line3 N B C); assumption).
    assert (Sp : forall i, i < N -> shaped B C (nth i p []))
      by (intros i Hi; apply (shaped3_nth N B C); assumption).
    assert (Sd : forall i, i < N -> shaped B C (nth i dp []))
      by (intros i Hi; apply (shaped3_nth N B C); assumption).
    destruct basepoint.
    + subst S. specialize (Hb eq_refl). specialize (Hdb eq_refl). destruct s as [|s].
      * rewrite !(compute_path_increments_basepoint_0 N B C) by assumption.
        rewrite Hn by lia.
        destruct inverse; apply (tsub_line B C); auto; apply Sp || apply Sd; lia.
      * rewrite !(compute_path_increments_basepoint_nth N B C) by (auto; lia).
        rewrite !Hn by lia.
        destruct inverse; apply (tsub_line B C); auto; apply Sp || apply Sd; lia.
    + subst S. rewrite !(compute_path_increments_nth N B C) by assumption.
      rewrite !Hn by lia.
      destruct inverse; apply (tsub_line B C); auto; apply Sp || apply Sd; lia.
Qed.

(** ** The value of [signature_backward] *)

Lemma signature_backward_pairing (N B C : nat) (depth : Z) (junk junk' : K)
      (stream basepoint inverse initial : bool) (grad sigT incsT : Tensor K)
      (iv div : tensor) (incs dp : tensor3) (dbv : tensor) :
  let D := Z.to_nat depth in
  let r := misc.make_reciprocals D in
  let S := N - (if basepoint then 0 else 1) in
  let W := signature_channels C depth in
  let dincs := signature_detail.compute_path_increments junk' dp basepoint dbv inverse in
  (1 <= depth)%Z -> 1 <= S ->
  sizes incsT = [S; B; C] -> data incsT = D3 incs -> shaped3 S B C incs ->
  shaped3 N B C dp -> (basepoint = true -> shaped B C dbv) ->
  (initial = true -> shaped B W iv) -> (initial = true -> shaped B W div) ->
  well_formed grad = true -> sizes grad = (if stream then [S; B; W] else [B; W]) ->
  (if stream
   then forall s, s < S -> nth s (as3 sigT) []
                           = misc.unslice (sig_at inverse initial r C D iv incs s)
   else as2 sigT = misc.unslice (sig_at inverse initial r C D iv incs (S - 1))) ->
  let res := signature_backward junk grad sigT incsT depth stream basepoint inverse initial in
  let gp := fst (fst res) in
  let gb := snd (fst res) in
  let gi := snd res in
  well_formed gp = true /\ sizes gp = [N; B; C] /\
  (if basepoint then sizes gb = [B; C] /\ well_formed gb = true else sizes gb = [0]) /\
  (initial = true -> well_formed gi = true /\ sizes gi = [B; W]) /\
  (tdot3 (as3 gp) dp + (if basepoint then tdot (as2 gb) dbv else 0)
   + (if initial then tdot (as2 gi) div else 0)
   = if stream
     then ksum (fun s => tdot (nth s (as3 grad) [])
                              (misc.unslice
                                 (tan_at inverse initial r C D iv div incs dincs s))) S
     else tdot (as2 grad)
               (misc.unslice (tan_at inverse initial r C D iv div incs dincs (S - 1))))%F.
Proof.
  intros D r S W dincs Hdepth HS Hsz Hdat Hincs Hdp Hdbv Hiv Hdiv Hwg Hsg Hsig.
  assert (HD : 1 <= D) by (subst D; lia).
  assert (EW : W = span C C D) by (apply signature_channels_depth; exact Hdepth).
  assert (HN : 1 <= N) by (subst S; destruct basepoint; lia).
  assert (Hdincs : shaped3 S B C dincs)
    by (apply (compute_path_increments_shaped N B C); assumption).
  rewrite EW in Hiv, Hdiv.
  set (total := (if stream
                 then ksum (fun s => tdot (nth s (as3 grad) [])
                                          (misc.unslice
                                             (tan_at inverse initial r C D iv div incs
                                                     dincs s))) S
                 else tdot (as2 grad)
                           (misc.unslice (tan_at inverse initial r C D iv div incs dincs
                                                 (S - 1))))).
  assert (HG3 : stream = true -> shaped3 S B (span C C D) (as3 grad)).
  { intros E. rewrite E in Hsg. destruct (well_formed_data3 grad S B W Hwg Hsg) as (g & Eg & Sg).
    unfold as3. rewrite Eg, <- EW. exact Sg. }
  assert (HG2 : stream = false -> shaped B (span C C D) (as2 grad)).
  { intros E. rewrite E in Hsg. destruct (well_formed_data2 grad B W Hwg Hsg) as (g & Eg & Sg).
    unfold as2. rewrite Eg, <- EW. exact Sg. }
  assert (Hsig3 : stream = true ->
                  forall s, s < S -> nth s (as3 sigT) []
                                     = misc.unslice (sig_at inverse initial r C D iv incs s))
    by (intros E; rewrite E in Hsig; exact Hsig).
  assert (Hsig2 : stream = false ->
                  as2 sigT = misc.unslice (sig_at inverse initial r C D iv incs (S - 1)))
    by (intros E; rewrite E in Hsig; exact Hsig).
  pose proof (backward_loop B C D S junk stream inverse initial r iv div incs dincs
                            (as3 sigT) (as3 grad) total HD eq_refl Hincs Hdincs Hiv Hdiv
                            HG3 Hsig3 (as2 grad) (as2 sigT) HS HG2 Hsig2 eq_refl) as Inv0.
  intros res gp gb gi. subst gp gb gi res. unfold signature_backward.
  destruct (size_3 incsT S B C Hsz) as (Z1 & _ & Z3). rewrite Z1, Z3.
  assert (Ea : as3 incsT = incs) by (unfold as3; rewrite Hdat; reflexivity).
  rewrite Ea.
  assert (Eg : size grad stream_dim - 1 = S - 1 \/ stream = false).
  { destruct stream; [left | right; reflexivity].
    destruct (size_3 grad S B W Hsg) as (Y1 & _ & _). rewrite Y1. reflexivity. }
  cbv zeta. fold D. fold r.
  match goal with
  | |- context [fold_left ?f (rev (seq 1 (S - 1))) ?i] =>
    change f with (backward_step junk stream inverse r C D
                                 (misc.slice_by_term_views 0 (Z.of_nat C) (Z.of_nat C) D)
                                 (as3 sigT) (as3 grad) incs);
      replace i with (signature_detail.empty_like3 junk incs,
                      if stream then nth (S - 1) (as3 grad) [] else as2 grad,
                      if stream then
                        if S <? 2
                        then misc.slice_at_stream
                               (misc.slice_by_term_views 0 (Z.of_nat C) (Z.of_nat C) D)
                               (as3 sigT) 0
                        else []
                      else misc.slice_by_term (as2 sigT) C D)
        by (destruct Eg as [-> | ->]; reflexivity)
  end.
  destruct (fold_left _ (rev (seq 1 (S - 1))) _) as [[gpi gsas] at_stream].
  pose proof (backward_last_step B C D S junk stream inverse initial r iv div incs dincs
                                 (as3 sigT) (as3 grad) total HD eq_refl Hincs Hdincs Hiv Hdiv
                                 HG3 Hsig3 gpi gsas at_stream HS Inv0) as Last.
  cbv zeta in Last. revert Last.
  destruct (if initial then _ else _) as [gn G']. cbn [fst snd]. intros (L1 & L2 & L3).
  set (gT := {| sizes := sizes incsT; options := options incsT; data := D3 (upd 0 gn gpi) |}).
  assert (Hwt : well_formed gT = true)
    by (subst gT; rewrite Hsz; apply well_formed_shaped3; exact L1).
  pose proof (increments_backward_pairing N B C junk junk' gT dp dbv basepoint inverse
                                          (make_opts sigT) HS Hwt Hsz Hdp Hdbv)
    as (R1 & R2 & _ & R4 & R5).
  destruct (signature_detail_backward.compute_path_increments_backward _ _ _ _ _)
    as [gpath gbase].
  cbn [fst snd] in R1, R2, R4, R5 |- *.
  split; [exact R1|]. split; [exact R2|].
  split; [destruct basepoint; [destruct R4 as (_ & R4 & R4'); split; assumption | exact R4]|].
  split.
  { intros E. specialize (L2 E). unfold well_formed. cbn [data sizes].
    destruct stream.
    - rewrite Hsg. cbn [tl]. split; [|reflexivity]. apply rows_ok_shaped.
      rewrite EW. exact L2.
    - rewrite Hsg. split; [|reflexivity]. apply rows_ok_shaped. rewrite EW. exact L2. }
  unfold as2 at 2. cbn [data]. fold dincs in R5.
  replace (as3 gT) with (upd 0 gn gpi) in R5 by reflexivity.
  rewrite <- L3, R5. ring.
Qed.

(** ** The pairing with the signature along a line *)

Lemma expands_pair_sig_at (B C D S : nat) (inverse initial : bool) (r : list K)
      (iv div : tensor) (incs dincs : tensor3) (g : tensor) (s : nat) :
  1 <= D -> length r = D - 1 -> shaped3 S B C incs -> shaped3 S B C dincs ->
  (initial = true -> shaped B (span C C D) iv) ->
  (initial = true -> shaped B (span C C D) div) ->
  shaped B (span C C D) g -> s < S ->
  expands (fun t => tdot g (misc.unslice
                              (sig_at inverse initial r C D (tadd iv (tscale t div))
                                      (line3 incs dincs t) s)))
          (tdot g (misc.unslice (sig_at inverse initial r C D iv incs s)))
          (tdot g (misc.unslice (tan_at inverse initial r C D iv div incs dincs s))).
Proof.
  intros HD Lr Hincs Hdincs Hiv Hdiv Hg Hs.
  rewrite (tdot_unslice_r B C D g (sig_at inverse initial r C D iv incs s))
    by (auto; apply (graded_sig_at B C D S); auto).
  rewrite (tdot_unslice_r B C D g (tan_at inverse initial r C D iv div incs dincs s))
    by (auto; apply (graded_tan_at B C D S); auto).
  apply (expands_ext (fun t => adot (misc.slice_by_term g C D)
                                    (sig_at inverse initial r C D (tadd iv (tscale t div))
                                            (line3 incs dincs t) s))).
  - intros t. symmetry. apply (tdot_unslice_r B C D); auto.
    apply (graded_sig_at B C D S); auto.
    + apply shaped3_line3; assumption.
    + intros E. apply shaped_tadd; [|apply shaped_tscale]; auto.
  - apply (aexp_adot B C D). apply (aexp_sig_at B C D S); assumption.
Qed.

(** ** The forward pass in terms of [sig_at] *)

Lemma drive_is_sig_at (B C D S : nat) (inverse initial : bool) (r : list K) (iv : tensor)
      (incs : tensor3) :
  1 <= D -> length r = D - 1 -> shaped3 S B C incs -> 1 <= S ->
  drive inverse r (first_signature inverse initial r C D iv (nth 0 incs [])) (tl incs)
  = sig_at inverse initial r C D iv incs (S - 1).
Proof.
  intros HD Lr Hincs HS. rewrite (sig_at_drive B C D S) by (auto; lia).
  rewrite firstn_all2; [reflexivity|].
  destruct Hincs as [L _]. destruct incs; cbn in *; lia.
Qed.

Lemma forward_sig_at (env : omp) (junk : K) (path bv iv : Tensor K) (depth : Z)
      (stream basepoint inverse initial : bool) (N B C : nat) (p : tensor3) :
  omp_ok env ->
  signature_checkargs path depth basepoint bv initial iv = None ->
  valid_input path bv iv depth basepoint initial N B C p ->
  has_kernel path = true ->
  stream = true \/ inverse = false \/ is_cuda path = true \/ get_max_parallelism env = 1 ->
  let D := Z.to_nat depth in
  let r := misc.make_reciprocals D in
  let pi := signature_detail.compute_path_increments junk p basepoint (as2 bv) inverse in
  let S := N - (if basepoint then 0 else 1) in
  let W := signature_channels C depth in
  exists sigT : Tensor K,
    signature_forward env junk path depth stream basepoint bv inverse initial iv
    = Ok (sigT, {| sizes := [S; B; C]; options := options path; data := D3 pi |}) /\
    (if stream
     then forall s, s < S -> nth s (as3 sigT) []
                             = misc.unslice (sig_at inverse initial r C D (as2 iv) pi s)
     else as2 sigT = misc.unslice (sig_at inverse initial r C D (as2 iv) pi (S - 1))) /\
    forall grad : Tensor K,
      well_formed grad = true -> sizes grad = (if stream then [S; B; W] else [B; W]) ->
      pair_signature grad sigT
      = if stream
        then ksum (fun s => tdot (nth s (as3 grad) [])
                                 (misc.unslice (sig_at inverse initial r C D (as2 iv) pi s))) S
        else tdot (as2 grad)
                  (misc.unslice (sig_at inverse initial r C D (as2 iv) pi (S - 1))).
Proof.
  intros Hok Hc V Hk Hser D r pi S W. pose proof V as [Vs Vd Vp VS VB VD Vbv Viv].
  assert (HD : 1 <= D) by (subst D; lia).
  assert (Lr : length r = D - 1) by apply make_reciprocals_length.
  assert (HN : 1 <= N) by (destruct basepoint; lia).
  assert (Hpi : shaped3 S B C pi)
    by (apply (compute_path_increments_shaped N B C); assumption).
  destruct stream.
  - destruct (forward_stream_general env junk path bv iv depth basepoint inverse initial
                                     N B C p Hok Hc V Hk) as (sig3 & E & L & P).
    fold D r pi S W in E, L, P.
    exists {| sizes := [S; B; W]; options := options path; data := D3 sig3 |}.
    split; [exact E|].
    assert (P' : forall s, s < S -> nth s sig3 []
                                    = misc.unslice (sig_at inverse initial r C D (as2 iv) pi s)).
    { intros s Hs. rewrite (P s Hs). rewrite (sig_at_drive B C D S) by assumption.
      reflexivity. }
    split; [exact P'|].
    intros grad Hwg Hsg. destruct (well_formed_data3 grad S B W Hwg Hsg) as (g & Eg & Sg).
    unfold pair_signature, as3. rewrite Eg. cbn [data]. unfold tdot3.
    destruct Sg as [-> _]. apply ksum_ext. intros s Hs. rewrite P' by exact Hs. reflexivity.
  - assert (Hser' : inverse = false \/ is_cuda path = true \/ get_max_parallelism env = 1)
      by (destruct Hser as [Hser | Hser]; [discriminate | exact Hser]).
    pose proof (forward_general env junk path bv iv depth basepoint inverse initial
                                N B C p Hok Hc V Hk Hser') as E.
    cbv zeta in E. fold D r pi S W in E.
    rewrite (drive_is_sig_at B C D S) in E by assumption.
    eexists. split; [exact E|]. split; [reflexivity|].
    intros grad Hwg Hsg. destruct (well_formed_data2 grad B W Hwg Hsg) as (g & Eg & Sg).
    unfold pair_signature, as2. rewrite Eg. reflexivity.
Qed.

End BackwardValue.

Section PartialProduct.
Context {K : ExactField}.
Add Field KfieldH1 : (field_laws K).

Notation "0" := (fzero K) : field_scope.
Notation "1" := (fone K) : field_scope.
Infix "+" := (fadd K) : field_scope.
Infix "*" := (fmul K) : field_scope.
Infix "-" := (fsub K) : field_scope.
Notation "- x" := (fopp K x) : field_scope.

Local Abbreviation vec := (vec K).
Local Abbreviation tensor := (tensor K).
Local Abbreviation tensor3 := (tensor3 K).
Local Abbreviation talg := (talg K).

Lemma zero__tscale (x : tensor) : zero_ x = tscale 0%F x.
Proof.
  unfold zero_, tscale. apply map_ext. intros row. apply map_ext. intros v. ring.
Qed.

Lemma is_zero_zero_ (B n : nat) (x : tensor) : shaped B n x -> is_zero B n (zero_ x).
Proof. intros Hx. exists x. split; [exact Hx | apply zero__tscale]. Qed.

Lemma partial_term_ext (a a' b : talg) (s : K) (d : nat) :
  (forall j, j < d -> nth j a' [] = nth j a []) ->
  zero_ (nth d a' []) = zero_ (nth d a []) ->
  partial_term a' b s d = partial_term a b s d.
Proof.
  intros H Hz. unfold partial_term. rewrite Hz. do 2 f_equal.
  apply tsum_ext. intros j Hj. rewrite H by lia. reflexivity.
Qed.

Lemma zero__idem (x : tensor) : zero_ (zero_ x) = zero_ x.
Proof. unfold zero_. rewrite map_map. apply map_ext. intros row. apply map_map. Qed.

Lemma mult_partial_loop (b : talg) (s : K) (n : nat) : forall a : talg,
  n <= length a ->
  let r := fold_left
             (fun arg1 depth_index =>
                upd depth_index
                    (tadd (ta_ops.mult_inner
                             (nth depth_index
                                  (upd depth_index (zero_ (nth depth_index arg1 [])) arg1) [])
                             (upd depth_index (zero_ (nth depth_index arg1 [])) arg1)
                             b depth_index)
                          (tscale s (nth depth_index b [])))
                    (upd depth_index (zero_ (nth depth_index arg1 [])) arg1))
             (rev (seq 0 n)) a in
  length r = length a /\
  forall d, nth d r [] = if d <? n then partial_term a b s d else nth d a [].
Proof.
  induction n as [|n IH]; intros a Hn r.
  - subst r; cbn. split; [reflexivity | intros d; reflexivity].
  - subst r. rewrite seq_S, rev_app_distr. cbn [rev app fold_left plus].
    set (a1 := upd n (zero_ (nth n a [])) a).
    set (a' := upd n _ a1).
    assert (La1 : length a1 = length a) by apply upd_length.
    assert (La' : length a' = length a) by (subst a'; rewrite upd_length; exact La1).
    destruct (IH a') as [L Hd]; [lia|].
    split; [rewrite L; exact La'|].
    assert (Elow : forall j, j < n -> nth j a' [] = nth j a []).
    { intros j Hj. subst a' a1. rewrite !nth_upd_other by lia. reflexivity. }
    intros d. rewrite Hd.
    destruct (d <? n) eqn:E.
    + apply Nat.ltb_lt in E.
      replace (d <? S n) with true by (symmetry; apply Nat.ltb_lt; lia).
      apply partial_term_ext.
      * intros j Hj. apply Elow. lia.
      * rewrite Elow by exact E. reflexivity.
    + apply Nat.ltb_ge in E. destruct (Nat.eq_dec d n) as [-> | Hne].
      * replace (n <? S n) with true by (symmetry; apply Nat.ltb_lt; lia).
        subst a'. rewrite nth_upd_same by lia. rewrite mult_inner_sum.
        unfold partial_term. subst a1. rewrite nth_upd_same by lia.
        do 2 f_equal. apply tsum_ext. intros j Hj. rewrite nth_upd_other by lia. reflexivity.
      * replace (d <? S n) with false by (symmetry; apply Nat.ltb_ge; lia).
        subst a' a1. rewrite !nth_upd_other by lia. reflexivity.
Qed.

Lemma mult_partial_length (a b : talg) (s : K) (top : nat) :
  length (ta_ops_partial.mult_partial a b s top) = length a.
Proof.
  unfold ta_ops_partial.mult_partial. apply (mult_partial_loop b s (length a - top) a). lia.
Qed.

(** [mult_partial] in closed form. *)
Lemma mult_partial_nth (a b : talg) (s : K) (top d : nat) :
  nth d (ta_ops_partial.mult_partial a b s top) []
  = if d <? length a - top then partial_term a b s d else nth d a [].
Proof.
  unfold ta_ops_partial.mult_partial.
  destruct (mult_partial_loop b s (length a - top) a) as [_ Hd]; [lia|]. apply Hd.
Qed.

Lemma shaped_products (B C D : nat) (a b : talg) (d : nat) :
  graded B C D a -> graded B C D b -> d < D ->
  zshaped B (C ^ (d + 1)) (tsum (fun j => tmul_cr (nth j a []) (nth (d - 1 - j) b [])) d).
Proof.
  intros Ha Hb Hd. apply zshaped_tsum. intros j Hj.
  replace (C ^ (d + 1)) with (C ^ (j + 1) * C ^ (d - 1 - j + 1))
    by (rewrite <- Nat.pow_add_r; f_equal; lia).
  right. apply shaped_tmul_cr; [apply Ha | apply Hb]; lia.
Qed.

Lemma partial_term_value (B C D : nat) (a b : talg) (s : K) (d : nat) :
  graded B C D a -> graded B C D b -> d < D ->
  partial_term a b s d
  = tadd (tsum (fun j => tmul_cr (nth j a []) (nth (d - 1 - j) b [])) d)
         (tscale s (nth d b [])).
Proof.
  intros Ha Hb Hd. unfold partial_term.
  destruct (shaped_products B C D a b d Ha Hb Hd) as [-> | Hs].
  - rewrite tadd_nil_r. cbn [tadd zip_pad].
    apply (tadd_zero_l B (C ^ (d + 1))).
    + apply shaped_tscale. apply Hb. exact Hd.
    + apply is_zero_zero_. apply Ha. exact Hd.
  - f_equal. apply (tadd_zero_l B (C ^ (d + 1))); [exact Hs|].
    apply is_zero_zero_. apply Ha. exact Hd.
Qed.

Lemma shaped_partial_term (B C D : nat) (a b : talg) (s : K) (d : nat) :
  graded B C D a -> graded B C D b -> d < D ->
  shaped B (C ^ (d + 1)) (partial_term a b s d).
Proof.
  intros Ha Hb Hd. rewrite (partial_term_value B C D) by assumption.
  apply shaped_tadd_z_l; [apply (shaped_products B C D); assumption|].
  apply shaped_tscale. apply Hb. exact Hd.
Qed.

Lemma graded_mult_partial (B C D : nat) (a b : talg) (s : K) (top : nat) :
  graded B C D a -> graded B C D b ->
  graded B C D (ta_ops_partial.mult_partial a b s top).
Proof.
  intros Ha Hb. assert (La : length a = D) by apply Ha.
  split; [rewrite mult_partial_length; exact La|].
  intros d Hd. rewrite mult_partial_nth, La.
  destruct (d <? D - top); [apply (shaped_partial_term B C D); assumption | apply Ha; exact Hd].
Qed.

End PartialProduct.

Section PartialBackward.
Context {K : ExactField}.
Add Field KfieldH2 : (field_laws K).

Notation "0" := (fzero K) : field_scope.
Notation "1" := (fone K) : field_scope.
Infix "+" := (fadd K) : field_scope.
Infix "*" := (fmul K) : field_scope.
Infix "-" := (fsub K) : field_scope.
Notation "- x" := (fopp K x) : field_scope.

Local Abbreviation vec := (vec K).
Local Abbreviation tensor := (tensor K).
Local Abbreviation tensor3 := (tensor3 K).
Local Abbreviation talg := (talg K).

Lemma tdot_zero_r (g x : tensor) : tdot g (zero_ x) = 0%F.
Proof. rewrite zero__tscale, tdot_tscale_r. ring. Qed.

Lemma zero__shaped_eq (B n : nat) (x y : tensor) :
  shaped B n x -> shaped B n y -> zero_ x = zero_ y.
Proof.
  intros Hx Hy. apply (tensor_ext B n); try (apply shaped_zero_; assumption).
  intros b i _ _. rewrite !zero__tscale, !ent_tscale. ring.
Qed.

Lemma ksum_below_at (f : nat -> K) (c : K) (n D : nat) :
  n < D ->
  ksum (fun i => if i <? n then f i else if i =? n then c else 0%F) D = (ksum f n + c)%F.
Proof.
  intros Hn.
  rewrite (ksum_extend _ (S n) D) by
      (try lia; intros i Hi;
       replace (i <? n) with false by (symmetry; apply Nat.ltb_ge; lia);
       replace (i =? n) with false by (symmetry; apply Nat.eqb_neq; lia); reflexivity).
  cbn [ksum]. rewrite Nat.ltb_irrefl, Nat.eqb_refl. f_equal.
  apply ksum_ext. intros i Hi. apply Nat.ltb_lt in Hi. rewrite Hi. reflexivity.
Qed.

(** ** The product along a line *)

Lemma texp_tadd_tsum (B m : nat) (Z Zt : tensor) (F : nat -> K -> tensor)
      (A T : nat -> tensor) (n : nat) :
  texp B m (fun _ => Z) Z Zt ->
  (forall j, j < n -> texp B m (F j) (A j) (T j)) ->
  texp B m (fun t => tadd Z (tsum (fun j => F j t) n)) (tadd Z (tsum A n))
       (tadd Zt (tsum T n)).
Proof.
  intros HZ. induction n as [|n IH]; intros H.
  - cbn [tsum]. rewrite !tadd_nil_r. exact HZ.
  - cbn [tsum]. rewrite <- !tadd_assoc.
    apply (texp_ext B m (fun t => tadd (tadd Z (tsum (fun j => F j t) n)) (F n t))).
    + intros t. apply tadd_assoc.
    + apply texp_tadd; [apply IH; intros; apply H; lia | apply H; lia].
Qed.

Lemma aexp_mult_partial (B C D top : nat) (s : K) (PA PB : K -> talg) (a da b db : talg) :
  aexp B C D PA a da -> aexp B C D PB b db ->
  aexp B C D (fun t => ta_ops_partial.mult_partial (PA t) (PB t) s top)
       (ta_ops_partial.mult_partial a b s top)
       (map (partial_tangent a b da db s (D - top)) (seq 0 D)).
Proof.
  intros (LA & La & Lda & HA) (LB & Lb & Ldb & HB).
  split; [|split; [|split]].
  - intros t. rewrite mult_partial_length. apply LA.
  - rewrite mult_partial_length. exact La.
  - rewrite length_map, length_seq. reflexivity.
  - intros d Hd. rewrite (nth_map_seq _ [] 0) by exact Hd. cbn [plus].
    rewrite mult_partial_nth, La. unfold partial_tangent.
    destruct (d <? D - top) eqn:E.
    + apply (texp_ext B _ (fun t => partial_term (PA t) (PB t) s d)).
      { intros t. rewrite mult_partial_nth, LA, E. reflexivity. }
      unfold partial_term. apply texp_tadd.
      * apply (texp_ext B _ (fun t => tadd (zero_ (nth d a []))
                                           (tsum (fun j => tmul_cr (nth j (PA t) [])
                                                                   (nth (d - 1 - j) (PB t) []))
                                                 d))).
        { intros t. f_equal. apply (zero__shaped_eq B (C ^ (d + 1))); apply (HA d Hd). }
        apply (texp_tadd_tsum B (C ^ (d + 1)) _ _
                              (fun j t => tmul_cr (nth j (PA t) []) (nth (d - 1 - j) (PB t) []))).
        -- apply texp_const; try (apply shaped_zero_; apply (HA d Hd)).
           intros i j. rewrite zero__tscale, ent_tscale. ring.
        -- intros j Hj.
           apply (texp_cast B (C ^ (j + 1) * C ^ (d - 1 - j + 1)));
             [rewrite <- Nat.pow_add_r; f_equal; lia|].
           apply texp_tmul_cr; [apply HA | apply HB]; lia.
      * apply texp_tscale. apply HB. exact Hd.
    + apply (texp_ext B _ (fun t => nth d (PA t) [])).
      { intros t. rewrite mult_partial_nth, LA, E. reflexivity. }
      apply HA. exact Hd.
Qed.

(** ** The loop of [mult_partial_backward] *)

Section Loop.
Variables (B C D T : nat) (s : K) (a b da db : talg).
Hypothesis Ha : graded B C D a.
Hypothesis Hb : graded B C D b.
Hypothesis Hda : graded B C D da.
Hypothesis Hdb : graded B C D db.
Hypothesis HT : T <= D.

Lemma tdot_partial_tangent (g : tensor) (n : nat) :
  n < T -> shaped B (C ^ (n + 1)) g ->
  tdot g (partial_tangent a b da db s T n)
  = (ksum (fun j => tdot (grad_left a b g j n) (nth j da [])) n
     + ksum (fun k => tdot (grad_right a b g k n) (nth k db [])) n
     + s * tdot g (nth n db []))%F.
Proof.
  intros Hn Hg. unfold partial_tangent.
  replace (n <? T) with true by (symmetry; apply Nat.ltb_lt; exact Hn).
  rewrite !tdot_tadd_r, tdot_zero_r, tdot_tsum_r, tdot_tscale_r.
  rewrite (ksum_ext _ (fun j => (tdot (grad_left a b g j n) (nth j da [])
                                 + tdot (grad_right a b g (n - 1 - j) n)
                                        (nth (n - 1 - j) db []))%F)).
  - rewrite ksum_add.
    rewrite <- (ksum_rev (fun k => tdot (grad_right a b g k n) (nth k db []))). ring.
  - intros j Hj. rewrite tdot_tadd_r. f_equal.
    + unfold grad_left.
      apply (tdot_bmm_col B (C ^ (j + 1)) (C ^ (n - 1 - j + 1))).
      * apply (shaped_cast B (C ^ (n + 1))); [|exact Hg].
        rewrite <- Nat.pow_add_r. f_equal. lia.
      * apply Ha. lia.
      * apply Hb. lia.
      * apply Hda. lia.
      * apply Hb. lia.
    + unfold grad_right. replace (n - 1 - (n - 1 - j)) with j by lia.
      apply (tdot_bmm_row B (C ^ (j + 1)) (C ^ (n - 1 - j + 1))).
      * apply (shaped_cast B (C ^ (n + 1))); [|exact Hg].
        rewrite <- Nat.pow_add_r. f_equal. lia.
      * apply Ha. lia.
      * apply Hb. lia.
      * apply Ha. lia.
      * apply Hdb. lia.
Qed.

Lemma partial_backward_step_pairing (n : nat) (G1 G2 : talg) :
  n < T -> graded B C D G1 -> graded B C D G2 ->
  let r := partial_backward_step a b s (G1, G2) n in
  graded B C D (fst r) /\ graded B C D (snd r) /\
  (ksum (fun i => tdot (nth i (fst r) []) (partial_directions a b da db s T (S n) i)) D
   + adot (snd r) db
   = ksum (fun i => tdot (nth i G1 []) (partial_directions a b da db s T n i)) D
     + adot G2 db)%F.
Proof.
  intros Hn H1 H2 r. subst r. unfold partial_backward_step. cbv zeta.
  assert (L1 : length G1 = D) by apply H1. assert (L2 : length G2 = D) by apply H2.
  set (g := nth n G1 []).
  assert (Hg : shaped B (C ^ (n + 1)) g) by (apply H1; lia).
  set (G2a := upd n (tadd (nth n G2 []) (tscale s g)) G2).
  assert (L2a : length G2a = D) by (subst G2a; rewrite upd_length; exact L2).
  destruct (mult_inner_backward_nth a b G1 G2a n ltac:(lia) ltac:(lia)) as (S1 & S2 & M1 & M2).
  destruct (ta_ops_backward.mult_inner_backward G1 G2a a b n) as [J1 J2].
  cbn [fst snd] in S1, S2, M1, M2 |- *. fold g in M1, M2.
  assert (E1 : forall i, i < D ->
                         nth i (upd n (zero_ (nth n J1 [])) J1) []
                         = if i <? n then tadd (nth i G1 []) (grad_left a b g i n)
                           else if i =? n then zero_ g else nth i G1 []).
  { intros i Hi. destruct (Nat.eq_dec i n) as [-> | Hne].
    - rewrite nth_upd_same by lia. rewrite Nat.ltb_irrefl, Nat.eqb_refl.
      rewrite M1, Nat.ltb_irrefl. reflexivity.
    - rewrite nth_upd_other by lia. rewrite M1. destruct (i <? n); [reflexivity|].
      replace (i =? n) with false by (symmetry; apply Nat.eqb_neq; exact Hne). reflexivity. }
  assert (E2 : forall k, k < D ->
                         nth k J2 []
                         = if k <? n then tadd (nth k G2 []) (grad_right a b g k n)
                           else if k =? n then tadd (nth n G2 []) (tscale s g)
                                else nth k G2 []).
  { intros k Hk. rewrite M2. subst G2a. destruct (k <? n) eqn:E.
    - apply Nat.ltb_lt in E. rewrite nth_upd_other by lia. reflexivity.
    - destruct (Nat.eq_dec k n) as [-> | Hne].
      + rewrite nth_upd_same by lia. rewrite Nat.eqb_refl. reflexivity.
      + rewrite nth_upd_other by lia.
        replace (k =? n) with false by (symmetry; apply Nat.eqb_neq; exact Hne).
        reflexivity. }
  split.
  { split; [rewrite upd_length, S1; exact L1|]. intros i Hi. rewrite E1 by exact Hi.
    destruct (i <? n) eqn:E.
    - apply Nat.ltb_lt in E. apply shaped_tadd; [apply H1; exact Hi|].
      apply (shaped_grad_left B C D); auto; lia.
    - destruct (i =? n) eqn:E'.
      + apply Nat.eqb_eq in E'. subst i. apply shaped_zero_. exact Hg.
      + apply H1. exact Hi. }
  split.
  { split; [rewrite S2; exact L2a|]. intros k Hk. rewrite E2 by exact Hk.
    destruct (k <? n) eqn:E.
    - apply Nat.ltb_lt in E. apply shaped_tadd; [apply H2; exact Hk|].
      apply (shaped_grad_right B C D); auto; lia.
    - destruct (k =? n) eqn:E'.
      + apply Nat.eqb_eq in E'. subst k.
        apply shaped_tadd; [apply H2; lia | apply shaped_tscale; exact Hg].
      + apply H2. exact Hk. }
  rewrite (adot_upto J2 db D), (adot_upto G2 db D) by (left; lia).
  rewrite (ksum_ext (fun i => tdot (nth i (upd n (zero_ (nth n J1 [])) J1) [])
                                   (partial_directions a b da db s T (S n) i))
                    (fun i => (tdot (nth i G1 []) (partial_directions a b da db s T n i)
                               + (if i <? n then tdot (grad_left a b g i n) (nth i da [])
                                  else if i =? n
                                       then - tdot g (partial_tangent a b da db s T n)
                                       else 0))%F) D).
  2:{ intros i Hi. rewrite E1 by exact Hi. unfold partial_directions.
      destruct (i <? n) eqn:E.
      - apply Nat.ltb_lt in E.
        replace (i <? S n) with true by (symmetry; apply Nat.ltb_lt; lia).
        apply tdot_tadd_l.
      - destruct (i =? n) eqn:E'.
        + apply Nat.eqb_eq in E'. subst i.
          replace (n <? S n) with true by (symmetry; apply Nat.ltb_lt; lia).
          rewrite tdot_zero_. fold g. ring.
        + apply Nat.ltb_ge in E. apply Nat.eqb_neq in E'.
          replace (i <? S n) with false by (symmetry; apply Nat.ltb_ge; lia). ring. }
  rewrite (ksum_ext (fun k => tdot (nth k J2 []) (nth k db []))
                    (fun k => (tdot (nth k G2 []) (nth k db [])
                               + (if k <? n then tdot (grad_right a b g k n) (nth k db [])
                                  else if k =? n then s * tdot g (nth n db [])
                                       else 0))%F) D).
  2:{ intros k Hk. rewrite E2 by exact Hk.
      destruct (k <? n) eqn:E; [apply tdot_tadd_l|].
      destruct (k =? n) eqn:E'.
      - apply Nat.eqb_eq in E'. subst k. rewrite tdot_tadd_l, tdot_tscale_l. reflexivity.
      - ring. }
  rewrite !ksum_add, !ksum_below_at by lia.
  rewrite (tdot_partial_tangent g n Hn Hg). ring.
Qed.

Lemma partial_backward_loop (n : nat) (G gb0 : talg) :
  n <= T -> graded B C D G -> graded B C D gb0 ->
  let r := fold_left (partial_backward_step a b s) (seq 0 n) (G, gb0) in
  graded B C D (fst r) /\ graded B C D (snd r) /\
  (ksum (fun i => tdot (nth i (fst r) []) (partial_directions a b da db s T n i)) D
   + adot (snd r) db
   = ksum (fun i => tdot (nth i G []) (partial_tangent a b da db s T i)) D
     + adot gb0 db)%F.
Proof.
  intros Hn HG Hgb. induction n as [|n IH]; intros r.
  - subst r. cbn [seq fold_left fst snd]. repeat (split; [assumption|]). reflexivity.
  - subst r. rewrite seq_S, fold_left_app. cbn [fold_left Nat.add].
    destruct (IH ltac:(lia)) as (R1 & R2 & P).
    destruct (fold_left _ (seq 0 n) (G, gb0)) as [G1 G2]. cbn [fst snd] in R1, R2, P.
    destruct (partial_backward_step_pairing n G1 G2 ltac:(lia) R1 R2) as (Q1 & Q2 & Q).
    split; [exact Q1|]. split; [exact Q2|]. rewrite Q. exact P.
Qed.

(** [mult_partial_backward] pairs with directions as the incoming gradient
    pairs with the derivative of [mult_partial]; [grad_arg2] is added to. *)
Lemma mult_partial_backward_pairing (top : nat) (G gb0 : talg) :
  T = D - top -> graded B C D G -> graded B C D gb0 ->
  let r := ta_ops_partial.mult_partial_backward G gb0 a b s top in
  graded B C D (fst r) /\ graded B C D (snd r) /\
  (adot (fst r) da + adot (snd r) db
   = ksum (fun i => tdot (nth i G []) (partial_tangent a b da db s T i)) D
     + adot gb0 db)%F.
Proof.
  intros ET HG Hgb r. subst r. unfold ta_ops_partial.mult_partial_backward. cbv zeta.
  assert (La : length a = D) by apply Ha. rewrite La, <- ET.
  change (fold_left _ (seq 0 T) (G, gb0))
    with (fold_left (partial_backward_step a b s) (seq 0 T) (G, gb0)).
  destruct (partial_backward_loop T G gb0 (le_n T) HG Hgb) as (R1 & R2 & P).
  destruct (fold_left _ (seq 0 T) (G, gb0)) as [G1 G2]. cbn [fst snd] in R1, R2, P |- *.
  split; [exact R1|]. split; [exact R2|]. rewrite <- P. f_equal.
  rewrite (adot_upto G1 da D) by (left; destruct R1 as [-> _]; lia).
  apply ksum_ext. intros i Hi. f_equal. unfold partial_directions, partial_tangent.
  destruct (i <? T); reflexivity.
Qed.

End Loop.

End PartialBackward.

Section Logarithm.
Context {K : ExactField}.
Add Field KfieldL1 : (field_laws K).

Notation "0" := (fzero K) : field_scope.
Notation "1" := (fone K) : field_scope.
Infix "+" := (fadd K) : field_scope.
Infix "*" := (fmul K) : field_scope.
Infix "-" := (fsub K) : field_scope.
Notation "- x" := (fopp K x) : field_scope.

Local Abbreviation vec := (vec K).
Local Abbreviation tensor := (tensor K).
Local Abbreviation tensor3 := (tensor3 K).
Local Abbreviation talg := (talg K).

Lemma graded_upd (B C D : nat) (a : talg) (d : nat) (t : tensor) :
  graded B C D a -> shaped B (C ^ (d + 1)) t -> graded B C D (upd d t a).
Proof.
  intros Ha Ht. split; [rewrite upd_length; apply Ha|]. intros i Hi.
  destruct (Nat.eq_dec i d) as [-> | Hne].
  - rewrite nth_upd_same by (destruct Ha as [-> _]; exact Hi). exact Ht.
  - rewrite nth_upd_other by lia. apply Ha. exact Hi.
Qed.

Section WithParity.
Variable is_even : Z -> bool.

Lemma coefficient_some (r : list K) (i : nat) :
  i < length r ->
  ta_ops_log.log_coefficient_at_depth is_even (Z.of_nat i) r = Some (log_coef is_even r i).
Proof.
  intros Hi. unfold ta_ops_log.log_coefficient_at_depth, ta_ops_log.select_scalar. cbv zeta.
  replace (Z.of_nat i <? - Z.of_nat (length r))%Z with false by (symmetry; apply Z.ltb_ge; lia).
  replace (Z.of_nat (length r) <=? Z.of_nat i)%Z with false
    by (symmetry; apply Z.leb_gt; lia).
  cbn [orb]. replace (Z.of_nat i <? 0)%Z with false by (symmetry; apply Z.ltb_ge; lia).
  rewrite Nat2Z.id. reflexivity.
Qed.

Lemma coefficient_none (r : list K) (i : nat) :
  length r <= i -> ta_ops_log.log_coefficient_at_depth is_even (Z.of_nat i) r = None.
Proof.
  intros Hi. unfold ta_ops_log.log_coefficient_at_depth, ta_ops_log.select_scalar. cbv zeta.
  replace (Z.of_nat (length r) <=? Z.of_nat i)%Z with true
    by (symmetry; apply Z.leb_le; lia).
  rewrite orb_true_r. reflexivity.
Qed.

(** The loop of [log] over depth_index = n - 1, ..., m. *)
Lemma log_loop (r : list K) (D : nat) (x out : talg) (n : nat) :
  forall m k,
    m + n = D - 2 - k -> D - 2 <= length r ->
    fold_left
      (fun st depth_index =>
         match st with
         | None => None
         | Some output_vector =>
           match ta_ops_log.log_coefficient_at_depth is_even (Z.of_nat depth_index) r with
           | None => None
           | Some coefficient =>
             Some (ta_ops_partial.mult_partial output_vector x coefficient (depth_index + 1))
           end
         end)
      (rev (seq m n)) (Some (horner is_even r D x out k))
    = Some (horner is_even r D x out (k + n)).
Proof.
  induction n as [|n IH]; intros m k E Hr.
  - cbn. rewrite Nat.add_0_r. reflexivity.
  - rewrite seq_S, rev_app_distr. cbn [rev app fold_left].
    rewrite coefficient_some by lia.
    replace (m + n + 1) with (D - 2 - k) by lia. replace (m + n) with (D - 3 - k) by lia.
    change (Some (ta_ops_partial.mult_partial (horner is_even r D x out k) x
                                              (log_coef is_even r (D - 3 - k)) (D - 2 - k)))
      with (Some (horner is_even r D x out (S k))).
    rewrite (IH m (S k)) by lia. f_equal. f_equal. lia.
Qed.

(** [log] in terms of [horner]. *)
Lemma log_value (r : list K) (x out : talg) :
  2 <= length x -> length x - 1 <= length r ->
  ta_ops_log.log is_even out x r
  = Some (ta_ops_partial.mult_partial (horner is_even r (length x) x out (length x - 2)) x
                                      1%F 0).
Proof.
  intros HD Hr. unfold ta_ops_log.log. cbv zeta.
  replace (Z.of_nat (length x) - 2)%Z with (Z.of_nat (length x - 2)) by lia.
  rewrite coefficient_some by lia.
  change (upd 0 (tscale (log_coef is_even r (length x - 2)) (nth 0 x [])) out)
    with (horner is_even r (length x) x out 0).
  rewrite (log_loop r (length x) x out (length x - 2) 0 0) by lia.
  reflexivity.
Qed.

Section Chain.
Variables (B C D : nat) (r : list K) (x : talg).
Hypothesis HD : 2 <= D.
Hypothesis Hx : graded B C D x.

Lemma graded_horner (out : talg) (k : nat) :
  graded B C D out -> graded B C D (horner is_even r D x out k).
Proof.
  intros Ho. induction k as [|k IH]; cbn [horner].
  - apply graded_upd; [exact Ho|]. apply shaped_tscale. apply Hx. lia.
  - apply graded_mult_partial; assumption.
Qed.

(** The terms that [log] has computed after [k] steps do not depend on
    what [output_vector] held. *)
Lemma horner_agree (out out' : talg) (k : nat) :
  graded B C D out -> graded B C D out' -> k <= D - 2 ->
  forall j, j <= k ->
            nth j (horner is_even r D x out k) [] = nth j (horner is_even r D x out' k) [].
Proof.
  intros Ho Ho'. induction k as [|k IH]; intros Hk j Hj.
  - assert (j = 0) by lia. subst j. cbn [horner].
    rewrite !nth_upd_same
      by (destruct Ho as [-> _] || destruct Ho' as [-> _]; lia).
    reflexivity.
  - cbn [horner]. rewrite !mult_partial_nth.
    destruct (graded_horner out k Ho) as [L1 S1]. destruct (graded_horner out' k Ho') as [L2 S2].
    rewrite L1, L2.
    replace (j <? D - (D - 2 - k)) with true by (symmetry; apply Nat.ltb_lt; lia).
    apply partial_term_ext.
    + intros i Hi. apply IH; lia.
    + apply (zero__shaped_eq B (C ^ (j + 1))); [apply S1 | apply S2]; lia.
Qed.

(** The value of [log] does not depend on what [output_vector] held. *)
Lemma log_agree (out out' : talg) :
  graded B C D out -> graded B C D out' ->
  ta_ops_partial.mult_partial (horner is_even r D x out (D - 2)) x 1%F 0
  = ta_ops_partial.mult_partial (horner is_even r D x out' (D - 2)) x 1%F 0.
Proof.
  intros Ho Ho'.
  destruct (graded_horner out (D - 2) Ho) as [L1 S1].
  destruct (graded_horner out' (D - 2) Ho') as [L2 S2].
  apply (nth_ext _ _ [] []).
  - rewrite !mult_partial_length, L1, L2. reflexivity.
  - intros d Hd. rewrite mult_partial_length, L1 in Hd.
    rewrite !mult_partial_nth, L1, L2, Nat.sub_0_r.
    replace (d <? D) with true by (symmetry; apply Nat.ltb_lt; exact Hd).
    apply partial_term_ext.
    + intros j Hj. apply horner_agree; auto; lia.
    + apply (zero__shaped_eq B (C ^ (d + 1))); [apply S1 | apply S2]; exact Hd.
Qed.

End Chain.

End WithParity.

End Logarithm.

Section LogarithmBackward.
Context {K : ExactField}.
Add Field KfieldL2 : (field_laws K).

Notation "0" := (fzero K) : field_scope.
Notation "1" := (fone K) : field_scope.
Infix "+" := (fadd K) : field_scope.
Infix "*" := (fmul K) : field_scope.
Infix "-" := (fsub K) : field_scope.
Notation "- x" := (fopp K x) : field_scope.

Local Abbreviation vec := (vec K).
Local Abbreviation tensor := (tensor K).
Local Abbreviation tensor3 := (tensor3 K).
Local Abbreviation talg := (talg K).

Section WithParity.
Variable is_even : Z -> bool.

(** The recording loop of [log_backward] over depth_index = n - 1, ..., m. *)
Lemma record_loop (r : list K) (D : nat) (x : talg) (n : nat) :
  forall m k (rec : list talg),
    m + n = D - 2 - k -> D - 2 <= length r ->
    fold_left
      (fun st depth_index =>
         match st with
         | None => None
         | Some (scratch_vector, record_vector) =>
           match ta_ops_log.log_coefficient_at_depth is_even (Z.of_nat depth_index) r with
           | None => None
           | Some coefficient =>
             Some (ta_ops_partial.mult_partial scratch_vector x coefficient (depth_index + 1),
                   record_vector ++ [scratch_vector])
           end
         end)
      (rev (seq m n)) (Some (horner is_even r D x x k, rec))
    = Some (horner is_even r D x x (k + n), rec ++ map (horner is_even r D x x) (seq k n)).
Proof.
  induction n as [|n IH]; intros m k rec E Hr.
  - cbn. rewrite Nat.add_0_r, app_nil_r. reflexivity.
  - rewrite seq_S, rev_app_distr. cbn [rev app fold_left].
    rewrite coefficient_some by lia.
    replace (m + n + 1) with (D - 2 - k) by lia. replace (m + n) with (D - 3 - k) by lia.
    change (ta_ops_partial.mult_partial (horner is_even r D x x k) x
                                        (log_coef is_even r (D - 3 - k)) (D - 2 - k))
      with (horner is_even r D x x (S k)).
    rewrite (IH m (S k)) by lia. cbn [seq map]. rewrite <- app_assoc. cbn [app].
    f_equal. f_equal. f_equal. lia.
Qed.

(** The loop of [log_backward] over depth_index = 0, ..., n - 1. *)
Lemma grads_loop (r : list K) (D : nat) (x G gin : talg) (rec : list talg) (n : nat) :
  n <= D - 2 -> D - 2 <= length r ->
  (forall k, k <= D - 2 -> nth k rec [] = horner is_even r D x x k) ->
  fold_left
    (fun st depth_index =>
       match st with
       | None => None
       | Some (grads, backward_index) =>
         match ta_ops_log.log_coefficient_at_depth is_even (Z.of_nat depth_index) r with
         | None => None
         | Some coefficient =>
           Some (ta_ops_partial.mult_partial_backward
                   (fst grads) (snd grads) (nth (backward_index - 1) rec [])
                   x coefficient (depth_index + 1),
                 backward_index - 1)
         end
       end)
    (seq 0 n) (Some (log_grads is_even r D x G gin 0, D - 2))
  = Some (log_grads is_even r D x G gin n, D - 2 - n).
Proof.
  intros Hn Hr Hrec. induction n as [|n IH].
  - cbn [seq fold_left]. rewrite Nat.sub_0_r. reflexivity.
  - rewrite seq_S, fold_left_app, IH by lia. cbn [plus fold_left].
    rewrite coefficient_some by lia. rewrite Hrec by lia.
    replace (D - 2 - n - 1) with (D - 3 - n) by lia.
    replace (D - 2 - S n) with (D - 3 - n) by lia. reflexivity.
Qed.

(** [log_backward] in terms of [log_grads]. *)
Lemma log_backward_value (r : list K) (x G gin : talg) :
  2 <= length x -> length x - 1 <= length r ->
  ta_ops_log.log_backward is_even G gin x r
  = Some (fst (log_grads is_even r (length x) x G gin (length x - 2)),
          upd 0 (tadd (nth 0 (snd (log_grads is_even r (length x) x G gin (length x - 2))) [])
                      (tscale (log_coef is_even r (length x - 2))
                              (nth 0 (fst (log_grads is_even r (length x) x G gin
                                                     (length x - 2))) [])))
              (snd (log_grads is_even r (length x) x G gin (length x - 2)))).
Proof.
  intros HD Hr. unfold ta_ops_log.log_backward. cbv zeta.
  replace (Z.of_nat (length x) - 2)%Z with (Z.of_nat (length x - 2)) by lia.
  rewrite coefficient_some by lia.
  change (upd 0 (tscale (log_coef is_even r (length x - 2)) (nth 0 x [])) x)
    with (horner is_even r (length x) x x 0).
  rewrite (record_loop r (length x) x (length x - 2) 0 0 []) by lia.
  cbn [plus app].
  set (rec := map (horner is_even r (length x) x x) (seq 0 (length x - 2))
                  ++ [horner is_even r (length x) x x (length x - 2)]).
  assert (Lrec : length rec - 1 = length x - 2).
  { unfold rec. rewrite length_app, length_map, length_seq. cbn [length]. lia. }
  assert (Hrec : forall k, k <= length x - 2 ->
                           nth k rec [] = horner is_even r (length x) x x k).
  { intros k Hk. unfold rec. destruct (Nat.eq_dec k (length x - 2)) as [-> | Hne].
    - rewrite app_nth2 by (rewrite length_map, length_seq; lia).
      rewrite length_map, length_seq, Nat.sub_diag. reflexivity.
    - rewrite app_nth1 by (rewrite length_map, length_seq; lia).
      rewrite (nth_map_seq _ [] 0) by lia. reflexivity. }
  rewrite Lrec, Hrec by lia.
  change (ta_ops_partial.mult_partial_backward
            G gin (horner is_even r (length x) x x (length x - 2)) x 1%F 0)
    with (log_grads is_even r (length x) x G gin 0).
  rewrite (grads_loop r (length x) x G gin rec (length x - 2)) by (auto; lia).
  destruct (log_grads is_even r (length x) x G gin (length x - 2)) as [go gi].
  reflexivity.
Qed.

Lemma nth_map_zero_ (a : talg) (d : nat) : nth d (map zero_ a) [] = zero_ (nth d a []).
Proof. exact (map_nth zero_ a [] d). Qed.

Lemma adot_map_seq (G : talg) (f : nat -> tensor) (D : nat) :
  length G = D ->
  adot G (map f (seq 0 D)) = ksum (fun i => tdot (nth i G []) (f i)) D.
Proof.
  intros L. rewrite (adot_upto G _ D) by (left; lia).
  apply ksum_ext. intros i Hi. rewrite (nth_map_seq _ [] 0) by exact Hi. reflexivity.
Qed.

Lemma aexp_graded (B C D : nat) (Phi : K -> talg) (A T : talg) :
  aexp B C D Phi A T -> graded B C D A /\ graded B C D T.
Proof.
  intros (_ & LA & LT & H). split; (split; [assumption|]); intros d Hd;
    destruct (H d Hd) as (_ & SA & ST & _); assumption.
Qed.

Section Chain.
Variables (B C D : nat) (r : list K) (x dx : talg).
Hypothesis HD : 2 <= D.
Hypothesis Hx : graded B C D x.
Hypothesis Hdx : graded B C D dx.

(** [horner] along a line through the input, with its derivative. *)
Lemma aexp_horner (out : talg) (k : nat) :
  graded B C D out ->
  aexp B C D (fun t => horner is_even r D (aline x dx t) out k)
       (horner is_even r D x out k) (horner_tangent is_even r D x dx out k).
Proof.
  intros Ho. pose proof (aexp_aline B C D x dx Hx Hdx) as Hl.
  induction k as [|k IH]; cbn [horner horner_tangent].
  - destruct Ho as [Lo So]. destruct Hl as (Ll & _ & _ & Hl).
    split; [|split; [|split]].
    + intros t. rewrite upd_length. exact Lo.
    + rewrite upd_length. exact Lo.
    + rewrite upd_length, length_map. exact Lo.
    + intros d Hd. destruct (Nat.eq_dec d 0) as [-> | Hne].
      * apply (texp_ext B _ (fun t => tscale (log_coef is_even r (D - 2))
                                             (nth 0 (aline x dx t) []))).
        { intros t. rewrite nth_upd_same by lia. reflexivity. }
        rewrite !nth_upd_same by (rewrite ?length_map; lia).
        apply texp_tscale. apply Hl. exact Hd.
      * apply (texp_ext B _ (fun _ => nth d out [])).
        { intros t. rewrite nth_upd_other by lia. reflexivity. }
        rewrite !nth_upd_other by lia.
        rewrite nth_map_zero_.
        apply texp_const; [apply So; exact Hd | apply shaped_zero_; apply So; exact Hd|].
        intros i j. rewrite zero__tscale, ent_tscale. ring.
  - apply (aexp_mult_partial B C D (D - 2 - k) _
                             (fun t => horner is_even r D (aline x dx t) out k) (aline x dx));
      assumption.
Qed.

Lemma graded_horner_tangent (out : talg) (k : nat) :
  graded B C D out -> graded B C D (horner_tangent is_even r D x dx out k).
Proof. intros Ho. apply (aexp_graded _ _ _ _ _ _ (aexp_horner out k Ho)). Qed.

(** After [m] rounds [log_backward] holds the gradients with respect to
    what [log] had after [D - 2 - m] steps. *)
Lemma log_grads_pairing (G gin : talg) (m : nat) :
  graded B C D G -> graded B C D gin -> m <= D - 2 ->
  graded B C D (fst (log_grads is_even r D x G gin m)) /\
  graded B C D (snd (log_grads is_even r D x G gin m)) /\
  (adot (fst (log_grads is_even r D x G gin m)) (horner_tangent is_even r D x dx x (D - 2 - m))
   + adot (snd (log_grads is_even r D x G gin m)) dx
   = adot G (log_tangent is_even r D x dx) + adot gin dx)%F.
Proof.
  intros HG Hgin. induction m as [|m IH]; intros Hm.
  - cbn [log_grads]. rewrite Nat.sub_0_r.
    destruct (mult_partial_backward_pairing
                B C D D 1%F (horner is_even r D x x (D - 2)) x
                (horner_tangent is_even r D x dx x (D - 2)) dx
                (graded_horner is_even B C D r x HD Hx x (D - 2) Hx) Hx
                (graded_horner_tangent x (D - 2) Hx) Hdx (Nat.le_refl D)
                0 G gin ltac:(lia) HG Hgin) as (R1 & R2 & P).
    split; [exact R1|]. split; [exact R2|]. rewrite P. unfold log_tangent.
    rewrite adot_map_seq by apply HG. reflexivity.
  - destruct (IH ltac:(lia)) as (G1 & G2 & P0).
    cbn [log_grads]. cbv zeta.
    set (g := log_grads is_even r D x G gin m) in *.
    destruct (mult_partial_backward_pairing
                B C D (D - (m + 1)) (log_coef is_even r m)
                (horner is_even r D x x (D - 3 - m)) x
                (horner_tangent is_even r D x dx x (D - 3 - m)) dx
                (graded_horner is_even B C D r x HD Hx x (D - 3 - m) Hx) Hx
                (graded_horner_tangent x (D - 3 - m) Hx) Hdx ltac:(lia)
                (m + 1) (fst g) (snd g) eq_refl G1 G2) as (R1 & R2 & P).
    split; [exact R1|]. split; [exact R2|].
    replace (D - 2 - S m) with (D - 3 - m) by lia. rewrite P, <- P0.
    f_equal. replace (D - 2 - m) with (S (D - 3 - m)) by lia.
    cbn [horner_tangent]. rewrite adot_map_seq by apply G1.
    replace (D - 3 - (D - 3 - m)) with m by lia.
    replace (D - (D - 2 - (D - 3 - m))) with (D - (m + 1)) by lia. reflexivity.
Qed.

(** The last statement of [log_backward]. *)
Lemma log_last_step (go gi : talg) :
  graded B C D go -> graded B C D gi ->
  adot (upd 0 (tadd (nth 0 gi []) (tscale (log_coef is_even r (D - 2)) (nth 0 go []))) gi) dx
  = (adot go (horner_tangent is_even r D x dx x 0) + adot gi dx)%F.
Proof.
  intros [Lo So] [Li Si]. destruct Hx as [Lx Sx].
  rewrite (adot_upto _ dx D) by (left; rewrite upd_length; lia).
  rewrite (ksum_upd_add gi (fun i => nth i dx []) _ D 0) by lia.
  rewrite (adot_upto gi dx D) by (left; lia).
  rewrite (adot_upto go _ D) by (left; lia).
  cbn [horner_tangent].
  rewrite (ksum_change
             (fun t => tdot (nth t go [])
                            (nth t (upd 0 (tscale (log_coef is_even r (D - 2)) (nth 0 dx []))
                                        (map zero_ x)) []))
             (fun _ => 0%F) D 0).
  - cbv beta. rewrite ksum_zero. rewrite nth_upd_same by (rewrite length_map; lia).
    rewrite tdot_tscale_l, tdot_tscale_r. ring.
  - lia.
  - intros i Hi Hne. rewrite nth_upd_other by lia.
    rewrite nth_map_zero_. apply tdot_zero_r.
Qed.

End Chain.

End WithParity.

End LogarithmBackward.

(** * The properties of the specification *)

Section ClaimChen.
Context {K : ExactField}.

Local Abbreviation vec := (vec K).
Local Abbreviation tensor := (tensor K).
Local Abbreviation tensor3 := (tensor3 K).
Local Abbreviation talg := (talg K).

(** C1. Chen's identity for the exposed operations: for a well-formed path
    of shape (N, B, C) that [signature_checkargs] accepts (so N >= 2 and
    depth >= 1) and the driver has a kernel for (on CUDA, or of type [Float]
    or [Double]), and a split index 1 <= m <= N - 2, the three calls of
    [signature_forward] (no stream, basepoint, inverse or initial value) on
    path[:m+1], on path[m:] and on path all return, and
    [signature_combine_forward] of the first two signatures returns the
    third.  Each call may see its own uninitialised memory and its own
    OpenMP environment. *)
Theorem chen_identity (env env1 env2 : omp) (junk junk1 junk2 : K) (path bv iv : Tensor K)
        (depth : Z) (m : nat) :
  omp_ok env -> omp_ok env1 -> omp_ok env2 ->
  well_formed path = true ->
  signature_checkargs path depth false bv false iv = None ->
  has_kernel path = true ->
  1 <= m <= size path stream_dim - 2 ->
  exists s1 s2 s : Tensor K,
    signature_of (signature_forward env1 junk1 (stream_slice path 0 (m + 1)) depth
                                    false false bv false false iv) = Ok s1 /\
    signature_of (signature_forward env2 junk2 (stream_slice path m (size path stream_dim))
                                    depth false false bv false false iv) = Ok s2 /\
    signature_of (signature_forward env junk path depth false false bv false false iv) = Ok s /\
    signature_combine_forward s1 s2 (size path channel_dim) depth = Ok s.
Proof.
  intros Hok Hok1 Hok2 Hw Hc Hk Hm.
  assert (Hk1 : has_kernel (stream_slice path 0 (m + 1)) = true) by exact Hk.
  assert (Hk2 : has_kernel (stream_slice path m (size path stream_dim)) = true) by exact Hk.
  destruct (checkargs_sizes path bv iv depth false false Hc)
    as (N & B & C & Hs & HN1 & HN2 & HB & HC & HD & Hf).
  specialize (HN2 eq_refl).
  destruct (well_formed_data3 path N B C Hw Hs) as (p & Hd & Hp).
  destruct (size_3 path N B C Hs) as (E1 & E2 & E3). rewrite E1 in *. rewrite E3.
  assert (L : length p = N) by apply Hp.
  destruct (stream_slice_prefix path N B C m p Hs Hd ltac:(lia)) as (Hs1 & Hd1).
  destruct (stream_slice_suffix path N B C m p Hs Hd L) as (Hs2 & Hd2).
  assert (Hp1 : shaped3 (m + 1) B C (firstn (m + 1) p)).
  { split; [rewrite length_firstn; lia | apply Forall_firstn'; apply Hp]. }
  assert (Hp2 : shaped3 (N - m) B C (skipn m p)).
  { split; [rewrite length_skipn; lia | apply Forall_skipn'; apply Hp]. }
  rewrite (forward_value env1 junk1 _ bv iv depth false (m + 1) B C (firstn (m + 1) p))
    by (auto; lia).
  rewrite (forward_value env2 junk2 _ bv iv depth false (N - m) B C (skipn m p))
    by (auto; lia).
  rewrite (forward_value env junk path bv iv depth false N B C p) by (auto; lia).
  cbn [signature_of bind fst]. do 3 eexists. repeat split.
  rewrite (increments_firstn N B C), (increments_skipn N B C) by (auto; lia).
  assert (Ej : forall j j' : K,
             signature_detail.compute_path_increments j p false (as2 bv) false
             = signature_detail.compute_path_increments j' p false (as2 bv) false)
    by reflexivity.
  rewrite (Ej junk1 junk), (Ej junk2 junk).
  pose proof (compute_path_increments_shaped N B C junk p false (as2 bv) false Hp
                                             ltac:(lia) ltac:(discriminate)) as [Lpi Hpi].
  set (pi := signature_detail.compute_path_increments junk p false (as2 bv) false) in *.
  set (r := misc.make_reciprocals (Z.to_nat depth)).
  assert (Lr : length r = Z.to_nat depth - 1) by apply make_reciprocals_length.
  assert (N1 : firstn m pi <> []).
  { intros E. apply (f_equal (@length tensor)) in E. rewrite length_firstn in E.
    cbn [length] in E. lia. }
  assert (N2 : skipn m pi <> []).
  { intros E. apply (f_equal (@length tensor)) in E. rewrite length_skipn in E.
    cbn [length] in E. lia. }
  assert (G1 : graded B C (Z.to_nat depth) (sig_drive false r (Z.to_nat depth) (firstn m pi))).
  { destruct (firstn m pi) as [|x xs] eqn:E; [congruence|].
    apply graded_sig_drive; [rewrite <- E; apply Forall_firstn'; exact Hpi | exact Lr]. }
  assert (G2 : graded B C (Z.to_nat depth) (sig_drive false r (Z.to_nat depth) (skipn m pi))).
  { destruct (skipn m pi) as [|x xs] eqn:E; [congruence|].
    apply graded_sig_drive; [rewrite <- E; apply Forall_skipn'; exact Hpi | exact Lr]. }
  rewrite (combine_forward_value B C depth _ _ _ _ G1 G2).
  rewrite <- (chen_sig_drive B C (Z.to_nat depth))
    by (auto; try apply Forall_firstn'; try apply Forall_skipn'; auto).
  rewrite firstn_skipn. reflexivity.
Qed.

End ClaimChen.

Section ClaimValidation.
Context {K : ExactField}.

Lemma has_shape_2 (t : Tensor K) (b n : nat) :
  has_shape t [b; n]
  = (ndimension t =? 2) && ((size t channel_dim =? n) && (size t batch_dim =? b)).
Proof.
  unfold has_shape, ndimension, size, ndimension.
  destruct (sizes t) as [|x [|y [|z l]]]; try reflexivity.
  cbn. rewrite andb_true_r. apply andb_comm.
Qed.

Lemma TensorOptions_eqb_split (a b : TensorOptions) :
  TensorOptions_eqb a b = ScalarType_eqb (dtype a) (dtype b) && Device_eqb (device a) (device b).
Proof. reflexivity. Qed.

Lemma disagrees_checks (path value : Tensor K) (b n : nat) :
  disagrees path value [b; n]
  = negb (ndimension value =? 2)
    || (negb (size value channel_dim =? n) || negb (size value batch_dim =? b))
    || negb (TensorOptions_eqb (make_opts path) (make_opts value)).
Proof.
  unfold disagrees, make_opts. rewrite has_shape_2, TensorOptions_eqb_split.
  destruct (ndimension value =? 2), (size value channel_dim =? n), (size value batch_dim =? b),
    (ScalarType_eqb _ _), (Device_eqb _ _); reflexivity.
Qed.

(** The exception of the validation, if any, and the input it refuses. *)
Lemma checkargs_invalid_input (path : Tensor K) (depth : Z) (basepoint : bool)
      (bv : Tensor K) (initial : bool) (iv : Tensor K) :
  invalid_input path depth basepoint bv initial iv
  = match signature_checkargs path depth basepoint bv initial iv with
    | Some _ => true
    | None => false
    end.
Proof.
  unfold invalid_input, signature_checkargs. rewrite !disagrees_checks.
  destruct (sizes path) as [|N [|B [|C [|x l]]]] eqn:Hs;
    change (ndimension path) with (length (sizes path)); rewrite ?Hs; try reflexivity.
  destruct (size_3 path N B C Hs) as (E1 & E2 & E3). rewrite E1, E2, E3.
  change (length [N; B; C] =? 3) with true. change (length [N; B; C] =? 2) with false.
  cbn [negb orb existsb].
  rewrite (Nat.eqb_sym 0 N), (Nat.eqb_sym 0 B), (Nat.eqb_sym 0 C). rewrite orb_false_r.
  destruct (B =? 0), (N =? 0), (C =? 0); cbn [orb]; try reflexivity.
  destruct (negb basepoint && (N =? 1)) eqn:E; cbn [orb]; [reflexivity|].
  destruct (depth <? 1)%Z; cbn [orb]; [reflexivity|].
  destruct (is_floating_point path); cbn [negb orb]; [|reflexivity].
  destruct basepoint; cbn [andb orb].
  - destruct (ndimension bv =? 2); cbn [negb orb]; [|reflexivity].
    destruct (negb (size bv channel_dim =? C) || negb (size bv batch_dim =? B));
      cbn [orb]; [reflexivity|].
    destruct (TensorOptions_eqb (make_opts path) (make_opts bv)); cbn [negb orb];
      [|reflexivity].
    destruct initial; cbn [andb]; [|reflexivity].
    destruct (ndimension iv =? 2); cbn [negb orb]; [|reflexivity].
    destruct (negb (size iv channel_dim =? signature_channels C depth)
              || negb (size iv batch_dim =? B)); cbn [orb]; [reflexivity|].
    destruct (TensorOptions_eqb (make_opts path) (make_opts iv)); reflexivity.
  - destruct initial; cbn [andb]; [|reflexivity].
    destruct (ndimension iv =? 2); cbn [negb orb]; [|reflexivity].
    destruct (negb (size iv channel_dim =? signature_channels C depth)
              || negb (size iv batch_dim =? B)); cbn [orb]; [reflexivity|].
    destruct (TensorOptions_eqb (make_opts path) (make_opts iv)); reflexivity.
Qed.

(** C8. Argument validation: [signature_checkargs] throws exactly on the
    inputs that the specification lists (path not 3-dimensional, a
    zero-sized axis, stream size 1 without basepoint, depth < 1, a dtype that
    is not floating point, a supplied basepoint_value or initial_value that
    disagrees with path in shape, dtype or device); [signature_forward] then
    ends with that exception and returns no signature.  On every other input
    [signature_forward] does not end with an argument error, and it returns
    a signature when the driver has a kernel for the path (on CUDA, or of
    type [Float] or [Double]). *)
Theorem checkargs_raises_iff (env : omp) (junk : K) (path : Tensor K) (depth : Z)
        (stream basepoint : bool) (bv : Tensor K) (inverse initial : bool) (iv : Tensor K) :
  ((exists e, signature_checkargs path depth basepoint bv initial iv = Some e)
   <-> invalid_input path depth basepoint bv initial iv = true) /\
  match signature_checkargs path depth basepoint bv initial iv with
  | Some e => signature_forward env junk path depth stream basepoint bv inverse initial iv
              = Throw e
  | None =>
    (forall e, signature_forward env junk path depth stream basepoint bv inverse initial iv
               <> Throw e) /\
    (has_kernel path = true ->
     exists out, signature_forward env junk path depth stream basepoint bv inverse
                                   initial iv = Ok out)
  end.
Proof.
  split.
  - rewrite checkargs_invalid_input.
    destruct (signature_checkargs path depth basepoint bv initial iv) as [e|].
    + split; [reflexivity | intros _; exists e; reflexivity].
    + split; [intros [e H]; discriminate | discriminate].
  - unfold signature_forward.
    destruct (signature_checkargs path depth basepoint bv initial iv) as [e|];
      [reflexivity|].
    cbv zeta. split.
    + intros e.
      match goal with
      | |- bind ?d _ <> _ => pose proof (fun e' => forward_drive_never_throws
                                           _ _ _ _ _ _ _ _ _ _ _ _ _ _ _ _ _ e'
                                         : d <> Throw e') as Hd; destruct d as [[s v]| | |]
      end; try discriminate. exfalso. apply (Hd e0). reflexivity.
    + intros Hk.
      match goal with
      | |- exists out, bind ?d _ = _ =>
        destruct (forward_drive_returns _ _ _ _ _ _ _ _ _ _ _ _ _ _ _ _ _ Hk
                  : exists res, d = Ok res) as [[s v] E]; rewrite E
      end.
      eexists. reflexivity.
Qed.

End ClaimValidation.

Section ClaimKernels.
Context {K : ExactField}.
Add Field KfieldT3 : (field_laws K).

Local Abbreviation vec := (vec K).
Local Abbreviation tensor := (tensor K).
Local Abbreviation tensor3 := (tensor3 K).
Local Abbreviation talg := (talg K).

(** C6. Restricted exponential: with the reciprocals r of
    [make_reciprocals] (length D - 1, r[i] = 1/(i+2)), [restricted_exp]
    leaves out[0] = x and out[k] = (out[k-1] (x) x) * r[k-1] for
    k = 1 .. D-1, that is, out[k] = x^{(x)(k+1)} / (k+1)!. *)
Theorem restricted_exp_postcondition (x : tensor) (out : talg) :
  1 <= length out ->
  let D := length out in
  let r := misc.make_reciprocals D in
  let res := ta_ops.restricted_exp x out r in
  length r = D - 1 /\
  (forall i, i < D - 1 -> nth i r (fzero K) = fdiv K (fone K) (of_nat (i + 2))) /\
  length res = D /\
  nth 0 res [] = x /\
  (forall k, 1 <= k < D ->
             nth k res [] = tscale (nth (k - 1) r (fzero K)) (tmul_cr (nth (k - 1) res []) x)) /\
  (forall k, k < D ->
             nth k res [] = tscale (fdiv K (fone K) (of_nat (fact (k + 1)))) (xpow x k)).
Proof.
  intros HD D r res. subst res.
  split; [apply make_reciprocals_length|].
  split; [intros i Hi; apply make_reciprocals_nth; exact Hi|].
  split; [apply restricted_exp_length|].
  split; [rewrite restricted_exp_nth by exact HD; apply rexp_term_0|].
  split.
  - intros k Hk. rewrite !restricted_exp_nth by (fold D; lia).
    replace k with (S (k - 1)) at 1 by lia. rewrite rexp_term_S, tmul_rc_cr.
    f_equal. unfold rexp_term. rewrite tscale_tmul_l, tscale_tmul_r. f_equal.
    apply xpow_comm.
  - intros k Hk. rewrite restricted_exp_nth by exact Hk. unfold rexp_term.
    subst r. rewrite ecoef_make_reciprocals by exact Hk. reflexivity.
Qed.

(** C7 (amended). Path-increment extraction: for a path of shape (N, B, C),
    N >= 1, [compute_path_increments] returns an (S, B, C) tensor, S = N - 1
    without basepoint and S = N with one, with result[s] = path[s+1] - path[s]
    (path[s] - path[s+1] under inverse) without basepoint, and with
    basepoint result[0] = path[0] - bp (bp - path[0] under inverse) and
    result[s] = path[s] - path[s-1] (path[s-1] - path[s] under inverse) for
    1 <= s < N. *)
Theorem compute_path_increments_table (N B C : nat) (junk : K) (path : tensor3)
        (basepoint : bool) (basepoint_value : tensor) (inverse : bool) :
  shaped3 N B C path -> 1 <= N -> (basepoint = true -> shaped B C basepoint_value) ->
  let result := signature_detail.compute_path_increments junk path basepoint basepoint_value
                                                         inverse in
  let S := N - (if basepoint then 0 else 1) in
  shaped3 S B C result /\
  forall s, s < S -> nth s result [] = increments_entry path basepoint basepoint_value inverse s.
Proof.
  intros Hp HN Hb result S. split; [apply compute_path_increments_shaped; assumption|].
  intros s Hs. subst result S. unfold increments_entry. destruct basepoint.
  - destruct s as [|s].
    + apply (compute_path_increments_basepoint_0 N B C); assumption.
    + cbn [Nat.eqb]. apply (compute_path_increments_basepoint_nth N B C); auto; lia.
  - apply (compute_path_increments_nth N B C); assumption.
Qed.

End ClaimKernels.

Section ClaimRoundTrip.
Context {K : ExactField}.

Local Abbreviation vec := (vec K).
Local Abbreviation tensor := (tensor K).
Local Abbreviation tensor3 := (tensor3 K).
Local Abbreviation talg := (talg K).

Lemma backward_recompute_step (path_increments : tensor3) (r : list K) (inverse : bool)
      (a : talg) (s : nat) :
  s < length path_increments ->
  backward_recompute path_increments r inverse a s
  = ta_ops.mult_fused_restricted_exp (tneg (nth s path_increments []))
                                     (backward_recompute path_increments r inverse a (s + 1))
                                     inverse r.
Proof.
  intros Hs. unfold backward_recompute. cbv zeta.
  replace (length path_increments - s) with (S (length path_increments - (s + 1))) by lia.
  cbn [seq rev]. rewrite fold_left_app. cbn [fold_left].
  replace (S s) with (s + 1) by lia. reflexivity.
Qed.

(** C4. Round trip of the fused kernel: on an element A of the truncated
    tensor algebra and an increment x, [mult_fused_restricted_exp] with
    next = x and then with next = -x gives A back, for either value of
    [inverse]; hence the loop of [signature_backward] without [stream],
    started from the signature of all the increments, holds the signature
    at stream s - 1 after its iteration s. *)
Theorem fused_round_trip_backward (B C D : nat) (x : tensor) (A a0 : talg) (inverse : bool)
        (path_increments : tensor3) (s : nat) :
  graded B C D A -> shaped B C x -> graded B C D a0 ->
  Forall (shaped B C) path_increments -> 1 <= s <= length path_increments ->
  let r := misc.make_reciprocals D in
  ta_ops.mult_fused_restricted_exp
    (tneg x) (ta_ops.mult_fused_restricted_exp x A inverse r) inverse r = A /\
  backward_recompute path_increments r inverse
                     (drive inverse r a0 (slice_of path_increments 1 (length path_increments))) s
  = drive inverse r a0 (slice_of path_increments 1 s).
Proof.
  intros HA Hx Ha0 Hpi Hs r. split; [apply (fused_round_trip B C D); assumption|].
  assert (Lr : length r = D - 1) by apply make_reciprocals_length.
  remember (length path_increments - s) as n eqn:En. revert s Hs En.
  induction n as [|n IH]; intros s Hs En.
  - replace s with (length path_increments) by lia. unfold backward_recompute.
    rewrite Nat.sub_diag. reflexivity.
  - rewrite backward_recompute_step by lia. rewrite IH by lia.
    rewrite (slice_of_app path_increments 1 s (s + 1)) by lia.
    rewrite (slice_of_cons path_increments [] s (s + 1)) by lia.
    replace (S s) with (s + 1) by lia.
    rewrite slice_of_nil, drive_app. cbn [drive fold_left].
    apply (fused_round_trip B C D).
    + apply graded_drive; auto. apply slice_of_Forall. exact Hpi.
    + apply (proj1 (Forall_nth _ _) Hpi). lia.
Qed.

End ClaimRoundTrip.

Section SerialProperties.
Context {K : ExactField}.

Local Abbreviation vec := (vec K).
Local Abbreviation tensor := (tensor K).
Local Abbreviation tensor3 := (tensor3 K).
Local Abbreviation talg := (talg K).

Lemma well_formed_reverse (path : Tensor K) (N B C : nat) (p : tensor3) :
  sizes path = [N; B; C] -> data path = D3 p -> shaped3 N B C p ->
  sizes (reverse path) = [N; B; C] /\ data (reverse path) = D3 (rev p) /\
  shaped3 N B C (rev p).
Proof.
  intros Hs Hd [L F]. unfold reverse, as3. rewrite Hd. cbn [sizes data].
  repeat split; auto; [rewrite length_rev; exact L | apply Forall_rev; exact F].
Qed.

(** X1. Without [inverse], on a path that the driver has a kernel for (on
    CUDA, or of type [Float] or [Double]), the signature does not depend on
    the OpenMP environment: whatever [max_parallelism] and the team sizes
    are, the chunked-parallel driver returns what the serial driver
    returns. *)
Theorem parallelism_invariance_forward (env env' : omp) (junk junk' : K)
        (path bv iv : Tensor K) (depth : Z) :
  omp_ok env -> omp_ok env' -> well_formed path = true ->
  signature_checkargs path depth false bv false iv = None ->
  has_kernel path = true ->
  exists s : Tensor K,
    signature_of (signature_forward env junk path depth false false bv false false iv) = Ok s /\
    signature_of (signature_forward env' junk' path depth false false bv false false iv) = Ok s.
Proof.
  intros Hok Hok' Hw Hc Hk.
  destruct (checkargs_sizes path bv iv depth false false Hc)
    as (N & B & C & Hs & HN1 & HN2 & HB & HC & HD & Hf).
  specialize (HN2 eq_refl).
  destruct (well_formed_data3 path N B C Hw Hs) as (p & Hd & Hp).
  rewrite (forward_value env junk path bv iv depth false N B C p) by auto.
  rewrite (forward_value env' junk' path bv iv depth false N B C p) by auto.
  cbn [signature_of bind fst]. eexists. split; reflexivity.
Qed.

(** X2. The inverse property on the serial driver: on a path that the
    driver has a kernel for, when [max_parallelism] is 1 for the call with
    [inverse], that call returns the signature of the reversed path. *)
Theorem inverse_property_serial (env env' : omp) (junk junk' : K) (path bv iv : Tensor K)
        (depth : Z) :
  omp_ok env -> omp_ok env' -> get_max_parallelism env = 1 -> well_formed path = true ->
  signature_checkargs path depth false bv false iv = None ->
  has_kernel path = true ->
  exists s : Tensor K,
    signature_of (signature_forward env junk path depth false false bv true false iv) = Ok s /\
    signature_of (signature_forward env' junk' (reverse path) depth false false bv false false
                                    iv) = Ok s.
Proof.
  intros Hok Hok' Hpar Hw Hc Hk.
  assert (Hk' : has_kernel (reverse path) = true) by exact Hk.
  destruct (checkargs_sizes path bv iv depth false false Hc)
    as (N & B & C & Hs & HN1 & HN2 & HB & HC & HD & Hf).
  specialize (HN2 eq_refl).
  destruct (well_formed_data3 path N B C Hw Hs) as (p & Hd & Hp).
  destruct (well_formed_reverse path N B C p Hs Hd Hp) as (Hs' & Hd' & Hp').
  rewrite (forward_value env junk path bv iv depth true N B C p) by auto.
  rewrite (forward_value env' junk' (reverse path) bv iv depth false N B C (rev p)) by auto.
  cbn [signature_of bind fst]. eexists. split; [reflexivity|].
  rewrite (increments_rev N B C junk' p (as2 bv) Hp) by lia.
  pose proof (compute_path_increments_shaped N B C junk' p false (as2 bv) true Hp
                                             ltac:(lia) ltac:(discriminate)) as [_ Hpi].
  rewrite <- (inverse_sig_drive B C (Z.to_nat depth))
    by (auto; apply make_reciprocals_length).
  reflexivity.
Qed.

(** X3. Stream prefix consistency without [inverse], or with it on the serial
    driver: on a path that the driver has a kernel for, slot [s] of the
    [stream] output is the signature of path[:s+2]. *)
Theorem stream_prefix_consistency_serial (env env' : omp) (junk junk' : K)
        (path bv iv : Tensor K) (depth : Z) (inverse : bool) (s : nat) :
  omp_ok env -> omp_ok env' -> inverse = false \/ get_max_parallelism env' = 1 ->
  well_formed path = true ->
  signature_checkargs path depth false bv false iv = None ->
  has_kernel path = true ->
  s <= size path stream_dim - 2 ->
  exists sig : Tensor K,
    signature_of (signature_forward env junk path depth true false bv inverse false iv)
    = Ok sig /\
    signature_of (signature_forward env' junk' (stream_slice path 0 (s + 2)) depth false false
                                    bv inverse false iv)
    = Ok (select sig s).
Proof.
  intros Hok Hok' Hser Hw Hc Hk Hs'.
  assert (Hk' : has_kernel (stream_slice path 0 (s + 1 + 1)) = true) by exact Hk.
  destruct (checkargs_sizes path bv iv depth false false Hc)
    as (N & B & C & Hs & HN1 & HN2 & HB & HC & HD & Hf).
  specialize (HN2 eq_refl).
  destruct (well_formed_data3 path N B C Hw Hs) as (p & Hd & Hp).
  destruct (size_3 path N B C Hs) as (E1 & _). rewrite E1 in Hs'.
  destruct (forward_stream_value env junk path bv iv depth inverse N B C p)
    as (sig3 & E & P); auto.
  rewrite E. eexists. split; [reflexivity|].
  replace (s + 2) with ((s + 1) + 1) by lia.
  destruct (stream_slice_prefix path N B C (s + 1) p Hs Hd ltac:(lia)) as (Hs1 & Hd1).
  assert (Hp1 : shaped3 (s + 1 + 1) B C (firstn (s + 1 + 1) p)).
  { split; [rewrite length_firstn; destruct Hp as [L _]; lia
           | apply Forall_firstn'; apply Hp]. }
  rewrite (forward_value env' junk' _ bv iv depth inverse (s + 1 + 1) B C
                         (firstn (s + 1 + 1) p)); auto; try lia.
  - cbn [signature_of bind fst]. unfold select, as3. cbn [sizes options data tl].
    rewrite (P s) by lia. rewrite (increments_firstn N B C) by (auto; lia).
    reflexivity.
  - destruct Hser as [H | H]; auto.
Qed.

End SerialProperties.

Section ClaimDrivers.
Context {K : ExactField}.

Local Abbreviation vec := (vec K).
Local Abbreviation tensor := (tensor K).
Local Abbreviation tensor3 := (tensor3 K).
Local Abbreviation talg := (talg K).





End ClaimDrivers.

Section ClaimFrames.
Context {K : ExactField}.

Local Abbreviation heap := (mem.heap (K := K)).

Lemma read2_unchanged (h h' : heap) (v : mem.view2) :
  nth (mem.storage2 v) h' [] = nth (mem.storage2 v) h [] -> mem.read2 h' v = mem.read2 h v.
Proof.
  intros E. unfold mem.read2. apply map_ext. intros row. apply map_ext. intros c.
  unfold mem.load. rewrite E. reflexivity.
Qed.

Lemma read3_unchanged (h h' : heap) (v : mem.view3) :
  nth (mem.storage3 v) h' [] = nth (mem.storage3 v) h [] -> mem.read3 h' v = mem.read3 h v.
Proof.
  intros E. unfold mem.read3. apply map_ext. intros m. apply map_ext. intros row.
  apply map_ext. intros c. unfold mem.load. rewrite E. reflexivity.
Qed.

Lemma read_t_unchanged (h h' : heap) (t : mem.tview) :
  nth (mem.storage_t t) h' [] = nth (mem.storage_t t) h [] -> mem.read_t h' t = mem.read_t h t.
Proof.
  destruct t as [v|v]; cbn [mem.storage_t mem.read_t]; intros E;
    [f_equal; apply read2_unchanged | apply read3_unchanged]; exact E.
Qed.

(** C9. Frame of the forward pass: [signature_forward] leaves every storage
    that exists when it is called as it is, so the tensors path,
    basepoint_value and initial_value read as before; what it writes (the
    increments, built out of place, on [empty_like(path)] or on
    [path.clone()], the signature and the signatures of the chunks) it has
    allocated. *)
Theorem signature_forward_frame (env : omp) (junk : K) (cuda : bool) (path : mem.view3)
        (depth : nat) (stream basepoint : bool) (basepoint_value : mem.view2)
        (inverse initial : bool) (initial_value : mem.view2) (h : heap) :
  let h' := snd (mem.signature_forward env junk cuda path depth stream basepoint
                                       basepoint_value inverse initial initial_value h) in
  length h <= length h' /\
  (forall st, st < length h -> nth st h' [] = nth st h []) /\
  (mem.storage3 path < length h -> mem.read3 h' path = mem.read3 h path) /\
  (mem.storage2 basepoint_value < length h ->
   mem.read2 h' basepoint_value = mem.read2 h basepoint_value) /\
  (mem.storage2 initial_value < length h ->
   mem.read2 h' initial_value = mem.read2 h initial_value).
Proof.
  intros h'.
  destruct (safe_signature_forward (length h) env junk cuda path depth stream basepoint
                                   basepoint_value inverse initial initial_value h (le_n _))
    as [[L F] _].
  fold h' in L, F. split; [exact L|]. split; [exact F|].
  repeat split; intros Hst;
    [apply read3_unchanged | apply read2_unchanged | apply read2_unchanged];
    apply F; exact Hst.
Qed.

(** C10. Frame of the backward pass: [signature_backward] leaves every
    storage that exists when it is called as it is, so the tensors
    grad_signature, signature and path_increments read as before, whatever
    the gradients that its kernels compute: the slice of grad_signature and
    the saved signature are cloned before they are written, and so are,
    under [stream] with [initial], the slices of the signature at stream 0. *)
Theorem signature_backward_frame
        (restricted_exp_backward_values :
           tensor K -> talg K -> tensor K -> talg K -> list K -> tensor K * talg K)
        (mult_fused_restricted_exp_backward_values :
           tensor K -> talg K -> tensor K -> talg K -> bool -> list K -> tensor K * talg K)
        (junk : K) (grad_signature signature : mem.tview) (path_increments : mem.view3)
        (depth : nat) (stream basepoint inverse initial : bool) (h : heap) :
  let h' := snd (mem.signature_backward restricted_exp_backward_values
                                        mult_fused_restricted_exp_backward_values junk
                                        grad_signature signature path_increments depth stream
                                        basepoint inverse initial h) in
  length h <= length h' /\
  (forall st, st < length h -> nth st h' [] = nth st h []) /\
  (mem.storage_t grad_signature < length h ->
   mem.read_t h' grad_signature = mem.read_t h grad_signature) /\
  (mem.storage_t signature < length h -> mem.read_t h' signature = mem.read_t h signature) /\
  (mem.storage3 path_increments < length h ->
   mem.read3 h' path_increments = mem.read3 h path_increments).
Proof.
  intros h'.
  destruct (safe_signature_backward restricted_exp_backward_values
                                    mult_fused_restricted_exp_backward_values (length h) junk
                                    grad_signature signature path_increments depth stream
                                    basepoint inverse initial h (le_n _))
    as [[L F] _].
  fold h' in L, F. split; [exact L|]. split; [exact F|].
  repeat split; intros Hst;
    [apply read_t_unchanged | apply read_t_unchanged | apply read3_unchanged];
    apply F; exact Hst.
Qed.

End ClaimFrames.

Module MemoryEvaluations.
Import Examples.

(** On the example the two models of the forward pass compute the same
    signature, for every choice of the four flags. *)
Lemma memory_model_agrees :
  let flags := list_prod (list_prod (list_prod [true; false] [true; false]) [true; false])
                         [true; false] in
  map (fun f => signature_in_memory (fst (fst (fst f))) (snd (fst (fst f))) (snd (fst f))
                                    (snd f)) flags
  = map (fun f => signature_as_arrays (fst (fst (fst f))) (snd (fst (fst f))) (snd (fst f))
                                      (snd f)) flags.
Proof. vm_compute. reflexivity. Qed.

End MemoryEvaluations.

Module Evaluations.
Import Examples.

Lemma omp_ok_two_threads (p : nat) : 1 <= p -> omp_ok (two_threads p).
Proof.
  intros Hp. unfold omp_ok, two_threads. cbn. repeat split; try lia.
Qed.

(** At [wide_path] with depth 2 and [inverse] the driver chunks the stream
    axis when [max_parallelism] is 2: it returns what the serial driver
    returns, the depth-2 entries (0, 1) and (1, 0) of the inverse signature
    being 0 and 1. *)
Example chunked_inverse_eval :
  entries_of (signature_of (signature_forward (two_threads 1) junk wide_path 2 false false
                                              undefined true false undefined)) [e01; e10]
  = Some [0%Q; 1%Q] /\
  entries_of (signature_of (signature_forward (two_threads 2) junk wide_path 2 false false
                                              undefined true false undefined)) [e01; e10]
  = Some [0%Q; 1%Q] /\
  fst (choose_threads (two_threads 2) 1 4 3 (signature_channels 681 2) false) = 2.
Proof. repeat split; vm_compute; reflexivity. Qed.

(** C7, as stated, fails with a basepoint: on the path 0, 1, 3 with
    basepoint 0 the entry 1 of the increments is path[1] - path[0] = 1,
    where the table of the specification has path[2] - path[1] = 2. *)
Lemma increments_table_basepoint_counterexample :
  readQ (nth 1 (signature_detail.compute_path_increments junk line_path true line_basepoint
                                                         false) [])
  = [[1%Q]] /\
  readQ (increments_table line_path true line_basepoint false 1) = [[2%Q]].
Proof. split; vm_compute; reflexivity. Qed.

Lemma chen_identity_witness :
  exists s1 s2 s : Tensor QcField,
    signature_of (signature_forward (two_threads 2) junk (stream_slice small_path 0 (1 + 1)) 2
                                    false false undefined false false undefined) = Ok s1 /\
    signature_of (signature_forward (two_threads 2) junk
                                    (stream_slice small_path 1 (size small_path stream_dim))
                                    2 false false undefined false false undefined) = Ok s2 /\
    signature_of (signature_forward (two_threads 2) junk small_path 2 false false undefined
                                    false false undefined) = Ok s /\
    signature_combine_forward s1 s2 (size small_path channel_dim) 2 = Ok s.
Proof.
  apply (chen_identity (two_threads 2) (two_threads 2) (two_threads 2) junk junk junk
                       small_path undefined undefined 2 1).
  - apply omp_ok_two_threads. lia.
  - apply omp_ok_two_threads. lia.
  - apply omp_ok_two_threads. lia.
  - reflexivity.
  - reflexivity.
  - reflexivity.
  - cbn. lia.
Defined.

Lemma shaped_small_increment : shaped 1 2 small_increment.
Proof. split; [reflexivity | repeat constructor]. Qed.

Lemma graded_small_algebra : graded 1 2 2 small_algebra.
Proof.
  split; [reflexivity|]. intros [|[|i]] Hi; try lia; (split; [reflexivity | repeat constructor]).
Qed.

Lemma fused_round_trip_backward_witness :
  let r := @misc.make_reciprocals QcField 2 in
  ta_ops.mult_fused_restricted_exp
    (tneg small_increment)
    (ta_ops.mult_fused_restricted_exp small_increment small_algebra true r) true r
  = small_algebra /\
  backward_recompute [small_increment; small_increment; small_increment] r true
                     (drive true r small_algebra
                            (slice_of [small_increment; small_increment; small_increment] 1
                                      (length [small_increment; small_increment;
                                               small_increment]))) 1
  = drive true r small_algebra
          (slice_of [small_increment; small_increment; small_increment] 1 1).
Proof.
  apply (fused_round_trip_backward 1 2 2 small_increment small_algebra small_algebra true
                                   [small_increment; small_increment; small_increment] 1).
  - exact graded_small_algebra.
  - exact shaped_small_increment.
  - exact graded_small_algebra.
  - repeat constructor.
  - cbn. lia.
Defined.

Lemma restricted_exp_postcondition_witness :
  let out : talg QcField := [[]; []; []] in
  let D := length out in
  let r := misc.make_reciprocals D in
  let res := ta_ops.restricted_exp small_increment out r in
  length r = D - 1 /\
  (forall i, i < D - 1 -> nth i r (fzero QcField) = fdiv QcField (fone QcField) (of_nat (i + 2))) /\
  length res = D /\
  nth 0 res [] = small_increment /\
  (forall k, 1 <= k < D ->
             nth k res [] = tscale (nth (k - 1) r (fzero QcField))
                                   (tmul_cr (nth (k - 1) res []) small_increment)) /\
  (forall k, k < D ->
             nth k res [] = tscale (fdiv QcField (fone QcField) (of_nat (fact (k + 1))))
                                   (xpow small_increment k)).
Proof.
  apply (restricted_exp_postcondition small_increment [[]; []; []]). cbn. lia.
Defined.

Lemma compute_path_increments_table_witness :
  let result := signature_detail.compute_path_increments junk line_path true line_basepoint
                                                         false in
  let S := 3 - 0 in
  shaped3 S 1 1 result /\
  forall s, s < S -> nth s result [] = increments_entry line_path true line_basepoint false s.
Proof.
  apply (compute_path_increments_table 3 1 1 junk line_path true line_basepoint false).
  - split; [reflexivity | repeat constructor].
  - lia.
  - intros _. split; [reflexivity | repeat constructor].
Defined.

Lemma parallelism_invariance_forward_witness :
  exists s : Tensor QcField,
    signature_of (signature_forward (two_threads 1) junk small_path 2 false false undefined
                                    false false undefined) = Ok s /\
    signature_of (signature_forward (two_threads 2) (q 0) small_path 2 false false undefined
                                    false false undefined) = Ok s.
Proof.
  apply (parallelism_invariance_forward (two_threads 1) (two_threads 2) junk (q 0) small_path
                                        undefined undefined 2).
  - apply omp_ok_two_threads. lia.
  - apply omp_ok_two_threads. lia.
  - reflexivity.
  - reflexivity.
  - reflexivity.
Defined.

Lemma inverse_property_serial_witness :
  exists s : Tensor QcField,
    signature_of (signature_forward (two_threads 1) junk small_path 2 false false undefined
                                    true false undefined) = Ok s /\
    signature_of (signature_forward (two_threads 2) junk (reverse small_path) 2 false false
                                    undefined false false undefined) = Ok s.
Proof.
  apply (inverse_property_serial (two_threads 1) (two_threads 2) junk junk small_path
                                 undefined undefined 2).
  - apply omp_ok_two_threads. lia.
  - apply omp_ok_two_threads. lia.
  - reflexivity.
  - reflexivity.
  - reflexivity.
  - reflexivity.
Defined.

Lemma stream_prefix_consistency_serial_witness :
  exists sig : Tensor QcField,
    signature_of (signature_forward (two_threads 2) junk small_path 2 true false undefined
                                    true false undefined) = Ok sig /\
    signature_of (signature_forward (two_threads 1) junk (stream_slice small_path 0 (1 + 2)) 2
                                    false false undefined true false undefined)
    = Ok (select sig 1).
Proof.
  apply (stream_prefix_consistency_serial (two_threads 2) (two_threads 1) junk junk small_path
                                          undefined undefined 2 true 1).
  - apply omp_ok_two_threads. lia.
  - apply omp_ok_two_threads. lia.
  - right. reflexivity.
  - reflexivity.
  - reflexivity.
  - reflexivity.
  - cbn. lia.
Defined.




End Evaluations.

(** * Further properties of the code *)

Section AlgebraProperties.
Context {K : ExactField}.

Local Abbreviation vec := (vec K).
Local Abbreviation tensor := (tensor K).
Local Abbreviation tensor3 := (tensor3 K).
Local Abbreviation talg := (talg K).

(** X4. [mult] is a monoid on the members of the truncated tensor algebra
    of one shape: the product of two members is a member, the product is
    associative, and the member with every term zero (the scalar term 1
    being implicit) is neutral on both sides. *)
Theorem mult_monoid (B C D : nat) (a b c : talg) :
  graded B C D a -> graded B C D b -> graded B C D c ->
  graded B C D (ta_ops.mult a b) /\
  ta_ops.mult (ta_ops.mult a b) c = ta_ops.mult a (ta_ops.mult b c) /\
  ta_ops.mult a (unit_algebra B C D) = a /\
  ta_ops.mult (unit_algebra B C D) a = a.
Proof.
  intros Ha Hb Hc. split; [apply graded_mult; assumption|].
  split; [apply (mult_assoc B C D); assumption|].
  split; [apply (mult_zero_r B C D) | apply (mult_zero_l B C D)];
    auto using unit_algebra_length, unit_algebra_is_zero.
Qed.

(** X5. The restricted exponentials of x and of -x, with the reciprocals of
    [make_reciprocals], are inverse to each other under [mult]. *)
Theorem restricted_exp_inverse (B C : nat) (x : tensor) (out out' : talg) :
  shaped B C x -> length out' = length out ->
  let D := length out in
  let r := misc.make_reciprocals D in
  ta_ops.mult (ta_ops.restricted_exp x out r) (ta_ops.restricted_exp (tneg x) out' r)
  = unit_algebra B C D /\
  ta_ops.mult (ta_ops.restricted_exp (tneg x) out' r) (ta_ops.restricted_exp x out r)
  = unit_algebra B C D.
Proof.
  intros Hx Lo D r.
  assert (Hcancel : forall (y : tensor) (o o' : talg),
             shaped B C y -> length o = D -> length o' = D ->
             ta_ops.mult (ta_ops.restricted_exp y o r) (ta_ops.restricted_exp (tneg y) o' r)
             = unit_algebra B C D).
  { intros y o o' Hy L L'. apply talg_ext.
    - rewrite mult_length, restricted_exp_length, unit_algebra_length. exact L.
    - intros k Hk. rewrite mult_length, restricted_exp_length, L in Hk.
      rewrite unit_algebra_nth by exact Hk. apply is_zero_tzero.
      apply (exp_cancel B C D y o o' k); assumption. }
  split; [apply Hcancel; auto|].
  rewrite <- (tneg_tneg x) at 2. apply Hcancel; auto. apply shaped_tneg. exact Hx.
Qed.

(** X6. The fused kernel is the product with the restricted exponential that
    it never forms: A (x) exp(x) without [inverse], exp(x) (x) A with it,
    for any vector of reciprocals of length depth - 1. *)
Theorem fused_kernel_is_product (B C D : nat) (x : tensor) (A out : talg) (r : list K) :
  graded B C D A -> shaped B C x -> length out = D -> length r = D - 1 ->
  ta_ops.mult_fused_restricted_exp x A false r = ta_ops.mult A (ta_ops.restricted_exp x out r) /\
  ta_ops.mult_fused_restricted_exp x A true r = ta_ops.mult (ta_ops.restricted_exp x out r) A.
Proof.
  intros HA Hx Lo Lr. assert (LA : length A = D) by apply HA. split.
  - apply fused_is_mult_exp; congruence.
  - apply (fused_inverse_is_exp_mult B C D); assumption.
Qed.

(** X7. [slice_by_term] cuts a (batch, W(C, D)) tensor into D terms that
    tile its channels: term i is the channels from W(C, i) on, C^(i+1) of
    them; the terms form a member of the tensor algebra, laid side by side
    they give the tensor back, and a member written through the views is
    read back through them. *)
Theorem slice_by_term_round_trip (B C D : nat) (buf : tensor) (a : talg) :
  1 <= D -> shaped B (signature_channels C (Z.of_nat D)) buf -> graded B C D a ->
  graded B C D (misc.slice_by_term buf C D) /\
  (forall i, i < D ->
             nth i (misc.slice_by_term buf C D) []
             = map (narrow (signature_channels C (Z.of_nat i)) (C ^ (i + 1))) buf) /\
  misc.unslice (misc.slice_by_term buf C D) = buf /\
  misc.slice_by_term (misc.unslice a) C D = a.
Proof.
  intros HD Hbuf Ha. rewrite signature_channels_span in Hbuf.
  split; [apply graded_slice_by_term; exact Hbuf|].
  split; [intros i Hi; rewrite signature_channels_span; apply slice_by_term_nth; exact Hi|].
  split; [apply (unslice_slice B); assumption | apply (slice_unslice B); exact Ha].
Qed.

End AlgebraProperties.

Section ForwardProperties.
Context {K : ExactField}.

Local Abbreviation vec := (vec K).
Local Abbreviation tensor := (tensor K).
Local Abbreviation tensor3 := (tensor3 K).
Local Abbreviation talg := (talg K).

(** X8. [signature_combine_forward] is associative on well-formed
    signatures of one shape (batch, W(C, depth)): all four calls return, and
    combining the first two and then the third gives what combining the
    first with the combination of the other two gives. *)
Theorem combine_associative (B C : nat) (depth : Z) (s1 s2 s3 : Tensor K) :
  (1 <= depth)%Z ->
  well_formed s1 = true -> well_formed s2 = true -> well_formed s3 = true ->
  sizes s1 = [B; signature_channels C depth] ->
  sizes s2 = [B; signature_channels C depth] ->
  sizes s3 = [B; signature_channels C depth] ->
  exists s12 s23 s : Tensor K,
    signature_combine_forward s1 s2 C depth = Ok s12 /\
    signature_combine_forward s2 s3 C depth = Ok s23 /\
    signature_combine_forward s12 s3 C depth = Ok s /\
    signature_combine_forward s1 s23 C depth = Ok s.
Proof.
  intros HD W1 W2 W3 S1 S2 S3.
  destruct (well_formed_data2 s1 _ _ W1 S1) as (x1 & D1 & H1).
  destruct (well_formed_data2 s2 _ _ W2 S2) as (x2 & D2' & H2).
  destruct (well_formed_data2 s3 _ _ W3 S3) as (x3 & D3' & H3).
  rewrite signature_channels_depth in H1, H2, H3 by exact HD.
  set (D := Z.to_nat depth) in *.
  assert (G1 := graded_slice_by_term B C D x1 H1).
  assert (G2 := graded_slice_by_term B C D x2 H2).
  assert (G3 := graded_slice_by_term B C D x3 H3).
  rewrite (combine_forward_shaped B C depth s1 s2 x1 x2) by assumption.
  rewrite (combine_forward_shaped B C depth s2 s3 x2 x3) by assumption.
  do 3 eexists. split; [reflexivity|]. split; [reflexivity|].
  erewrite (combine_forward_shaped B C depth _ s3 _ x3); [|reflexivity|reflexivity|exact S3|exact D3'].
  erewrite (combine_forward_shaped B C depth s1 _ x1 _); [|exact S1|exact D1|reflexivity|reflexivity].
  fold D. cbn [options].
  rewrite !(slice_unslice B C D) by (apply graded_mult; assumption).
  rewrite (mult_assoc B C D) by assumption. split; reflexivity.
Qed.

(** X9. The basepoint is the path with one more point in front:
    [signature_forward] with basepoint returns what it returns, without
    basepoint, on the path with basepoint_value prepended (signature and
    increments, with or without [stream] and initial value), on a path
    the driver has a kernel for (on CUDA, or of type [Float] or [Double])
    and whenever the chunks are not combined under [inverse]. *)
Theorem basepoint_is_prepend (env env' : omp) (junk junk' : K) (path bv bv' iv : Tensor K)
        (depth : Z) (stream inverse initial : bool) :
  omp_ok env -> omp_ok env' ->
  inverse = false \/ (get_max_parallelism env = 1 /\ get_max_parallelism env' = 1) ->
  signature_checkargs path depth true bv initial iv = None ->
  has_kernel path = true ->
  well_formed path = true -> well_formed bv = true ->
  (initial = true -> well_formed iv = true) ->
  exists out : Tensor K * Tensor K,
    signature_forward env junk path depth stream true bv inverse initial iv = Ok out /\
    signature_forward env' junk' (prepend bv path) depth stream false bv' inverse initial iv
    = Ok out.
Proof.
  intros Hok Hok' Hser Hc Hk Hw Hwb Hwi.
  destruct (valid_input_intro path bv iv depth true initial Hc Hw (fun _ => Hwb) Hwi)
    as (N & B & C & p & V).
  destruct (checkargs_accepts path bv iv depth true initial Hc)
    as (N0 & B0 & C0 & Hs0 & HN & _ & HB & HC & HD & Hf & Hbv & Hiv).
  pose proof (valid_sizes _ _ _ _ _ _ _ _ _ _ V) as Hs. rewrite Hs in Hs0.
  injection Hs0 as <- <- <-.
  pose proof (valid_data _ _ _ _ _ _ _ _ _ _ V) as Hd.
  pose proof (valid_shape _ _ _ _ _ _ _ _ _ _ V) as Hp.
  pose proof (valid_basepoint _ _ _ _ _ _ _ _ _ _ V eq_refl) as Hb.
  destruct (size_3 path N B C Hs) as (E1 & _).
  assert (Hs' : sizes (prepend bv path) = [S N; B; C]).
  { unfold prepend. cbn [sizes]. rewrite E1, Hs. cbn [upd]. rewrite Nat.add_1_r. reflexivity. }
  assert (Hd' : data (prepend bv path) = D3 (as2 bv :: p)).
  { unfold prepend, as3. cbn [data]. rewrite Hd. reflexivity. }
  assert (Hc' : signature_checkargs (prepend bv path) depth false bv' initial iv = None).
  { apply (checkargs_complete _ bv' iv depth false initial (S N) B C); auto; try lia. }
  assert (V' : valid_input (prepend bv path) bv' iv depth false initial (S N) B C (as2 bv :: p)).
  { constructor.
    - exact Hs'.
    - exact Hd'.
    - destruct Hp as [L F]. split; [cbn [length]; lia | constructor; assumption].
    - cbn [Nat.sub]. lia.
    - exact HB.
    - exact HD.
    - discriminate.
    - apply (valid_initial _ _ _ _ _ _ _ _ _ _ V). }
  assert (Epi : signature_detail.compute_path_increments junk p true (as2 bv) inverse
                = signature_detail.compute_path_increments junk' (as2 bv :: p) false (as2 bv')
                                                           inverse)
    by (apply (increments_prepend N B C); auto).
  assert (Eopt : options (prepend bv path) = options path) by reflexivity.
  destruct stream.
  - destruct (forward_stream_general env junk path bv iv depth true inverse initial N B C p
                                     Hok Hc V Hk) as (sig3 & E & L & P).
    destruct (forward_stream_general env' junk' (prepend bv path) bv' iv depth false inverse
                                     initial (S N) B C (as2 bv :: p) Hok' Hc' V' Hk)
      as (sig3' & E' & L' & P').
    rewrite E, E'. eexists. split; [reflexivity|]. rewrite Eopt, <- Epi.
    cbn [Nat.sub]. rewrite !Nat.sub_0_r.
    replace sig3' with sig3; [reflexivity|].
    apply (nth_ext _ _ [] []).
    + rewrite L, L'. cbn [Nat.sub]. lia.
    + intros s Hs1. rewrite L in Hs1. rewrite P by exact Hs1.
      rewrite P' by (cbn [Nat.sub]; lia). rewrite Epi. reflexivity.
  - assert (Hser1 : inverse = false \/ is_cuda path = true \/ get_max_parallelism env = 1)
      by (destruct Hser as [H | [H _]]; auto).
    assert (Hser2 : inverse = false \/ is_cuda (prepend bv path) = true
                    \/ get_max_parallelism env' = 1)
      by (destruct Hser as [H | [_ H]]; auto).
    rewrite (forward_general env junk path bv iv depth true inverse initial N B C p Hok Hc V
                             Hk Hser1).
    rewrite (forward_general env' junk' (prepend bv path) bv' iv depth false inverse initial
                             (S N) B C (as2 bv :: p) Hok' Hc' V' Hk Hser2).
    eexists. split; [reflexivity|]. rewrite Eopt, <- Epi.
    cbn [Nat.sub]. rewrite !Nat.sub_0_r. reflexivity.
Qed.

(** X10. The initial value is a factor of the signature:
    [signature_forward] with initial_value returns the combination of
    initial_value and the signature without it, in this order, and in the
    other order under [inverse] (without [stream], on a path the driver
    has a kernel for, whenever the chunks are not combined under
    [inverse]). *)
Theorem initial_value_is_combine (env env' : omp) (junk junk' : K) (path bv iv : Tensor K)
        (depth : Z) (basepoint inverse : bool) :
  omp_ok env -> omp_ok env' ->
  inverse = false \/ (get_max_parallelism env = 1 /\ get_max_parallelism env' = 1) ->
  signature_checkargs path depth basepoint bv true iv = None ->
  has_kernel path = true ->
  well_formed path = true -> (basepoint = true -> well_formed bv = true) ->
  well_formed iv = true ->
  exists s0 s : Tensor K,
    signature_of (signature_forward env junk path depth false basepoint bv inverse false iv)
    = Ok s0 /\
    signature_of (signature_forward env' junk' path depth false basepoint bv inverse true iv)
    = Ok s /\
    (if inverse then signature_combine_forward s0 iv (size path channel_dim) depth
     else signature_combine_forward iv s0 (size path channel_dim) depth) = Ok s.
Proof.
  intros Hok Hok' Hser Hc Hk Hw Hwb Hwi.
  destruct (valid_input_intro path bv iv depth basepoint true Hc Hw Hwb (fun _ => Hwi))
    as (N & B & C & p & V).
  destruct (checkargs_accepts path bv iv depth basepoint true Hc)
    as (N0 & B0 & C0 & Hs0 & HN & HN2 & HB & HC & HD & Hf & Hbv & Hiv).
  pose proof (valid_sizes _ _ _ _ _ _ _ _ _ _ V) as Hs. rewrite Hs in Hs0.
  injection Hs0 as <- <- <-.
  pose proof (valid_shape _ _ _ _ _ _ _ _ _ _ V) as Hp.
  destruct (valid_initial _ _ _ _ _ _ _ _ _ _ V eq_refl) as (Hx & Hsi & Hoi).
  destruct (size_3 path N B C Hs) as (_ & _ & E3). rewrite E3.
  assert (Hc0 : signature_checkargs path depth basepoint bv false iv = None)
    by (apply (checkargs_complete _ bv iv depth basepoint false N B C); auto; discriminate).
  assert (V0 : valid_input path bv iv depth basepoint false N B C p).
  { destruct V. constructor; auto. }
  assert (Hser1 : inverse = false \/ is_cuda path = true \/ get_max_parallelism env = 1)
    by (destruct Hser as [H | [H _]]; auto).
  assert (Hser2 : inverse = false \/ is_cuda path = true \/ get_max_parallelism env' = 1)
    by (destruct Hser as [H | [_ H]]; auto).
  rewrite (forward_general env junk path bv iv depth basepoint inverse false N B C p Hok Hc0 V0
                           Hk Hser1).
  rewrite (forward_general env' junk' path bv iv depth basepoint inverse true N B C p Hok' Hc V
                           Hk Hser2).
  cbn [signature_of bind fst]. do 2 eexists. split; [reflexivity|]. split; [reflexivity|].
  assert (HN1 : 1 <= N) by (destruct basepoint; lia).
  assert (Ej : signature_detail.compute_path_increments junk p basepoint (as2 bv) inverse
               = signature_detail.compute_path_increments junk' p basepoint (as2 bv) inverse)
    by (apply (compute_path_increments_junk N B C); auto;
        apply (valid_basepoint _ _ _ _ _ _ _ _ _ _ V)).
  rewrite Ej.
  pose proof (compute_path_increments_shaped N B C junk' p basepoint (as2 bv) inverse Hp HN1
                (valid_basepoint _ _ _ _ _ _ _ _ _ _ V)) as [Lpi Fpi].
  set (pi := signature_detail.compute_path_increments junk' p basepoint (as2 bv) inverse) in *.
  set (D := Z.to_nat depth) in *.
  set (r := misc.make_reciprocals D).
  assert (Lr : length r = D - 1) by apply make_reciprocals_length.
  assert (Hx0 : shaped B C (nth 0 pi [])).
  { apply (proj1 (Forall_nth _ _) Fpi). pose proof (valid_stream _ _ _ _ _ _ _ _ _ _ V). lia. }
  assert (Htl : Forall (shaped B C) (tl pi)) by (destruct pi; [constructor | inversion Fpi; auto]).
  assert (GA := graded_slice_by_term B C D (as2 iv) Hx).
  assert (GE : graded B C D (ta_ops.restricted_exp (nth 0 pi []) (repeat [] D) r))
    by (apply graded_rexp; [exact Hx0 | apply repeat_length]).
  assert (GS : graded B C D (drive inverse r (ta_ops.restricted_exp (nth 0 pi []) (repeat [] D) r)
                                   (tl pi)))
    by (apply graded_drive; auto).
  destruct (well_formed_data2 iv _ _ Hwi Hsi) as (x & Hdx & _).
  assert (Eiv : as2 iv = x) by (unfold as2; rewrite Hdx; reflexivity).
  unfold first_signature. destruct inverse.
  - erewrite (combine_forward_shaped B C depth _ iv _ x); [|reflexivity|reflexivity|exact Hsi|exact Hdx].
    cbn [options]. fold D. rewrite (slice_unslice B C D) by exact GS. rewrite <- Eiv.
    rewrite (fused_inverse_is_exp_mult B C D _ _ (repeat [] D) r)
      by (auto using repeat_length).
    rewrite (drive_true_mult B C D) by assumption. reflexivity.
  - erewrite (combine_forward_shaped B C depth iv _ x _); [|exact Hsi|exact Hdx|reflexivity|reflexivity].
    fold D. rewrite (slice_unslice B C D) by exact GS. rewrite <- Eiv, Hoi.
    rewrite (fused_is_mult_exp _ _ (repeat [] D) r)
      by (destruct GA as [-> _]; rewrite ?repeat_length; auto).
    rewrite (drive_mult B C D) by assumption. reflexivity.
Qed.

(** X21. The dispatch on the scalar type.  On an input that
    [signature_checkargs] accepts: when the path is on CUDA or of type
    [Float] or [Double], [signature_forward] returns; for any other type on
    the CPU ([Half], [BFloat16]) it returns nothing, the call ending at
    [AT_DISPATCH_FLOATING_TYPES] with [c10::Error] for the type when the
    driver runs serially, and inside the parallel region when it chunks the
    stream axis. *)
Theorem forward_dispatch (env : omp) (junk : K) (path bv iv : Tensor K) (depth : Z)
        (stream basepoint inverse initial : bool) :
  omp_ok env ->
  signature_checkargs path depth basepoint bv initial iv = None ->
  if has_kernel path
  then exists out,
      signature_forward env junk path depth stream basepoint bv inverse initial iv = Ok out
  else signature_forward env junk path depth stream basepoint bv inverse initial iv
       = if fst (choose_threads env (size path batch_dim) (size path stream_dim)
                                (size path stream_dim - (if basepoint then 0 else 1))
                                (signature_channels (size path channel_dim) depth) stream)
            =? 1
         then Error (not_implemented_for (dtype (options path)))
         else Uncaught.
Proof.
  intros Hok Hc.
  destruct (checkargs_accepts path bv iv depth basepoint initial Hc)
    as (N & B & C & Hs & HN & _ & HB & _).
  destruct (size_3 path N B C Hs) as (E1 & E2 & E3).
  unfold signature_forward. rewrite Hc. cbv zeta. unfold make_opts.
  destruct (has_kernel path) eqn:Hk.
  - match goal with
    | |- exists out, bind ?d _ = _ =>
      destruct (forward_drive_returns _ _ _ _ _ _ _ _ _ _ _ _ _ _ _ _ _ Hk
                : exists res, d = Ok res) as [[s v] E]; rewrite E
    end.
    eexists. reflexivity.
  - unfold has_kernel in Hk. apply orb_false_iff in Hk. destruct Hk as [Hcu Hty].
    rewrite Hcu, E1, E2, E3.
    rewrite forward_drive_no_kernel by (auto; destruct basepoint; lia).
    destruct (_ =? 1); reflexivity.
Qed.

End ForwardProperties.

Section CombineGradient.
Context {K : ExactField}.
Add Field KfieldU3 : (field_laws K).

Notation "0" := (fzero K) : field_scope.
Notation "1" := (fone K) : field_scope.
Infix "+" := (fadd K) : field_scope.
Infix "*" := (fmul K) : field_scope.
Infix "-" := (fsub K) : field_scope.
Notation "- x" := (fopp K x) : field_scope.

Local Abbreviation vec := (vec K).
Local Abbreviation tensor := (tensor K).
Local Abbreviation tensor3 := (tensor3 K).
Local Abbreviation talg := (talg K).

(** X12. [signature_combine_backward] returns the gradients of
    [signature_combine_forward]: for well-formed tensors of shape
    (batch, W(C, depth)) it returns well-formed tensors of the shapes of
    the two arguments, and the pairing of [grad] with the change of the
    combined signature, when the first (the second) argument is replaced by
    any other, is the pairing of the first (the second) returned tensor
    with the change of that argument. *)
Theorem combine_backward_gradient (B C : nat) (depth : Z) (grad s1 s2 : Tensor K) :
  (1 <= depth)%Z ->
  well_formed grad = true -> well_formed s1 = true -> well_formed s2 = true ->
  sizes grad = [B; signature_channels C depth] ->
  sizes s1 = [B; signature_channels C depth] ->
  sizes s2 = [B; signature_channels C depth] ->
  exists g1 g2 : Tensor K,
    signature_combine_backward grad s1 s2 C depth = Some (g1, g2) /\
    well_formed g1 = true /\ sizes g1 = sizes s1 /\
    well_formed g2 = true /\ sizes g2 = sizes s2 /\
    (forall s1' : Tensor K,
        well_formed s1' = true -> sizes s1' = sizes s1 ->
        exists r r' : Tensor K,
          signature_combine_forward s1 s2 C depth = Ok r /\
          signature_combine_forward s1' s2 C depth = Ok r' /\
          tdot (as2 grad) (tsub (as2 r') (as2 r)) = tdot (as2 g1) (tsub (as2 s1') (as2 s1))) /\
    (forall s2' : Tensor K,
        well_formed s2' = true -> sizes s2' = sizes s2 ->
        exists r r' : Tensor K,
          signature_combine_forward s1 s2 C depth = Ok r /\
          signature_combine_forward s1 s2' C depth = Ok r' /\
          tdot (as2 grad) (tsub (as2 r') (as2 r)) = tdot (as2 g2) (tsub (as2 s2') (as2 s2))).
Proof.
  intros HD Wg W1 W2 Sg S1 S2.
  destruct (well_formed_data2 grad _ _ Wg Sg) as (gx & Dg & Hgx).
  destruct (well_formed_data2 s1 _ _ W1 S1) as (x1 & D1 & Hx1).
  destruct (well_formed_data2 s2 _ _ W2 S2) as (x2 & D2' & Hx2).
  rewrite signature_channels_depth in Hgx, Hx1, Hx2 by exact HD.
  set (D := Z.to_nat depth) in *.
  assert (HD1 : 1 <= D) by (unfold D; lia).
  set (a := misc.slice_by_term x1 C D). set (b := misc.slice_by_term x2 C D).
  set (g := misc.slice_by_term gx C D). set (z := misc.slice_by_term (zero_ x2) C D).
  assert (Ha : graded B C D a) by (apply graded_slice_by_term; exact Hx1).
  assert (Hb : graded B C D b) by (apply graded_slice_by_term; exact Hx2).
  assert (Hg : graded B C D g) by (apply graded_slice_by_term; exact Hgx).
  assert (Hz : graded B C D z)
    by (apply graded_slice_by_term; apply shaped_zero_; exact Hx2).
  assert (Lg : length g = D) by apply Hg. assert (Lz : length z = length g) by (rewrite Lg; apply Hz).
  destruct (combine_backward_loop a b g z D ltac:(lia) Lz) as (R1 & R2 & N1 & N2).
  remember (fold_left (sweep_step a b) (seq 0 D) (g, z)) as G eqn:EG.
  destruct G as [G1 G2]. cbn [fst snd] in R1, R2, N1, N2. rewrite Lg in R1, R2.
  assert (N1' : forall j, j < D -> nth j G1 [] = sweep_left a b g D j).
  { intros j Hj. rewrite N1. apply Nat.ltb_lt in Hj. rewrite Hj. reflexivity. }
  assert (N2' : forall k, k < D -> nth k G2 [] = sweep_right a b g z D k).
  { intros k Hk. rewrite N2. apply Nat.ltb_lt in Hk. rewrite Hk. reflexivity. }
  assert (HG1 : graded B C D G1) by (apply (graded_sweep_left B C D a b g); auto).
  assert (HG2 : graded B C D G2) by (apply (graded_sweep_right B C D a b g z); auto).
  assert (Eas : forall (t : Tensor K) (x : tensor), data t = D2 x -> as2 t = x)
    by (intros t x E; unfold as2; rewrite E; reflexivity).
  assert (Ebwd : signature_combine_backward grad s1 s2 C depth
                 = Some ({| sizes := sizes grad; options := options grad;
                            data := D2 (misc.unslice G1) |},
                         {| sizes := sizes s2; options := options s2;
                            data := D2 (misc.unslice G2) |})).
  { unfold signature_combine_backward.
    destruct (size_2 grad _ _ Sg) as [-> ->]. destruct (size_2 s1 _ _ S1) as [-> ->].
    rewrite !Nat.eqb_refl. cbn [negb orb]. cbv zeta.
    rewrite (Eas grad gx Dg), (Eas s1 x1 D1), (Eas s2 x2 D2'). fold D. fold a b g z.
    change (fold_left _ (seq 0 D) (g, z)) with (fold_left (sweep_step a b) (seq 0 D) (g, z)).
    rewrite <- EG. reflexivity. }
  eexists _, _. split; [exact Ebwd|].
  split.
  { unfold well_formed. cbn [data sizes]. rewrite Sg. apply rows_ok_shaped.
    rewrite signature_channels_depth by exact HD. apply (shaped_unslice B C D); auto. }
  split; [cbn [sizes]; congruence|].
  split.
  { unfold well_formed. cbn [data sizes]. rewrite S2. apply rows_ok_shaped.
    rewrite signature_channels_depth by exact HD. apply (shaped_unslice B C D); auto. }
  split; [reflexivity|].
  assert (Hpair : forall (M : talg) (u : tensor),
             graded B C D M -> tdot gx (misc.unslice M) = adot g M).
  { intros M _ HM. rewrite (tdot_slices B C D) by (auto using shaped_unslice).
    rewrite (slice_unslice B C D) by exact HM. reflexivity. }
  cbn [as2 data]. rewrite (Eas grad gx Dg), (Eas s1 x1 D1), (Eas s2 x2 D2').
  split.
  - intros s1' W1' S1'. rewrite S1 in S1'.
    destruct (well_formed_data2 s1' _ _ W1' S1') as (x1' & D1' & Hx1').
    rewrite signature_channels_depth in Hx1' by exact HD. fold D in Hx1'.
    rewrite (combine_forward_shaped B C depth s1 s2 x1 x2) by assumption.
    rewrite (combine_forward_shaped B C depth s1' s2 x1' x2) by assumption.
    eexists _, _. split; [reflexivity|]. split; [reflexivity|].
    cbn [as2 data]. rewrite (Eas s1' x1' D1'). fold D. fold a b.
    set (a' := misc.slice_by_term x1' C D).
    assert (Ha' : graded B C D a') by (apply graded_slice_by_term; exact Hx1').
    rewrite (tdot_tsub_r B (span C C D))
      by (apply (shaped_unslice B C D); auto; apply graded_mult; assumption).
    rewrite (tdot_tsub_r B (span C C D)) by assumption.
    rewrite !(Hpair _ gx) by (apply graded_mult; assumption).
    rewrite !(tdot_unslice B C D) by assumption. fold a a'.
    rewrite (adot_mult_left B C D a b g a' G1), (adot_mult_left B C D a b g a G1) by assumption.
    ring.
  - intros s2' W2' S2'. rewrite S2 in S2'.
    destruct (well_formed_data2 s2' _ _ W2' S2') as (x2' & D2'' & Hx2').
    rewrite signature_channels_depth in Hx2' by exact HD. fold D in Hx2'.
    rewrite (combine_forward_shaped B C depth s1 s2 x1 x2) by assumption.
    rewrite (combine_forward_shaped B C depth s1 s2' x1 x2') by assumption.
    eexists _, _. split; [reflexivity|]. split; [reflexivity|].
    cbn [as2 data]. rewrite (Eas s2' x2' D2''). fold D. fold a b.
    set (b' := misc.slice_by_term x2' C D).
    assert (Hb' : graded B C D b') by (apply graded_slice_by_term; exact Hx2').
    rewrite (tdot_tsub_r B (span C C D))
      by (apply (shaped_unslice B C D); auto; apply graded_mult; assumption).
    rewrite (tdot_tsub_r B (span C C D)) by assumption.
    rewrite !(Hpair _ gx) by (apply graded_mult; assumption).
    rewrite !(tdot_unslice B C D) by assumption. fold b b'.
    assert (Hzero : forall k x, k < D -> tdot (nth k z []) x = 0%F)
      by (intros k x Hk; apply tdot_zero_slice; exact Hk).
    rewrite (adot_mult_right B C D a b g z b' G2), (adot_mult_right B C D a b g z b G2)
      by assumption.
    ring.
Qed.

End CombineGradient.

Section KernelGradients.
Context {K : ExactField}.
Add Field KfieldU4 : (field_laws K).

Notation "0" := (fzero K) : field_scope.
Notation "1" := (fone K) : field_scope.
Infix "+" := (fadd K) : field_scope.
Infix "*" := (fmul K) : field_scope.
Infix "-" := (fsub K) : field_scope.
Notation "- x" := (fopp K x) : field_scope.

Local Abbreviation vec := (vec K).
Local Abbreviation tensor := (tensor K).
Local Abbreviation tensor3 := (tensor3 K).
Local Abbreviation talg := (talg K).

(** X13. [restricted_exp_backward] computes the gradient of
    [restricted_exp]: with [out] the exponential of [x] and [G] a gradient
    on its terms, the tensor it leaves in [grad_in] has the shape of [x],
    does not depend on what [grad_in] held, and for every direction [dx]
    the pairing of [G] with the exponential of [x + t dx] is a polynomial
    in [t] whose coefficient of [t] is the pairing of [grad_in] with [dx]. *)
Theorem restricted_exp_backward_gradient (B C : nat) (x dx gin0 : tensor) (out0 G : talg)
        (r : list K) :
  1 <= length out0 -> shaped B C x -> shaped B C dx -> graded B C (length out0) G ->
  let out := ta_ops.restricted_exp x out0 r in
  let gin := fst (ta_ops_backward.restricted_exp_backward gin0 G x out r) in
  shaped B C gin /\
  expands (fun t => adot G (ta_ops.restricted_exp (tadd x (tscale t dx)) out0 r))
          (adot G out) (tdot gin dx).
Proof.
  intros HD Hx Hdx HG out gin. set (D := length out0) in *.
  assert (Hout : graded B C D out) by (apply graded_restricted_exp; exact Hx).
  destruct (rexp_backward_pairing B C D x dx gin0 out G r (rexp_tangent x dx r))
    as [Sg P]; auto.
  - intros k _. apply shaped_rexp_tangent; assumption.
  - apply rexp_tangent_0.
  - intros k Hk. rewrite rexp_tangent_S. subst out.
    rewrite restricted_exp_nth by (fold D; lia). reflexivity.
  - split; [exact Sg|]. fold gin in P. rewrite P.
    pose proof (aexp_adot B C D G _ _ _
                  (aexp_restricted_exp B C _ x dx out0 r (texp_line B C x dx Hx Hdx))) as E.
    fold out in E. replace (ksum (fun k => tdot (nth k G []) (rexp_tangent x dx r k)) D)
      with (adot G (map (rexp_tangent x dx r) (seq 0 D))); [exact E|].
    unfold adot. destruct HG as [-> _]. apply ksum_ext. intros k Hk.
    rewrite (nth_map_seq _ _ 0) by exact Hk. reflexivity.
Qed.

(** X14. [mult_fused_restricted_exp_backward] computes the gradient of
    [mult_fused_restricted_exp]: the tensor it leaves in [grad_next] and the
    terms it leaves in [grad_prev] have the shapes of [next] and [prev], do
    not depend on uninitialised memory, and for all directions [dx] and
    [dprev] the pairing of the incoming gradient [G] with the result of the
    kernel at [next + t dx] and [prev + t dprev] is a polynomial in [t]
    whose coefficient of [t] is the pairing of [grad_next] with [dx] plus
    that of [grad_prev] with [dprev]. *)
Theorem fused_backward_gradient (B C D : nat) (inverse : bool) (x dx gn0 : tensor)
        (prev dprev G : talg) (r : list K) (junk : K) :
  1 <= D -> shaped B C x -> shaped B C dx ->
  graded B C D prev -> graded B C D dprev -> graded B C D G -> length r = D - 1 ->
  let res := ta_ops_backward.mult_fused_restricted_exp_backward junk gn0 G x prev inverse r in
  shaped B C (fst res) /\ graded B C D (snd res) /\
  expands (fun t => adot G (ta_ops.mult_fused_restricted_exp (tadd x (tscale t dx))
                                                             (aline prev dprev t) inverse r))
          (adot G (ta_ops.mult_fused_restricted_exp x prev inverse r))
          (tdot (fst res) dx + adot (snd res) dprev)%F.
Proof.
  intros HD Hx Hdx Hp Hdp HG Lr res.
  destruct (fused_backward_pairing B C D inverse x dx r prev dprev junk Hx Hdx Hp Hdp Lr
                                   gn0 G HD HG) as (S1 & S2 & P).
  fold res in S1, S2, P. split; [exact S1|]. split; [exact S2|]. rewrite P.
  pose proof (aexp_adot B C D G _ _ _
                (aexp_fused B C D inverse _ _ x dx r prev dprev
                            (texp_line B C x dx Hx Hdx) (aexp_aline B C D prev dprev Hp Hdp)
                            Lr)) as E.
  replace (ksum (fun d => tdot (nth d G []) (fused_tangent inverse x dx r prev dprev d)) D)
    with (adot G (map (fused_tangent inverse x dx r prev dprev) (seq 0 D))); [exact E|].
  unfold adot. destruct HG as [-> _]. apply ksum_ext. intros k Hk.
  rewrite (nth_map_seq _ _ 0) by exact Hk. reflexivity.
Qed.

End KernelGradients.

Section IncrementsGradient.
Context {K : ExactField}.

Notation "0" := (fzero K) : field_scope.
Infix "+" := (fadd K) : field_scope.

Local Abbreviation vec := (vec K).
Local Abbreviation tensor := (tensor K).
Local Abbreviation tensor3 := (tensor3 K).

(** X15. [compute_path_increments_backward] is the adjoint of
    [compute_path_increments], for each of the four combinations of
    [basepoint] and [inverse].  For a gradient of the shape of the
    increments of an (N, B, C) path, the returned [grad_path] is a
    well-formed (N, B, C) tensor; with a basepoint the second tensor is a
    well-formed (B, C) tensor, and without one it has sizes [0].  Pairing
    the gradient with the increments of any path [p] and basepoint [bv]
    gives the pairing of [grad_path] with [p] plus, with a basepoint, the
    pairing of the second tensor with [bv]; the uninitialised memory the
    code allocates does not show in either. *)
Theorem increments_backward_adjoint (N B C : nat) (junk junk' : K) (grad : Tensor K)
        (p : tensor3) (bv : tensor) (basepoint inverse : bool) (opts : TensorOptions) :
  1 <= N - (if basepoint then 0 else 1) ->
  well_formed grad = true -> sizes grad = [N - (if basepoint then 0 else 1); B; C] ->
  shaped3 N B C p -> (basepoint = true -> shaped B C bv) ->
  let res := signature_detail_backward.compute_path_increments_backward
               junk grad basepoint inverse opts in
  well_formed (fst res) = true /\ sizes (fst res) = [N; B; C] /\
  (if basepoint then sizes (snd res) = [B; C] /\ well_formed (snd res) = true
   else sizes (snd res) = [0]) /\
  tdot3 (as3 grad) (signature_detail.compute_path_increments junk' p basepoint bv inverse)
  = (tdot3 (as3 (fst res)) p + (if basepoint then tdot (as2 (snd res)) bv else 0))%F.
Proof.
  intros HT Hw Hs Hp Hbv res.
  destruct (increments_backward_pairing N B C junk junk' grad p bv basepoint inverse opts
                                        HT Hw Hs Hp Hbv) as (R1 & R2 & _ & R4 & R5).
  fold res in R1, R2, R4, R5. split; [exact R1|]. split; [exact R2|]. split; [|exact R5].
  destruct basepoint; [|exact R4]. destruct R4 as (_ & R4 & R4'). split; assumption.
Qed.

End IncrementsGradient.

Section SignatureGradient.
Context {K : ExactField}.
Add Field KfieldU6 : (field_laws K).

Notation "0" := (fzero K) : field_scope.
Notation "1" := (fone K) : field_scope.
Infix "+" := (fadd K) : field_scope.
Infix "*" := (fmul K) : field_scope.
Infix "-" := (fsub K) : field_scope.
Notation "- x" := (fopp K x) : field_scope.

Local Abbreviation vec := (vec K).
Local Abbreviation tensor := (tensor K).
Local Abbreviation tensor3 := (tensor3 K).
Local Abbreviation talg := (talg K).

(** X16. [signature_backward] computes the gradient of [signature_forward].
    On an input that [signature_checkargs] lets through and the driver has
    a kernel for (on CUDA, or of type [Float] or [Double]), with [stream] or
    on a branch of the forward pass that does not combine chunks under
    [inverse], and for a gradient [grad] of the shape of the signature:
    given the signature and the increments that the forward pass returned,
    the backward pass returns a well-formed gradient on the path of the
    path's sizes, with a basepoint a well-formed (B, C) gradient on it
    (without one a tensor of sizes [0]) and with an initial value a
    well-formed (B, W) gradient on it.  Along every line
    [t -> (path + t dp, basepoint + t dbv, initial + t div)] the forward
    pass returns, and the sum over all entries of [grad] times the
    signature is a polynomial in [t] whose value at 0 is that sum for the
    signature given and whose coefficient of [t], its derivative at 0, is
    the pairing of the three returned gradients with [dp], [dbv] and
    [div]. *)
Theorem signature_backward_gradient (env : omp) (junk junk' : K)
        (path bv iv grad : Tensor K) (dp : tensor3) (dbv div : tensor) (depth : Z)
        (stream basepoint inverse initial : bool) (N B C : nat) :
  omp_ok env ->
  signature_checkargs path depth basepoint bv initial iv = None ->
  has_kernel path = true ->
  well_formed path = true ->
  (basepoint = true -> well_formed bv = true) ->
  (initial = true -> well_formed iv = true) ->
  sizes path = [N; B; C] ->
  shaped3 N B C dp ->
  (basepoint = true -> shaped B C dbv) ->
  (initial = true -> shaped B (signature_channels C depth) div) ->
  well_formed grad = true ->
  sizes grad = (if stream
                then [N - (if basepoint then 0 else 1); B; signature_channels C depth]
                else [B; signature_channels C depth]) ->
  stream = true \/ inverse = false \/ is_cuda path = true \/ get_max_parallelism env = 1 ->
  exists signature increments : Tensor K,
    signature_forward env junk path depth stream basepoint bv inverse initial iv
    = Ok (signature, increments) /\
    let res := signature_backward junk' grad signature increments depth stream basepoint
                                  inverse initial in
    let grad_path := fst (fst res) in
    let grad_basepoint := snd (fst res) in
    let grad_initial := snd res in
    well_formed grad_path = true /\ sizes grad_path = sizes path /\
    (if basepoint
     then sizes grad_basepoint = [B; C] /\ well_formed grad_basepoint = true
     else sizes grad_basepoint = [0]) /\
    (initial = true ->
     well_formed grad_initial = true /\
     sizes grad_initial = [B; signature_channels C depth]) /\
    (forall t, exists returned,
        signature_forward env junk (path_along path dp t) depth stream basepoint
                          (value_along bv dbv t) inverse initial (value_along iv div t)
        = Ok returned) /\
    expands (fun t => pair_forward
                        grad
                        (signature_forward env junk (path_along path dp t) depth stream
                                           basepoint (value_along bv dbv t) inverse initial
                                           (value_along iv div t)))
            (pair_signature grad signature)
            (tdot3 (as3 grad_path) dp
             + (if basepoint then tdot (as2 grad_basepoint) dbv else 0)
             + (if initial then tdot (as2 grad_initial) div else 0))%F.
Proof.
  intros Hok Hc Hk Hwp Hwb Hwi Hs Hdp Hdbv Hdiv Hwg Hsg Hser.
  destruct (valid_input_intro path bv iv depth basepoint initial Hc Hwp Hwb Hwi)
    as (N' & B' & C' & p & V).
  pose proof V as [Vs Vd Vp VS VB VD Vbv Viv].
  rewrite Hs in Vs. injection Vs as <- <- <-.
  destruct (checkargs_accepts path bv iv depth basepoint initial Hc)
    as (N' & B' & C' & Hs' & HN & HN2 & _ & HC & _ & Hf & Hbo & Hio).
  rewrite Hs in Hs'. injection Hs' as <- <- <-.
  set (D := Z.to_nat depth). set (r := @misc.make_reciprocals K D).
  set (S := N - (if basepoint then 0 else 1)) in *.
  set (W := signature_channels C depth) in *.
  assert (HD : 1 <= D) by (subst D; lia).
  assert (Lr : length r = D - 1) by apply make_reciprocals_length.
  assert (EW : W = span C C D) by (apply signature_channels_depth; exact VD).
  assert (Ep : as3 path = p) by (unfold as3; rewrite Vd; reflexivity).
  set (pi := signature_detail.compute_path_increments junk p basepoint (as2 bv) inverse).
  set (dpi := signature_detail.compute_path_increments junk dp basepoint dbv inverse).
  assert (Hpi : shaped3 S B C pi)
    by (apply (compute_path_increments_shaped N B C); assumption).
  assert (Hdpi : shaped3 S B C dpi)
    by (apply (compute_path_increments_shaped N B C); assumption).
  assert (Hiv : initial = true -> shaped B (span C C D) (as2 iv))
    by (intros E; apply (Viv E)).
  assert (Hdiv' : initial = true -> shaped B (span C C D) div)
    by (intros E; rewrite <- EW; auto).
  (* the forward pass on the input *)
  destruct (forward_sig_at env junk path bv iv depth stream basepoint inverse initial
                           N B C p Hok Hc V Hk Hser) as (sigT & E0 & Hsig & Hpair).
  fold D r pi S W in E0, Hsig, Hpair.
  (* the forward pass along the line *)
  assert (Vt : forall t, valid_input (path_along path dp t) (value_along bv dbv t)
                                     (value_along iv div t) depth basepoint initial N B C
                                     (line3 p dp t)).
  { intros t. constructor; auto.
    - unfold path_along. rewrite Ep. reflexivity.
    - apply shaped3_line3; assumption.
    - intros E. cbn. apply shaped_tadd; [|apply shaped_tscale]; auto.
    - intros E. destruct (Viv E) as (V1 & V2 & V3). cbn. split; [|split; assumption].
      apply shaped_tadd; [|apply shaped_tscale]; auto. }
  assert (Ct : forall t, signature_checkargs (path_along path dp t) depth basepoint
                                             (value_along bv dbv t) initial
                                             (value_along iv div t) = None).
  { intros t. apply (checkargs_complete _ _ _ _ _ _ N B C); auto. }
  assert (Et : forall t,
             exists sig_t : Tensor K,
               signature_forward env junk (path_along path dp t) depth stream basepoint
                                 (value_along bv dbv t) inverse initial (value_along iv div t)
               = Ok (sig_t, {| sizes := [S; B; C]; options := options path;
                               data := D3 (line3 pi dpi t) |}) /\
               pair_signature grad sig_t
               = if stream
                 then ksum (fun s => tdot (nth s (as3 grad) [])
                                          (misc.unslice
                                             (sig_at inverse initial r C D
                                                     (tadd (as2 iv) (tscale t div))
                                                     (line3 pi dpi t) s))) S
                 else tdot (as2 grad)
                           (misc.unslice
                              (sig_at inverse initial r C D (tadd (as2 iv) (tscale t div))
                                      (line3 pi dpi t) (S - 1)))).
  { intros t.
    destruct (forward_sig_at env junk (path_along path dp t) (value_along bv dbv t)
                             (value_along iv div t) depth stream basepoint inverse initial
                             N B C (line3 p dp t) Hok (Ct t) (Vt t) Hk Hser)
      as (sig_t & E1 & _ & P1).
    fold D r S W in E1, P1.
    change (as2 (value_along bv dbv t)) with (tadd (as2 bv) (tscale t dbv)) in E1, P1.
    change (as2 (value_along iv div t)) with (tadd (as2 iv) (tscale t div)) in P1.
    rewrite (increments_line N B C junk junk junk p dp (as2 bv) dbv basepoint inverse t)
      in E1, P1 by assumption.
    fold pi dpi in E1, P1.
    exists sig_t. split; [exact E1|]. apply P1; assumption. }
  assert (Hiv0 : initial = true -> shaped B W (as2 iv))
    by (intros E; rewrite EW; auto).
  exists sigT. eexists. split; [exact E0|].
  pose proof (signature_backward_pairing
                N B C depth junk' junk stream basepoint inverse initial grad sigT
                {| sizes := [S; B; C]; options := options path; data := D3 pi |}
                (as2 iv) div pi dp dbv VD VS eq_refl eq_refl Hpi Hdp Hdbv
                Hiv0 Hdiv Hwg Hsg Hsig) as Back.
  cbv zeta in Back. fold D r S W dpi in Back.
  destruct Back as (R1 & R2 & R3 & R4 & R5).
  cbv zeta. split; [exact R1|]. split; [rewrite Hs; exact R2|]. split; [exact R3|].
  split; [exact R4|]. split.
  { intros t. destruct (Et t) as (sig_t & E1 & _). eexists. exact E1. }
  rewrite R5, (Hpair grad Hwg Hsg).
  match goal with
  | |- expands _ ?a ?b =>
    apply (expands_ext
             (fun t => if stream
                       then ksum (fun s => tdot (nth s (as3 grad) [])
                                                (misc.unslice
                                                   (sig_at inverse initial r C D
                                                           (tadd (as2 iv) (tscale t div))
                                                           (line3 pi dpi t) s))) S
                       else tdot (as2 grad)
                                 (misc.unslice
                                    (sig_at inverse initial r C D
                                            (tadd (as2 iv) (tscale t div))
                                            (line3 pi dpi t) (S - 1)))))
  end.
  { intros t. destruct (Et t) as (sig_t & E1 & P1). rewrite E1. cbn [pair_forward].
    symmetry. exact P1. }
  destruct stream.
  - destruct (well_formed_data3 grad S B W Hwg Hsg) as (g & Eg & Sg).
    apply (expands_ksum
             (fun s t => tdot (nth s (as3 grad) [])
                              (misc.unslice (sig_at inverse initial r C D
                                                    (tadd (as2 iv) (tscale t div))
                                                    (line3 pi dpi t) s)))).
    intros s Hs0. apply (expands_pair_sig_at B C D S); auto.
    unfold as3. rewrite Eg, <- EW. apply (shaped3_nth S B W); assumption.
  - destruct (well_formed_data2 grad B W Hwg Hsg) as (g & Eg & Sg).
    apply (expands_pair_sig_at B C D S); auto; [|lia].
    unfold as2. rewrite Eg, <- EW. exact Sg.
Qed.

End SignatureGradient.

Section PartialProductValue.
Context {K : ExactField}.

Add Field KfieldU7 : (field_laws K).

Notation "0" := (fzero K) : field_scope.
Notation "1" := (fone K) : field_scope.
Infix "+" := (fadd K) : field_scope.
Infix "*" := (fmul K) : field_scope.
Infix "-" := (fsub K) : field_scope.
Notation "- x" := (fopp K x) : field_scope.

Local Abbreviation vec := (vec K).
Local Abbreviation tensor := (tensor K).
Local Abbreviation talg := (talg K).

(** X17. [mult_partial] computes the product of [scalar_term_value + arg1]
    with [arg2], whose scalar term is 0, below the terms it skips: on
    members of the tensor algebra of depth [D] the result is one as well,
    the [top_terms_to_skip] highest terms of [arg1] are left as they were,
    and every lower term [d] becomes the sum over j + k = d - 1 of
    [arg1[j] (x) arg2[k]] (old values) plus [scalar_term_value * arg2[d]],
    whatever [arg1[d]] held.  With scalar 1 and nothing skipped this is
    what [mult] adds to [arg1]. *)
Theorem mult_partial_value (B C D : nat) (a b : talg) (s : K) (top : nat) :
  graded B C D a -> graded B C D b ->
  let r := ta_ops_partial.mult_partial a b s top in
  graded B C D r /\
  (forall d, D - top <= d -> nth d r [] = nth d a []) /\
  (forall d, d < D - top ->
             nth d r [] = tadd (tsum (fun j => tmul_cr (nth j a []) (nth (d - 1 - j) b [])) d)
                               (tscale s (nth d b []))) /\
  (forall d, d < D ->
             nth d (ta_ops.mult a b) []
             = tadd (nth d a []) (nth d (ta_ops_partial.mult_partial a b 1%F 0) [])).
Proof.
  intros Ha Hb r. assert (La : length a = D) by apply Ha.
  split; [apply graded_mult_partial; assumption|]. split; [|split].
  - intros d Hd. subst r. rewrite mult_partial_nth, La.
    replace (d <? D - top) with false by (symmetry; apply Nat.ltb_ge; exact Hd). reflexivity.
  - intros d Hd. subst r. rewrite mult_partial_nth, La.
    replace (d <? D - top) with true by (symmetry; apply Nat.ltb_lt; exact Hd).
    apply (partial_term_value B C D); auto; lia.
  - intros d Hd. rewrite mult_nth by lia. rewrite mult_partial_nth, La, Nat.sub_0_r.
    replace (d <? D) with true by (symmetry; apply Nat.ltb_lt; exact Hd).
    rewrite (partial_term_value B C D) by assumption. unfold mult_term.
    rewrite tscale_one, !tadd_assoc. reflexivity.
Qed.

(** X18. [mult_partial_backward] computes the gradient of [mult_partial]
    in both arguments.  Given the [arg1] and [arg2] that [mult_partial] was
    called with and a gradient [G] on its result (passed in [grad_arg1]),
    it leaves in [grad_arg1] and [grad_arg2] members of the tensor algebra
    such that, for all directions [da] and [db], the pairing of [G] with
    [mult_partial (arg1 + t da) (arg2 + t db)] is a polynomial in [t] whose
    coefficient of [t] is the pairing of [grad_arg1] with [da] plus the
    pairing with [db] of what was added to [grad_arg2]. *)
Theorem mult_partial_backward_gradient (B C D top : nat) (s : K) (a b da db G gb0 : talg) :
  graded B C D a -> graded B C D b -> graded B C D da -> graded B C D db ->
  graded B C D G -> graded B C D gb0 ->
  let r := ta_ops_partial.mult_partial_backward G gb0 a b s top in
  graded B C D (fst r) /\ graded B C D (snd r) /\
  expands (fun t => adot G (ta_ops_partial.mult_partial (aline a da t) (aline b db t) s top))
          (adot G (ta_ops_partial.mult_partial a b s top))
          (adot (fst r) da + (adot (snd r) db - adot gb0 db))%F.
Proof.
  intros Ha Hb Hda Hdb HG Hgb r.
  destruct (mult_partial_backward_pairing B C D (D - top) s a b da db Ha Hb Hda Hdb
                                          ltac:(lia) top G gb0 eq_refl HG Hgb)
    as (R1 & R2 & P).
  fold r in R1, R2, P. split; [exact R1|]. split; [exact R2|].
  pose proof (aexp_adot B C D G _ _ _
                        (aexp_mult_partial B C D top s (aline a da) (aline b db) a da b db
                                           (aexp_aline B C D a da Ha Hda)
                                           (aexp_aline B C D b db Hb Hdb))) as E.
  eapply expands_eq; [reflexivity | | exact E].
  rewrite (adot_upto G _ D) by (left; destruct HG as [-> _]; lia).
  rewrite (ksum_ext _ (fun i => tdot (nth i G []) (partial_tangent a b da db s (D - top) i))).
  - match goal with
    | |- ?X = _ => transitivity ((X + adot gb0 db) - adot gb0 db)%F; [ring|]
    end.
    rewrite <- P. ring.
  - intros i Hi. rewrite (nth_map_seq _ [] 0) by exact Hi. reflexivity.
Qed.

End PartialProductValue.

Section LogarithmValue.
Context {K : ExactField}.
Add Field KfieldU8 : (field_laws K).

Notation "0" := (fzero K) : field_scope.
Notation "1" := (fone K) : field_scope.
Infix "+" := (fadd K) : field_scope.
Infix "*" := (fmul K) : field_scope.
Infix "-" := (fsub K) : field_scope.
Notation "- x" := (fopp K x) : field_scope.

Local Abbreviation vec := (vec K).
Local Abbreviation tensor := (tensor K).
Local Abbreviation talg := (talg K).

(** X19. [log] on an input of depth [D >= 2], whatever [misc::is_even]
    is: with at least [D - 1] reciprocals it returns a member of the tensor
    algebra that does not depend on what [output_vector] held (only on its
    shape) and whose first term is the first term of the input; with fewer
    reciprocals indexing them throws. *)
Theorem log_returns (is_even : Z -> bool) (B C D : nat) (x out out' : talg) (r : list K) :
  2 <= D -> graded B C D x -> graded B C D out -> graded B C D out' ->
  (D - 1 <= length r ->
   exists y, ta_ops_log.log is_even out x r = Some y /\
             ta_ops_log.log is_even out' x r = Some y /\
             graded B C D y /\ nth 0 y [] = nth 0 x []) /\
  (length r < D - 1 -> ta_ops_log.log is_even out x r = None).
Proof.
  intros HD Hx Ho Ho'. assert (Lx : length x = D) by apply Hx. split.
  - intros Hr. rewrite !log_value by lia. rewrite Lx.
    rewrite (log_agree is_even B C D r x HD Hx out' out Ho' Ho).
    set (h := horner is_even r D x out (D - 2)).
    assert (Hh : graded B C D h) by (apply (graded_horner is_even B C D); assumption).
    exists (ta_ops_partial.mult_partial h x 1%F 0).
    split; [reflexivity|]. split; [reflexivity|].
    split; [apply graded_mult_partial; assumption|].
    rewrite mult_partial_nth. destruct Hh as [Lh Sh]. rewrite Lh, Nat.sub_0_r.
    replace (0 <? D) with true by (symmetry; apply Nat.ltb_lt; lia).
    rewrite (partial_term_value B C D) by (auto; try lia; split; assumption).
    cbn [tsum]. rewrite tscale_one. reflexivity.
  - intros Hr. unfold ta_ops_log.log. cbv zeta. rewrite Lx.
    replace (Z.of_nat D - 2)%Z with (Z.of_nat (D - 2)) by lia.
    rewrite coefficient_none by lia. reflexivity.
Qed.

(** X20. [log_backward] computes the gradient of [log], whatever
    [misc::is_even] is: on an input of depth [D >= 2] with at least [D - 1]
    reciprocals it returns, both gradients are members of the tensor algebra,
    and what it has added to [grad_input_vector], paired with a direction
    [dx], is the derivative at 0 of the value of [log] along the line
    [x + t dx], paired with the incoming [grad_output_vector]. *)
Theorem log_backward_gradient (is_even : Z -> bool) (B C D : nat)
        (x dx out G gin : talg) (r : list K) :
  2 <= D -> D - 1 <= length r ->
  graded B C D x -> graded B C D dx -> graded B C D out ->
  graded B C D G -> graded B C D gin ->
  exists grad_output grad_input,
    ta_ops_log.log_backward is_even G gin x r = Some (grad_output, grad_input) /\
    graded B C D grad_output /\ graded B C D grad_input /\
    (forall t, exists y, ta_ops_log.log is_even out (aline x dx t) r = Some y) /\
    expands (fun t => pair_log G (ta_ops_log.log is_even out (aline x dx t) r))
            (pair_log G (ta_ops_log.log is_even out x r))
            (adot grad_input dx - adot gin dx)%F.
Proof.
  intros HD Hr Hx Hdx Ho HG Hgin. assert (Lx : length x = D) by apply Hx.
  pose proof (aexp_aline B C D x dx Hx Hdx) as Hl.
  assert (Ll : forall t, length (aline x dx t) = D) by apply Hl.
  assert (Gl : forall t, graded B C D (aline x dx t)).
  { intros t. split; [apply Ll|]. intros d Hd.
    destruct Hl as (_ & _ & _ & Hl). apply (Hl d Hd). }
  rewrite log_backward_value by lia. rewrite Lx.
  destruct (log_grads_pairing is_even B C D r x dx HD Hx Hdx G gin (D - 2) HG Hgin
                              (Nat.le_refl _)) as (G1 & G2 & P).
  set (g := log_grads is_even r D x G gin (D - 2)) in *.
  rewrite Nat.sub_diag in P.
  eexists; eexists. split; [reflexivity|]. split; [exact G1|]. split.
  { apply graded_upd; [exact G2|]. cbn [plus]. apply shaped_tadd; [apply G2; lia|].
    apply shaped_tscale. apply G1. lia. }
  split.
  { intros t. rewrite log_value by (rewrite Ll; lia). eexists. reflexivity. }
  rewrite log_value by lia. rewrite Lx. cbn [pair_log].
  rewrite (log_agree is_even B C D r x HD Hx out x Ho Hx).
  apply (expands_ext
           (fun t => adot G (ta_ops_partial.mult_partial
                               (horner is_even r D (aline x dx t) x (D - 2))
                               (aline x dx t) 1%F 0))).
  { intros t. rewrite log_value by (rewrite Ll; lia). rewrite Ll. cbn [pair_log].
    rewrite (log_agree is_even B C D r (aline x dx t) HD (Gl t) out x Ho Hx). reflexivity. }
  pose proof (aexp_adot B C D G _ _ _
                        (aexp_mult_partial B C D 0 1%F _ (aline x dx) _ _ x dx
                                           (aexp_horner is_even B C D r x dx HD Hx Hdx
                                                        x (D - 2) Hx) Hl)) as E.
  eapply expands_eq; [reflexivity | | exact E].
  rewrite Nat.sub_0_r. fold (log_tangent is_even r D x dx).
  rewrite (log_last_step is_even B C D r x dx HD Hx (fst g) (snd g) G1 G2).
  rewrite P. ring.
Qed.

End LogarithmValue.

Module MoreEvaluations.
Import Examples.

Lemma shaped_initial_buffer : shaped 1 (signature_channels 2 2) (as2 initial_tensor).
Proof. split; [reflexivity | repeat constructor]. Qed.

Lemma mult_monoid_witness :
  graded 1 2 2 (ta_ops.mult small_algebra small_algebra) /\
  ta_ops.mult (ta_ops.mult small_algebra small_algebra) small_algebra
  = ta_ops.mult small_algebra (ta_ops.mult small_algebra small_algebra) /\
  ta_ops.mult small_algebra (unit_algebra 1 2 2) = small_algebra /\
  ta_ops.mult (unit_algebra 1 2 2) small_algebra = small_algebra.
Proof.
  apply (mult_monoid 1 2 2 small_algebra small_algebra small_algebra);
    exact Evaluations.graded_small_algebra.
Defined.

Lemma restricted_exp_inverse_witness :
  let out : talg QcField := [[]; []] in
  let D := length out in
  let r := misc.make_reciprocals D in
  ta_ops.mult (ta_ops.restricted_exp small_increment out r)
              (ta_ops.restricted_exp (tneg small_increment) out r)
  = unit_algebra 1 2 D /\
  ta_ops.mult (ta_ops.restricted_exp (tneg small_increment) out r)
              (ta_ops.restricted_exp small_increment out r)
  = unit_algebra 1 2 D.
Proof.
  apply (restricted_exp_inverse 1 2 small_increment [[]; []] [[]; []]).
  - exact Evaluations.shaped_small_increment.
  - reflexivity.
Defined.

Lemma fused_kernel_is_product_witness :
  let r := @misc.make_reciprocals QcField 2 in
  ta_ops.mult_fused_restricted_exp small_increment small_algebra false r
  = ta_ops.mult small_algebra (ta_ops.restricted_exp small_increment [[]; []] r) /\
  ta_ops.mult_fused_restricted_exp small_increment small_algebra true r
  = ta_ops.mult (ta_ops.restricted_exp small_increment [[]; []] r) small_algebra.
Proof.
  apply (fused_kernel_is_product 1 2 2 small_increment small_algebra [[]; []]).
  - exact Evaluations.graded_small_algebra.
  - exact Evaluations.shaped_small_increment.
  - reflexivity.
  - reflexivity.
Defined.

Lemma slice_by_term_round_trip_witness :
  let buf := as2 initial_tensor in
  graded 1 2 2 (misc.slice_by_term buf 2 2) /\
  (forall i, i < 2 -> nth i (misc.slice_by_term buf 2 2) []
                      = map (narrow (signature_channels 2 (Z.of_nat i)) (2 ^ (i + 1))) buf) /\
  misc.unslice (misc.slice_by_term buf 2 2) = buf /\
  misc.slice_by_term (misc.unslice small_algebra) 2 2 = small_algebra.
Proof.
  apply (slice_by_term_round_trip 1 2 2 (as2 initial_tensor) small_algebra).
  - lia.
  - exact shaped_initial_buffer.
  - exact Evaluations.graded_small_algebra.
Defined.

Lemma combine_associative_witness :
  exists s12 s23 s : Tensor QcField,
    signature_combine_forward initial_tensor initial_tensor 2 2 = Ok s12 /\
    signature_combine_forward initial_tensor initial_tensor 2 2 = Ok s23 /\
    signature_combine_forward s12 initial_tensor 2 2 = Ok s /\
    signature_combine_forward initial_tensor s23 2 2 = Ok s.
Proof.
  apply (combine_associative 1 2 2 initial_tensor initial_tensor initial_tensor).
  - lia.
  - reflexivity.
  - reflexivity.
  - reflexivity.
  - reflexivity.
  - reflexivity.
  - reflexivity.
Defined.

Lemma basepoint_is_prepend_witness :
  exists out : Tensor QcField * Tensor QcField,
    signature_forward (two_threads 2) junk small_path 2 true true basepoint_tensor false true
                      initial_tensor = Ok out /\
    signature_forward (two_threads 1) (q 0) (prepend basepoint_tensor small_path) 2 true false
                      undefined false true initial_tensor = Ok out.
Proof.
  apply (basepoint_is_prepend (two_threads 2) (two_threads 1) junk (q 0) small_path
                              basepoint_tensor undefined initial_tensor 2 true false true).
  - apply Evaluations.omp_ok_two_threads. lia.
  - apply Evaluations.omp_ok_two_threads. lia.
  - left. reflexivity.
  - reflexivity.
  - reflexivity.
  - reflexivity.
  - reflexivity.
  - reflexivity.
Defined.

Lemma initial_value_is_combine_witness :
  exists s0 s : Tensor QcField,
    signature_of (signature_forward (two_threads 1) junk small_path 2 false true
                                    basepoint_tensor true false initial_tensor) = Ok s0 /\
    signature_of (signature_forward (two_threads 1) junk small_path 2 false true
                                    basepoint_tensor true true initial_tensor) = Ok s /\
    signature_combine_forward s0 initial_tensor (size small_path channel_dim) 2 = Ok s.
Proof.
  apply (initial_value_is_combine (two_threads 1) (two_threads 1) junk junk small_path
                                  basepoint_tensor initial_tensor 2 true true).
  - apply Evaluations.omp_ok_two_threads. lia.
  - apply Evaluations.omp_ok_two_threads. lia.
  - right. split; reflexivity.
  - reflexivity.
  - reflexivity.
  - reflexivity.
  - reflexivity.
  - reflexivity.
Defined.

Lemma combine_backward_gradient_witness :
  exists g1 g2 : Tensor QcField,
    signature_combine_backward initial_tensor initial_tensor initial_tensor 2 2
    = Some (g1, g2) /\
    well_formed g1 = true /\ sizes g1 = sizes initial_tensor /\
    well_formed g2 = true /\ sizes g2 = sizes initial_tensor /\
    (forall s1' : Tensor QcField,
        well_formed s1' = true -> sizes s1' = sizes initial_tensor ->
        exists r r' : Tensor QcField,
          signature_combine_forward initial_tensor initial_tensor 2 2 = Ok r /\
          signature_combine_forward s1' initial_tensor 2 2 = Ok r' /\
          tdot (as2 initial_tensor) (tsub (as2 r') (as2 r))
          = tdot (as2 g1) (tsub (as2 s1') (as2 initial_tensor))) /\
    (forall s2' : Tensor QcField,
        well_formed s2' = true -> sizes s2' = sizes initial_tensor ->
        exists r r' : Tensor QcField,
          signature_combine_forward initial_tensor initial_tensor 2 2 = Ok r /\
          signature_combine_forward initial_tensor s2' 2 2 = Ok r' /\
          tdot (as2 initial_tensor) (tsub (as2 r') (as2 r))
          = tdot (as2 g2) (tsub (as2 s2') (as2 initial_tensor))).
Proof.
  apply (combine_backward_gradient 1 2 2 initial_tensor initial_tensor initial_tensor).
  - lia.
  - reflexivity.
  - reflexivity.
  - reflexivity.
  - reflexivity.
  - reflexivity.
  - reflexivity.
Defined.

Lemma restricted_exp_backward_gradient_witness :
  let r := @misc.make_reciprocals QcField 2 in
  let out := ta_ops.restricted_exp small_increment [[]; []] r in
  let gin := fst (ta_ops_backward.restricted_exp_backward [] small_algebra small_increment
                                                          out r) in
  shaped 1 2 gin /\
  expands (fun t => adot small_algebra
                         (ta_ops.restricted_exp (tadd small_increment
                                                      (tscale t small_increment))
                                                [[]; []] r))
          (adot small_algebra out) (tdot gin small_increment).
Proof.
  apply (restricted_exp_backward_gradient 1 2 small_increment small_increment []
                                          [[]; []] small_algebra).
  - cbn. lia.
  - exact Evaluations.shaped_small_increment.
  - exact Evaluations.shaped_small_increment.
  - exact Evaluations.graded_small_algebra.
Defined.

Lemma fused_backward_gradient_witness :
  let r := @misc.make_reciprocals QcField 2 in
  let res := ta_ops_backward.mult_fused_restricted_exp_backward
               junk [] small_algebra small_increment small_algebra true r in
  shaped 1 2 (fst res) /\ graded 1 2 2 (snd res) /\
  expands (fun t => adot small_algebra
                         (ta_ops.mult_fused_restricted_exp
                            (tadd small_increment (tscale t small_increment))
                            (aline small_algebra small_algebra t) true r))
          (adot small_algebra
                (ta_ops.mult_fused_restricted_exp small_increment small_algebra true r))
          (fadd QcField (tdot (fst res) small_increment) (adot (snd res) small_algebra)).
Proof.
  apply (fused_backward_gradient 1 2 2 true small_increment small_increment []
                                 small_algebra small_algebra small_algebra).
  - lia.
  - exact Evaluations.shaped_small_increment.
  - exact Evaluations.shaped_small_increment.
  - exact Evaluations.graded_small_algebra.
  - exact Evaluations.graded_small_algebra.
  - exact Evaluations.graded_small_algebra.
  - reflexivity.
Defined.

Lemma increments_backward_adjoint_witness :
  let res := signature_detail_backward.compute_path_increments_backward
               junk small_path true true cpu_double in
  well_formed (fst res) = true /\ sizes (fst res) = [3; 1; 2] /\
  (sizes (snd res) = [1; 2] /\ well_formed (snd res) = true) /\
  tdot3 (as3 small_path)
        (signature_detail.compute_path_increments junk (as3 small_path) true small_increment
                                                  true)
  = fadd QcField (tdot3 (as3 (fst res)) (as3 small_path))
         (tdot (as2 (snd res)) small_increment).
Proof.
  apply (increments_backward_adjoint 3 1 2 junk junk small_path (as3 small_path)
                                     small_increment true true cpu_double).
  - cbn. lia.
  - reflexivity.
  - reflexivity.
  - split; [reflexivity | repeat constructor].
  - intros _. exact Evaluations.shaped_small_increment.
Defined.

Lemma signature_backward_gradient_witness :
  exists signature increments : Tensor QcField,
    signature_forward (two_threads 1) junk small_path 2 false true basepoint_tensor true true
                      initial_tensor
    = Ok (signature, increments) /\
    let res := signature_backward (q 0) initial_tensor signature increments 2 false true
                                  true true in
    let grad_path := fst (fst res) in
    let grad_basepoint := snd (fst res) in
    let grad_initial := snd res in
    well_formed grad_path = true /\ sizes grad_path = sizes small_path /\
    (sizes grad_basepoint = [1; 2] /\ well_formed grad_basepoint = true) /\
    (true = true ->
     well_formed grad_initial = true /\ sizes grad_initial = [1; signature_channels 2 2]) /\
    (forall t, exists returned,
        signature_forward (two_threads 1) junk (path_along small_path (as3 small_path) t) 2
                          false true (value_along basepoint_tensor small_increment t) true
                          true (value_along initial_tensor (as2 initial_tensor) t)
        = Ok returned) /\
    expands (fun t => pair_forward
                        initial_tensor
                        (signature_forward (two_threads 1) junk
                                           (path_along small_path (as3 small_path) t) 2
                                           false true
                                           (value_along basepoint_tensor small_increment t)
                                           true true
                                           (value_along initial_tensor (as2 initial_tensor) t)))
            (pair_signature initial_tensor signature)
            (fadd QcField
                  (fadd QcField (tdot3 (as3 grad_path) (as3 small_path))
                        (tdot (as2 grad_basepoint) small_increment))
                  (tdot (as2 grad_initial) (as2 initial_tensor))).
Proof.
  apply (signature_backward_gradient (two_threads 1) junk (q 0) small_path basepoint_tensor
                                     initial_tensor initial_tensor (as3 small_path)
                                     small_increment (as2 initial_tensor) 2 false true true
                                     true 3 1 2).
  - apply Evaluations.omp_ok_two_threads. lia.
  - reflexivity.
  - reflexivity.
  - reflexivity.
  - reflexivity.
  - reflexivity.
  - reflexivity.
  - split; [reflexivity | repeat constructor].
  - intros _. exact Evaluations.shaped_small_increment.
  - intros _. exact shaped_initial_buffer.
  - reflexivity.
  - reflexivity.
  - right. right. right. reflexivity.
Defined.

Lemma mult_partial_value_witness :
  let r := ta_ops_partial.mult_partial small_algebra small_algebra (q 3) 1 in
  graded 1 2 2 r /\
  (forall d, 2 - 1 <= d -> nth d r [] = nth d small_algebra []) /\
  (forall d, d < 2 - 1 ->
             nth d r []
             = tadd (tsum (fun j => tmul_cr (nth j small_algebra [])
                                            (nth (d - 1 - j) small_algebra [])) d)
                    (tscale (q 3) (nth d small_algebra []))) /\
  (forall d, d < 2 ->
             nth d (ta_ops.mult small_algebra small_algebra) []
             = tadd (nth d small_algebra [])
                    (nth d (ta_ops_partial.mult_partial small_algebra small_algebra
                                                        (fone QcField) 0) [])).
Proof.
  apply (mult_partial_value 1 2 2 small_algebra small_algebra (q 3) 1);
    exact Evaluations.graded_small_algebra.
Defined.

Lemma mult_partial_backward_gradient_witness :
  let r := ta_ops_partial.mult_partial_backward small_algebra small_algebra small_algebra
                                                small_algebra (q 3) 0 in
  graded 1 2 2 (fst r) /\ graded 1 2 2 (snd r) /\
  expands (fun t => adot small_algebra
                         (ta_ops_partial.mult_partial (aline small_algebra small_algebra t)
                                                      (aline small_algebra small_algebra t)
                                                      (q 3) 0))
          (adot small_algebra
                (ta_ops_partial.mult_partial small_algebra small_algebra (q 3) 0))
          (fadd QcField (adot (fst r) small_algebra)
                (fsub QcField (adot (snd r) small_algebra)
                      (adot small_algebra small_algebra))).
Proof.
  apply (mult_partial_backward_gradient 1 2 2 0 (q 3) small_algebra small_algebra
                                        small_algebra small_algebra small_algebra
                                        small_algebra);
    exact Evaluations.graded_small_algebra.
Defined.

Lemma log_returns_witness :
  let r := @misc.make_reciprocals QcField 2 in
  (2 - 1 <= length r ->
   exists y, ta_ops_log.log Z.even small_algebra small_algebra r = Some y /\
             ta_ops_log.log Z.even (unit_algebra 1 2 2) small_algebra r = Some y /\
             graded 1 2 2 y /\ nth 0 y [] = nth 0 small_algebra []) /\
  (length r < 2 - 1 -> ta_ops_log.log Z.even small_algebra small_algebra r = None).
Proof.
  apply (log_returns Z.even 1 2 2 small_algebra small_algebra (unit_algebra 1 2 2)
                     (misc.make_reciprocals 2)).
  - lia.
  - exact Evaluations.graded_small_algebra.
  - exact Evaluations.graded_small_algebra.
  - split; [reflexivity|]. intros [|[|i]] Hi; [split; [reflexivity | repeat constructor] ..|lia].
Defined.

Lemma log_backward_gradient_witness :
  let r := @misc.make_reciprocals QcField 2 in
  exists grad_output grad_input,
    ta_ops_log.log_backward Z.even small_algebra small_algebra small_algebra r
    = Some (grad_output, grad_input) /\
    graded 1 2 2 grad_output /\ graded 1 2 2 grad_input /\
    (forall t, exists y,
        ta_ops_log.log Z.even small_algebra (aline small_algebra small_algebra t) r = Some y) /\
    expands (fun t => pair_log small_algebra
                               (ta_ops_log.log Z.even small_algebra
                                               (aline small_algebra small_algebra t) r))
            (pair_log small_algebra (ta_ops_log.log Z.even small_algebra small_algebra r))
            (fsub QcField (adot grad_input small_algebra) (adot small_algebra small_algebra)).
Proof.
  apply (log_backward_gradient Z.even 1 2 2 small_algebra small_algebra small_algebra
                               small_algebra small_algebra (misc.make_reciprocals 2)).
  - lia.
  - cbn. lia.
  - exact Evaluations.graded_small_algebra.
  - exact Evaluations.graded_small_algebra.
  - exact Evaluations.graded_small_algebra.
  - exact Evaluations.graded_small_algebra.
  - exact Evaluations.graded_small_algebra.
Defined.

Lemma forward_dispatch_witness :
  signature_forward (two_threads 2) junk half_path 2 false false undefined false false
                    undefined
  = Error (not_implemented_for Half).
Proof.
  apply (forward_dispatch (two_threads 2) junk half_path undefined undefined 2 false false
                          false false).
  - apply Evaluations.omp_ok_two_threads. lia.
  - reflexivity.
Defined.

End MoreEvaluations.
